(** * minicdcl: a shallow embedding of the CDCL core (core/Solver.cc, core/Solver.h,
      mtl/Vec.h) and the properties of its specification. *)

From Stdlib Require Import ZArith List Bool Lia Arith Permutation Sorted QArith.
Import ListNotations.

Set Implicit Arguments.
Local Open Scope Z_scope.

(** ** Results of fallible code

    A C++ run either returns, or it stops: an [assert] fails, a vector is read
    outside its bounds, the arena cannot grow, or a division by zero is
    evaluated.  Loops without an evident bound take fuel. *)

Inductive error : Type :=
| OutOfFuel
| AssertionFailed
| OutOfBounds
| DivisionByZero
| OutOfMemory.

Inductive res (A : Type) : Type :=
| Ok (a : A)
| Err (e : error).

Arguments Ok {A} a.
Arguments Err {A} e.

Definition bind {A B : Type} (m : res A) (k : A -> res B) : res B :=
  match m with
  | Ok a => k a
  | Err e => Err e
  end.

Notation "x <- m ;; k" := (bind m (fun x => k))
  (at level 61, m at next level, right associativity).
Notation "' p <- m ;; k" := (bind m (fun x => let p := x in k))
  (at level 61, p pattern, m at next level, right associativity).

Definition assert (b : bool) : res unit :=
  if b then Ok tt else Err AssertionFailed.

(** ** mtl/Vec.h: the operations of [vec<T>] that the core uses *)

Module Vec.

Definition get {A} (v : list A) (i : nat) : res A :=
  match nth_error v i with
  | Some a => Ok a
  | None => Err OutOfBounds
  end.

Fixpoint upd {A} (v : list A) (i : nat) (a : A) : list A :=
  match v, i with
  | [], _ => []
  | _ :: t, O => a :: t
  | h :: t, S j => h :: upd t j a
  end.

Definition set {A} (v : list A) (i : nat) (a : A) : res (list A) :=
  if (i <? length v)%nat then Ok (upd v i a) else Err OutOfBounds.

(** [shrink(nelems)]: [assert(nelems <= sz)], then [nelems] times [sz--]; a
    negative [nelems] passes the assertion and removes nothing. *)
Definition shrink {A} (v : list A) (nelems : Z) : res (list A) :=
  _ <- assert (nelems <=? Z.of_nat (length v)) ;;
  Ok (firstn (length v - Z.to_nat nelems) v).

Definition push {A} (v : list A) (a : A) : list A := v ++ [a].

(** [growTo(size, pad)] *)
Definition growTo {A} (v : list A) (size : nat) (pad : A) : list A :=
  v ++ repeat pad (size - length v).

(** [capacity(min_cap)]: the new capacity, as computed by the source. *)
Definition imax (x y : Z) : Z :=
  let mask := Z.shiftr (y - x) 31 in
  Z.land x mask + Z.land y (Z.lnot mask).

Definition capacity (cap : nat) (min_cap : nat) : nat :=
  if (min_cap <=? cap)%nat then cap
  else
    let c := Z.of_nat cap in
    let add := imax (Z.land (Z.of_nat min_cap - c + 1) (Z.lnot 1))
                    (Z.land (Z.shiftr c 1 + 2) (Z.lnot 1)) in
    Z.to_nat (c + add).

End Vec.

(** ** Literals and three-valued logic

    Modelled from the spec: core/SolverTypes.h is not among the sources.  A literal is
    densely numbered [2*v + s]; its negation is [l xor 1]; the value of a
    literal is the value of its variable xor its sign. *)

Definition Var := nat.
Definition Lit := Z.
Definition CRef := Z.

Definition CRef_Undef : CRef := 2 ^ 32 - 1.
Definition lit_Undef : Lit := -2.

Definition mkLit (v : Var) (sign : bool) : Lit :=
  2 * Z.of_nat v + (if sign then 1 else 0).
Definition sign (p : Lit) : bool := Z.testbit p 0.
Definition var (p : Lit) : Var := Z.to_nat (Z.shiftr p 1).
Definition neg (p : Lit) : Lit := Z.lxor p 1.

(** A vector indexed by [var(p)] or by [toInt(p)]: the index of a negative
    code lies outside every vector. *)
Definition varI (p : Lit) : res Var :=
  if p <? 0 then Err OutOfBounds else Ok (var p).
Definition toInt (p : Lit) : res nat :=
  if p <? 0 then Err OutOfBounds else Ok (Z.to_nat p).

Inductive lbool : Type := l_True | l_False | l_Undef.

Definition lbool_of_bool (b : bool) : lbool := if b then l_True else l_False.

Definition lbool_xor (a : lbool) (b : bool) : lbool :=
  match a with
  | l_True => if b then l_False else l_True
  | l_False => if b then l_True else l_False
  | l_Undef => l_Undef
  end.

Definition lbool_eqb (a b : lbool) : bool :=
  match a, b with
  | l_True, l_True | l_False, l_False | l_Undef, l_Undef => true
  | _, _ => false
  end.

(** ** Floating point

    The source computes activities, averages and the garbage fraction with
    [double].  Their arithmetic is a parameter of the development: every
    theorem below holds for each implementation of these operations. *)

Class FloatOps (D : Type) : Type := {
  d_of_Q : Q -> D;            (* a literal constant, or the conversion of an integer *)
  d_add : D -> D -> D;
  d_mul : D -> D -> D;
  d_div : D -> D -> D;
  d_ltb : D -> D -> bool      (* [d_ltb a b] is the test [a < b] *)
}.

Definition d_of_Z {D} `{FloatOps D} (z : Z) : D := d_of_Q (inject_Z z).

(** Exact rational arithmetic, used to run the model on concrete formulas. *)
#[export] Instance Q_FloatOps : FloatOps Q := {
  d_of_Q := fun q => q;
  d_add := Qplus;
  d_mul := Qmult;
  d_div := Qdiv;
  d_ltb := fun a b => match Qcompare a b with Lt => true | _ => false end
}.

(** ** Machine integers *)

Definition incr64 (x : Z) : Z := (x + 1) mod 2 ^ 64.
Definition add64 (x y : Z) : Z := (x + y) mod 2 ^ 64.
Definition incr32 (x : Z) : Z := (x + 1) mod 2 ^ 32.
(** The value of a 64-bit pattern read as [int64_t]. *)
Definition to_int64 (x : Z) : Z :=
  let u := x mod 2 ^ 64 in if u <? 2 ^ 63 then u else u - 2 ^ 64.
Definition to_uint64 (x : Z) : Z := x mod 2 ^ 64.

(** ** The order heap

    Modelled from the spec: mtl/Heap.h is not among the sources.  The heap is a
    max-heap of variables keyed by activity with insert, remove-min (the
    top under the comparator), decrease-key, membership and emptiness.  The
    model keeps the elements in a list and selects the top on removal. *)

Definition Heap := list Var.

Definition heap_inHeap (h : Heap) (x : Var) : bool := existsb (Nat.eqb x) h.
Definition heap_insert (h : Heap) (x : Var) : Heap := h ++ [x].
Definition heap_empty (h : Heap) : bool := match h with [] => true | _ => false end.
Definition heap_decrease (h : Heap) (x : Var) : Heap := h.

Fixpoint heap_top (lt : Var -> Var -> bool) (best : Var) (h : list Var) : Var :=
  match h with
  | [] => best
  | x :: t => heap_top lt (if lt x best then x else best) t
  end.

Fixpoint heap_remove (x : Var) (h : list Var) : list Var :=
  match h with
  | [] => []
  | y :: t => if Nat.eqb x y then t else y :: heap_remove x t
  end.

Definition heap_removeMin (lt : Var -> Var -> bool) (h : Heap) : res (Var * Heap) :=
  match h with
  | [] => Err OutOfBounds
  | x :: t => let m := heap_top lt x t in Ok (m, heap_remove m h)
  end.

(** ** Bounded queues

    Modelled from the spec: the bounded moving-average queue of [lbdQueue] and
    [trailQueue] is not among the sources.  It is a ring of fixed capacity
    with push, a running sum for the average, and [fastclear], which resets
    the logical size to 0; the queue is valid when it is full. *)

Record bqueue : Type := mkBqueue {
  bq_elems : list Z;
  bq_maxsize : nat;
  bq_sum : Z
}.

Definition bq_initSize (n : nat) : bqueue := mkBqueue [] n 0.

Definition bq_push (q : bqueue) (x : Z) : bqueue :=
  if (length (bq_elems q) =? bq_maxsize q)%nat then
    match bq_elems q with
    | [] => q
    | old :: t => mkBqueue (t ++ [x]) (bq_maxsize q) (bq_sum q - old + x)
    end
  else mkBqueue (bq_elems q ++ [x]) (bq_maxsize q) (bq_sum q + x).

Definition bq_isvalid (q : bqueue) : bool :=
  (length (bq_elems q) =? bq_maxsize q)%nat.

Definition bq_fastclear (q : bqueue) : bqueue := mkBqueue [] (bq_maxsize q) 0.

Definition bq_getavg {D} `{FloatOps D} (q : bqueue) : D :=
  d_div (d_of_Z (bq_sum q)) (d_of_Z (Z.of_nat (length (bq_elems q)))).

(** ** Watchers (core/Solver.h) *)

Record Watcher : Type := mkWatcher {
  cref : CRef;
  blocker : Lit
}.

Record VarData : Type := mkVarData {
  vd_reason : CRef;
  vd_level : nat
}.

(** Sorting.  Modelled from the spec: mtl/Sort.h is not among the sources; [sort]
    orders a vector by a strict order and is stable. *)

Fixpoint insert_by {A} (lt : A -> A -> bool) (x : A) (l : list A) : list A :=
  match l with
  | [] => [x]
  | y :: t => if lt y x then y :: insert_by lt x t else x :: y :: t
  end.

Definition sort_by {A} (lt : A -> A -> bool) (l : list A) : list A :=
  fold_right (insert_by lt) [] l.

Definition sort (ps : list Lit) : list Lit := sort_by Z.ltb ps.

Section WithFloat.

Context {D : Type} {FO : FloatOps D}.

(** ** Clauses and the clause arena

    Modelled from the spec: core/SolverTypes.h is not among the sources.  A clause
    has its literals, a learnt flag, a deletion mark, a relocated flag and,
    when learnt, an activity and an LBD.  The arena is bump-allocated in
    32-bit units: a clause takes a header, its literals and, when learnt,
    two more units; a [CRef] is the offset of the clause. *)

Record Clause : Type := mkClause {
  cl_lits : list Lit;
  cl_learnt : bool;
  cl_mark : Z;
  cl_reloced : bool;
  cl_activity : D;
  cl_lbd : Z
}.

Definition set_cl_lits (c : Clause) (l : list Lit) : Clause :=
  mkClause l (cl_learnt c) (cl_mark c) (cl_reloced c) (cl_activity c) (cl_lbd c).
Definition set_cl_mark (c : Clause) (m : Z) : Clause :=
  mkClause (cl_lits c) (cl_learnt c) m (cl_reloced c) (cl_activity c) (cl_lbd c).
Definition set_cl_reloced (c : Clause) (r : bool) : Clause :=
  mkClause (cl_lits c) (cl_learnt c) (cl_mark c) r (cl_activity c) (cl_lbd c).
Definition set_cl_activity (c : Clause) (a : D) : Clause :=
  mkClause (cl_lits c) (cl_learnt c) (cl_mark c) (cl_reloced c) a (cl_lbd c).
Definition set_cl_lbd (c : Clause) (n : Z) : Clause :=
  mkClause (cl_lits c) (cl_learnt c) (cl_mark c) (cl_reloced c) (cl_activity c) n.

Record ClauseAllocator : Type := mkCA {
  ca_mem : CRef -> option Clause;
  ca_size : Z;
  ca_wasted : Z
}.

Definition clauseWord32Size (size : nat) (has_extra : bool) : Z :=
  1 + Z.of_nat size + (if has_extra then 2 else 0).

Definition ca_empty : ClauseAllocator := mkCA (fun _ => None) 0 0.

Definition ca_get (a : ClauseAllocator) (cr : CRef) : res Clause :=
  match ca_mem a cr with
  | Some c => Ok c
  | None => Err OutOfBounds
  end.

Definition ca_put (a : ClauseAllocator) (cr : CRef) (c : Clause) : ClauseAllocator :=
  mkCA (fun x => if x =? cr then Some c else ca_mem a x) (ca_size a) (ca_wasted a).

Definition ca_alloc (a : ClauseAllocator) (ps : list Lit) (learnt : bool)
  : res (CRef * ClauseAllocator) :=
  let cr := ca_size a in
  let sz := cr + clauseWord32Size (length ps) learnt in
  if sz <? CRef_Undef then
    Ok (cr, mkCA (fun x => if x =? cr
                           then Some (mkClause ps learnt 0 false (d_of_Z 0) 0)
                           else ca_mem a x) sz (ca_wasted a))
  else Err OutOfMemory.

Definition ca_free (a : ClauseAllocator) (cr : CRef) : res ClauseAllocator :=
  c <- ca_get a cr ;;
  Ok (mkCA (ca_mem a) (ca_size a)
           (ca_wasted a + clauseWord32Size (length (cl_lits c)) (cl_learnt c))).

(** [reloc(cr, to)]: a relocated clause forwards; another one is copied to
    [to], and the original gets the forwarding address in its first literal
    slot and the relocated flag. *)
Definition ca_reloc (from : ClauseAllocator) (cr : CRef) (to : ClauseAllocator)
  : res (CRef * ClauseAllocator * ClauseAllocator) :=
  c <- ca_get from cr ;;
  if cl_reloced c then
    fw <- Vec.get (cl_lits c) 0 ;;
    Ok (fw, from, to)
  else
    '(cr', to1) <- ca_alloc to (cl_lits c) (cl_learnt c) ;;
    let to2 := ca_put to1 cr' (set_cl_reloced c false) in
    l <- Vec.set (cl_lits c) 0 cr' ;;
    Ok (cr', ca_put from cr (set_cl_reloced (set_cl_lits c l) true), to2).

(** Watch lists, indexed by [toInt(lit)].  Modelled from the spec: [OccLists] is
    declared in core/SolverTypes.h; [cleanAll] sweeps the entries whose
    clause bears the deletion mark ([WatcherDeleted], core/Solver.h). *)

Definition OccLists := list (list Watcher).

Definition occ_init (ws : OccLists) (p : Lit) : OccLists :=
  Vec.growTo ws (S (Z.to_nat p)) [].

Definition occ_get (ws : OccLists) (p : Lit) : res (list Watcher) :=
  i <- toInt p ;; Vec.get ws i.

Definition occ_set (ws : OccLists) (p : Lit) (l : list Watcher) : res OccLists :=
  i <- toInt p ;; Vec.set ws i l.

Definition occ_push (ws : OccLists) (p : Lit) (w : Watcher) : res OccLists :=
  l <- occ_get ws p ;; occ_set ws p (l ++ [w]).

Definition occ_smudge (ws : OccLists) (p : Lit) : res OccLists :=
  _ <- occ_get ws p ;; Ok ws.

Definition WatcherDeleted (a : ClauseAllocator) (w : Watcher) : bool :=
  match ca_mem a (cref w) with
  | Some c => cl_mark c =? 1
  | None => false
  end.

Definition occ_cleanAll (a : ClauseAllocator) (ws : OccLists) : OccLists :=
  map (filter (fun w => negb (WatcherDeleted a w))) ws.

(** ** The solver state (core/Solver.h) *)

Record Solver : Type := mkSolver {
  model : list lbool;
  var_decay : D;
  clause_decay : D;
  luby_restart : bool;
  nextReduceDB : Z;
  garbage_frac : D;
  starts : Z;
  decisions : Z;
  propagations : Z;
  conflicts : Z;
  nb_removed_clauses : Z;
  nb_reducedb : Z;
  nb_resolutions : Z;
  nb_lits_in_learnts : Z;
  ok : bool;
  clauses : list CRef;
  learnts : list CRef;
  cla_inc : D;
  activity : list D;
  var_inc : D;
  watches : OccLists;
  assigns : list lbool;
  polarity : list bool;
  trail : list Lit;
  trail_cap : nat;
  trail_lim : list nat;
  vardata : list VarData;
  qhead : nat;
  order_heap : Heap;
  ca : ClauseAllocator;
  seen : list bool;
  levelTagged : list Z;
  FLAG : Z;
  conflict_budget : Z;
  propagation_budget : Z;
  asynch_interrupt : bool;
  lbdQueue : bqueue;
  trailQueue : bqueue;
  sumLBD : D
}.

Definition set_model (s : Solver) (x : list lbool) : Solver :=
  {| model := x; var_decay := var_decay s; clause_decay := clause_decay s;
     luby_restart := luby_restart s; nextReduceDB := nextReduceDB s;
     garbage_frac := garbage_frac s; starts := starts s; decisions := decisions s;
     propagations := propagations s; conflicts := conflicts s;
     nb_removed_clauses := nb_removed_clauses s; nb_reducedb := nb_reducedb s;
     nb_resolutions := nb_resolutions s; nb_lits_in_learnts := nb_lits_in_learnts s; ok := ok s;
     clauses := clauses s; learnts := learnts s; cla_inc := cla_inc s; activity := activity s;
     var_inc := var_inc s; watches := watches s; assigns := assigns s; polarity := polarity s;
     trail := trail s; trail_cap := trail_cap s; trail_lim := trail_lim s; vardata := vardata s;
     qhead := qhead s; order_heap := order_heap s; ca := ca s; seen := seen s;
     levelTagged := levelTagged s; FLAG := FLAG s; conflict_budget := conflict_budget s;
     propagation_budget := propagation_budget s; asynch_interrupt := asynch_interrupt s;
     lbdQueue := lbdQueue s; trailQueue := trailQueue s; sumLBD := sumLBD s |}.

Definition set_nextReduceDB (s : Solver) (x : Z) : Solver :=
  {| model := model s; var_decay := var_decay s; clause_decay := clause_decay s;
     luby_restart := luby_restart s; nextReduceDB := x; garbage_frac := garbage_frac s;
     starts := starts s; decisions := decisions s; propagations := propagations s;
     conflicts := conflicts s; nb_removed_clauses := nb_removed_clauses s;
     nb_reducedb := nb_reducedb s; nb_resolutions := nb_resolutions s;
     nb_lits_in_learnts := nb_lits_in_learnts s; ok := ok s; clauses := clauses s;
     learnts := learnts s; cla_inc := cla_inc s; activity := activity s; var_inc := var_inc s;
     watches := watches s; assigns := assigns s; polarity := polarity s; trail := trail s;
     trail_cap := trail_cap s; trail_lim := trail_lim s; vardata := vardata s; qhead := qhead s;
     order_heap := order_heap s; ca := ca s; seen := seen s; levelTagged := levelTagged s;
     FLAG := FLAG s; conflict_budget := conflict_budget s;
     propagation_budget := propagation_budget s; asynch_interrupt := asynch_interrupt s;
     lbdQueue := lbdQueue s; trailQueue := trailQueue s; sumLBD := sumLBD s |}.

Definition set_starts (s : Solver) (x : Z) : Solver :=
  {| model := model s; var_decay := var_decay s; clause_decay := clause_decay s;
     luby_restart := luby_restart s; nextReduceDB := nextReduceDB s;
     garbage_frac := garbage_frac s; starts := x; decisions := decisions s;
     propagations := propagations s; conflicts := conflicts s;
     nb_removed_clauses := nb_removed_clauses s; nb_reducedb := nb_reducedb s;
     nb_resolutions := nb_resolutions s; nb_lits_in_learnts := nb_lits_in_learnts s; ok := ok s;
     clauses := clauses s; learnts := learnts s; cla_inc := cla_inc s; activity := activity s;
     var_inc := var_inc s; watches := watches s; assigns := assigns s; polarity := polarity s;
     trail := trail s; trail_cap := trail_cap s; trail_lim := trail_lim s; vardata := vardata s;
     qhead := qhead s; order_heap := order_heap s; ca := ca s; seen := seen s;
     levelTagged := levelTagged s; FLAG := FLAG s; conflict_budget := conflict_budget s;
     propagation_budget := propagation_budget s; asynch_interrupt := asynch_interrupt s;
     lbdQueue := lbdQueue s; trailQueue := trailQueue s; sumLBD := sumLBD s |}.

Definition set_decisions (s : Solver) (x : Z) : Solver :=
  {| model := model s; var_decay := var_decay s; clause_decay := clause_decay s;
     luby_restart := luby_restart s; nextReduceDB := nextReduceDB s;
     garbage_frac := garbage_frac s; starts := starts s; decisions := x;
     propagations := propagations s; conflicts := conflicts s;
     nb_removed_clauses := nb_removed_clauses s; nb_reducedb := nb_reducedb s;
     nb_resolutions := nb_resolutions s; nb_lits_in_learnts := nb_lits_in_learnts s; ok := ok s;
     clauses := clauses s; learnts := learnts s; cla_inc := cla_inc s; activity := activity s;
     var_inc := var_inc s; watches := watches s; assigns := assigns s; polarity := polarity s;
     trail := trail s; trail_cap := trail_cap s; trail_lim := trail_lim s; vardata := vardata s;
     qhead := qhead s; order_heap := order_heap s; ca := ca s; seen := seen s;
     levelTagged := levelTagged s; FLAG := FLAG s; conflict_budget := conflict_budget s;
     propagation_budget := propagation_budget s; asynch_interrupt := asynch_interrupt s;
     lbdQueue := lbdQueue s; trailQueue := trailQueue s; sumLBD := sumLBD s |}.

Definition set_propagations (s : Solver) (x : Z) : Solver :=
  {| model := model s; var_decay := var_decay s; clause_decay := clause_decay s;
     luby_restart := luby_restart s; nextReduceDB := nextReduceDB s;
     garbage_frac := garbage_frac s; starts := starts s; decisions := decisions s;
     propagations := x; conflicts := conflicts s; nb_removed_clauses := nb_removed_clauses s;
     nb_reducedb := nb_reducedb s; nb_resolutions := nb_resolutions s;
     nb_lits_in_learnts := nb_lits_in_learnts s; ok := ok s; clauses := clauses s;
     learnts := learnts s; cla_inc := cla_inc s; activity := activity s; var_inc := var_inc s;
     watches := watches s; assigns := assigns s; polarity := polarity s; trail := trail s;
     trail_cap := trail_cap s; trail_lim := trail_lim s; vardata := vardata s; qhead := qhead s;
     order_heap := order_heap s; ca := ca s; seen := seen s; levelTagged := levelTagged s;
     FLAG := FLAG s; conflict_budget := conflict_budget s;
     propagation_budget := propagation_budget s; asynch_interrupt := asynch_interrupt s;
     lbdQueue := lbdQueue s; trailQueue := trailQueue s; sumLBD := sumLBD s |}.

Definition set_conflicts (s : Solver) (x : Z) : Solver :=
  {| model := model s; var_decay := var_decay s; clause_decay := clause_decay s;
     luby_restart := luby_restart s; nextReduceDB := nextReduceDB s;
     garbage_frac := garbage_frac s; starts := starts s; decisions := decisions s;
     propagations := propagations s; conflicts := x; nb_removed_clauses := nb_removed_clauses s;
     nb_reducedb := nb_reducedb s; nb_resolutions := nb_resolutions s;
     nb_lits_in_learnts := nb_lits_in_learnts s; ok := ok s; clauses := clauses s;
     learnts := learnts s; cla_inc := cla_inc s; activity := activity s; var_inc := var_inc s;
     watches := watches s; assigns := assigns s; polarity := polarity s; trail := trail s;
     trail_cap := trail_cap s; trail_lim := trail_lim s; vardata := vardata s; qhead := qhead s;
     order_heap := order_heap s; ca := ca s; seen := seen s; levelTagged := levelTagged s;
     FLAG := FLAG s; conflict_budget := conflict_budget s;
     propagation_budget := propagation_budget s; asynch_interrupt := asynch_interrupt s;
     lbdQueue := lbdQueue s; trailQueue := trailQueue s; sumLBD := sumLBD s |}.

Definition set_nb_removed_clauses (s : Solver) (x : Z) : Solver :=
  {| model := model s; var_decay := var_decay s; clause_decay := clause_decay s;
     luby_restart := luby_restart s; nextReduceDB := nextReduceDB s;
     garbage_frac := garbage_frac s; starts := starts s; decisions := decisions s;
     propagations := propagations s; conflicts := conflicts s; nb_removed_clauses := x;
     nb_reducedb := nb_reducedb s; nb_resolutions := nb_resolutions s;
     nb_lits_in_learnts := nb_lits_in_learnts s; ok := ok s; clauses := clauses s;
     learnts := learnts s; cla_inc := cla_inc s; activity := activity s; var_inc := var_inc s;
     watches := watches s; assigns := assigns s; polarity := polarity s; trail := trail s;
     trail_cap := trail_cap s; trail_lim := trail_lim s; vardata := vardata s; qhead := qhead s;
     order_heap := order_heap s; ca := ca s; seen := seen s; levelTagged := levelTagged s;
     FLAG := FLAG s; conflict_budget := conflict_budget s;
     propagation_budget := propagation_budget s; asynch_interrupt := asynch_interrupt s;
     lbdQueue := lbdQueue s; trailQueue := trailQueue s; sumLBD := sumLBD s |}.

Definition set_nb_reducedb (s : Solver) (x : Z) : Solver :=
  {| model := model s; var_decay := var_decay s; clause_decay := clause_decay s;
     luby_restart := luby_restart s; nextReduceDB := nextReduceDB s;
     garbage_frac := garbage_frac s; starts := starts s; decisions := decisions s;
     propagations := propagations s; conflicts := conflicts s;
     nb_removed_clauses := nb_removed_clauses s; nb_reducedb := x;
     nb_resolutions := nb_resolutions s; nb_lits_in_learnts := nb_lits_in_learnts s; ok := ok s;
     clauses := clauses s; learnts := learnts s; cla_inc := cla_inc s; activity := activity s;
     var_inc := var_inc s; watches := watches s; assigns := assigns s; polarity := polarity s;
     trail := trail s; trail_cap := trail_cap s; trail_lim := trail_lim s; vardata := vardata s;
     qhead := qhead s; order_heap := order_heap s; ca := ca s; seen := seen s;
     levelTagged := levelTagged s; FLAG := FLAG s; conflict_budget := conflict_budget s;
     propagation_budget := propagation_budget s; asynch_interrupt := asynch_interrupt s;
     lbdQueue := lbdQueue s; trailQueue := trailQueue s; sumLBD := sumLBD s |}.

Definition set_nb_resolutions (s : Solver) (x : Z) : Solver :=
  {| model := model s; var_decay := var_decay s; clause_decay := clause_decay s;
     luby_restart := luby_restart s; nextReduceDB := nextReduceDB s;
     garbage_frac := garbage_frac s; starts := starts s; decisions := decisions s;
     propagations := propagations s; conflicts := conflicts s;
     nb_removed_clauses := nb_removed_clauses s; nb_reducedb := nb_reducedb s;
     nb_resolutions := x; nb_lits_in_learnts := nb_lits_in_learnts s; ok := ok s;
     clauses := clauses s; learnts := learnts s; cla_inc := cla_inc s; activity := activity s;
     var_inc := var_inc s; watches := watches s; assigns := assigns s; polarity := polarity s;
     trail := trail s; trail_cap := trail_cap s; trail_lim := trail_lim s; vardata := vardata s;
     qhead := qhead s; order_heap := order_heap s; ca := ca s; seen := seen s;
     levelTagged := levelTagged s; FLAG := FLAG s; conflict_budget := conflict_budget s;
     propagation_budget := propagation_budget s; asynch_interrupt := asynch_interrupt s;
     lbdQueue := lbdQueue s; trailQueue := trailQueue s; sumLBD := sumLBD s |}.

Definition set_nb_lits_in_learnts (s : Solver) (x : Z) : Solver :=
  {| model := model s; var_decay := var_decay s; clause_decay := clause_decay s;
     luby_restart := luby_restart s; nextReduceDB := nextReduceDB s;
     garbage_frac := garbage_frac s; starts := starts s; decisions := decisions s;
     propagations := propagations s; conflicts := conflicts s;
     nb_removed_clauses := nb_removed_clauses s; nb_reducedb := nb_reducedb s;
     nb_resolutions := nb_resolutions s; nb_lits_in_learnts := x; ok := ok s;
     clauses := clauses s; learnts := learnts s; cla_inc := cla_inc s; activity := activity s;
     var_inc := var_inc s; watches := watches s; assigns := assigns s; polarity := polarity s;
     trail := trail s; trail_cap := trail_cap s; trail_lim := trail_lim s; vardata := vardata s;
     qhead := qhead s; order_heap := order_heap s; ca := ca s; seen := seen s;
     levelTagged := levelTagged s; FLAG := FLAG s; conflict_budget := conflict_budget s;
     propagation_budget := propagation_budget s; asynch_interrupt := asynch_interrupt s;
     lbdQueue := lbdQueue s; trailQueue := trailQueue s; sumLBD := sumLBD s |}.

Definition set_ok (s : Solver) (x : bool) : Solver :=
  {| model := model s; var_decay := var_decay s; clause_decay := clause_decay s;
     luby_restart := luby_restart s; nextReduceDB := nextReduceDB s;
     garbage_frac := garbage_frac s; starts := starts s; decisions := decisions s;
     propagations := propagations s; conflicts := conflicts s;
     nb_removed_clauses := nb_removed_clauses s; nb_reducedb := nb_reducedb s;
     nb_resolutions := nb_resolutions s; nb_lits_in_learnts := nb_lits_in_learnts s; ok := x;
     clauses := clauses s; learnts := learnts s; cla_inc := cla_inc s; activity := activity s;
     var_inc := var_inc s; watches := watches s; assigns := assigns s; polarity := polarity s;
     trail := trail s; trail_cap := trail_cap s; trail_lim := trail_lim s; vardata := vardata s;
     qhead := qhead s; order_heap := order_heap s; ca := ca s; seen := seen s;
     levelTagged := levelTagged s; FLAG := FLAG s; conflict_budget := conflict_budget s;
     propagation_budget := propagation_budget s; asynch_interrupt := asynch_interrupt s;
     lbdQueue := lbdQueue s; trailQueue := trailQueue s; sumLBD := sumLBD s |}.

Definition set_clauses (s : Solver) (x : list CRef) : Solver :=
  {| model := model s; var_decay := var_decay s; clause_decay := clause_decay s;
     luby_restart := luby_restart s; nextReduceDB := nextReduceDB s;
     garbage_frac := garbage_frac s; starts := starts s; decisions := decisions s;
     propagations := propagations s; conflicts := conflicts s;
     nb_removed_clauses := nb_removed_clauses s; nb_reducedb := nb_reducedb s;
     nb_resolutions := nb_resolutions s; nb_lits_in_learnts := nb_lits_in_learnts s; ok := ok s;
     clauses := x; learnts := learnts s; cla_inc := cla_inc s; activity := activity s;
     var_inc := var_inc s; watches := watches s; assigns := assigns s; polarity := polarity s;
     trail := trail s; trail_cap := trail_cap s; trail_lim := trail_lim s; vardata := vardata s;
     qhead := qhead s; order_heap := order_heap s; ca := ca s; seen := seen s;
     levelTagged := levelTagged s; FLAG := FLAG s; conflict_budget := conflict_budget s;
     propagation_budget := propagation_budget s; asynch_interrupt := asynch_interrupt s;
     lbdQueue := lbdQueue s; trailQueue := trailQueue s; sumLBD := sumLBD s |}.

Definition set_learnts (s : Solver) (x : list CRef) : Solver :=
  {| model := model s; var_decay := var_decay s; clause_decay := clause_decay s;
     luby_restart := luby_restart s; nextReduceDB := nextReduceDB s;
     garbage_frac := garbage_frac s; starts := starts s; decisions := decisions s;
     propagations := propagations s; conflicts := conflicts s;
     nb_removed_clauses := nb_removed_clauses s; nb_reducedb := nb_reducedb s;
     nb_resolutions := nb_resolutions s; nb_lits_in_learnts := nb_lits_in_learnts s; ok := ok s;
     clauses := clauses s; learnts := x; cla_inc := cla_inc s; activity := activity s;
     var_inc := var_inc s; watches := watches s; assigns := assigns s; polarity := polarity s;
     trail := trail s; trail_cap := trail_cap s; trail_lim := trail_lim s; vardata := vardata s;
     qhead := qhead s; order_heap := order_heap s; ca := ca s; seen := seen s;
     levelTagged := levelTagged s; FLAG := FLAG s; conflict_budget := conflict_budget s;
     propagation_budget := propagation_budget s; asynch_interrupt := asynch_interrupt s;
     lbdQueue := lbdQueue s; trailQueue := trailQueue s; sumLBD := sumLBD s |}.

Definition set_cla_inc (s : Solver) (x : D) : Solver :=
  {| model := model s; var_decay := var_decay s; clause_decay := clause_decay s;
     luby_restart := luby_restart s; nextReduceDB := nextReduceDB s;
     garbage_frac := garbage_frac s; starts := starts s; decisions := decisions s;
     propagations := propagations s; conflicts := conflicts s;
     nb_removed_clauses := nb_removed_clauses s; nb_reducedb := nb_reducedb s;
     nb_resolutions := nb_resolutions s; nb_lits_in_learnts := nb_lits_in_learnts s; ok := ok s;
     clauses := clauses s; learnts := learnts s; cla_inc := x; activity := activity s;
     var_inc := var_inc s; watches := watches s; assigns := assigns s; polarity := polarity s;
     trail := trail s; trail_cap := trail_cap s; trail_lim := trail_lim s; vardata := vardata s;
     qhead := qhead s; order_heap := order_heap s; ca := ca s; seen := seen s;
     levelTagged := levelTagged s; FLAG := FLAG s; conflict_budget := conflict_budget s;
     propagation_budget := propagation_budget s; asynch_interrupt := asynch_interrupt s;
     lbdQueue := lbdQueue s; trailQueue := trailQueue s; sumLBD := sumLBD s |}.

Definition set_activity (s : Solver) (x : list D) : Solver :=
  {| model := model s; var_decay := var_decay s; clause_decay := clause_decay s;
     luby_restart := luby_restart s; nextReduceDB := nextReduceDB s;
     garbage_frac := garbage_frac s; starts := starts s; decisions := decisions s;
     propagations := propagations s; conflicts := conflicts s;
     nb_removed_clauses := nb_removed_clauses s; nb_reducedb := nb_reducedb s;
     nb_resolutions := nb_resolutions s; nb_lits_in_learnts := nb_lits_in_learnts s; ok := ok s;
     clauses := clauses s; learnts := learnts s; cla_inc := cla_inc s; activity := x;
     var_inc := var_inc s; watches := watches s; assigns := assigns s; polarity := polarity s;
     trail := trail s; trail_cap := trail_cap s; trail_lim := trail_lim s; vardata := vardata s;
     qhead := qhead s; order_heap := order_heap s; ca := ca s; seen := seen s;
     levelTagged := levelTagged s; FLAG := FLAG s; conflict_budget := conflict_budget s;
     propagation_budget := propagation_budget s; asynch_interrupt := asynch_interrupt s;
     lbdQueue := lbdQueue s; trailQueue := trailQueue s; sumLBD := sumLBD s |}.

Definition set_var_inc (s : Solver) (x : D) : Solver :=
  {| model := model s; var_decay := var_decay s; clause_decay := clause_decay s;
     luby_restart := luby_restart s; nextReduceDB := nextReduceDB s;
     garbage_frac := garbage_frac s; starts := starts s; decisions := decisions s;
     propagations := propagations s; conflicts := conflicts s;
     nb_removed_clauses := nb_removed_clauses s; nb_reducedb := nb_reducedb s;
     nb_resolutions := nb_resolutions s; nb_lits_in_learnts := nb_lits_in_learnts s; ok := ok s;
     clauses := clauses s; learnts := learnts s; cla_inc := cla_inc s; activity := activity s;
     var_inc := x; watches := watches s; assigns := assigns s; polarity := polarity s;
     trail := trail s; trail_cap := trail_cap s; trail_lim := trail_lim s; vardata := vardata s;
     qhead := qhead s; order_heap := order_heap s; ca := ca s; seen := seen s;
     levelTagged := levelTagged s; FLAG := FLAG s; conflict_budget := conflict_budget s;
     propagation_budget := propagation_budget s; asynch_interrupt := asynch_interrupt s;
     lbdQueue := lbdQueue s; trailQueue := trailQueue s; sumLBD := sumLBD s |}.

Definition set_watches (s : Solver) (x : OccLists) : Solver :=
  {| model := model s; var_decay := var_decay s; clause_decay := clause_decay s;
     luby_restart := luby_restart s; nextReduceDB := nextReduceDB s;
     garbage_frac := garbage_frac s; starts := starts s; decisions := decisions s;
     propagations := propagations s; conflicts := conflicts s;
     nb_removed_clauses := nb_removed_clauses s; nb_reducedb := nb_reducedb s;
     nb_resolutions := nb_resolutions s; nb_lits_in_learnts := nb_lits_in_learnts s; ok := ok s;
     clauses := clauses s; learnts := learnts s; cla_inc := cla_inc s; activity := activity s;
     var_inc := var_inc s; watches := x; assigns := assigns s; polarity := polarity s;
     trail := trail s; trail_cap := trail_cap s; trail_lim := trail_lim s; vardata := vardata s;
     qhead := qhead s; order_heap := order_heap s; ca := ca s; seen := seen s;
     levelTagged := levelTagged s; FLAG := FLAG s; conflict_budget := conflict_budget s;
     propagation_budget := propagation_budget s; asynch_interrupt := asynch_interrupt s;
     lbdQueue := lbdQueue s; trailQueue := trailQueue s; sumLBD := sumLBD s |}.

Definition set_assigns (s : Solver) (x : list lbool) : Solver :=
  {| model := model s; var_decay := var_decay s; clause_decay := clause_decay s;
     luby_restart := luby_restart s; nextReduceDB := nextReduceDB s;
     garbage_frac := garbage_frac s; starts := starts s; decisions := decisions s;
     propagations := propagations s; conflicts := conflicts s;
     nb_removed_clauses := nb_removed_clauses s; nb_reducedb := nb_reducedb s;
     nb_resolutions := nb_resolutions s; nb_lits_in_learnts := nb_lits_in_learnts s; ok := ok s;
     clauses := clauses s; learnts := learnts s; cla_inc := cla_inc s; activity := activity s;
     var_inc := var_inc s; watches := watches s; assigns := x; polarity := polarity s;
     trail := trail s; trail_cap := trail_cap s; trail_lim := trail_lim s; vardata := vardata s;
     qhead := qhead s; order_heap := order_heap s; ca := ca s; seen := seen s;
     levelTagged := levelTagged s; FLAG := FLAG s; conflict_budget := conflict_budget s;
     propagation_budget := propagation_budget s; asynch_interrupt := asynch_interrupt s;
     lbdQueue := lbdQueue s; trailQueue := trailQueue s; sumLBD := sumLBD s |}.

Definition set_polarity (s : Solver) (x : list bool) : Solver :=
  {| model := model s; var_decay := var_decay s; clause_decay := clause_decay s;
     luby_restart := luby_restart s; nextReduceDB := nextReduceDB s;
     garbage_frac := garbage_frac s; starts := starts s; decisions := decisions s;
     propagations := propagations s; conflicts := conflicts s;
     nb_removed_clauses := nb_removed_clauses s; nb_reducedb := nb_reducedb s;
     nb_resolutions := nb_resolutions s; nb_lits_in_learnts := nb_lits_in_learnts s; ok := ok s;
     clauses := clauses s; learnts := learnts s; cla_inc := cla_inc s; activity := activity s;
     var_inc := var_inc s; watches := watches s; assigns := assigns s; polarity := x;
     trail := trail s; trail_cap := trail_cap s; trail_lim := trail_lim s; vardata := vardata s;
     qhead := qhead s; order_heap := order_heap s; ca := ca s; seen := seen s;
     levelTagged := levelTagged s; FLAG := FLAG s; conflict_budget := conflict_budget s;
     propagation_budget := propagation_budget s; asynch_interrupt := asynch_interrupt s;
     lbdQueue := lbdQueue s; trailQueue := trailQueue s; sumLBD := sumLBD s |}.

Definition set_trail (s : Solver) (x : list Lit) : Solver :=
  {| model := model s; var_decay := var_decay s; clause_decay := clause_decay s;
     luby_restart := luby_restart s; nextReduceDB := nextReduceDB s;
     garbage_frac := garbage_frac s; starts := starts s; decisions := decisions s;
     propagations := propagations s; conflicts := conflicts s;
     nb_removed_clauses := nb_removed_clauses s; nb_reducedb := nb_reducedb s;
     nb_resolutions := nb_resolutions s; nb_lits_in_learnts := nb_lits_in_learnts s; ok := ok s;
     clauses := clauses s; learnts := learnts s; cla_inc := cla_inc s; activity := activity s;
     var_inc := var_inc s; watches := watches s; assigns := assigns s; polarity := polarity s;
     trail := x; trail_cap := trail_cap s; trail_lim := trail_lim s; vardata := vardata s;
     qhead := qhead s; order_heap := order_heap s; ca := ca s; seen := seen s;
     levelTagged := levelTagged s; FLAG := FLAG s; conflict_budget := conflict_budget s;
     propagation_budget := propagation_budget s; asynch_interrupt := asynch_interrupt s;
     lbdQueue := lbdQueue s; trailQueue := trailQueue s; sumLBD := sumLBD s |}.

Definition set_trail_cap (s : Solver) (x : nat) : Solver :=
  {| model := model s; var_decay := var_decay s; clause_decay := clause_decay s;
     luby_restart := luby_restart s; nextReduceDB := nextReduceDB s;
     garbage_frac := garbage_frac s; starts := starts s; decisions := decisions s;
     propagations := propagations s; conflicts := conflicts s;
     nb_removed_clauses := nb_removed_clauses s; nb_reducedb := nb_reducedb s;
     nb_resolutions := nb_resolutions s; nb_lits_in_learnts := nb_lits_in_learnts s; ok := ok s;
     clauses := clauses s; learnts := learnts s; cla_inc := cla_inc s; activity := activity s;
     var_inc := var_inc s; watches := watches s; assigns := assigns s; polarity := polarity s;
     trail := trail s; trail_cap := x; trail_lim := trail_lim s; vardata := vardata s;
     qhead := qhead s; order_heap := order_heap s; ca := ca s; seen := seen s;
     levelTagged := levelTagged s; FLAG := FLAG s; conflict_budget := conflict_budget s;
     propagation_budget := propagation_budget s; asynch_interrupt := asynch_interrupt s;
     lbdQueue := lbdQueue s; trailQueue := trailQueue s; sumLBD := sumLBD s |}.

Definition set_trail_lim (s : Solver) (x : list nat) : Solver :=
  {| model := model s; var_decay := var_decay s; clause_decay := clause_decay s;
     luby_restart := luby_restart s; nextReduceDB := nextReduceDB s;
     garbage_frac := garbage_frac s; starts := starts s; decisions := decisions s;
     propagations := propagations s; conflicts := conflicts s;
     nb_removed_clauses := nb_removed_clauses s; nb_reducedb := nb_reducedb s;
     nb_resolutions := nb_resolutions s; nb_lits_in_learnts := nb_lits_in_learnts s; ok := ok s;
     clauses := clauses s; learnts := learnts s; cla_inc := cla_inc s; activity := activity s;
     var_inc := var_inc s; watches := watches s; assigns := assigns s; polarity := polarity s;
     trail := trail s; trail_cap := trail_cap s; trail_lim := x; vardata := vardata s;
     qhead := qhead s; order_heap := order_heap s; ca := ca s; seen := seen s;
     levelTagged := levelTagged s; FLAG := FLAG s; conflict_budget := conflict_budget s;
     propagation_budget := propagation_budget s; asynch_interrupt := asynch_interrupt s;
     lbdQueue := lbdQueue s; trailQueue := trailQueue s; sumLBD := sumLBD s |}.

Definition set_vardata (s : Solver) (x : list VarData) : Solver :=
  {| model := model s; var_decay := var_decay s; clause_decay := clause_decay s;
     luby_restart := luby_restart s; nextReduceDB := nextReduceDB s;
     garbage_frac := garbage_frac s; starts := starts s; decisions := decisions s;
     propagations := propagations s; conflicts := conflicts s;
     nb_removed_clauses := nb_removed_clauses s; nb_reducedb := nb_reducedb s;
     nb_resolutions := nb_resolutions s; nb_lits_in_learnts := nb_lits_in_learnts s; ok := ok s;
     clauses := clauses s; learnts := learnts s; cla_inc := cla_inc s; activity := activity s;
     var_inc := var_inc s; watches := watches s; assigns := assigns s; polarity := polarity s;
     trail := trail s; trail_cap := trail_cap s; trail_lim := trail_lim s; vardata := x;
     qhead := qhead s; order_heap := order_heap s; ca := ca s; seen := seen s;
     levelTagged := levelTagged s; FLAG := FLAG s; conflict_budget := conflict_budget s;
     propagation_budget := propagation_budget s; asynch_interrupt := asynch_interrupt s;
     lbdQueue := lbdQueue s; trailQueue := trailQueue s; sumLBD := sumLBD s |}.

Definition set_qhead (s : Solver) (x : nat) : Solver :=
  {| model := model s; var_decay := var_decay s; clause_decay := clause_decay s;
     luby_restart := luby_restart s; nextReduceDB := nextReduceDB s;
     garbage_frac := garbage_frac s; starts := starts s; decisions := decisions s;
     propagations := propagations s; conflicts := conflicts s;
     nb_removed_clauses := nb_removed_clauses s; nb_reducedb := nb_reducedb s;
     nb_resolutions := nb_resolutions s; nb_lits_in_learnts := nb_lits_in_learnts s; ok := ok s;
     clauses := clauses s; learnts := learnts s; cla_inc := cla_inc s; activity := activity s;
     var_inc := var_inc s; watches := watches s; assigns := assigns s; polarity := polarity s;
     trail := trail s; trail_cap := trail_cap s; trail_lim := trail_lim s; vardata := vardata s;
     qhead := x; order_heap := order_heap s; ca := ca s; seen := seen s;
     levelTagged := levelTagged s; FLAG := FLAG s; conflict_budget := conflict_budget s;
     propagation_budget := propagation_budget s; asynch_interrupt := asynch_interrupt s;
     lbdQueue := lbdQueue s; trailQueue := trailQueue s; sumLBD := sumLBD s |}.

Definition set_order_heap (s : Solver) (x : Heap) : Solver :=
  {| model := model s; var_decay := var_decay s; clause_decay := clause_decay s;
     luby_restart := luby_restart s; nextReduceDB := nextReduceDB s;
     garbage_frac := garbage_frac s; starts := starts s; decisions := decisions s;
     propagations := propagations s; conflicts := conflicts s;
     nb_removed_clauses := nb_removed_clauses s; nb_reducedb := nb_reducedb s;
     nb_resolutions := nb_resolutions s; nb_lits_in_learnts := nb_lits_in_learnts s; ok := ok s;
     clauses := clauses s; learnts := learnts s; cla_inc := cla_inc s; activity := activity s;
     var_inc := var_inc s; watches := watches s; assigns := assigns s; polarity := polarity s;
     trail := trail s; trail_cap := trail_cap s; trail_lim := trail_lim s; vardata := vardata s;
     qhead := qhead s; order_heap := x; ca := ca s; seen := seen s; levelTagged := levelTagged s;
     FLAG := FLAG s; conflict_budget := conflict_budget s;
     propagation_budget := propagation_budget s; asynch_interrupt := asynch_interrupt s;
     lbdQueue := lbdQueue s; trailQueue := trailQueue s; sumLBD := sumLBD s |}.

Definition set_ca (s : Solver) (x : ClauseAllocator) : Solver :=
  {| model := model s; var_decay := var_decay s; clause_decay := clause_decay s;
     luby_restart := luby_restart s; nextReduceDB := nextReduceDB s;
     garbage_frac := garbage_frac s; starts := starts s; decisions := decisions s;
     propagations := propagations s; conflicts := conflicts s;
     nb_removed_clauses := nb_removed_clauses s; nb_reducedb := nb_reducedb s;
     nb_resolutions := nb_resolutions s; nb_lits_in_learnts := nb_lits_in_learnts s; ok := ok s;
     clauses := clauses s; learnts := learnts s; cla_inc := cla_inc s; activity := activity s;
     var_inc := var_inc s; watches := watches s; assigns := assigns s; polarity := polarity s;
     trail := trail s; trail_cap := trail_cap s; trail_lim := trail_lim s; vardata := vardata s;
     qhead := qhead s; order_heap := order_heap s; ca := x; seen := seen s;
     levelTagged := levelTagged s; FLAG := FLAG s; conflict_budget := conflict_budget s;
     propagation_budget := propagation_budget s; asynch_interrupt := asynch_interrupt s;
     lbdQueue := lbdQueue s; trailQueue := trailQueue s; sumLBD := sumLBD s |}.

Definition set_seen (s : Solver) (x : list bool) : Solver :=
  {| model := model s; var_decay := var_decay s; clause_decay := clause_decay s;
     luby_restart := luby_restart s; nextReduceDB := nextReduceDB s;
     garbage_frac := garbage_frac s; starts := starts s; decisions := decisions s;
     propagations := propagations s; conflicts := conflicts s;
     nb_removed_clauses := nb_removed_clauses s; nb_reducedb := nb_reducedb s;
     nb_resolutions := nb_resolutions s; nb_lits_in_learnts := nb_lits_in_learnts s; ok := ok s;
     clauses := clauses s; learnts := learnts s; cla_inc := cla_inc s; activity := activity s;
     var_inc := var_inc s; watches := watches s; assigns := assigns s; polarity := polarity s;
     trail := trail s; trail_cap := trail_cap s; trail_lim := trail_lim s; vardata := vardata s;
     qhead := qhead s; order_heap := order_heap s; ca := ca s; seen := x;
     levelTagged := levelTagged s; FLAG := FLAG s; conflict_budget := conflict_budget s;
     propagation_budget := propagation_budget s; asynch_interrupt := asynch_interrupt s;
     lbdQueue := lbdQueue s; trailQueue := trailQueue s; sumLBD := sumLBD s |}.

Definition set_levelTagged (s : Solver) (x : list Z) : Solver :=
  {| model := model s; var_decay := var_decay s; clause_decay := clause_decay s;
     luby_restart := luby_restart s; nextReduceDB := nextReduceDB s;
     garbage_frac := garbage_frac s; starts := starts s; decisions := decisions s;
     propagations := propagations s; conflicts := conflicts s;
     nb_removed_clauses := nb_removed_clauses s; nb_reducedb := nb_reducedb s;
     nb_resolutions := nb_resolutions s; nb_lits_in_learnts := nb_lits_in_learnts s; ok := ok s;
     clauses := clauses s; learnts := learnts s; cla_inc := cla_inc s; activity := activity s;
     var_inc := var_inc s; watches := watches s; assigns := assigns s; polarity := polarity s;
     trail := trail s; trail_cap := trail_cap s; trail_lim := trail_lim s; vardata := vardata s;
     qhead := qhead s; order_heap := order_heap s; ca := ca s; seen := seen s; levelTagged := x;
     FLAG := FLAG s; conflict_budget := conflict_budget s;
     propagation_budget := propagation_budget s; asynch_interrupt := asynch_interrupt s;
     lbdQueue := lbdQueue s; trailQueue := trailQueue s; sumLBD := sumLBD s |}.

Definition set_FLAG (s : Solver) (x : Z) : Solver :=
  {| model := model s; var_decay := var_decay s; clause_decay := clause_decay s;
     luby_restart := luby_restart s; nextReduceDB := nextReduceDB s;
     garbage_frac := garbage_frac s; starts := starts s; decisions := decisions s;
     propagations := propagations s; conflicts := conflicts s;
     nb_removed_clauses := nb_removed_clauses s; nb_reducedb := nb_reducedb s;
     nb_resolutions := nb_resolutions s; nb_lits_in_learnts := nb_lits_in_learnts s; ok := ok s;
     clauses := clauses s; learnts := learnts s; cla_inc := cla_inc s; activity := activity s;
     var_inc := var_inc s; watches := watches s; assigns := assigns s; polarity := polarity s;
     trail := trail s; trail_cap := trail_cap s; trail_lim := trail_lim s; vardata := vardata s;
     qhead := qhead s; order_heap := order_heap s; ca := ca s; seen := seen s;
     levelTagged := levelTagged s; FLAG := x; conflict_budget := conflict_budget s;
     propagation_budget := propagation_budget s; asynch_interrupt := asynch_interrupt s;
     lbdQueue := lbdQueue s; trailQueue := trailQueue s; sumLBD := sumLBD s |}.

Definition set_conflict_budget (s : Solver) (x : Z) : Solver :=
  {| model := model s; var_decay := var_decay s; clause_decay := clause_decay s;
     luby_restart := luby_restart s; nextReduceDB := nextReduceDB s;
     garbage_frac := garbage_frac s; starts := starts s; decisions := decisions s;
     propagations := propagations s; conflicts := conflicts s;
     nb_removed_clauses := nb_removed_clauses s; nb_reducedb := nb_reducedb s;
     nb_resolutions := nb_resolutions s; nb_lits_in_learnts := nb_lits_in_learnts s; ok := ok s;
     clauses := clauses s; learnts := learnts s; cla_inc := cla_inc s; activity := activity s;
     var_inc := var_inc s; watches := watches s; assigns := assigns s; polarity := polarity s;
     trail := trail s; trail_cap := trail_cap s; trail_lim := trail_lim s; vardata := vardata s;
     qhead := qhead s; order_heap := order_heap s; ca := ca s; seen := seen s;
     levelTagged := levelTagged s; FLAG := FLAG s; conflict_budget := x;
     propagation_budget := propagation_budget s; asynch_interrupt := asynch_interrupt s;
     lbdQueue := lbdQueue s; trailQueue := trailQueue s; sumLBD := sumLBD s |}.

Definition set_propagation_budget (s : Solver) (x : Z) : Solver :=
  {| model := model s; var_decay := var_decay s; clause_decay := clause_decay s;
     luby_restart := luby_restart s; nextReduceDB := nextReduceDB s;
     garbage_frac := garbage_frac s; starts := starts s; decisions := decisions s;
     propagations := propagations s; conflicts := conflicts s;
     nb_removed_clauses := nb_removed_clauses s; nb_reducedb := nb_reducedb s;
     nb_resolutions := nb_resolutions s; nb_lits_in_learnts := nb_lits_in_learnts s; ok := ok s;
     clauses := clauses s; learnts := learnts s; cla_inc := cla_inc s; activity := activity s;
     var_inc := var_inc s; watches := watches s; assigns := assigns s; polarity := polarity s;
     trail := trail s; trail_cap := trail_cap s; trail_lim := trail_lim s; vardata := vardata s;
     qhead := qhead s; order_heap := order_heap s; ca := ca s; seen := seen s;
     levelTagged := levelTagged s; FLAG := FLAG s; conflict_budget := conflict_budget s;
     propagation_budget := x; asynch_interrupt := asynch_interrupt s; lbdQueue := lbdQueue s;
     trailQueue := trailQueue s; sumLBD := sumLBD s |}.

Definition set_asynch_interrupt (s : Solver) (x : bool) : Solver :=
  {| model := model s; var_decay := var_decay s; clause_decay := clause_decay s;
     luby_restart := luby_restart s; nextReduceDB := nextReduceDB s;
     garbage_frac := garbage_frac s; starts := starts s; decisions := decisions s;
     propagations := propagations s; conflicts := conflicts s;
     nb_removed_clauses := nb_removed_clauses s; nb_reducedb := nb_reducedb s;
     nb_resolutions := nb_resolutions s; nb_lits_in_learnts := nb_lits_in_learnts s; ok := ok s;
     clauses := clauses s; learnts := learnts s; cla_inc := cla_inc s; activity := activity s;
     var_inc := var_inc s; watches := watches s; assigns := assigns s; polarity := polarity s;
     trail := trail s; trail_cap := trail_cap s; trail_lim := trail_lim s; vardata := vardata s;
     qhead := qhead s; order_heap := order_heap s; ca := ca s; seen := seen s;
     levelTagged := levelTagged s; FLAG := FLAG s; conflict_budget := conflict_budget s;
     propagation_budget := propagation_budget s; asynch_interrupt := x; lbdQueue := lbdQueue s;
     trailQueue := trailQueue s; sumLBD := sumLBD s |}.

Definition set_lbdQueue (s : Solver) (x : bqueue) : Solver :=
  {| model := model s; var_decay := var_decay s; clause_decay := clause_decay s;
     luby_restart := luby_restart s; nextReduceDB := nextReduceDB s;
     garbage_frac := garbage_frac s; starts := starts s; decisions := decisions s;
     propagations := propagations s; conflicts := conflicts s;
     nb_removed_clauses := nb_removed_clauses s; nb_reducedb := nb_reducedb s;
     nb_resolutions := nb_resolutions s; nb_lits_in_learnts := nb_lits_in_learnts s; ok := ok s;
     clauses := clauses s; learnts := learnts s; cla_inc := cla_inc s; activity := activity s;
     var_inc := var_inc s; watches := watches s; assigns := assigns s; polarity := polarity s;
     trail := trail s; trail_cap := trail_cap s; trail_lim := trail_lim s; vardata := vardata s;
     qhead := qhead s; order_heap := order_heap s; ca := ca s; seen := seen s;
     levelTagged := levelTagged s; FLAG := FLAG s; conflict_budget := conflict_budget s;
     propagation_budget := propagation_budget s; asynch_interrupt := asynch_interrupt s;
     lbdQueue := x; trailQueue := trailQueue s; sumLBD := sumLBD s |}.

Definition set_trailQueue (s : Solver) (x : bqueue) : Solver :=
  {| model := model s; var_decay := var_decay s; clause_decay := clause_decay s;
     luby_restart := luby_restart s; nextReduceDB := nextReduceDB s;
     garbage_frac := garbage_frac s; starts := starts s; decisions := decisions s;
     propagations := propagations s; conflicts := conflicts s;
     nb_removed_clauses := nb_removed_clauses s; nb_reducedb := nb_reducedb s;
     nb_resolutions := nb_resolutions s; nb_lits_in_learnts := nb_lits_in_learnts s; ok := ok s;
     clauses := clauses s; learnts := learnts s; cla_inc := cla_inc s; activity := activity s;
     var_inc := var_inc s; watches := watches s; assigns := assigns s; polarity := polarity s;
     trail := trail s; trail_cap := trail_cap s; trail_lim := trail_lim s; vardata := vardata s;
     qhead := qhead s; order_heap := order_heap s; ca := ca s; seen := seen s;
     levelTagged := levelTagged s; FLAG := FLAG s; conflict_budget := conflict_budget s;
     propagation_budget := propagation_budget s; asynch_interrupt := asynch_interrupt s;
     lbdQueue := lbdQueue s; trailQueue := x; sumLBD := sumLBD s |}.

Definition set_sumLBD (s : Solver) (x : D) : Solver :=
  {| model := model s; var_decay := var_decay s; clause_decay := clause_decay s;
     luby_restart := luby_restart s; nextReduceDB := nextReduceDB s;
     garbage_frac := garbage_frac s; starts := starts s; decisions := decisions s;
     propagations := propagations s; conflicts := conflicts s;
     nb_removed_clauses := nb_removed_clauses s; nb_reducedb := nb_reducedb s;
     nb_resolutions := nb_resolutions s; nb_lits_in_learnts := nb_lits_in_learnts s; ok := ok s;
     clauses := clauses s; learnts := learnts s; cla_inc := cla_inc s; activity := activity s;
     var_inc := var_inc s; watches := watches s; assigns := assigns s; polarity := polarity s;
     trail := trail s; trail_cap := trail_cap s; trail_lim := trail_lim s; vardata := vardata s;
     qhead := qhead s; order_heap := order_heap s; ca := ca s; seen := seen s;
     levelTagged := levelTagged s; FLAG := FLAG s; conflict_budget := conflict_budget s;
     propagation_budget := propagation_budget s; asynch_interrupt := asynch_interrupt s;
     lbdQueue := lbdQueue s; trailQueue := trailQueue s; sumLBD := x |}.

(** *** Inline methods of core/Solver.h *)

Definition nVars (s : Solver) : nat := length (vardata s).
Definition decisionLevel (s : Solver) : nat := length (trail_lim s).

Definition reason (s : Solver) (x : Var) : res CRef :=
  vd <- Vec.get (vardata s) x ;; Ok (vd_reason vd).

Definition level (s : Solver) (x : Var) : res nat :=
  vd <- Vec.get (vardata s) x ;; Ok (vd_level vd).

Definition valueVar (s : Solver) (x : Var) : res lbool := Vec.get (assigns s) x.

Definition value (s : Solver) (p : Lit) : res lbool :=
  x <- varI p ;;
  a <- Vec.get (assigns s) x ;;
  Ok (lbool_xor a (sign p)).

(** [VarOrderLt]: [activity[x] > activity[y]] *)
Definition VarOrderLt (act : list D) (x y : Var) : bool :=
  match nth_error act x, nth_error act y with
  | Some ax, Some ay => d_ltb ay ax
  | _, _ => false
  end.

Definition insertVarOrder (s : Solver) (x : Var) : Solver :=
  if heap_inHeap (order_heap s) x then s
  else set_order_heap s (heap_insert (order_heap s) x).

Definition varDecayActivity (s : Solver) : Solver :=
  set_var_inc s (d_mul (var_inc s) (d_div (d_of_Z 1) (var_decay s))).

Definition claDecayActivity (s : Solver) : Solver :=
  set_cla_inc s (d_mul (cla_inc s) (d_div (d_of_Z 1) (clause_decay s))).

(** [for(int i = 0; i < n; i++) v[i] = f(v[i])] *)
Definition map_upto {A} (n : nat) (f : A -> A) (v : list A) : res (list A) :=
  if (n <=? length v)%nat then Ok (map f (firstn n v) ++ skipn n v)
  else Err OutOfBounds.

Definition varBumpActivity (s : Solver) (v : Var) : res Solver :=
  a <- Vec.get (activity s) v ;;
  let a' := d_add a (var_inc s) in
  act <- Vec.set (activity s) v a' ;;
  let s1 := set_activity s act in
  s2 <- (if d_ltb (d_of_Q (10 ^ 100)%Q) a' then
           (* Rescale *)
           act' <- map_upto (nVars s1) (fun x => d_mul x (d_of_Q (/ 10 ^ 100)%Q)) act ;;
           Ok (set_var_inc (set_activity s1 act')
                           (d_mul (var_inc s1) (d_of_Q (/ 10 ^ 100)%Q)))
         else Ok s1) ;;
  (* Update order_heap with respect to new activity *)
  Ok (if heap_inHeap (order_heap s2) v
      then set_order_heap s2 (heap_decrease (order_heap s2) v)
      else s2).

Fixpoint rescale_learnts (a : ClauseAllocator) (ls : list CRef) : res ClauseAllocator :=
  match ls with
  | [] => Ok a
  | cr :: t =>
      c <- ca_get a cr ;;
      rescale_learnts
        (ca_put a cr (set_cl_activity c (d_mul (cl_activity c) (d_of_Q (/ 10 ^ 20)%Q)))) t
  end.

(** [claBumpActivity(ca[cr])] *)
Definition claBumpActivity (s : Solver) (cr : CRef) : res Solver :=
  c <- ca_get (ca s) cr ;;
  let a' := d_add (cl_activity c) (cla_inc s) in
  let s1 := set_ca s (ca_put (ca s) cr (set_cl_activity c a')) in
  if d_ltb (d_of_Q (10 ^ 20)%Q) a' then
    a2 <- rescale_learnts (ca s1) (learnts s1) ;;
    Ok (set_cla_inc (set_ca s1 a2) (d_mul (cla_inc s1) (d_of_Q (/ 10 ^ 20)%Q)))
  else Ok s1.

(** [locked(c)] for the clause [c = ca[cr]]; [ca.lea(r) == &c] compares the
    reason with the reference of [c]. *)
Definition locked (s : Solver) (cr : CRef) (c : Clause) : res bool :=
  c0 <- Vec.get (cl_lits c) 0 ;;
  v <- value s c0 ;;
  if lbool_eqb v l_True then
    r <- reason s (var c0) ;;
    Ok (negb (r =? CRef_Undef) && (r =? cr))
  else Ok false.

Definition newDecisionLevel (s : Solver) : Solver :=
  set_trail_lim s (Vec.push (trail_lim s) (length (trail s))).

Definition setConfBudget (s : Solver) (x : Z) : Solver :=
  set_conflict_budget s (to_int64 (conflicts s + x)).

Definition setPropBudget (s : Solver) (x : Z) : Solver :=
  set_propagation_budget s (to_int64 (propagations s + x)).

Definition interrupt (s : Solver) : Solver := set_asynch_interrupt s true.
Definition clearInterrupt (s : Solver) : Solver := set_asynch_interrupt s false.

Definition budgetOff (s : Solver) : Solver :=
  set_conflict_budget (set_propagation_budget s (-1)) (-1).

Definition withinBudget (s : Solver) : bool :=
  negb (asynch_interrupt s)
  && ((conflict_budget s <? 0) || (conflicts s <? to_uint64 (conflict_budget s)))
  && ((propagation_budget s <? 0) || (propagations s <? to_uint64 (propagation_budget s))).

(** *** core/Solver.cc: enqueue, backtrack, branching *)

Definition uncheckedEnqueue (s : Solver) (p : Lit) (from : CRef) : res Solver :=
  v <- value s p ;;
  _ <- assert (lbool_eqb v l_Undef) ;;
  a <- Vec.set (assigns s) (var p) (lbool_of_bool (negb (sign p))) ;;
  vd <- Vec.set (vardata s) (var p) (mkVarData from (decisionLevel s)) ;;
  (* trail.push_(p) *)
  _ <- assert (length (trail s) <? trail_cap s)%nat ;;
  Ok (set_trail (set_vardata (set_assigns s a) vd) (Vec.push (trail s) p)).

(** The loop of [cancelUntil] over [trail[c]], [c] from [trail.size() - 1] down
    to [trail_lim[level]]; [lits] lists these entries in the order visited. *)
Fixpoint cancel_loop (s : Solver) (lits : list Lit) : res Solver :=
  match lits with
  | [] => Ok s
  | l :: rest =>
      x <- varI l ;;
      a <- Vec.set (assigns s) x l_Undef ;;
      po <- Vec.set (polarity s) x (sign l) ;;
      cancel_loop (insertVarOrder (set_polarity (set_assigns s a) po) x) rest
  end.

Definition cancelUntil (s : Solver) (lvl : nat) : res Solver :=
  if (lvl <? decisionLevel s)%nat then
    lim <- Vec.get (trail_lim s) lvl ;;
    s1 <- cancel_loop s (rev (skipn lim (trail s))) ;;
    let s2 := set_qhead s1 lim in
    t <- Vec.shrink (trail s2) (Z.of_nat (length (trail s2)) - Z.of_nat lim) ;;
    tl <- Vec.shrink (trail_lim s2) (Z.of_nat (length (trail_lim s2)) - Z.of_nat lvl) ;;
    _ <- assert (length tl =? lvl)%nat ;;
    Ok (set_trail_lim (set_trail s2 t) tl)
  else Ok s.

(** The loop of [pickBranchLit]; [next = None] stands for [var_Undef].  Every
    round removes one element of the heap, whose size bounds the rounds. *)
Fixpoint pickBranch_loop (fuel : nat) (s : Solver) (next : option Var)
  : res (option Var * Solver) :=
  again <- match next with
           | None => Ok true
           | Some x => v <- valueVar s x ;; Ok (negb (lbool_eqb v l_Undef))
           end ;;
  if again : bool then
    if heap_empty (order_heap s) then Ok (None, s)
    else
      match fuel with
      | O => Err OutOfFuel
      | S f =>
          '(x, h) <- heap_removeMin (VarOrderLt (activity s)) (order_heap s) ;;
          pickBranch_loop f (set_order_heap s h) (Some x)
      end
  else Ok (next, s).

Definition pickBranchLit (s : Solver) : res (Lit * Solver) :=
  '(next, s1) <- pickBranch_loop (length (order_heap s)) s None ;;
  match next with
  | None => Ok (lit_Undef, s1)
  | Some x =>
      let s2 := set_decisions s1 (incr64 (decisions s1)) in
      po <- Vec.get (polarity s2) x ;;
      Ok (mkLit x po, s2)
  end.

(** *** Propagation *)

(** [for(int k = 2; k < c.size(); k++) if(value(c[k]) != l_False)]: the first
    such [k], scanning [tail = c[k..]]. *)
Fixpoint find_watch (s : Solver) (k : nat) (tail : list Lit) : res (option nat) :=
  match tail with
  | [] => Ok None
  | q :: t =>
      v <- value s q ;;
      if lbool_eqb v l_False then find_watch s (S k) t else Ok (Some k)
  end.

(** The loop over the watchers of [p].  [ws] are the watchers from [i] to
    [end], [kept] those already copied to [j]; the result is the conflict,
    the new contents of the list and the state. *)
Fixpoint propagate_ws (s : Solver) (p : Lit) (confl : CRef) (ws kept : list Watcher)
  : res (CRef * list Watcher * Solver) :=
  match ws with
  | [] => Ok (confl, kept, s)
  | w :: rest =>
      vb <- value s (blocker w) ;;
      if lbool_eqb vb l_True then
        propagate_ws s p confl rest (kept ++ [w])
      else
        (* Make sure the false literal is data[1] *)
        let cr := cref w in
        c <- ca_get (ca s) cr ;;
        let false_lit := neg p in
        c0 <- Vec.get (cl_lits c) 0 ;;
        lits1 <- (if c0 =? false_lit then
                    c1 <- Vec.get (cl_lits c) 1 ;;
                    l <- Vec.set (cl_lits c) 0 c1 ;;
                    Vec.set l 1 false_lit
                  else Ok (cl_lits c)) ;;
        c1 <- Vec.get lits1 1 ;;
        _ <- assert (c1 =? false_lit) ;;
        let s1 := set_ca s (ca_put (ca s) cr (set_cl_lits c lits1)) in
        (* If 0th watch is true, then clause is already satisfied *)
        first <- Vec.get lits1 0 ;;
        let w' := mkWatcher cr first in
        vf <- value s1 first ;;
        if negb (first =? blocker w) && lbool_eqb vf l_True then
          propagate_ws s1 p confl rest (kept ++ [w'])
        else
          (* Look for new watch *)
          found <- find_watch s1 2 (skipn 2 lits1) ;;
          match found with
          | Some k =>
              ck <- Vec.get lits1 k ;;
              l <- Vec.set lits1 1 ck ;;
              lits2 <- Vec.set l k false_lit ;;
              let s2 := set_ca s1 (ca_put (ca s1) cr (set_cl_lits c lits2)) in
              (* watches[~c[1]].push(w); a push onto the list that is being
                 traversed would invalidate i, j and end *)
              _ <- (if neg ck =? p then Err OutOfBounds else Ok tt) ;;
              wt <- occ_push (watches s2) (neg ck) w' ;;
              propagate_ws (set_watches s2 wt) p confl rest kept
          | None =>
              (* Did not find watch -- clause is unit under assignment *)
              if lbool_eqb vf l_False then
                (* conflict: qhead = trail.size(), copy the remaining watches *)
                Ok (cr, (kept ++ [w']) ++ rest, set_qhead s1 (length (trail s1)))
              else
                s2 <- uncheckedEnqueue s1 first cr ;;
                propagate_ws s2 p confl rest (kept ++ [w'])
          end
  end.

(** One round of the [while(qhead < trail.size())] loop. *)
Definition propagate_round (s : Solver) (confl : CRef) : res (CRef * Solver) :=
  p <- Vec.get (trail s) (qhead s) ;;
  let s1 := set_qhead s (S (qhead s)) in
  ws <- occ_get (watches s1) p ;;
  let s2 := set_propagations s1 (incr64 (propagations s1)) in
  '(confl', kept, s3) <- propagate_ws s2 p confl ws [] ;;
  (* ws.shrink(i - j) *)
  wt <- occ_set (watches s3) p kept ;;
  Ok (confl', set_watches s3 wt).

Fixpoint propagate_loop (fuel : nat) (s : Solver) (confl : CRef) : res (CRef * Solver) :=
  if (qhead s <? length (trail s))%nat then
    match fuel with
    | O => Err OutOfFuel
    | S f =>
        '(confl', s1) <- propagate_round s confl ;;
        propagate_loop f s1 confl'
    end
  else Ok (confl, s).

(** Every round of the outer loop advances [qhead], and the trail grows only
    by assigning an unassigned variable. *)
Definition propagate (s : Solver) : res (CRef * Solver) :=
  let s0 := set_watches s (occ_cleanAll (ca s) (watches s)) in
  propagate_loop (S (length (trail s) + length (assigns s))) s0 CRef_Undef.

(** *** Conflict analysis *)

(** The loop of [analyze] over the literals [q] of the conflicting clause. *)
Fixpoint analyze_lits (s : Solver) (qs : list Lit) (out_learnt : list Lit)
  (nbResolutionsToPerform : Z) : res (Solver * list Lit * Z) :=
  match qs with
  | [] => Ok (s, out_learnt, nbResolutionsToPerform)
  | q :: rest =>
      x <- varI q ;;
      sn <- Vec.get (seen s) x ;;
      lv <- (if sn : bool then Ok O else level s x) ;;
      if negb sn && (0 <? lv)%nat then
        s1 <- varBumpActivity s x ;;
        sn' <- Vec.set (seen s1) x true ;;
        let s2 := set_seen s1 sn' in
        if (decisionLevel s2 <=? lv)%nat then
          analyze_lits s2 rest out_learnt (nbResolutionsToPerform + 1)
        else
          analyze_lits s2 rest (out_learnt ++ [q]) nbResolutionsToPerform
      else analyze_lits s rest out_learnt nbResolutionsToPerform
  end.

(** [while(!seen[var(trail[index--])]);] with [n = index + 1] on entry; the
    result is the position [index + 1] of the selected literal on exit. *)
Fixpoint scan_seen (s : Solver) (n : nat) : res nat :=
  match n with
  | O => Err OutOfBounds
  | S i =>
      l <- Vec.get (trail s) i ;;
      x <- varI l ;;
      sn <- Vec.get (seen s) x ;;
      if sn : bool then Ok i else scan_seen s i
  end.

(** The [do ... while(nbResolutionsToPerform > 0)] loop; [n = index + 1]. *)
Fixpoint analyze_loop (fuel : nat) (s : Solver) (confl : CRef) (p : Lit)
  (out_learnt : list Lit) (n : nat) (nbResolutionsToPerform : Z)
  : res (Solver * Lit * list Lit) :=
  match fuel with
  | O => Err OutOfFuel
  | S f =>
      _ <- assert (negb (confl =? CRef_Undef)) ;;
      c <- ca_get (ca s) confl ;;
      let s1 := set_nb_resolutions s (incr64 (nb_resolutions s)) in
      s2 <- (if cl_learnt c then claBumpActivity s1 confl else Ok s1) ;;
      '(s3, out1, nb1) <- analyze_lits s2 (if p =? lit_Undef then cl_lits c
                                            else skipn 1 (cl_lits c))
                                       out_learnt nbResolutionsToPerform ;;
      (* Select next useful literal on the last level *)
      i <- scan_seen s3 n ;;
      p' <- Vec.get (trail s3) i ;;
      x <- varI p' ;;
      confl' <- reason s3 x ;;
      sn <- Vec.set (seen s3) x false ;;
      let s4 := set_seen s3 sn in
      let nb2 := nb1 - 1 in
      if 0 <? nb2 then analyze_loop f s4 confl' p' out1 i nb2
      else Ok (s4, p', out1)
  end.

(** [for(int i = 2; i < out_learnt.size(); i++)
       if(level(var(out_learnt[i])) > level(var(out_learnt[max_i]))) max_i = i;] *)
Fixpoint max_level_index (s : Solver) (out_learnt : list Lit) (i : nat) (tail : list Lit)
  (max_i : nat) : res nat :=
  match tail with
  | [] => Ok max_i
  | q :: t =>
      x <- varI q ;;
      li <- level s x ;;
      qm <- Vec.get out_learnt max_i ;;
      xm <- varI qm ;;
      lm <- level s xm ;;
      max_level_index s out_learnt (S i) t (if (lm <? li)%nat then i else max_i)
  end.

(** The end of [analyze]: the asserting literal, the backtrack level and the
    swap that brings a literal of that level to position 1. *)
Definition analyze_finish (s : Solver) (p : Lit) (out_learnt : list Lit)
  : res (list Lit * nat) :=
  out1 <- Vec.set out_learnt 0 (neg p) ;;
  if (length out1 =? 1)%nat then Ok (out1, O)
  else
    max_i <- max_level_index s out1 2 (skipn 2 out1) 1 ;;
    (* Swap-in this literal at index 1 *)
    p' <- Vec.get out1 max_i ;;
    o1 <- Vec.get out1 1 ;;
    out2 <- Vec.set out1 max_i o1 ;;
    out3 <- Vec.set out2 1 p' ;;
    x <- varI p' ;;
    lv <- level s x ;;
    Ok (out3, lv).

Fixpoint computeLBD_loop (s : Solver) (lits : list Lit) (nblevels : Z) : res (Z * Solver) :=
  match lits with
  | [] => Ok (nblevels, s)
  | q :: t =>
      x <- varI q ;;
      l <- level s x ;;
      tag <- Vec.get (levelTagged s) l ;;
      if tag =? FLAG s then computeLBD_loop s t nblevels
      else
        lt <- Vec.set (levelTagged s) l (FLAG s) ;;
        computeLBD_loop (set_levelTagged s lt) t (nblevels + 1)
  end.

Definition computeLBD (s : Solver) (lits : list Lit) : res (Z * Solver) :=
  computeLBD_loop (set_FLAG s (incr32 (FLAG s))) lits 0.

Fixpoint clear_seen (s : Solver) (lits : list Lit) : res Solver :=
  match lits with
  | [] => Ok s
  | q :: t =>
      x <- varI q ;;
      sn <- Vec.set (seen s) x false ;;
      clear_seen (set_seen s sn) t
  end.

(** [analyze(confl, out_learnt, out_btlevel, lbd)]; [out_learnt.push()] leaves
    room for the asserting literal (a value-initialised [Lit]). *)
Definition analyze (s : Solver) (confl : CRef) : res (Solver * list Lit * nat * Z) :=
  '(s1, p, out0) <- analyze_loop (S (length (trail s))) s confl lit_Undef [0]
                                 (length (trail s)) 0 ;;
  '(out_learnt, out_btlevel) <- analyze_finish s1 p out0 ;;
  '(lbd, s2) <- computeLBD s1 out_learnt ;;
  s3 <- clear_seen s2 out_learnt ;;
  Ok (s3, out_learnt, out_btlevel, lbd).

(** *** Attaching and removing clauses *)

Definition attachClause (s : Solver) (cr : CRef) : res Solver :=
  c <- ca_get (ca s) cr ;;
  _ <- assert (1 <? length (cl_lits c))%nat ;;
  c0 <- Vec.get (cl_lits c) 0 ;;
  c1 <- Vec.get (cl_lits c) 1 ;;
  w1 <- occ_push (watches s) (neg c0) (mkWatcher cr c1) ;;
  w2 <- occ_push w1 (neg c1) (mkWatcher cr c0) ;;
  let s1 := set_watches s w2 in
  Ok (if cl_learnt c
      then set_nb_lits_in_learnts s1
             (add64 (nb_lits_in_learnts s1) (Z.of_nat (length (cl_lits c))))
      else s1).

(** [detachClause(cr)] with [strict = false], the only call in the core. *)
Definition detachClause (s : Solver) (cr : CRef) : res Solver :=
  c <- ca_get (ca s) cr ;;
  _ <- assert (1 <? length (cl_lits c))%nat ;;
  c0 <- Vec.get (cl_lits c) 0 ;;
  c1 <- Vec.get (cl_lits c) 1 ;;
  w1 <- occ_smudge (watches s) (neg c0) ;;
  w2 <- occ_smudge w1 (neg c1) ;;
  let s1 := set_watches s w2 in
  Ok (if cl_learnt c
      then set_nb_lits_in_learnts s1
             (add64 (nb_lits_in_learnts s1) (- Z.of_nat (length (cl_lits c))))
      else s1).

Definition removeClause (s : Solver) (cr : CRef) : res Solver :=
  c <- ca_get (ca s) cr ;;
  s1 <- detachClause s cr ;;
  (* Don't leave pointers to free'd memory! *)
  lk <- locked s1 cr c ;;
  s2 <- (if lk : bool then
           c0 <- Vec.get (cl_lits c) 0 ;;
           vd <- Vec.get (vardata s1) (var c0) ;;
           vds <- Vec.set (vardata s1) (var c0) (mkVarData CRef_Undef (vd_level vd)) ;;
           Ok (set_vardata s1 vds)
         else Ok s1) ;;
  let a1 := ca_put (ca s2) cr (set_cl_mark c 1) in
  a2 <- ca_free a1 cr ;;
  Ok (set_nb_removed_clauses (set_ca s2 a2) (incr64 (nb_removed_clauses s2))).

(** *** Garbage collection *)

Fixpoint reloc_watchers (from : ClauseAllocator) (ws : list Watcher) (to : ClauseAllocator)
  : res (list Watcher * ClauseAllocator * ClauseAllocator) :=
  match ws with
  | [] => Ok ([], from, to)
  | w :: t =>
      '(cr', from1, to1) <- ca_reloc from (cref w) to ;;
      '(t', from2, to2) <- reloc_watchers from1 t to1 ;;
      Ok (mkWatcher cr' (blocker w) :: t', from2, to2)
  end.

(** [for v < nVars(), s < 2: p = mkLit(v, s); ws = watches[p]; ...]: the
    literals [0 .. 2 * nVars() - 1] in increasing order; [n] counts the
    literals still to visit. *)
Fixpoint reloc_occs (n : nat) (p : nat) (from : ClauseAllocator) (occs : OccLists)
  (to : ClauseAllocator) : res (OccLists * ClauseAllocator * ClauseAllocator) :=
  match n with
  | O => Ok (occs, from, to)
  | S n' =>
      ws <- Vec.get occs p ;;
      '(ws', from1, to1) <- reloc_watchers from ws to ;;
      occs1 <- Vec.set occs p ws' ;;
      reloc_occs n' (S p) from1 occs1 to1
  end.

Fixpoint reloc_reasons (s : Solver) (tr : list Lit) (to : ClauseAllocator)
  : res (Solver * ClauseAllocator) :=
  match tr with
  | [] => Ok (s, to)
  | l :: t =>
      v <- varI l ;;
      r <- reason s v ;;
      go <- (if r =? CRef_Undef then Ok false
             else
               c <- ca_get (ca s) r ;;
               if cl_reloced c then Ok true else locked s r c) ;;
      if go : bool then
        '(r', from1, to1) <- ca_reloc (ca s) r to ;;
        vd <- Vec.get (vardata s) v ;;
        vds <- Vec.set (vardata s) v (mkVarData r' (vd_level vd)) ;;
        reloc_reasons (set_vardata (set_ca s from1) vds) t to1
      else reloc_reasons s t to
  end.

Fixpoint reloc_list (from : ClauseAllocator) (crs : list CRef) (to : ClauseAllocator)
  : res (list CRef * ClauseAllocator * ClauseAllocator) :=
  match crs with
  | [] => Ok ([], from, to)
  | cr :: t =>
      '(cr', from1, to1) <- ca_reloc from cr to ;;
      '(t', from2, to2) <- reloc_list from1 t to1 ;;
      Ok (cr' :: t', from2, to2)
  end.

Definition relocAll (s : Solver) (to : ClauseAllocator) : res (Solver * ClauseAllocator) :=
  (* All watchers *)
  let s0 := set_watches s (occ_cleanAll (ca s) (watches s)) in
  '(occs, from1, to1) <- reloc_occs (2 * nVars s0) 0 (ca s0) (watches s0) to ;;
  let s1 := set_watches (set_ca s0 from1) occs in
  (* All reasons *)
  '(s2, to2) <- reloc_reasons s1 (trail s1) to1 ;;
  (* All learnt *)
  '(ls, from3, to3) <- reloc_list (ca s2) (learnts s2) to2 ;;
  (* All original *)
  '(cs, from4, to4) <- reloc_list from3 (clauses s2) to3 ;;
  Ok (set_clauses (set_learnts (set_ca s2 from4) ls) cs, to4).

Definition garbageCollect (s : Solver) : res Solver :=
  '(s1, to) <- relocAll s ca_empty ;;
  (* to.moveTo(ca) *)
  Ok (set_ca s1 to).

Definition checkGarbage (s : Solver) : res Solver :=
  if d_ltb (d_mul (d_of_Z (ca_size (ca s))) (garbage_frac s)) (d_of_Z (ca_wasted (ca s)))
  then garbageCollect s
  else Ok s.

(** *** Reduction of the learnt clause database *)

Definition reduceDB_lt (x y : CRef * Clause) : bool :=
  let cx := snd x in
  let cy := snd y in
  let sx := length (cl_lits cx) in
  let sy := length (cl_lits cy) in
  if (2 <? sx)%nat && (sy =? 2)%nat then true
  else if (2 <? sy)%nat && (sx =? 2)%nat then false
  else if (sx =? 2)%nat && (sy =? 2)%nat then false
  else if cl_lbd cy <? cl_lbd cx then true
  else if cl_lbd cx <? cl_lbd cy then false
  else d_ltb (cl_activity cx) (cl_activity cy).

Fixpoint load_clauses (a : ClauseAllocator) (crs : list CRef) : res (list (CRef * Clause)) :=
  match crs with
  | [] => Ok []
  | cr :: t =>
      c <- ca_get a cr ;;
      r <- load_clauses a t ;;
      Ok ((cr, c) :: r)
  end.

(** [sort(learnts, reduceDB_lt(ca))] *)
Definition sort_learnts (a : ClauseAllocator) (ls : list CRef) : res (list CRef) :=
  l <- load_clauses a ls ;;
  Ok (map fst (sort_by reduceDB_lt l)).

(** The loop of [reduceDB]: [ls] are the entries from index [i] on, [kept]
    the entries already copied to [j], [half = learnts.size() / 2]. *)
Fixpoint reduceDB_loop (s : Solver) (half : nat) (i : nat) (ls kept : list CRef)
  : res (Solver * list CRef) :=
  match ls with
  | [] => Ok (s, kept)
  | cr :: rest =>
      c <- ca_get (ca s) cr ;;
      del <- (if (2 <? length (cl_lits c))%nat then
                lk <- locked s cr c ;;
                Ok (negb lk && (i <? half)%nat)
              else Ok false) ;;
      if del : bool then
        s1 <- removeClause s cr ;;
        reduceDB_loop s1 half (S i) rest kept
      else reduceDB_loop s half (S i) rest (kept ++ [cr])
  end.

Definition reduceDB (s : Solver) : res Solver :=
  let s1 := set_nb_reducedb s (incr64 (nb_reducedb s)) in
  sorted <- sort_learnts (ca s1) (learnts s1) ;;
  let s2 := set_learnts s1 sorted in
  '(s3, kept) <- reduceDB_loop s2 (length sorted / 2) 0 sorted [] ;;
  checkGarbage (set_learnts s3 kept).

(** *** Adding variables and clauses *)

Definition newVar (s : Solver) (sgn : bool) : Var * Solver :=
  let v := nVars s in
  let s1 := set_watches s (occ_init (occ_init (watches s) (mkLit v false)) (mkLit v true)) in
  let s2 := set_assigns s1 (Vec.push (assigns s1) l_Undef) in
  let s3 := set_vardata s2 (Vec.push (vardata s2) (mkVarData CRef_Undef 0)) in
  let s4 := set_activity s3 (Vec.push (activity s3) (d_of_Z 0)) in
  let s5 := set_seen s4 (Vec.push (seen s4) false) in
  let s6 := set_polarity s5 (Vec.push (polarity s5) sgn) in
  let s7 := insertVarOrder s6 v in
  let s8 := set_trail_cap s7 (Vec.capacity (trail_cap s7) (v + 1)) in
  (v, set_levelTagged s8 (Vec.push (levelTagged s8) 0)).

(** The loop of [addClause_] over the sorted [ps]: [n] rounds remain, [i] is
    the index read, [j] the index written.  [true] in the result means that
    the function returned [true] from inside the loop. *)
Fixpoint addClause_loop (s : Solver) (n : nat) (ps : list Lit) (i j : nat) (p : Lit)
  : res (bool * list Lit * nat) :=
  match n with
  | O => Ok (false, ps, j)
  | S n' =>
      q <- Vec.get ps i ;;
      v <- value s q ;;
      if lbool_eqb v l_True || (q =? neg p) then Ok (true, ps, j)
      else if negb (lbool_eqb v l_False) && negb (q =? p) then
        ps' <- Vec.set ps j q ;;
        addClause_loop s n' ps' (S i) (S j) q
      else addClause_loop s n' ps (S i) j p
  end.

(** [addClause_(ps)]: the result, the vector [ps] as the call leaves it, and
    the state. *)
Definition addClause_ (s : Solver) (ps : list Lit) : res (bool * list Lit * Solver) :=
  _ <- assert (decisionLevel s =? 0)%nat ;;
  if negb (ok s) then Ok (false, ps, s)
  else
    (* Check if clause is satisfied and remove false/duplicate literals *)
    let ps1 := sort ps in
    '(sat, ps2, j) <- addClause_loop s (length ps1) ps1 0 0 lit_Undef ;;
    if sat : bool then Ok (true, ps2, s)
    else
      ps3 <- Vec.shrink ps2 (Z.of_nat (length ps2) - Z.of_nat j) ;;
      match ps3 with
      | [] => Ok (false, ps3, set_ok s false)
      | [l] =>
          s1 <- uncheckedEnqueue s l CRef_Undef ;;
          '(confl, s2) <- propagate s1 ;;
          let r := confl =? CRef_Undef in
          Ok (r, ps3, set_ok s2 r)
      | _ =>
          '(cr, a) <- ca_alloc (ca s) ps3 false ;;
          let s1 := set_clauses (set_ca s a) (Vec.push (clauses s) cr) in
          s2 <- attachClause s1 cr ;;
          Ok (true, ps3, s2)
      end.

(** *** Search and solve *)

(** One conflict of [search], after the test of the decision level. *)
Definition search_conflict (s : Solver) (confl : CRef) : res Solver :=
  let s1 := set_trailQueue s (bq_push (trailQueue s) (Z.of_nat (length (trail s)))) in
  (* BLOCK RESTART *)
  let s2 := if (10000 <? conflicts s1) && bq_isvalid (lbdQueue s1)
               && d_ltb (d_mul (d_of_Q 1.4%Q) (bq_getavg (trailQueue s1)))
                        (d_of_Z (Z.of_nat (length (trail s1))))
            then set_lbdQueue s1 (bq_fastclear (lbdQueue s1)) else s1 in
  '(s3, learnt_clause, backtrack_level, lbd) <- analyze s2 confl ;;
  (* Glucose restarts *)
  let s4 := set_sumLBD (set_lbdQueue s3 (bq_push (lbdQueue s3) lbd))
                       (d_add (sumLBD s3) (d_of_Z lbd)) in
  s5 <- cancelUntil s4 backtrack_level ;;
  l0 <- Vec.get learnt_clause 0 ;;
  s6 <- (if (length learnt_clause =? 1)%nat then uncheckedEnqueue s5 l0 CRef_Undef
         else
           '(cr, a) <- ca_alloc (ca s5) learnt_clause true ;;
           let t1 := set_learnts (set_ca s5 a) (Vec.push (learnts s5) cr) in
           t2 <- attachClause t1 cr ;;
           t3 <- claBumpActivity t2 cr ;;
           t4 <- uncheckedEnqueue t3 l0 cr ;;
           c <- ca_get (ca t4) cr ;;
           Ok (set_ca t4 (ca_put (ca t4) cr (set_cl_lbd c lbd)))) ;;
  Ok (claDecayActivity (varDecayActivity s6)).

(** One round of the [for(;;)] loop of [search]: [inl] is a [return], [inr] the
    state at the start of the next round. *)
Definition search_round (s : Solver) : res (lbool * Solver + Solver) :=
  '(confl, s1) <- propagate s ;;
  if negb (confl =? CRef_Undef) then
    (* CONFLICT *)
    let s2 := set_conflicts s1 (incr64 (conflicts s1)) in
    if (decisionLevel s2 =? 0)%nat then Ok (inl (l_False, s2))
    else
      s3 <- search_conflict s2 confl ;;
      Ok (inr s3)
  else
    (* NO CONFLICT *)
    restart <- (if bq_isvalid (lbdQueue s1) then
                  _ <- (if conflicts s1 =? 0 then Err DivisionByZero else Ok tt) ;;
                  Ok (d_ltb (d_div (sumLBD s1) (d_of_Z (conflicts s1)))
                            (d_mul (bq_getavg (lbdQueue s1)) (d_of_Q 0.8%Q)))
                else Ok false) ;;
    if restart : bool then
      s2 <- cancelUntil (set_lbdQueue s1 (bq_fastclear (lbdQueue s1))) 0 ;;
      Ok (inl (l_Undef, s2))
    else
      s2 <- (if nextReduceDB s1 <=? conflicts s1 then
               t <- reduceDB s1 ;;
               Ok (set_nextReduceDB t
                     ((conflicts t + 2000 + 1000 * nb_reducedb t) mod 2 ^ 64))
             else Ok s1) ;;
      '(next, s3) <- pickBranchLit s2 ;;
      if next =? lit_Undef then Ok (inl (l_True, s3))
      else
        s4 <- uncheckedEnqueue (newDecisionLevel s3) next CRef_Undef ;;
        Ok (inr s4).

(** [search]: the argument [nof_conflicts] is never read by the source, so the
    restart budget that [solve_] computes for it ([luby], [pow]) has no
    effect and is left out; printing is left out as well ([verbosity] is 0
    in the constructor).  [fuel] bounds the rounds of the [for(;;)] loop. *)
Fixpoint search_loop (fuel : nat) (s : Solver) : res (lbool * Solver) :=
  match fuel with
  | O => Err OutOfFuel
  | S f =>
      r <- search_round s ;;
      match r with
      | inl out => Ok out
      | inr s1 => search_loop f s1
      end
  end.

Definition search (fuel : nat) (s : Solver) : res (lbool * Solver) :=
  _ <- assert (ok s) ;;
  search_loop fuel s.

(** The restart loop of [solve_]: [while(status == l_Undef)]. *)
Fixpoint solve_loop (fuel : nat) (s : Solver) : res (lbool * Solver) :=
  match fuel with
  | O => Err OutOfFuel
  | S f =>
      let s1 := set_starts s (incr64 (starts s)) in
      '(status, s2) <- search f s1 ;;
      if negb (withinBudget s2) then Ok (status, s2)
      else if lbool_eqb status l_Undef then solve_loop f s2
      else Ok (status, s2)
  end.

(** [for(int i = 0; i < nVars(); i++) model[i] = value(i);] *)
Fixpoint copy_model (s : Solver) (n : nat) (i : nat) (m : list lbool) : res (list lbool) :=
  match n with
  | O => Ok m
  | S n' =>
      v <- valueVar s i ;;
      m' <- Vec.set m i v ;;
      copy_model s n' (S i) m'
  end.

Definition solve_ (fuel : nat) (s : Solver) : res (lbool * Solver) :=
  let s0 := set_model s [] in
  if negb (ok s0) then Ok (l_False, s0)
  else
    '(status, s1) <- solve_loop fuel s0 ;;
    s2 <- (if lbool_eqb status l_True then
             (* Extend & copy model *)
             m <- copy_model s1 (nVars s1) 0 (Vec.growTo (model s1) (nVars s1) l_Undef) ;;
             Ok (set_model s1 m)
           else Ok s1) ;;
    s3 <- cancelUntil s2 0 ;;
    Ok (status, s3).

Definition solve (fuel : nat) (s : Solver) : res (lbool * Solver) :=
  solve_ fuel (budgetOff s).

(** The constructor [Solver::Solver()], with the default values of the options. *)
Definition Solver_new : Solver :=
  {| model := []; var_decay := d_of_Q 0.95%Q; clause_decay := d_of_Q 0.999%Q;
     luby_restart := true; nextReduceDB := 2000; garbage_frac := d_of_Q 0.20%Q;
     starts := 0; decisions := 0; propagations := 0; conflicts := 0;
     nb_removed_clauses := 0; nb_reducedb := 0; nb_resolutions := 0;
     nb_lits_in_learnts := 0; ok := true; clauses := []; learnts := [];
     cla_inc := d_of_Z 1; activity := []; var_inc := d_of_Z 1; watches := [];
     assigns := []; polarity := []; trail := []; trail_cap := 0; trail_lim := [];
     vardata := []; qhead := 0; order_heap := []; ca := ca_empty; seen := [];
     levelTagged := []; FLAG := 0; conflict_budget := -1; propagation_budget := -1;
     asynch_interrupt := false; lbdQueue := bq_initSize 50; trailQueue := bq_initSize 5000;
     sumLBD := d_of_Z 0 |}.

End WithFloat.

Arguments Clause : clear implicits.
Arguments ClauseAllocator : clear implicits.
Arguments Solver : clear implicits.

Unset Implicit Arguments.

(** * Invariants of the solver state *)

Section Invariants.
Context {D : Type} {FO : FloatOps D}.

(** The part of a clause that the invariants read. *)
Definition cl_core (c : Clause D) : list Lit * bool * Z * bool :=
  (cl_lits c, cl_learnt c, cl_mark c, cl_reloced c).

Definition core (s : Solver D) (cr : CRef) : option (list Lit * bool * Z * bool) :=
  option_map cl_core (ca_mem (ca s) cr).

(** Two states that the invariants cannot tell apart. *)
Record veq (s s' : Solver D) : Prop := mk_veq {
  veq_ok : ok s' = ok s;
  veq_clauses : clauses s' = clauses s;
  veq_learnts : learnts s' = learnts s;
  veq_core : forall cr, core s' cr = core s cr;
  veq_casize : ca_size (ca s') = ca_size (ca s);
  veq_watches : watches s' = watches s;
  veq_assigns : assigns s' = assigns s;
  veq_trail : trail s' = trail s;
  veq_trail_lim : trail_lim s' = trail_lim s;
  veq_qhead : qhead s' = qhead s;
  veq_heap : order_heap s' = order_heap s;
  veq_nvars : length (vardata s') = length (vardata s);
  veq_vardata : vardata s' = vardata s
}.

(** The literals of the clause at [cr]. *)
Definition lits_at (s : Solver D) (cr : CRef) (ls : list Lit) : Prop :=
  exists c, ca_mem (ca s) cr = Some c /\ cl_lits c = ls.

(** Some watcher of the list of [p] refers to [cr]. *)
Definition has_watcher (s : Solver D) (p : Lit) (cr : CRef) : Prop :=
  exists ws w, nth_error (watches s) (Z.to_nat p) = Some ws /\ In w ws /\ cref w = cr.

(** The two-watched-literal property of the clause [ls] for the assignment
    [T], when the literals of [Tq] have been propagated: a watched literal
    whose negation was propagated comes with a true literal of the clause. *)
Definition watch_ok (T Tq : list Lit) (ls : list Lit) : Prop :=
  forall w, (nth_error ls 0 = Some w \/ nth_error ls 1 = Some w) ->
            In (neg w) Tq -> exists l, In l ls /\ In l T.

(** A clause in the data base: stored, not deleted, attached on its first two
    literals. *)
Definition stored_clause (s : Solver D) (cr : CRef) : Prop :=
  exists c c0 c1 rest,
    ca_mem (ca s) cr = Some c
    /\ cl_mark c <> 1
    /\ cl_lits c = c0 :: c1 :: rest
    /\ NoDup (cl_lits c)
    /\ (forall l, In l (cl_lits c) -> 0 <= l /\ (var l < nVars s)%nat)
    /\ has_watcher s (neg c0) cr /\ has_watcher s (neg c1) cr.

(** Well-formed states: the assignment and the trail, *)
Record WFa (s : Solver D) : Prop := mk_WFa {
  wf_assigns_len : length (assigns s) = nVars s;
  wf_trail_true : forall l, In l (trail s) -> value s l = Ok l_True;
  wf_true_trail : forall l, value s l = Ok l_True -> In l (trail s);
  wf_trail_nodup : NoDup (map var (trail s));
  wf_heap : forall x, nth_error (assigns s) x = Some l_Undef -> In x (order_heap s)
}.

(** the decision levels, *)
Record WFt (s : Solver D) : Prop := mk_WFt {
  wf_lim_sorted : StronglySorted le (trail_lim s);
  wf_lim_qhead : forall b, In b (trail_lim s) -> (b <= qhead s)%nat;
  wf_qhead : (qhead s <= length (trail s))%nat
}.

(** the arena, *)
Record WFm (s : Solver D) : Prop := mk_WFm {
  wf_arena : forall cr c, ca_mem (ca s) cr = Some c ->
               0 <= cr < ca_size (ca s) /\ cl_reloced c = false;
  wf_arena_size : 0 <= ca_size (ca s) <= CRef_Undef;
  wf_learnts : forall cr, In cr (learnts s) ->
               exists c, ca_mem (ca s) cr = Some c /\ cl_learnt c = true;
  wf_orig : forall cr, In cr (clauses s) ->
               exists c, ca_mem (ca s) cr = Some c /\ cl_learnt c = false
}.

(** the watch lists and the original clauses, *)
Record WFw (s : Solver D) : Prop := mk_WFw {
  wf_watches_len : length (watches s) = (2 * nVars s)%nat;
  wf_watch_dom : forall i ws w, nth_error (watches s) i = Some ws -> In w ws ->
               ca_mem (ca s) (cref w) <> None;
  wf_clauses : forall cr, In cr (clauses s) -> stored_clause s cr;
  wf_blockers : forall i ws w, nth_error (watches s) i = Some ws -> In w ws ->
               In (cref w) (clauses s) ->
               exists c, ca_mem (ca s) (cref w) = Some c /\ In (blocker w) (cl_lits c)
}.

(** and the watch property of the assignment at every decision. *)
Definition PF (s : Solver D) : Prop :=
  forall b cr ls, In b (trail_lim s) -> In cr (clauses s) -> lits_at s cr ls ->
                  watch_ok (firstn b (trail s)) (firstn b (trail s)) ls.

Record WF (s : Solver D) : Prop := mk_WF {
  wf_a : WFa s;
  wf_t : WFt s;
  wf_m : WFm s;
  wf_w : WFw s;
  wf_p : PF s
}.

(** The watch property of the current assignment, when propagation is up to
    [qhead]. *)
Definition CUR (s : Solver D) : Prop :=
  forall cr ls, In cr (clauses s) -> lits_at s cr ls ->
                watch_ok (trail s) (firstn (qhead s) (trail s)) ls.

(** The part of the trail below the first decision. *)
Definition root (s : Solver D) : list Lit :=
  firstn (hd (length (trail s)) (trail_lim s)) (trail s).

(** A clause given to [addClause_] is accounted for: it has a literal that is
    true at level 0, or a stored clause has only literals of it, or it
    holds a literal and its negation. *)
Definition accounted (s : Solver D) (ps : list Lit) : Prop :=
  (exists l, In l ps /\ In l (root s))
  \/ (exists cr ls, In cr (clauses s) /\ lits_at s cr ls /\ incl ls ps)
  \/ (exists l, In l ps /\ In (neg l) ps /\ 0 <= l /\ (var l < nVars s)%nat).

(** The state after [uncheckedEnqueue(p, from)]. *)
Definition enqueued (s : Solver D) (p : Lit) (from : CRef) : Solver D :=
  set_trail
    (set_vardata
       (set_assigns s (Vec.upd (assigns s) (var p) (lbool_of_bool (negb (sign p)))))
       (Vec.upd (vardata s) (var p) (mkVarData from (decisionLevel s))))
    (trail s ++ [p]).

(** States with the same clauses. *)
Definition core_eq (s s' : Solver D) : Prop := forall cr, core s' cr = core s cr.

Definition lbool_neg (v : lbool) : lbool :=
  match v with l_True => l_False | l_False => l_True | l_Undef => l_Undef end.

(** The scan of [addClause_] as a function of the literals that remain. *)
Fixpoint clean (s : Solver D) (p : Lit) (qs kept : list Lit) : res (bool * list Lit) :=
  match qs with
  | [] => Ok (false, kept)
  | q :: t =>
      v <- value s q ;;
      if lbool_eqb v l_True || (q =? neg p) then Ok (true, kept)
      else if negb (lbool_eqb v l_False) && negb (q =? p) then clean s q t (kept ++ [q])
      else clean s p t kept
  end.

(** The state in which the list of [p] is [l]: during the loop the list is
    held by the pointers [i], [j] and [end]. *)
Definition virt (p : Lit) (s : Solver D) (l : list Watcher) : Solver D :=
  set_watches s (Vec.upd (watches s) (Z.to_nat p) l).

Definition pend_ok (p : Lit) (s : Solver D) (pend : list Watcher) : Prop :=
  forall cr ls w,
    In cr (clauses s) -> lits_at s cr ls ->
    (nth_error ls 0 = Some w \/ nth_error ls 1 = Some w) ->
    In (neg w) (firstn (qhead s) (trail s)) ->
    (exists l, In l ls /\ In l (trail s))
    \/ (neg w = p /\ exists x, In x pend /\ cref x = cr).

Record LI (p : Lit) (s : Solver D) (kept ws : list Watcher) : Prop := mk_LI {
  li_wf : WF (virt p s (kept ++ ws));
  li_pend : pend_ok p s ws;
  li_pidx : (Z.to_nat p < length (watches s))%nat;
  li_ptrue : value s p = Ok l_True;
  li_pfresh : forall b, In b (trail_lim s) -> ~ In p (firstn b (trail s))
}.

(** What propagation leaves unchanged. *)
Record pframe (s s' : Solver D) : Prop := mk_pframe {
  pf_ok : ok s' = ok s;
  pf_clauses : clauses s' = clauses s;
  pf_learnts : learnts s' = learnts s;
  pf_trail_lim : trail_lim s' = trail_lim s;
  pf_trail : exists ext, trail s' = trail s ++ ext;
  pf_nvars : length (vardata s') = length (vardata s);
  pf_lits : forall cr ls, lits_at s cr ls -> exists ls', lits_at s' cr ls' /\ Permutation ls ls'
}.

(** The state of [newVar] before the variable is inserted into the heap. *)
Definition newVar_pre (s : Solver D) (sgn : bool) : Solver D :=
  let v := nVars s in
  let s1 := set_watches s (occ_init (occ_init (watches s) (mkLit v false)) (mkLit v true)) in
  let s2 := set_assigns s1 (Vec.push (assigns s1) l_Undef) in
  let s3 := set_vardata s2 (Vec.push (vardata s2) (mkVarData CRef_Undef 0)) in
  let s4 := set_activity s3 (Vec.push (activity s3) (d_of_Z 0)) in
  let s5 := set_seen s4 (Vec.push (seen s4) false) in
  set_polarity s5 (Vec.push (polarity s5) sgn).

(** Two states with the same clauses, watch lists and variable data. *)
Record same_db (s s' : Solver D) : Prop := mk_same_db {
  sd_ok : ok s' = ok s;
  sd_clauses : clauses s' = clauses s;
  sd_learnts : learnts s' = learnts s;
  sd_ca : ca s' = ca s;
  sd_watches : watches s' = watches s;
  sd_vardata : vardata s' = vardata s
}.

(** What a step of the search keeps of the clauses given to the solver: the
    assignment below the first decision, the original clauses up to the
    order of their literals and to their place in the arena, and the
    variables. *)
Record ext (s s' : Solver D) : Prop := mk_ext {
  ext_root : forall l, In l (root s) -> In l (root s');
  ext_clauses : forall cr ls, In cr (clauses s) -> lits_at s cr ls ->
                  exists cr' ls', In cr' (clauses s') /\ lits_at s' cr' ls'
                                  /\ Permutation ls ls';
  ext_nvars : (nVars s <= nVars s')%nat
}.

(** Every literal of the clause at [cr] is false. *)
Definition falsified (s : Solver D) (cr : CRef) : Prop :=
  exists c, ca_mem (ca s) cr = Some c
            /\ forall l, In l (cl_lits c) -> value s l = Ok l_False.

(** Unit propagation has nothing left to do on the clauses of the data base:
    each has a true literal or two unassigned literals. *)
Definition unit_closed (s : Solver D) : Prop :=
  forall cr ls, In cr (clauses s) -> lits_at s cr ls ->
    (exists l, In l ls /\ value s l = Ok l_True)
    \/ (exists a b, a <> b /\ In a ls /\ In b ls
                    /\ value s a = Ok l_Undef /\ value s b = Ok l_Undef).

(** What the loop over a watch list relies on: the watcher [w] in the list of
    index [i] has a blocker that is a literal of the solver and refers to a
    clause of two literals or more, all different and all literals of the
    solver, which has the literal of the list at position 0 or 1. *)
Definition watcher_ok (s : Solver D) (i : nat) (w : Watcher) : Prop :=
  0 <= blocker w /\ (var (blocker w) < nVars s)%nat
  /\ exists c a b r,
       ca_mem (ca s) (cref w) = Some c /\ cl_lits c = a :: b :: r
       /\ (Z.to_nat (neg a) = i \/ Z.to_nat (neg b) = i)
       /\ NoDup (cl_lits c)
       /\ (forall l, In l (cl_lits c) -> 0 <= l /\ (var l < nVars s)%nat).

(** Proper watch lists, once the watchers of deleted clauses are swept: the
    trail has room for every variable, every watcher is in order, and no
    list has two watchers of a clause. *)
Record PWc (s : Solver D) : Prop := mk_PWc {
  pc_cap : (nVars s <= trail_cap s)%nat;
  pc_watcher : forall i ws w, nth_error (watches s) i = Some ws -> In w ws ->
                 watcher_ok s i w;
  pc_nodup : forall i ws, nth_error (watches s) i = Some ws -> NoDup (map cref ws)
}.

(** Proper watch lists, with watchers of deleted clauses among them. *)
Record PW (s : Solver D) : Prop := mk_PW {
  pw_cap : (nVars s <= trail_cap s)%nat;
  pw_watcher : forall i ws w, nth_error (watches s) i = Some ws -> In w ws ->
                 exists c, ca_mem (ca s) (cref w) = Some c
                           /\ (cl_mark c <> 1 -> watcher_ok s i w);
  pw_nodup : forall i ws, nth_error (watches s) i = Some ws ->
               NoDup (map cref (filter (fun w => negb (WatcherDeleted (ca s) w)) ws))
}.

(** The literal [q] has a level above 0 and below the current decision
    level. *)
Definition low_level (s : Solver D) (q : Lit) : Prop :=
  0 <= q /\ exists lv, level s (var q) = Ok lv /\ (0 < lv < decisionLevel s)%nat.

(** Every variable has a value. *)
Definition all_assigned (s : Solver D) : Prop :=
  forall x, nth_error (assigns s) x <> Some l_Undef.

(** ** The model

    The value of a literal in the vector [model]. *)
Definition model_value (m : list lbool) (p : Lit) : option lbool :=
  option_map (fun a => lbool_xor a (sign p)) (nth_error m (var p)).

(** ** Entering a formula

    The calls by which a client enters a formula, in their order: [newVar]
    and [addClause_], whose result is not looked at. *)
Inductive input_op : Type :=
| NewVar (sgn : bool)
| AddClause (ps : list Lit).

Fixpoint enter (s : Solver D) (ops : list input_op) : res (Solver D) :=
  match ops with
  | [] => Ok s
  | NewVar sgn :: rest => enter (snd (newVar s sgn)) rest
  | AddClause ps :: rest =>
      '(_, _, s1) <- addClause_ s ps ;;
      enter s1 rest
  end.

(** ** Garbage collection

    The forwarding address of a clause that has been moved. *)
Definition fwd (a : ClauseAllocator D) (cr : CRef) : option CRef :=
  match ca_mem a cr with
  | Some c => if cl_reloced c then nth_error (cl_lits c) 0 else None
  | None => None
  end.

(** The arenas during a collection: [from0] is the arena at its start,
    [from] the same arena with the clauses moved so far forwarding to their
    copies, which are the clauses of [to]. *)
Record RI (from0 from to : ClauseAllocator D) : Prop := mk_RI {
  ri_none : forall cr, ca_mem from0 cr = None -> ca_mem from cr = None;
  ri_keep : forall cr c0, ca_mem from0 cr = Some c0 -> fwd from cr = None ->
              ca_mem from cr = Some c0;
  ri_fwd : forall cr y, fwd from cr = Some y ->
              exists c0, ca_mem from0 cr = Some c0 /\ ca_mem to y = Some c0;
  ri_to : forall y c, ca_mem to y = Some c ->
              0 <= y < ca_size to /\ exists cr, fwd from cr = Some y;
  ri_inj : forall cr1 cr2 y, fwd from cr1 = Some y -> fwd from cr2 = Some y -> cr1 = cr2;
  ri_size : 0 <= ca_size to <= CRef_Undef;
  ri_clean : forall cr c0, ca_mem from0 cr = Some c0 -> cl_reloced c0 = false
}.

(** The watchers of a list, moved. *)
Definition moved_watcher (from : ClauseAllocator D) (w w' : Watcher) : Prop :=
  blocker w' = blocker w /\ fwd from (cref w) = Some (cref w').

(** The learnt clauses that the loop of [reduceDB] keeps, as its comment
    says: a clause goes iff it has more than two literals, is not locked,
    and its index is in the first half. *)
Fixpoint reduce_keep (s : Solver D) (half i : nat) (ls : list CRef) : list CRef :=
  match ls with
  | [] => []
  | cr :: rest =>
      let del :=
        match ca_mem (ca s) cr with
        | Some c =>
            (2 <? length (cl_lits c))%nat
            && match locked s cr c with Ok lk => negb lk | Err _ => false end
            && (i <? half)%nat
        | None => false
        end in
      (if del then [] else [cr]) ++ reduce_keep s half (S i) rest
  end.

(** The solver after reading [p cnf 2 0]: two calls of [newVar()], whose
    parameter defaults to [true]. *)
Definition cnf_2_0 : Solver D :=
  snd (newVar (snd (newVar Solver_new true)) true).

End Invariants.

(** ** States for examples, computed with rational activities *)

(** [p cnf 2 0] after [addClause_] of the clause [x1 \/ x0]. *)
Definition added_2_0 : bool * list Lit * Solver Q :=
  match addClause_ cnf_2_0 [2; 0] with
  | Ok r => r
  | Err _ => (false, [], cnf_2_0)
  end.

(** [p cnf 2 0] after the decision of the literal [~x0] at level 1. *)
Definition decided_2_0 : Solver Q :=
  match uncheckedEnqueue (newDecisionLevel cnf_2_0) (mkLit 0%nat true) CRef_Undef with
  | Ok s => s
  | Err _ => cnf_2_0
  end.

(** [p cnf 2 0] after [addClause_] of the clause [x0] and then of the
    clause [~x0]: the second call finds its literal false and clears [ok]. *)
Definition unit_2_0 : Solver Q :=
  match addClause_ cnf_2_0 [0] with Ok (_, _, s) => s | Err _ => cnf_2_0 end.

Definition conflict_2_0 : Solver Q :=
  match addClause_ unit_2_0 [1] with Ok (_, _, s) => s | Err _ => unit_2_0 end.

(** ** A run with a conflict

    Two variables and the clauses [x0 \/ x1] and [x0 \/ ~x1]; the decision
    [~x0] then makes [x1] true by the first clause and the second clause
    false. *)
Definition ex_s0 : Solver Q := cnf_2_0.

Definition ex_s1 : Solver Q :=
  match addClause_ ex_s0 [0; 2] with Ok (_, _, s) => s | Err _ => ex_s0 end.

Definition ex_s2 : Solver Q :=
  match addClause_ ex_s1 [3; 0] with Ok (_, _, s) => s | Err _ => ex_s1 end.

Definition ex_s3 : Solver Q :=
  match uncheckedEnqueue (newDecisionLevel ex_s2) 1 CRef_Undef with
  | Ok s => s
  | Err _ => ex_s2
  end.

Definition ex_s4 : CRef * Solver Q :=
  match propagate ex_s3 with Ok r => r | Err _ => (CRef_Undef, ex_s3) end.

Definition ex_s5 : Solver Q :=
  match search_conflict (snd ex_s4) (fst ex_s4) with Ok s => s | Err _ => snd ex_s4 end.

(** The analysis of that conflict, and the return to level 0 from the
    decision. *)
Definition ex_analyzed : Solver Q :=
  match analyze (snd ex_s4) (fst ex_s4) with Ok (s, _, _, _) => s | Err _ => snd ex_s4 end.

Definition ex_back : Solver Q :=
  match cancelUntil ex_s3 0 with Ok s => s | Err _ => ex_s3 end.

(** A third clause, [~x0 \/ ~x1], stored in the arena of [ex_s2] and not yet
    attached. *)
Definition ex_alloc : Solver Q :=
  match ca_alloc (ca ex_s2) [1; 3] false with
  | Ok (cr, a) => set_clauses (set_ca ex_s2 a) (Vec.push (clauses ex_s2) cr)
  | Err _ => ex_s2
  end.

Definition ex_attached : Solver Q :=
  match attachClause ex_alloc 6 with Ok s => s | Err _ => ex_alloc end.

(** [ex_s0] with a clause of one literal in its arena. *)
Definition ex_short : Solver Q :=
  match ca_alloc (ca ex_s0) [0] false with
  | Ok (_, a) => set_ca ex_s0 a
  | Err _ => ex_s0
  end.

(** The formula of [ex_s2] as a client enters it, and the run of [solve] on
    it. *)
Definition ex_ops : list input_op :=
  [NewVar true; NewVar true; AddClause [0; 2]; AddClause [3; 0]].

Definition ex_solved : Solver Q :=
  match solve 100 ex_s2 with Ok (_, s) => s | Err _ => ex_s2 end.

Definition ex_picked : Lit * Solver Q :=
  match pickBranchLit ex_s2 with Ok r => r | Err _ => (lit_Undef, ex_s2) end.

(** ** A state with learnt clauses

    Three variables, the clause [x0 \/ x1 \/ x2], and learnt clauses added
    the way [search] adds them: allocated, listed and attached. *)
Definition ex_learn (s : Solver Q) (ps : list Lit) : Solver Q :=
  match ca_alloc (ca s) ps true with
  | Ok (cr, a) =>
      match attachClause (set_learnts (set_ca s a) (Vec.push (learnts s) cr)) cr with
      | Ok s' => s'
      | Err _ => s
      end
  | Err _ => s
  end.

Definition ex_l0 : Solver Q :=
  match addClause_ (snd (newVar ex_s0 true)) [0; 2; 4] with
  | Ok (_, _, s) => s
  | Err _ => ex_s0
  end.

(** ** A round of unit propagation without conflict

    The clause [x0 \/ x1] alone and the decision [~x0], which makes [x1]
    true. *)
Definition ex_u3 : Solver Q :=
  match uncheckedEnqueue (newDecisionLevel ex_s1) 1 CRef_Undef with
  | Ok s => s
  | Err _ => ex_s1
  end.

Definition ex_u4 : Solver Q :=
  match propagate ex_u3 with Ok (_, s) => s | Err _ => ex_u3 end.

(** ** A run that learns a clause of two literals

    Three variables and the clauses [x0 \/ x1 \/ x2], [x0 \/ ~x1 \/ x2] and
    [x0 \/ x1 \/ ~x2].  The decision [~x2] at level 1 propagates nothing; the
    decision [~x0] at level 2 makes [x1] true by the first clause and the
    second clause false, with the watcher of the third clause still to be
    visited.  The analysis learns [x0 \/ x2] and returns to level 1. *)
Definition ex_c1 : Solver Q :=
  match addClause_ ex_l0 [0; 3; 4] with Ok (_, _, s) => s | Err _ => ex_l0 end.

Definition ex_c2 : Solver Q :=
  match addClause_ ex_c1 [0; 2; 5] with Ok (_, _, s) => s | Err _ => ex_c1 end.

Definition ex_c3 : Solver Q :=
  match uncheckedEnqueue (newDecisionLevel ex_c2) 5 CRef_Undef with
  | Ok s => s
  | Err _ => ex_c2
  end.

Definition ex_c4 : Solver Q :=
  match propagate ex_c3 with Ok (_, s) => s | Err _ => ex_c3 end.

Definition ex_c5 : Solver Q :=
  match uncheckedEnqueue (newDecisionLevel ex_c4) 1 CRef_Undef with
  | Ok s => s
  | Err _ => ex_c4
  end.

Definition ex_cround : CRef * Solver Q :=
  match propagate_round ex_c5 CRef_Undef with Ok r => r | Err _ => (CRef_Undef, ex_c5) end.

Definition ex_c6 : CRef * Solver Q :=
  match propagate ex_c5 with Ok r => r | Err _ => (CRef_Undef, ex_c5) end.

Definition ex_c7 : Solver Q :=
  match search_conflict (snd ex_c6) (fst ex_c6) with Ok s => s | Err _ => snd ex_c6 end.

(** ** A reduction with a locked clause

    The clause [x0 \/ x1 \/ x2] and four learnt clauses, [~x0 \/ ~x1 \/ ~x2],
    [x0 \/ ~x1 \/ ~x2], [x0 \/ x1 \/ ~x2] and [x0 \/ ~x1]; the decisions [x0]
    and [x1] make the first learnt clause the reason of [~x2]. *)
Definition ex_q0 : Solver Q :=
  ex_learn (ex_learn (ex_learn (ex_learn ex_l0 [1; 3; 5]) [0; 3; 5]) [0; 2; 5]) [0; 3].

Definition ex_q1 : Solver Q :=
  match uncheckedEnqueue (newDecisionLevel ex_q0) 0 CRef_Undef with
  | Ok s => s
  | Err _ => ex_q0
  end.

Definition ex_q2 : Solver Q :=
  match propagate ex_q1 with Ok (_, s) => s | Err _ => ex_q1 end.

Definition ex_q3 : Solver Q :=
  match uncheckedEnqueue (newDecisionLevel ex_q2) 2 CRef_Undef with
  | Ok s => s
  | Err _ => ex_q2
  end.

Definition ex_q4 : Solver Q :=
  match propagate ex_q3 with Ok (_, s) => s | Err _ => ex_q3 end.

Definition ex_qred : Solver Q :=
  match reduceDB ex_q4 with Ok s => s | Err _ => ex_q4 end.

(** The locked clause removed, and the arena of [ex_q4] collected. *)
Definition ex_qrem : Solver Q :=
  match removeClause ex_q4 4 with Ok s => s | Err _ => ex_q4 end.

Definition ex_qgc : Solver Q :=
  match garbageCollect ex_q4 with Ok s => s | Err _ => ex_q4 end.

(** ** A conflict whose analysis swaps

    Four variables and the clauses [x0 \/ x1 \/ x2] and [x0 \/ ~x1 \/ x3].
    The decisions [~x3], [~x2] and [~x0], at the levels 1, 2 and 3, make
    [x1] true by the first clause and the second clause false; the
    analysis meets [x3], of level 1, before [x2], of level 2. *)
Definition ex_decide (s : Solver Q) (l : Lit) : CRef * Solver Q :=
  match uncheckedEnqueue (newDecisionLevel s) l CRef_Undef with
  | Ok s1 => match propagate s1 with Ok r => r | Err _ => (CRef_Undef, s1) end
  | Err _ => (CRef_Undef, s)
  end.

Definition ex_d0 : Solver Q := snd (newVar (snd (newVar ex_s0 true)) true).

Definition ex_d1 : Solver Q :=
  match addClause_ ex_d0 [0; 2; 4] with Ok (_, _, s) => s | Err _ => ex_d0 end.

Definition ex_d2 : Solver Q :=
  match addClause_ ex_d1 [0; 3; 6] with Ok (_, _, s) => s | Err _ => ex_d1 end.

Definition ex_d5 : CRef * Solver Q :=
  ex_decide (snd (ex_decide (snd (ex_decide ex_d2 7)) 5)) 1.

Definition ex_danalyzed : Solver Q :=
  match analyze (snd ex_d5) (fst ex_d5) with Ok (s, _, _, _) => s | Err _ => snd ex_d5 end.

(** The run of [solve] on the formula of [ex_s2] after [setConfBudget(0)]. *)
Definition ex_budget : lbool * Solver Q :=
  match solve 100 (setConfBudget ex_s2 0) with Ok r => r | Err _ => (l_Undef, ex_s2) end.

Arguments ri_none {D from0 from to} _.
Arguments ri_keep {D from0 from to} _.
Arguments ri_fwd {D from0 from to} _.
Arguments ri_to {D from0 from to} _.
Arguments ri_inj {D from0 from to} _.
Arguments ri_size {D from0 from to} _.
Arguments ri_clean {D from0 from to} _.
Arguments wf_assigns_len {D s} _.
Arguments wf_trail_true {D s} _.
Arguments wf_true_trail {D s} _.
Arguments wf_trail_nodup {D s} _.
Arguments wf_heap {D s} _.
Arguments wf_lim_sorted {D s} _.
Arguments wf_lim_qhead {D s} _.
Arguments wf_qhead {D s} _.
Arguments wf_arena {D s} _.
Arguments wf_arena_size {D s} _.
Arguments wf_learnts {D s} _.
Arguments wf_orig {D s} _.
Arguments wf_watches_len {D s} _.
Arguments wf_watch_dom {D s} _.
Arguments wf_clauses {D s} _.
Arguments wf_blockers {D s} _.
Arguments wf_a {D s} _.
Arguments wf_t {D s} _.
Arguments wf_m {D s} _.
Arguments wf_w {D s} _.
Arguments wf_p {D s} _.
Arguments veq_ok {D s s'} _.
Arguments veq_clauses {D s s'} _.
Arguments veq_learnts {D s s'} _.
Arguments veq_core {D s s'} _.
Arguments veq_casize {D s s'} _.
Arguments veq_watches {D s s'} _.
Arguments veq_assigns {D s s'} _.
Arguments veq_trail {D s s'} _.
Arguments veq_trail_lim {D s s'} _.
Arguments veq_qhead {D s s'} _.
Arguments veq_heap {D s s'} _.
Arguments veq_nvars {D s s'} _.
Arguments veq_vardata {D s s'} _.
Arguments li_wf {D p s kept ws} _.
Arguments li_pend {D p s kept ws} _.
Arguments li_pidx {D p s kept ws} _.
Arguments li_ptrue {D p s kept ws} _.
Arguments li_pfresh {D p s kept ws} _.
Arguments pf_ok {D s s'} _.
Arguments pf_clauses {D s s'} _.
Arguments pf_learnts {D s s'} _.
Arguments pf_trail_lim {D s s'} _.
Arguments pf_trail {D s s'} _.
Arguments pf_nvars {D s s'} _.
Arguments pf_lits {D s s'} _.
Arguments pc_cap {D s} _.
Arguments pc_watcher {D s} _.
Arguments pc_nodup {D s} _.
Arguments pw_cap {D s} _.
Arguments pw_watcher {D s} _.
Arguments pw_nodup {D s} _.
Arguments sd_ok {D s s'} _.
Arguments sd_clauses {D s s'} _.
Arguments sd_learnts {D s s'} _.
Arguments sd_ca {D s s'} _.
Arguments sd_watches {D s s'} _.
Arguments sd_vardata {D s s'} _.
Arguments ext_root {D s s'} _.
Arguments ext_clauses {D s s'} _.
Arguments ext_nvars {D s s'} _.

(** * The containers of mtl and the restart sequence *)

(** ** Machine [int]

    The value of an [int] expression, with the wrap-around of two's
    complement. *)
Definition INT_MAX : Z := 2 ^ 31 - 1.

Definition wrap32 (z : Z) : Z := (z + 2 ^ 31) mod 2 ^ 32 - 2 ^ 31.

(** ** mtl/Vec.h: the capacity of a vector

    A vector is its elements ([sz] is their number) and the field [cap];
    [realloc] is taken to succeed, so that [capacity] only throws for a
    capacity beyond [INT_MAX]. *)
Module IntVec.

Record vec (T : Type) : Type := mkVec { data : list T; cap : Z }.
Arguments mkVec {T} _ _.
Arguments data {T} _.
Arguments cap {T} _.

Definition size {T} (v : vec T) : Z := Z.of_nat (length (data v)).

(** [imax(x, y)]: [mask = (y-x) >> (sizeof(int)*8-1); (x&mask) + (y&(~mask))] *)
Definition imax (x y : Z) : Z :=
  let mask := Z.shiftr (wrap32 (y - x)) 31 in
  wrap32 (Z.land x mask + Z.land y (Z.lnot mask)).

(** [capacity(min_cap)], on the field [cap]. *)
Definition capacity (cap min_cap : Z) : res Z :=
  if min_cap <=? cap then Ok cap
  else
    let add := imax (Z.land (wrap32 (wrap32 (min_cap - cap) + 1)) (Z.lnot 1))
                    (Z.land (wrap32 (Z.shiftr cap 1 + 2)) (Z.lnot 1)) in
    if wrap32 (INT_MAX - cap) <? add then Err OutOfMemory
    else Ok (wrap32 (cap + add)).

(** [push(elem)]: [if (sz == cap) capacity(sz+1); data[sz++] = elem;] *)
Definition push {T} (v : vec T) (elem : T) : res (vec T) :=
  c <- (if size v =? cap v then capacity (cap v) (wrap32 (size v + 1)) else Ok (cap v)) ;;
  Ok (mkVec (data v ++ [elem]) c).

(** [push_(elem)]: [assert(sz < cap); data[sz++] = elem;] *)
Definition push_ {T} (v : vec T) (elem : T) : res (vec T) :=
  _ <- assert (size v <? cap v) ;;
  Ok (mkVec (data v ++ [elem]) (cap v)).

(** [pop()]: [assert(sz > 0); sz--] *)
Definition pop {T} (v : vec T) : res (vec T) :=
  _ <- assert (0 <? size v) ;;
  Ok (mkVec (removelast (data v)) (cap v)).

(** [growTo(size, pad)] *)
Definition growTo {T} (v : vec T) (sz : Z) (pad : T) : res (vec T) :=
  if sz <=? size v then Ok v
  else
    c <- capacity (cap v) sz ;;
    Ok (mkVec (data v ++ repeat pad (Z.to_nat (sz - size v))) c).

(** [clear(dealloc)]: nothing to do for a vector that never allocated
    ([data == NULL], that is [cap = 0]). *)
Definition clear {T} (v : vec T) (dealloc : bool) : vec T :=
  if cap v =? 0 then v
  else mkVec [] (if dealloc then 0 else cap v).

(** The size is within the capacity, and the capacity is an even [int]. *)
Definition inv {T} (v : vec T) : Prop :=
  0 <= cap v <= INT_MAX /\ Z.even (cap v) = true /\ size v <= cap v.

End IntVec.

(** ** mtl/Queue.h: a queue in a circular buffer

    [buf] holds the elements of the vector [buf], [dflt] is the value [T()]
    of the elements that the constructor of a vector creates. *)
Module Queue.
Section Queue.
Context {T : Type}.
Variable dflt : T.

Record t : Type := mk { buf : list T; first : Z; end_ : Z }.

Definition len (v : list T) : Z := Z.of_nat (length v).

(** [v[i]], read and written; an index outside the vector is an error. *)
Definition at_ (v : list T) (i : Z) : res T :=
  if i <? 0 then Err OutOfBounds else Vec.get v (Z.to_nat i).

Definition put (v : list T) (i : Z) (a : T) : res (list T) :=
  if i <? 0 then Err OutOfBounds else Vec.set v (Z.to_nat i) a.

(** [Queue() : buf(1), first(0), end(0)] *)
Definition new : t := mk (Vec.growTo [] 1 dflt) 0 0.

(** [clear(dealloc)]: [buf.clear(dealloc); buf.growTo(1); first = end = 0;] *)
Definition clear (q : t) : t := mk (Vec.growTo [] 1 dflt) 0 0.

(** [size()] *)
Definition size (q : t) : Z :=
  if first q <=? end_ q then wrap32 (end_ q - first q)
  else wrap32 (wrap32 (end_ q - first q) + len (buf q)).

(** [operator [] (index)] *)
Definition get (q : t) (index : Z) : res T :=
  _ <- assert (0 <=? index) ;;
  _ <- assert (index <? size q) ;;
  if len (buf q) =? 0 then Err DivisionByZero
  else at_ (buf q) (Z.rem (wrap32 (first q + index)) (len (buf q))).

(** [peek()] *)
Definition peek (q : t) : res T :=
  _ <- assert (negb (first q =? end_ q)) ;;
  at_ (buf q) (first q).

(** [pop()] *)
Definition pop (q : t) : res t :=
  _ <- assert (negb (first q =? end_ q)) ;;
  let f := wrap32 (first q + 1) in
  Ok (mk (buf q) (if f =? len (buf q) then 0 else f) (end_ q)).

(** [tmp[i++] = x] for the elements [x] of [src], in their order. *)
Fixpoint copy (tmp : list T) (i : Z) (src : list T) : res (list T * Z) :=
  match src with
  | [] => Ok (tmp, i)
  | x :: rest =>
      tmp' <- put tmp i x ;;
      copy tmp' (wrap32 (i + 1)) rest
  end.

(** [insert(elem)]; the two loops of the resize copy [buf[first ..]] and
    then [buf[.. end - 1]]. *)
Definition insert (q : t) (elem : T) : res t :=
  b <- put (buf q) (end_ q) elem ;;
  let e := wrap32 (end_ q + 1) in
  let e := if e =? len b then 0 else e in
  if first q =? e then
    (* Resize *)
    let n := Z.shiftr (wrap32 (wrap32 (len b * 3) + 1)) 1 in
    let tmp := Vec.growTo [] (Z.to_nat n) dflt in
    '(tmp1, i) <- copy tmp 0 (skipn (Z.to_nat (first q)) b) ;;
    '(tmp2, _) <- copy tmp1 i (firstn (Z.to_nat e) b) ;;
    Ok (mk tmp2 0 (len b))
  else Ok (mk b (first q) e).

(** The elements of the queue, the oldest first. *)
Definition contents (q : t) : list T :=
  if first q <=? end_ q
  then firstn (Z.to_nat (end_ q - first q)) (skipn (Z.to_nat (first q)) (buf q))
  else skipn (Z.to_nat (first q)) (buf q) ++ firstn (Z.to_nat (end_ q)) (buf q).

(** [first] and [end] are indices of the buffer, whose size is an [int]. *)
Definition inv (q : t) : Prop :=
  0 <= first q < len (buf q) /\ 0 <= end_ q < len (buf q) /\ len (buf q) <= INT_MAX.

End Queue.
End Queue.

(** ** core/Solver.h: [luby]

    The two loops of [luby(y, x)], on [int]; [pow] stands for the function of
    the C library, so that the result is [pow y seq]. *)
Fixpoint luby_size (fuel : nat) (size seq x : Z) : res (Z * Z) :=
  if size <? wrap32 (x + 1) then
    match fuel with
    | O => Err OutOfFuel
    | S f => luby_size f (wrap32 (wrap32 (2 * size) + 1)) (wrap32 (seq + 1)) x
    end
  else Ok (size, seq).

Fixpoint luby_seq (fuel : nat) (size seq x : Z) : res Z :=
  if negb (wrap32 (size - 1) =? x) then
    match fuel with
    | O => Err OutOfFuel
    | S f =>
        let size' := Z.shiftr (wrap32 (size - 1)) 1 in
        if size' =? 0 then Err DivisionByZero
        else luby_seq f size' (wrap32 (seq - 1)) (Z.rem x size')
    end
  else Ok seq.

(** The size [2^(k+1) - 1] of the finite subsequence number [k]. *)
Definition luby_sz (k : nat) : Z := 2 ^ (Z.of_nat k + 1) - 1.

Definition luby {D : Type} (pow : D -> Z -> D) (fuel : nat) (y : D) (x : Z) : res D :=
  '(size, seq) <- luby_size fuel 1 0 x ;;
  seq' <- luby_seq fuel size seq x ;;
  Ok (pow y seq').

Set Implicit Arguments.

Lemma bind_Ok {A B} (m : res A) (k : A -> res B) (b : B) :
  bind m k = Ok b -> exists a, m = Ok a /\ k a = Ok b.
Proof. destruct m as [a|e]; simpl; intros H; [exists a; auto | discriminate]. Qed.

Lemma assert_Ok (b : bool) (u : unit) : assert b = Ok u -> b = true.
Proof. destruct b; simpl; [reflexivity | discriminate]. Qed.

Lemma length_upd {A} (v : list A) i a : length (Vec.upd v i a) = length v.
Proof. revert i; induction v; intros [|i]; simpl; auto. Qed.

Lemma nth_error_upd_eq {A} (v : list A) i a :
  (i < length v)%nat -> nth_error (Vec.upd v i a) i = Some a.
Proof.
  revert i; induction v; intros [|i]; simpl; intros; try lia; auto.
  apply IHv; lia.
Qed.

Lemma nth_error_upd_ne {A} (v : list A) i j a :
  i <> j -> nth_error (Vec.upd v i a) j = nth_error v j.
Proof.
  revert i j; induction v; intros [|i] [|j]; simpl; intros; auto; try congruence.
Qed.

Lemma get_Ok {A} (v : list A) i a : Vec.get v i = Ok a <-> nth_error v i = Some a.
Proof.
  unfold Vec.get; destruct (nth_error v i); split; intros H; inversion H; auto.
Qed.

Lemma get_lt {A} (v : list A) i a : Vec.get v i = Ok a -> (i < length v)%nat.
Proof. intros H; apply get_Ok in H. apply nth_error_Some; congruence. Qed.

Lemma set_Ok {A} (v : list A) i a v' :
  Vec.set v i a = Ok v' <-> (i < length v)%nat /\ v' = Vec.upd v i a.
Proof.
  unfold Vec.set. destruct (Nat.ltb_spec i (length v)); split.
  - intros H'; inversion H'; auto.
  - intros [_ ->]; auto.
  - discriminate.
  - intros [? _]; lia.
Qed.

Lemma upd_firstn_ge {A} (v : list A) i a n :
  (n <= i)%nat -> firstn n (Vec.upd v i a) = firstn n v.
Proof.
  revert i n; induction v; intros [|i] [|n]; simpl; intros; auto; try lia.
  f_equal; apply IHv; lia.
Qed.

Lemma lbool_eqb_eq a b : lbool_eqb a b = true <-> a = b.
Proof. destruct a, b; simpl; split; intros; congruence. Qed.

Lemma sign_odd p : sign p = Z.odd p.
Proof. unfold sign. apply Z.bit0_odd. Qed.

Lemma odd_cases p :
  (Z.odd p = true /\ p = 2 * (p / 2) + 1) \/ (Z.odd p = false /\ p = 2 * (p / 2)).
Proof.
  pose proof (Zmod_odd p) as M. pose proof (Z.div_mod p 2) as E.
  destruct (Z.odd p); [left|right]; split; auto; lia.
Qed.

Lemma land_one p : Z.land p 1 = p mod 2.
Proof. change 1 with (Z.ones 1). rewrite Z.land_ones by lia. reflexivity. Qed.

Lemma neg_code p : neg p = if Z.odd p then p - 1 else p + 1.
Proof.
  unfold neg. pose proof (Zmod_odd p) as M. destruct (Z.odd p) eqn:E.
  - assert (L : Z.land (p - 1) 1 = 0).
    { rewrite land_one. pose proof (Zmod_odd (p - 1)) as M'.
      replace (p - 1) with (Z.pred p) in * by lia.
      rewrite Z.odd_pred, <- Z.negb_odd, E in M'. exact M'. }
    apply Z.add_nocarry_lxor in L.
    replace (p - 1 + 1) with p in L by lia.
    rewrite L at 1. rewrite Z.lxor_assoc, Z.lxor_nilpotent, Z.lxor_0_r. reflexivity.
  - assert (L : Z.land p 1 = 0) by (rewrite land_one; exact M).
    apply Z.add_nocarry_lxor in L. lia.
Qed.

Lemma var_div p : var p = Z.to_nat (p / 2).
Proof. unfold var. rewrite Z.shiftr_div_pow2 by lia. reflexivity. Qed.

Lemma neg_neg p : neg (neg p) = p.
Proof. unfold neg. rewrite Z.lxor_assoc, Z.lxor_nilpotent, Z.lxor_0_r. reflexivity. Qed.

Lemma neg_neq p : neg p <> p.
Proof. rewrite neg_code. destruct (Z.odd p); lia. Qed.

Lemma var_neg p : var (neg p) = var p.
Proof.
  rewrite !var_div, neg_code.
  destruct (odd_cases p) as [[-> H]|[-> H]]; f_equal; Z.div_mod_to_equations; lia.
Qed.

Lemma sign_neg p : sign (neg p) = negb (sign p).
Proof.
  rewrite (sign_odd (neg p)), (sign_odd p), neg_code. destruct (Z.odd p) eqn:E.
  - replace (p - 1) with (Z.pred p) by lia. rewrite Z.odd_pred, <- Z.negb_odd, E. reflexivity.
  - replace (p + 1) with (Z.succ p) by lia. rewrite Z.odd_succ, <- Z.negb_odd, E. reflexivity.
Qed.

Lemma neg_nonneg p : 0 <= p -> 0 <= neg p.
Proof. rewrite neg_code. destruct (odd_cases p) as [[E H]|[E H]]; rewrite E; lia. Qed.

Lemma neg_nonneg_iff p : 0 <= neg p <-> 0 <= p.
Proof.
  split; [|apply neg_nonneg]. intros H. apply neg_nonneg in H. rewrite neg_neg in H. exact H.
Qed.

Lemma lit_ext p q : 0 <= p -> 0 <= q -> var p = var q -> sign p = sign q -> p = q.
Proof.
  intros Hp Hq Hv Hs. rewrite (var_div p), (var_div q) in Hv.
  rewrite (sign_odd p), (sign_odd q) in Hs.
  assert (p / 2 = q / 2) by (apply Z2Nat.inj; auto; apply Z.div_pos; lia).
  destruct (odd_cases p) as [[Ep H1]|[Ep H1]], (odd_cases q) as [[Eq H2]|[Eq H2]];
    rewrite Ep, Eq in Hs; try discriminate; lia.
Qed.

Lemma var_mkLit v s : var (mkLit v s) = v.
Proof. rewrite var_div. unfold mkLit. destruct s; f_equal.
  - replace (2 * Z.of_nat v + 1) with (1 + Z.of_nat v * 2) by lia.
    rewrite Z.div_add by lia. simpl. lia.
  - replace (2 * Z.of_nat v + 0) with (0 + Z.of_nat v * 2) by lia.
    rewrite Z.div_add by lia. simpl. lia.
Qed.

Lemma sign_mkLit v s : sign (mkLit v s) = s.
Proof.
  rewrite sign_odd. unfold mkLit. destruct s.
  - rewrite Z.add_comm, Z.odd_add_mul_2. reflexivity.
  - rewrite Z.add_comm, Z.odd_add_mul_2. reflexivity.
Qed.

Lemma mkLit_nonneg v s : 0 <= mkLit v s.
Proof. unfold mkLit. destruct s; lia. Qed.

(** ** Inversion of monadic code *)

Lemma bind_Err {A B} (m : res A) (k : A -> res B) (e : error) :
  bind m k = Err e -> m = Err e \/ exists a, m = Ok a /\ k a = Err e.
Proof.
  destruct m as [a|e']; simpl; intros H; [right; exists a; auto | left; congruence].
Qed.

Ltac inv_res :=
  repeat match goal with
  | H : bind ?m ?k = Ok _ |- _ =>
      let a := fresh "a" in let E := fresh "E" in
      apply bind_Ok in H; destruct H as (a & E & H)
  | H : Ok _ = Ok _ |- _ => inversion H; subst; clear H
  | H : Err _ = Ok _ |- _ => discriminate H
  | H : assert _ = Ok _ |- _ => apply assert_Ok in H
  | H : (let '(_, _) := ?x in _) = Ok _ |- _ => destruct x
  end.

Lemma varI_Ok p x : varI p = Ok x <-> 0 <= p /\ x = var p.
Proof.
  unfold varI. destruct (Z.ltb_spec p 0); split; intros H'.
  - discriminate.
  - lia.
  - inversion H'; auto with zarith.
  - destruct H' as [_ ->]; reflexivity.
Qed.

Lemma toInt_Ok p i : toInt p = Ok i <-> 0 <= p /\ i = Z.to_nat p.
Proof.
  unfold toInt. destruct (Z.ltb_spec p 0); split; intros H'.
  - discriminate.
  - lia.
  - inversion H'; auto with zarith.
  - destruct H' as [_ ->]; reflexivity.
Qed.

Lemma shrink_Ok {A} (v : list A) n v' :
  Vec.shrink v n = Ok v' <->
  n <= Z.of_nat (length v) /\ v' = firstn (length v - Z.to_nat n) v.
Proof.
  unfold Vec.shrink, assert. destruct (Z.leb_spec n (Z.of_nat (length v))); simpl; split.
  - intros H'; inversion H'; auto.
  - intros [_ ->]; reflexivity.
  - discriminate.
  - intros [? _]; lia.
Qed.

Lemma get_ge {A} (v : list A) i : (length v <= i)%nat -> Vec.get v i = Err OutOfBounds.
Proof. intros H. unfold Vec.get. apply nth_error_None in H. rewrite H. reflexivity. Qed.

Lemma get_In {A} (v : list A) i a : Vec.get v i = Ok a -> In a v.
Proof. intros H. apply get_Ok in H. eapply nth_error_In; eauto. Qed.

Lemma upd_length_ge {A} (v : list A) i a : (length v <= i)%nat -> Vec.upd v i a = v.
Proof. revert i; induction v; intros [|i]; simpl; intros; auto; try lia. f_equal. apply IHv. lia. Qed.

Lemma nth_error_upd {A} (v : list A) i j a :
  nth_error (Vec.upd v i a) j =
  if (Nat.eqb i j && (i <? length v)%nat)%bool then Some a else nth_error v j.
Proof.
  destruct (Nat.eqb_spec i j) as [->|N]; simpl.
  - destruct (Nat.ltb_spec j (length v)).
    + apply nth_error_upd_eq; auto.
    + rewrite upd_length_ge; auto.
  - apply nth_error_upd_ne; auto.
Qed.

Unset Implicit Arguments.

Set Implicit Arguments.

(** ** [sort] on literals *)

Lemma insert_by_perm {A} (lt : A -> A -> bool) x l : Permutation (insert_by lt x l) (x :: l).
Proof.
  induction l as [|y t IH]; simpl; auto.
  destruct (lt y x); auto.
  rewrite IH. apply perm_swap.
Qed.

Lemma sort_by_perm {A} (lt : A -> A -> bool) l : Permutation (sort_by lt l) l.
Proof.
  induction l as [|x t IH]; simpl; auto.
  rewrite insert_by_perm. auto.
Qed.

Lemma sort_perm ps : Permutation (sort ps) ps.
Proof. apply sort_by_perm. Qed.

Lemma sort_In ps q : In q (sort ps) <-> In q ps.
Proof.
  split; apply Permutation_in; [apply sort_perm | apply Permutation_sym, sort_perm].
Qed.

Lemma sort_length ps : length (sort ps) = length ps.
Proof. apply Permutation_length, sort_perm. Qed.

Lemma insert_sorted x l :
  StronglySorted Z.le l -> StronglySorted Z.le (insert_by Z.ltb x l).
Proof.
  induction 1 as [|y t Hs IH Hf]; simpl.
  - constructor; constructor.
  - destruct (Z.ltb_spec y x).
    + constructor; auto.
      apply Forall_forall. intros z Hz.
      apply (Permutation_in _ (insert_by_perm Z.ltb x t)) in Hz.
      destruct Hz as [<-|Hz]; [lia|]. rewrite Forall_forall in Hf. auto.
    + constructor; [constructor; auto|].
      constructor; auto. rewrite Forall_forall in *. intros z Hz. specialize (Hf z Hz). lia.
Qed.

Lemma sort_sorted ps : StronglySorted Z.le (sort ps).
Proof.
  unfold sort, sort_by. induction ps; simpl; [constructor|]. apply insert_sorted; auto.
Qed.

(** ** The scan of [addClause_] *)

Section AddClause.
Context {D : Type} {FO : FloatOps D}.

Lemma skipn_upd_lt {A} (v : list A) i j a : (j < i)%nat -> skipn i (Vec.upd v j a) = skipn i v.
Proof.
  revert i j. induction v; intros [|i] [|j]; simpl; intros; auto; try lia. apply IHv. lia.
Qed.

Lemma firstn_upd_snoc {A} (v : list A) j a :
  (j < length v)%nat -> firstn (S j) (Vec.upd v j a) = firstn j v ++ [a].
Proof.
  revert j. induction v; intros [|j]; simpl; intros; auto; try lia.
  f_equal. apply IHv. lia.
Qed.

Lemma skipn_nth_cons {A} (v : list A) i a :
  nth_error v i = Some a -> skipn i v = a :: skipn (S i) v.
Proof.
  revert i. induction v; intros [|i]; simpl; intros H; try discriminate.
  - inversion H; auto.
  - apply IHv; auto.
Qed.

Lemma clean_length (s : Solver D) qs : forall p kept b kept',
  clean s p qs kept = Ok (b, kept') ->
  (length kept <= length kept' <= length kept + length qs)%nat
  /\ firstn (length kept) kept' = kept.
Proof.
  induction qs as [|q t IH]; simpl; intros p kept b kept' H.
  - inversion H; subst. split; [lia|]. apply firstn_all.
  - inv_res. destruct (lbool_eqb a l_True || (q =? neg p)).
    + inversion H; subst. split; [lia|]. apply firstn_all.
    + destruct (negb (lbool_eqb a l_False) && negb (q =? p)).
      * apply IH in H. destruct H as [H1 H2]. split; [rewrite length_app in H1; simpl in H1; lia|].
        assert (X : firstn (length kept) (firstn (length (kept ++ [q])) kept')
                    = firstn (length kept) kept').
        { rewrite firstn_firstn. f_equal. rewrite length_app. simpl. lia. }
        rewrite <- X, H2. rewrite firstn_app, firstn_all, Nat.sub_diag. simpl.
        apply app_nil_r.
      * apply IH in H. destruct H. split; [lia|auto].
Qed.

(** The loop with its in-place writes computes [clean] on the part of [ps] not
    yet read; the entries from [j] on are those of [ps]. *)
Lemma addClause_loop_clean (s : Solver D) : forall n ps i j p,
  n = (length ps - i)%nat -> (j <= i)%nat -> (i <= length ps)%nat ->
  addClause_loop s n ps i j p =
  (r <- clean s p (skipn i ps) (firstn j ps) ;;
   Ok (fst r, snd r ++ skipn (length (snd r)) ps, length (snd r))).
Proof.
  induction n as [|n IH]; intros ps i j p Hn Hj Hi.
  - assert (i = length ps) by lia. subst i. rewrite skipn_all. simpl.
    rewrite length_firstn, Nat.min_l by lia. rewrite firstn_skipn. reflexivity.
  - cbn [addClause_loop]. destruct (nth_error ps i) as [q|] eqn:Eq.
    2:{ apply nth_error_None in Eq. lia. }
    unfold Vec.get at 1. rewrite Eq. cbn [bind].
    rewrite (skipn_nth_cons _ _ Eq). cbn [clean].
    destruct (value s q) as [v|e]; cbn [bind]; auto.
    destruct (lbool_eqb v l_True || (q =? neg p)).
    + cbn [bind fst snd]. rewrite length_firstn, Nat.min_l by lia.
      rewrite firstn_skipn. reflexivity.
    + destruct (negb (lbool_eqb v l_False) && negb (q =? p)).
      * unfold Vec.set. destruct (Nat.ltb_spec j (length ps)); [|lia]. cbn [bind].
        rewrite IH; rewrite ?length_upd; try lia.
        rewrite skipn_upd_lt by lia. rewrite firstn_upd_snoc by lia.
        destruct (clean s q (skipn (S i) ps) (firstn j ps ++ [q])) as [[b kept]|e] eqn:Ec;
          cbn [bind fst snd]; auto.
        apply clean_length in Ec. rewrite length_app, length_firstn in Ec.
        cbn [length] in Ec.
        rewrite skipn_upd_lt by lia. reflexivity.
      * rewrite IH; try lia. reflexivity.
Qed.

(** *** Values of literals *)

Lemma value_Ok (s : Solver D) q v :
  value s q = Ok v <->
  0 <= q /\ exists a, nth_error (assigns s) (var q) = Some a /\ v = lbool_xor a (sign q).
Proof.
  unfold value, varI. destruct (Z.ltb_spec q 0); simpl.
  - split; [discriminate|lia].
  - unfold Vec.get. destruct (nth_error (assigns s) (var q)) as [a|]; simpl.
    + split.
      * intros H'; inversion H'; eauto.
      * intros (_ & a' & E & ->). inversion E; auto.
    + split; [discriminate|]. intros (_ & a' & E & _). discriminate.
Qed.

Lemma value_neg (s : Solver D) q v :
  value s q = Ok v -> value s (neg q) = Ok (lbool_neg v).
Proof.
  rewrite !value_Ok. intros (Hq & a & E & ->). split; [apply neg_nonneg; auto|].
  exists a. rewrite var_neg, sign_neg. split; auto.
  destruct a, (sign q); reflexivity.
Qed.

Lemma value_nonneg (s : Solver D) q v : value s q = Ok v -> 0 <= q.
Proof. rewrite value_Ok. tauto. Qed.

(** *** A clause with a literal and its negation is found satisfied *)

Lemma clean_taut (s : Solver D) (a : Lit) :
  Z.odd a = false ->
  forall qs p kept,
    StronglySorted Z.le qs ->
    In (a + 1) qs ->
    (forall q, In q qs -> exists v, value s q = Ok v) ->
    (In a qs \/ ((forall q, In q qs -> a <= q) /\ (p = a \/ value s (a + 1) = Ok l_True))) ->
    exists kept', clean s p qs kept = Ok (true, kept').
Proof.
  intros Ha. assert (Hn : neg a = a + 1) by (rewrite neg_code, Ha; reflexivity).
  induction qs as [|q t IH]; intros p kept Hs Hb Hv HJ; [destruct Hb|].
  inversion Hs as [|? ? Hs' Hf]; subst. rewrite Forall_forall in Hf.
  destruct (Hv q (or_introl eq_refl)) as (v & Ev).
  cbn [clean]. rewrite Ev. cbn [bind].
  destruct (lbool_eqb v l_True || (q =? neg p)) eqn:E1; [eauto|].
  apply orb_false_iff in E1. destruct E1 as [E1 E2]. apply Z.eqb_neq in E2.
  assert (Hvt : forall q', In q' t -> exists v', value s q' = Ok v') by (intros; apply Hv; right; auto).
  set (c := negb (lbool_eqb v l_False) && negb (q =? p)).
  set (p' := if c then q else p).
  set (k' := if c then kept ++ [q] else kept).
  enough (G : exists kept', clean s p' t k' = Ok (true, kept')).
  { unfold p', k' in G. destruct c; exact G. }
  assert (Ep' : p' = if negb (lbool_eqb v l_False) && negb (q =? p) then q else p)
    by reflexivity.
  clearbody p' k'. clear c.
  assert (Hn' : forall w, value s a = Ok w -> w <> l_True ->
                 (if negb (lbool_eqb w l_False) && negb (a =? p) then a else p) = a
                 \/ value s (a + 1) = Ok l_True).
  { intros w Ew Nt. destruct w; [congruence| |].
    - right. rewrite <- Hn. apply (value_neg _ _ Ew).
    - left. simpl. destruct (Z.eqb_spec a p); simpl; auto. }
  assert (Nt : v <> l_True) by (intros ->; discriminate).
  destruct HJ as [[Eq|Ia]|[Hge Hp]].
  - (* q = a *)
    subst q. apply IH; auto.
    + destruct Hb as [Hb|Hb]; [lia|auto].
    + right. split; [intros q' Hq'; apply Hf; auto|]. rewrite Ep'. apply (Hn' v Ev Nt).
  - (* a occurs later *)
    apply IH; auto.
    destruct Hb as [Hb|Hb]; auto. specialize (Hf a Ia). lia.
  - assert (Hq1 : a <= q) by (apply Hge; left; auto).
    assert (Hq2 : q <= a + 1).
    { destruct Hb as [Hb|Hb]; [lia|]. apply Hf; auto. }
    assert (Hq : q = a \/ q = a + 1) by lia.
    destruct Hq as [-> | ->].
    + apply IH; auto.
      * destruct Hb as [Hb|Hb]; [lia|auto].
      * right. split; [intros q' Hq'; apply Hf; auto|]. rewrite Ep'. apply (Hn' v Ev Nt).
    + exfalso. destruct Hp as [-> | Hp].
      * apply E2. symmetry. exact Hn.
      * rewrite Hp in Ev. inversion Ev; subst. discriminate.
Qed.

Lemma value_defined (s : Solver D) q :
  0 <= q -> (var q < length (assigns s))%nat -> exists v, value s q = Ok v.
Proof.
  intros Hq Hv. destruct (nth_error (assigns s) (var q)) as [a|] eqn:E.
  - exists (lbool_xor a (sign q)). apply value_Ok. eauto.
  - apply nth_error_None in E. lia.
Qed.

(** [addClause_] on a clause that holds a literal and its negation. *)
Lemma addClause_taut (s : Solver D) (ps : list Lit) (l : Lit) :
  ok s = true ->
  decisionLevel s = O ->
  (forall q, In q ps -> 0 <= q /\ (var q < length (assigns s))%nat) ->
  In l ps -> In (neg l) ps ->
  exists ps', addClause_ s ps = Ok (true, ps', s).
Proof.
  intros Hok Hlv Hr Hl Hnl.
  assert (Ha : exists a, Z.odd a = false /\ In a ps /\ In (a + 1) ps).
  { destruct (Z.odd l) eqn:E.
    - exists (neg l). rewrite neg_code, E in *. split; [|split; auto].
      + replace (l - 1) with (Z.pred l) by lia. rewrite Z.odd_pred, <- Z.negb_odd, E. reflexivity.
      + replace (l - 1 + 1) with l by lia. exact Hl.
    - exists l. rewrite neg_code, E in Hnl. auto. }
  destruct Ha as (a & Hodd & Ia & Ib).
  destruct (@clean_taut s a Hodd (sort ps) lit_Undef []) as (kept & Ek).
  - apply sort_sorted.
  - apply sort_In; auto.
  - intros q Hq. apply (proj1 (sort_In _ _)) in Hq. destruct (Hr q Hq). apply value_defined; auto.
  - left. apply sort_In; auto.
  - unfold addClause_. rewrite Hlv. cbn [Nat.eqb assert bind]. rewrite Hok. cbn [negb].
    rewrite addClause_loop_clean by lia.
    cbn [skipn firstn]. rewrite Ek. cbn [bind fst snd]. eauto.
Qed.

(** *** What the scan keeps when the clause is not found satisfied *)

Lemma clean_false (s : Solver D) : forall qs p kept kept',
  StronglySorted Z.le qs ->
  (forall q, In q qs -> p <= q) ->
  clean s p qs kept = Ok (false, kept') ->
  exists new,
    kept' = kept ++ new
    /\ StronglySorted Z.lt new
    /\ (forall q, In q new -> p < q)
    /\ (forall q, In q new <-> In q qs /\ value s q = Ok l_Undef /\ q <> p)
    /\ (forall q, In q qs -> value s q = Ok l_Undef \/ value s q = Ok l_False)
    /\ (forall q, In q new -> neg p <> q /\ ~ In (neg q) new).
Proof.
  induction qs as [|q t IH]; intros p kept kept' Hs Hp H.
  - inversion H; subst. exists []. rewrite app_nil_r.
    split; [reflexivity|]. split; [constructor|]. simpl. repeat split; intros; tauto.
  - inversion Hs as [|? ? Hs' Hf]; subst. rewrite Forall_forall in Hf.
    cbn [clean] in H. destruct (value s q) as [v|e] eqn:Ev; cbn [bind] in H; [|discriminate].
    destruct (lbool_eqb v l_True || (q =? neg p)) eqn:E1; [discriminate|].
    apply orb_false_iff in E1. destruct E1 as [E1 E2]. apply Z.eqb_neq in E2.
    assert (Hpq : p <= q) by (apply Hp; left; auto).
    destruct (negb (lbool_eqb v l_False) && negb (q =? p)) eqn:E3.
    + apply andb_true_iff in E3. destruct E3 as [E3 E4].
      apply negb_true_iff in E4. apply Z.eqb_neq in E4.
      assert (Hv : v = l_Undef) by (destruct v; simpl in *; congruence).
      subst v.
      apply IH in H; auto.
      destruct H as (new & -> & Hsn & Hgt & Hin & Hval & Hng).
      exists (q :: new). rewrite <- app_assoc. split; [reflexivity|].
      split; [|split; [|split; [|split]]].
      * constructor; auto. apply Forall_forall. intros x Hx. apply Hgt; auto.
      * intros x [<-|Hx]; [lia|]. specialize (Hgt x Hx). lia.
      * intros x. simpl. rewrite Hin. split.
        -- intros [<-|(Hx & Hvx & Nx)]; [auto|]. split; auto. split; auto.
           specialize (Hf x Hx). specialize (Hgt x (proj2 (Hin x) (conj Hx (conj Hvx Nx)))). lia.
        -- intros ([<-|Hx] & Hvx & Nx); auto.
           destruct (Z.eq_dec x q) as [->|Nq]; auto.
      * intros x [<-|Hx]; auto.
      * intros x [<-|Hx].
        -- split; [auto|]. simpl. intros [Hc|Hc]; [apply (neg_neq (eq_sym Hc))|].
           apply Hng in Hc. destruct Hc as [Hc _]. apply Hc. reflexivity.
        -- destruct (Hng x Hx) as [Hc1 Hc2]. split.
           ++ intros <-. specialize (Hgt (neg p) Hx).
              pose proof (neg_code p) as Hc. destruct (Z.odd p); lia.
           ++ simpl. intros [Hc|Hc]; [|auto].
              apply Hc1. rewrite Hc. apply neg_neg.
    + apply IH in H; auto.
      2:{ intros x Hx. specialize (Hf x Hx). lia. }
      destruct H as (new & -> & Hsn & Hgt & Hin & Hval & Hng).
      exists new. split; [reflexivity|]. split; auto. split; auto.
      split; [|split; auto].
      * intros x. rewrite Hin. split.
        -- intros (Hx & Hvx & Nx). split; [right; auto|auto].
        -- intros ([<-|Hx] & Hvx & Nx); auto.
           exfalso. rewrite Ev in Hvx. inversion Hvx; subst.
           simpl in E3. destruct (Z.eqb_spec q p); simpl in E3; congruence.
      * intros x [<-|Hx]; auto.
        destruct v; simpl in E1; auto; discriminate.
Qed.

(** *** The cases of [addClause_] *)

Lemma addClause_cases (s : Solver D) (ps : list Lit) b ps' s' :
  addClause_ s ps = Ok (b, ps', s') ->
  decisionLevel s = O /\
  ((ok s = false /\ b = false /\ ps' = ps /\ s' = s)
   \/
   (ok s = true /\ exists b0 kept,
      clean s lit_Undef (sort ps) [] = Ok (b0, kept) /\
      ((b0 = true /\ b = true /\ s' = s /\ ps' = kept ++ skipn (length kept) (sort ps))
       \/
       (b0 = false /\ ps' = kept /\
        ((kept = [] /\ b = false /\ s' = set_ok s false)
         \/ (exists l s1 confl s2,
               kept = [l] /\ uncheckedEnqueue s l CRef_Undef = Ok s1
               /\ propagate s1 = Ok (confl, s2)
               /\ b = (confl =? CRef_Undef) /\ s' = set_ok s2 b)
         \/ (exists cr a,
               (2 <= length kept)%nat /\ b = true
               /\ ca_alloc (ca s) kept false = Ok (cr, a)
               /\ attachClause (set_clauses (set_ca s a) (Vec.push (clauses s) cr)) cr
                  = Ok s')))))).
Proof.
  unfold addClause_. intros H.
  apply bind_Ok in H. destruct H as (u & Ea & H). apply assert_Ok in Ea.
  apply Nat.eqb_eq in Ea. split; [exact Ea|].
  destruct (ok s) eqn:Hok; cbn [negb] in H.
  2:{ left. inversion H; subst. auto. }
  right. split; [reflexivity|].
  rewrite addClause_loop_clean in H by lia. cbn [skipn firstn] in H.
  destruct (clean s lit_Undef (sort ps) []) as [[b0 kept]|e] eqn:Ec; cbn [bind fst snd] in H;
    [|discriminate].
  exists b0, kept. split; [reflexivity|].
  destruct b0.
  - left. inversion H; subst. auto.
  - right. split; [reflexivity|].
    apply bind_Ok in H. destruct H as (ps3 & Es & H).
    apply shrink_Ok in Es. destruct Es as [_ Es].
    pose proof (clean_length _ _ _ _ Ec) as [Hl _]. cbn [length] in Hl.
    assert (E3 : ps3 = kept).
    { rewrite Es. rewrite length_app, length_skipn.
      replace (length kept + (length (sort ps) - length kept)
               - Z.to_nat (Z.of_nat (length kept + (length (sort ps) - length kept))
                           - Z.of_nat (length kept)))%nat with (length kept + 0)%nat by lia.
      rewrite firstn_app_2. cbn [firstn]. apply app_nil_r. }
    clear Es. rewrite E3 in H. clear E3 ps3.
    destruct kept as [|l [|l' kept]].
    + inversion H; subst. split; [reflexivity|]. left. auto.
    + apply bind_Ok in H. destruct H as (s1 & E1 & H).
      apply bind_Ok in H. destruct H as ([confl s2] & E2 & H).
      inversion H; subst. split; [reflexivity|]. right. left.
      exists l, s1, confl, s2. auto.
    + apply bind_Ok in H. destruct H as ([cr a] & E1 & H).
      apply bind_Ok in H. destruct H as (s2 & E2 & H).
      inversion H; subst. split; [reflexivity|]. right. right. exists cr, a.
      split; [simpl; lia|]. auto.
Qed.

Lemma clean_false_nonneg (s : Solver D) : forall qs p kept kept',
  clean s p qs kept = Ok (false, kept') -> forall q, In q qs -> 0 <= q.
Proof.
  induction qs as [|a t IH]; intros p kept kept' H q I; [destruct I|].
  cbn [clean] in H. apply bind_Ok in H. destruct H as (v & Ev & H).
  destruct I as [<-|I]; [eapply value_nonneg; eauto|].
  destruct (lbool_eqb v l_True || (a =? neg p)); [discriminate|].
  destruct (negb (lbool_eqb v l_False) && negb (a =? p)); eapply IH; eauto.
Qed.

End AddClause.

Arguments clean_false_nonneg {D} s qs p kept kept' _ q _.

Unset Implicit Arguments.

(** * The invariants depend on a part of the state only *)

Lemma upd_same {A} (v : list A) i a : nth_error v i = Some a -> Vec.upd v i a = v.
Proof.
  revert i. induction v; intros [|i]; simpl; intros H; try discriminate.
  - inversion H; auto.
  - f_equal. apply IHv; auto.
Qed.

Lemma upd_upd {A} (v : list A) i a b : Vec.upd (Vec.upd v i a) i b = Vec.upd v i b.
Proof. revert i. induction v; intros [|i]; simpl; auto. f_equal. apply IHv. Qed.

Lemma upd_comm {A} (v : list A) i j a b :
  i <> j -> Vec.upd (Vec.upd v i a) j b = Vec.upd (Vec.upd v j b) i a.
Proof.
  revert i j. induction v; intros [|i] [|j]; simpl; intros; auto; try congruence.
  f_equal. apply IHv. congruence.
Qed.

Section Congruence.
Context {D : Type} {FO : FloatOps D}.

Lemma value_assigns (s s' : Solver D) :
  assigns s' = assigns s -> forall l, value s' l = value s l.
Proof. intros E l. unfold value. rewrite E. reflexivity. Qed.

Lemma veq_refl (s : Solver D) : veq s s.
Proof. constructor; auto. Qed.

Lemma veq_trans {s1 s2 s3 : Solver D} : veq s1 s2 -> veq s2 s3 -> veq s1 s3.
Proof.
  intros [] []. constructor; intros; congruence.
Qed.

Lemma core_Some {s : Solver D} {cr c} :
  ca_mem (ca s) cr = Some c -> core s cr = Some (cl_core c).
Proof. unfold core. intros ->. reflexivity. Qed.

Lemma core_eq_refl (s s' : Solver D) : ca s' = ca s -> core_eq s s'.
Proof. intros E cr. unfold core. rewrite E. reflexivity. Qed.

Lemma core_eq_sym {s s' : Solver D} : core_eq s s' -> core_eq s' s.
Proof. intros H cr. symmetry. apply H. Qed.

Lemma core_mem {s s' : Solver D} {cr c} :
  core_eq s s' -> ca_mem (ca s) cr = Some c ->
  exists c', ca_mem (ca s') cr = Some c' /\ cl_core c' = cl_core c.
Proof.
  intros V E. pose proof (V cr) as C. unfold core in C. rewrite E in C.
  destruct (ca_mem (ca s') cr) as [c'|]; simpl in C; [|discriminate].
  exists c'. split; auto. congruence.
Qed.

Lemma core_mem_None {s s' : Solver D} {cr} :
  core_eq s s' -> ca_mem (ca s) cr = None -> ca_mem (ca s') cr = None.
Proof.
  intros V E. pose proof (V cr) as C. unfold core in C. rewrite E in C.
  destruct (ca_mem (ca s') cr) as [c'|]; simpl in C; [discriminate|auto].
Qed.

Lemma cl_core_eq {c c' : Clause D} :
  cl_core c' = cl_core c ->
  cl_lits c' = cl_lits c /\ cl_learnt c' = cl_learnt c /\ cl_mark c' = cl_mark c
  /\ cl_reloced c' = cl_reloced c.
Proof. unfold cl_core. intros H. inversion H. auto. Qed.

Lemma core_lits_at {s s' : Solver D} {cr ls} :
  core_eq s s' -> lits_at s cr ls -> lits_at s' cr ls.
Proof.
  intros V (c & E & L). destruct (core_mem V E) as (c' & E' & C).
  apply cl_core_eq in C. exists c'. split; auto. destruct C as (-> & _). auto.
Qed.

Lemma has_watcher_cong {s s' : Solver D} {p cr} :
  watches s' = watches s -> has_watcher s p cr -> has_watcher s' p cr.
Proof. intros V (ws & w & H). exists ws, w. rewrite V. exact H. Qed.

Lemma WFa_cong {s s' : Solver D} :
  assigns s' = assigns s -> trail s' = trail s -> order_heap s' = order_heap s ->
  length (vardata s') = length (vardata s) -> WFa s -> WFa s'.
Proof.
  intros Ea Et Eh En [H1 H2 H3 H4 H5]. pose proof (value_assigns s s' Ea) as Ev.
  constructor.
  - unfold nVars. rewrite Ea, En. exact H1.
  - intros l. rewrite Et, Ev. apply H2.
  - intros l. rewrite Et, Ev. apply H3.
  - rewrite Et. exact H4.
  - rewrite Ea, Eh. exact H5.
Qed.

Lemma WFt_cong {s s' : Solver D} :
  trail_lim s' = trail_lim s -> qhead s' = qhead s -> length (trail s') = length (trail s) ->
  WFt s -> WFt s'.
Proof.
  intros E1 E2 E3 [H1 H2 H3]. constructor.
  - rewrite E1. exact H1.
  - rewrite E1, E2. exact H2.
  - rewrite E2, E3. exact H3.
Qed.

Lemma WFm_cong {s s' : Solver D} :
  core_eq s s' -> ca_size (ca s') = ca_size (ca s) -> learnts s' = learnts s ->
  clauses s' = clauses s ->
  WFm s -> WFm s'.
Proof.
  intros V Es El Ec [H1 H2 H3 H4]. constructor.
  - intros cr c' E'. destruct (core_mem (core_eq_sym V) E') as (c & E & C).
    apply cl_core_eq in C. destruct C as (_ & _ & _ & C).
    rewrite Es. destruct (H1 cr c E). split; auto. congruence.
  - rewrite Es. exact H2.
  - intros cr. rewrite El. intros I. destruct (H3 cr I) as (c & E & L).
    destruct (core_mem V E) as (c' & E' & C). apply cl_core_eq in C.
    exists c'. split; auto. destruct C as (_ & -> & _). auto.
  - intros cr. rewrite Ec. intros I. destruct (H4 cr I) as (c & E & L).
    destruct (core_mem V E) as (c' & E' & C). apply cl_core_eq in C.
    exists c'. split; auto. destruct C as (_ & -> & _). auto.
Qed.

Lemma stored_cong {s s' : Solver D} {cr} :
  core_eq s s' -> watches s' = watches s -> length (vardata s') = length (vardata s) ->
  stored_clause s cr -> stored_clause s' cr.
Proof.
  intros V Ew En (c & c0 & c1 & rest & E & Mk & Ls & ND & Val & W0 & W1).
  destruct (core_mem V E) as (c' & E' & C). apply cl_core_eq in C.
  destruct C as (C1 & C2 & C3 & C4).
  exists c', c0, c1, rest. rewrite C1, C3. unfold nVars. rewrite En.
  repeat split; auto; try (apply Val; auto); eapply has_watcher_cong; eauto.
Qed.

Lemma WFw_cong {s s' : Solver D} :
  core_eq s s' -> watches s' = watches s -> clauses s' = clauses s ->
  length (vardata s') = length (vardata s) -> WFw s -> WFw s'.
Proof.
  intros V Ew Ec En [H1 H2 H3 H4]. constructor.
  - unfold nVars. rewrite Ew, En. exact H1.
  - rewrite Ew. intros i ws w Hn Hi N.
    apply (H2 i ws w Hn Hi). apply (core_mem_None (core_eq_sym V)). exact N.
  - rewrite Ec. intros cr I. apply (stored_cong V Ew En). auto.
  - rewrite Ew, Ec. intros i ws w Hn Hi Hc.
    destruct (H4 i ws w Hn Hi Hc) as (c & E & B).
    destruct (core_mem V E) as (c' & E' & C). apply cl_core_eq in C.
    exists c'. split; auto. destruct C as (-> & _). auto.
Qed.

Lemma PF_cong {s s' : Solver D} :
  core_eq s s' -> trail_lim s' = trail_lim s -> clauses s' = clauses s ->
  trail s' = trail s -> PF s -> PF s'.
Proof.
  intros V E1 E2 E3 H b cr ls. rewrite E1, E2, E3.
  intros Hb Hc Hl. apply (H b cr ls); auto. apply (core_lits_at (core_eq_sym V)). auto.
Qed.

Lemma CUR_cong {s s' : Solver D} :
  core_eq s s' -> clauses s' = clauses s -> trail s' = trail s -> qhead s' = qhead s ->
  CUR s -> CUR s'.
Proof.
  intros V E1 E2 E3 H cr ls. rewrite E1, E2, E3.
  intros Hc Hl. apply (H cr ls); auto. apply (core_lits_at (core_eq_sym V)). auto.
Qed.

Lemma veq_sym {s s' : Solver D} : veq s s' -> veq s' s.
Proof. intros []. constructor; auto. Qed.

Lemma veq_WF {s s' : Solver D} : veq s s' -> WF s -> WF s'.
Proof.
  intros V [Ha Ht Hm Hw Hp]. constructor.
  - apply (WFa_cong (veq_assigns V) (veq_trail V) (veq_heap V) (veq_nvars V) Ha).
  - apply (WFt_cong (veq_trail_lim V) (veq_qhead V) (f_equal _ (veq_trail V)) Ht).
  - apply (WFm_cong (veq_core V) (veq_casize V) (veq_learnts V) (veq_clauses V) Hm).
  - apply (WFw_cong (veq_core V) (veq_watches V) (veq_clauses V) (veq_nvars V) Hw).
  - apply (PF_cong (veq_core V) (veq_trail_lim V) (veq_clauses V) (veq_trail V) Hp).
Qed.

Lemma veq_CUR {s s' : Solver D} : veq s s' -> CUR s -> CUR s'.
Proof.
  intros V. apply (CUR_cong (veq_core V) (veq_clauses V) (veq_trail V) (veq_qhead V)).
Qed.

Lemma root_cong {s s' : Solver D} :
  trail s' = trail s -> trail_lim s' = trail_lim s -> root s' = root s.
Proof. intros E1 E2. unfold root. rewrite E1, E2. reflexivity. Qed.

Lemma accounted_cong {s s' : Solver D} {ps} :
  core_eq s s' -> clauses s' = clauses s -> trail s' = trail s ->
  trail_lim s' = trail_lim s -> length (vardata s') = length (vardata s) ->
  accounted s ps -> accounted s' ps.
Proof.
  intros V Ec Et El En [(l & H1 & H2)|[(cr & ls & H1 & H2 & H3)|(l & H1 & H2 & H3 & H4)]].
  - left. exists l. rewrite (root_cong Et El). auto.
  - right. left. exists cr, ls. rewrite Ec. split; auto. split; auto.
    apply (core_lits_at V). auto.
  - right. right. exists l. unfold nVars. rewrite En. auto.
Qed.

Lemma veq_accounted {s s' : Solver D} {ps} : veq s s' -> accounted s ps -> accounted s' ps.
Proof.
  intros V.
  apply (accounted_cong (veq_core V) (veq_clauses V) (veq_trail V) (veq_trail_lim V)
                        (veq_nvars V)).
Qed.

End Congruence.

(** * Assigning a literal *)

Section Enqueue.
Context {D : Type} {FO : FloatOps D}.

Lemma value_True_iff (s : Solver D) l :
  value s l = Ok l_True <->
  0 <= l /\ nth_error (assigns s) (var l) = Some (lbool_of_bool (negb (sign l))).
Proof.
  rewrite value_Ok. split.
  - intros (H0 & a & E & X). split; auto. rewrite E. f_equal.
    destruct a, (sign l); simpl in *; congruence.
  - intros (H0 & E). split; auto. eexists. split; [exact E|].
    destruct (sign l); reflexivity.
Qed.

Lemma value_Undef_iff (s : Solver D) l :
  value s l = Ok l_Undef <-> 0 <= l /\ nth_error (assigns s) (var l) = Some l_Undef.
Proof.
  rewrite value_Ok. split.
  - intros (H0 & a & E & X). split; auto. rewrite E. f_equal.
    destruct a, (sign l); simpl in *; congruence.
  - intros (H0 & E). split; auto. eexists. split; [exact E|]. reflexivity.
Qed.

Lemma value_False_iff (s : Solver D) l :
  0 <= l -> (value s l = Ok l_False <-> value s (neg l) = Ok l_True).
Proof.
  intros H0. split; intros H.
  - apply value_neg in H. exact H.
  - apply value_neg in H. rewrite neg_neg in H. exact H.
Qed.

(** The value of a literal after its variable, or another one, was assigned. *)
Lemma value_set_assigns (s : Solver D) x a l :
  (x < length (assigns s))%nat ->
  value (set_assigns s (Vec.upd (assigns s) x a)) l =
  if (var l =? x)%nat then (if l <? 0 then Err OutOfBounds else Ok (lbool_xor a (sign l)))
  else value s l.
Proof.
  intros Hx. unfold value, varI. destruct (Z.ltb_spec l 0); simpl.
  - destruct (var l =? x)%nat; reflexivity.
  - unfold Vec.get. rewrite nth_error_upd.
    destruct (Nat.eqb_spec (var l) x) as [->|N].
    + rewrite Nat.eqb_refl. destruct (Nat.ltb_spec x (length (assigns s))); [|lia]. reflexivity.
    + destruct (Nat.eqb_spec x (var l)); [congruence|]. reflexivity.
Qed.

Lemma uncheckedEnqueue_Ok (s : Solver D) p from s' :
  uncheckedEnqueue s p from = Ok s' ->
  value s p = Ok l_Undef
  /\ (var p < length (assigns s))%nat
  /\ (var p < length (vardata s))%nat
  /\ s' = set_trail
            (set_vardata
               (set_assigns s (Vec.upd (assigns s) (var p) (lbool_of_bool (negb (sign p)))))
               (Vec.upd (vardata s) (var p) (mkVarData from (decisionLevel s))))
            (trail s ++ [p]).
Proof.
  unfold uncheckedEnqueue. intros H.
  apply bind_Ok in H. destruct H as (v & Ev & H).
  apply bind_Ok in H. destruct H as (u & Ea & H). apply assert_Ok in Ea.
  apply lbool_eqb_eq in Ea. subst v.
  apply bind_Ok in H. destruct H as (a & Es & H). apply set_Ok in Es. destruct Es as [L1 ->].
  apply bind_Ok in H. destruct H as (vd & Es & H). apply set_Ok in Es. destruct Es as [L2 ->].
  apply bind_Ok in H. destruct H as (u' & Ec & H). inversion H; subst.
  auto.
Qed.

Lemma var_eq_cases l p : 0 <= l -> 0 <= p -> var l = var p -> l = p \/ l = neg p.
Proof.
  intros Hl Hp E. destruct (Bool.bool_dec (sign l) (sign p)) as [S|S].
  - left. apply lit_ext; auto.
  - right. apply lit_ext; auto.
    + apply neg_nonneg; auto.
    + rewrite var_neg. auto.
    + rewrite sign_neg. destruct (sign l), (sign p); simpl; congruence.
Qed.

Lemma enqueued_value (s : Solver D) p from l :
  (var p < length (assigns s))%nat ->
  value (enqueued s p from) l =
  if (var l =? var p)%nat
  then (if l <? 0 then Err OutOfBounds
        else Ok (lbool_xor (lbool_of_bool (negb (sign p))) (sign l)))
  else value s l.
Proof.
  intros H. rewrite <- (value_set_assigns s (var p) _ l H).
  apply value_assigns. reflexivity.
Qed.

Lemma WFa_enqueued (s : Solver D) p from :
  value s p = Ok l_Undef -> WFa s -> WFa (enqueued s p from).
Proof.
  intros Hu [H1 H2 H3 H4 H5].
  apply value_Undef_iff in Hu. destruct Hu as [Hp Hu].
  assert (Hlt : (var p < length (assigns s))%nat).
  { apply nth_error_Some. congruence. }
  assert (Fresh : forall l, In l (trail s) -> var l <> var p).
  { intros l I E. apply H2 in I. apply value_True_iff in I. destruct I as [_ I].
    rewrite E, Hu in I. destruct (sign l); discriminate. }
  constructor.
  - unfold nVars. simpl. rewrite !length_upd. exact H1.
  - intros l I. simpl in I. apply in_app_iff in I. rewrite enqueued_value by auto.
    destruct I as [I|[<-|[]]].
    + destruct (Nat.eqb_spec (var l) (var p)) as [E|N]; [exfalso; eapply Fresh; eauto|].
      apply H2. exact I.
    + rewrite Nat.eqb_refl. destruct (Z.ltb_spec p 0); [lia|].
      destruct (sign p); reflexivity.
  - intros l. rewrite enqueued_value by auto. simpl. rewrite in_app_iff.
    destruct (Nat.eqb_spec (var l) (var p)) as [E|N].
    + destruct (Z.ltb_spec l 0); [discriminate|]. intros X. right. left.
      symmetry. apply lit_ext; auto.
      inversion X. destruct (sign p), (sign l); simpl in *; congruence.
    + intros X. left. apply H3. exact X.
  - simpl. rewrite map_app. simpl.
    apply NoDup_rev in H4. rewrite <- map_rev in H4.
    assert (G : NoDup (var p :: map var (rev (trail s)))).
    { constructor; auto. rewrite in_map_iff. intros (l & E & I).
      apply in_rev in I. revert E. apply Fresh. exact I. }
    apply NoDup_rev in G. simpl in G. rewrite <- map_rev, rev_involutive in G. exact G.
  - intros x. simpl. rewrite nth_error_upd.
    destruct (Nat.eqb_spec (var p) x); simpl.
    + destruct (var p <? length (assigns s))%nat; [|subst; auto].
      destruct (sign p); discriminate.
    + apply H5.
Qed.

End Enqueue.

(** * One clause changes: the watch lists and the arena *)

Section Step.
Context {D : Type} {FO : FloatOps D}.

Lemma WFm_put (s s' : Solver D) cr c c' :
  WFm s ->
  ca_mem (ca s) cr = Some c ->
  ca_mem (ca s') cr = Some c' ->
  cl_learnt c' = cl_learnt c -> cl_reloced c' = cl_reloced c ->
  (forall cr', cr' <> cr -> ca_mem (ca s') cr' = ca_mem (ca s) cr') ->
  ca_size (ca s') = ca_size (ca s) -> learnts s' = learnts s ->
  clauses s' = clauses s ->
  WFm s'.
Proof.
  intros [H1 H2 H3 H4] E E' L R O Sz Ln Cn. constructor.
  - intros x cx Ex. rewrite Sz. destruct (Z.eq_dec x cr) as [->|N].
    + rewrite E' in Ex. inversion Ex; subst. destruct (H1 cr c E). split; auto. congruence.
    + rewrite O in Ex by auto. apply (H1 x cx Ex).
  - rewrite Sz. exact H2.
  - rewrite Ln. intros x I. destruct (H3 x I) as (cx & Ex & Lx).
    destruct (Z.eq_dec x cr) as [->|N].
    + exists c'. split; auto. rewrite E in Ex. inversion Ex; subst. congruence.
    + exists cx. rewrite O by auto. auto.
  - rewrite Cn. intros x I. destruct (H4 x I) as (cx & Ex & Lx).
    destruct (Z.eq_dec x cr) as [->|N].
    + exists c'. split; auto. rewrite E in Ex. inversion Ex; subst. congruence.
    + exists cx. rewrite O by auto. auto.
Qed.

Lemma WFw_step (s0 s' : Solver D) cr c ls' :
  WFw s0 ->
  length (watches s') = length (watches s0) ->
  length (vardata s') = length (vardata s0) ->
  clauses s' = clauses s0 ->
  ca_mem (ca s0) cr = Some c ->
  ca_mem (ca s') cr = Some (set_cl_lits c ls') ->
  (forall cr', cr' <> cr -> ca_mem (ca s') cr' = ca_mem (ca s0) cr') ->
  Permutation (cl_lits c) ls' ->
  (forall i ws' w', nth_error (watches s') i = Some ws' -> In w' ws' ->
     (exists ws, nth_error (watches s0) i = Some ws /\ In w' ws)
     \/ (cref w' = cr /\ In (blocker w') ls')) ->
  (forall i ws w, nth_error (watches s0) i = Some ws -> In w ws -> cref w <> cr ->
     exists ws', nth_error (watches s') i = Some ws' /\ In w ws') ->
  (In cr (clauses s0) ->
     exists a b rest, ls' = a :: b :: rest
                      /\ has_watcher s' (neg a) cr /\ has_watcher s' (neg b) cr) ->
  WFw s'.
Proof.
  intros [H1 H2 H3 H4] Lw Lv Ec E E' O Pm Wn Wo Wc. constructor.
  - unfold nVars. rewrite Lw, Lv. exact H1.
  - intros i ws' w' Hn Hi. destruct (Wn i ws' w' Hn Hi) as [(ws & Hn0 & Hi0)|[Hc _]].
    + destruct (Z.eq_dec (cref w') cr) as [->|N]; [rewrite E'; discriminate|].
      rewrite O by auto. apply (H2 i ws w' Hn0 Hi0).
    + rewrite Hc, E'. discriminate.
  - rewrite Ec. intros x I. destruct (Z.eq_dec x cr) as [->|N].
    + destruct (H3 cr I) as (c2 & c0 & c1 & rest & E2 & Mk & Ls & ND & Val & W0 & W1).
      rewrite E in E2. inversion E2; subst c2.
      destruct (Wc I) as (a & b & rest' & -> & Wa & Wb).
      exists (set_cl_lits c (a :: b :: rest')), a, b, rest'. simpl.
      repeat split; auto.
      * apply (Permutation_NoDup Pm ND).
      * apply Val. apply (Permutation_in _ (Permutation_sym Pm)). auto.
      * unfold nVars. rewrite Lv. apply Val.
        apply (Permutation_in _ (Permutation_sym Pm)). auto.
    + destruct (H3 x I) as (c2 & c0 & c1 & rest & E2 & Mk & Ls & ND & Val & W0 & W1).
      exists c2, c0, c1, rest. rewrite O by auto. unfold nVars. rewrite Lv.
      assert (HW : forall q, has_watcher s0 q x -> has_watcher s' q x).
      { intros q (ws & w & Hn & Hi & Hc). destruct (Wo _ ws w Hn Hi) as (ws' & Hn' & Hi').
        - congruence.
        - exists ws', w. auto. }
      repeat split; auto; apply Val; auto.
  - rewrite Ec. intros i ws' w' Hn Hi Hc.
    destruct (Wn i ws' w' Hn Hi) as [(ws & Hn0 & Hi0)|[Hcr Hb]].
    + destruct (H4 i ws w' Hn0 Hi0 Hc) as (c2 & E2 & B).
      destruct (Z.eq_dec (cref w') cr) as [Q|N].
      * rewrite Q in *. rewrite E in E2. inversion E2; subst c2.
        exists (set_cl_lits c ls'). split; auto. simpl. apply (Permutation_in _ Pm). auto.
      * exists c2. rewrite O by auto. auto.
    + rewrite Hcr. exists (set_cl_lits c ls'). split; auto.
Qed.

(** *** Lists of literals and their watched positions *)

Lemma watch_ok_perm01 (T Tq : list Lit) a b r :
  watch_ok T Tq (a :: b :: r) -> watch_ok T Tq (b :: a :: r).
Proof.
  intros H w Hw Hn. destruct (H w) as (l & Hl & Ht); auto.
  - simpl in *. tauto.
  - exists l. split; auto. simpl in *. tauto.
Qed.

Lemma find_watch_Some (s : Solver D) : forall tail k k',
  find_watch s k tail = Ok (Some k') ->
  (k <= k' < k + length tail)%nat
  /\ exists q v, nth_error tail (k' - k) = Some q /\ value s q = Ok v /\ v <> l_False.
Proof.
  induction tail as [|q t IH]; intros k k' H; simpl in H; [discriminate|].
  apply bind_Ok in H. destruct H as (v & Ev & H).
  destruct (lbool_eqb v l_False) eqn:E.
  - apply IH in H. destruct H as (Hk & q' & v' & Hn & Hv & Hf). split; [simpl; lia|].
    exists q', v'. replace (k' - k)%nat with (S (k' - S k)) by lia. auto.
  - inversion H; subst. split; [simpl; lia|]. exists q, v. rewrite Nat.sub_diag.
    split; auto. split; auto. intros ->. discriminate.
Qed.

Lemma find_watch_None (s : Solver D) : forall tail k,
  find_watch s k tail = Ok None -> forall q, In q tail -> value s q = Ok l_False.
Proof.
  induction tail as [|q t IH]; intros k H q' I; simpl in *; [tauto|].
  apply bind_Ok in H. destruct H as (v & Ev & H).
  destruct (lbool_eqb v l_False) eqn:E; [|discriminate].
  apply lbool_eqb_eq in E. subst v. destruct I as [<-|I]; auto. eapply IH; eauto.
Qed.

(** The first step on a clause: the false literal goes to position 1. *)
Lemma swap_false_lit (lits : list Lit) (fl : Lit) lits1 c1 :
  (c0 <- Vec.get lits 0 ;;
   if c0 =? fl then
     c1 <- Vec.get lits 1 ;; l <- Vec.set lits 0 c1 ;; Vec.set l 1 fl
   else Ok lits) = Ok lits1 ->
  Vec.get lits1 1 = Ok c1 -> (c1 =? fl) = true ->
  exists x r, lits1 = x :: fl :: r /\ (lits = x :: fl :: r \/ lits = fl :: x :: r).
Proof.
  intros H G E. apply Z.eqb_eq in E. subst c1.
  apply bind_Ok in H. destruct H as (c0 & E0 & H).
  destruct lits as [|a0 [|a1 r]]; try discriminate.
  - inversion E0; subst c0. destruct (a0 =? fl); simpl in H; try discriminate.
    inversion H; subst. discriminate.
  - inversion E0; subst c0. destruct (Z.eqb_spec a0 fl) as [->|N].
    + simpl in H. inversion H; subst. exists a1, r. auto.
    + inversion H; subst. inversion G; subst. exists a0, r. auto.
Qed.

End Step.

(** * The loop over the watchers of a literal *)

Section Watchers.
Context {D : Type} {FO : FloatOps D}.
Variable p : Lit.
Hypothesis p_nonneg : 0 <= p.

Lemma virt_nth (s : Solver D) l i :
  (Z.to_nat p < length (watches s))%nat ->
  nth_error (watches (virt p s l)) i =
  if (i =? Z.to_nat p)%nat then Some l else nth_error (watches s) i.
Proof.
  intros H. simpl. rewrite nth_error_upd.
  destruct (Nat.eqb_spec (Z.to_nat p) i) as [<-|N].
  - rewrite Nat.eqb_refl. destruct (Nat.ltb_spec (Z.to_nat p) (length (watches s))); [|lia].
    reflexivity.
  - destruct (Nat.eqb_spec i (Z.to_nat p)); [congruence|]. reflexivity.
Qed.

Lemma to_nat_eq_p q : 0 <= q -> Z.to_nat q = Z.to_nat p -> q = p.
Proof. intros. apply Z2Nat.inj; auto. Qed.

Lemma lits_at_fun (s : Solver D) cr ls ls' : lits_at s cr ls -> lits_at s cr ls' -> ls = ls'.
Proof. intros (c & E & <-) (c' & E' & <-). congruence. Qed.

(** A watcher whose blocker is true is kept. *)
Lemma LI_blocker (s : Solver D) kept w rest :
  LI p s kept (w :: rest) -> value s (blocker w) = Ok l_True -> LI p s (kept ++ [w]) rest.
Proof.
  intros [Hwf Hpd Hi Hp Hf] Hb. constructor; auto.
  - rewrite <- app_assoc. exact Hwf.
  - intros cr ls w0 Hc Hl Hw0 Hn.
    destruct (Hpd cr ls w0 Hc Hl Hw0 Hn) as [?|(E & x & [<-|Ix] & Ex)]; auto.
    + left. exists (blocker w). split.
      * destruct (wf_blockers (wf_w Hwf) (Z.to_nat p) (kept ++ w :: rest) w) as (c & Ec & B).
        -- rewrite virt_nth by auto. rewrite Nat.eqb_refl. reflexivity.
        -- apply in_app_iff. right. left. reflexivity.
        -- rewrite Ex. exact Hc.
        -- simpl in Ec. rewrite Ex in Ec. destruct Hl as (c' & Ec' & <-).
           rewrite Ec in Ec'. inversion Ec'; subst. exact B.
      * apply (wf_true_trail (wf_a Hwf)). exact Hb.
    + right. eauto.
Qed.

Lemma set_cl_lits_same (c : Clause D) : set_cl_lits c (cl_lits c) = c.
Proof. destruct c; reflexivity. Qed.

Lemma lits_at_put (s : Solver D) cr c ls cr' ls' :
  lits_at (set_ca s (ca_put (ca s) cr (set_cl_lits c ls))) cr' ls' <->
  (cr' = cr /\ ls' = ls) \/ (cr' <> cr /\ lits_at s cr' ls').
Proof.
  unfold lits_at. simpl. destruct (Z.eqb_spec cr' cr) as [->|N].
  - split.
    + intros (c' & E & L). inversion E; subst. simpl. auto.
    + intros [[_ ->]|[N _]]; [|congruence]. eexists. split; reflexivity.
  - split; [intros H; right; auto|]. intros [[E _]|[_ H]]; [congruence|auto].
Qed.

(** Bringing the false literal to position 1 keeps the invariant. *)
Lemma LI_swap (s : Solver D) kept ws cr c x r :
  LI p s kept ws ->
  ca_mem (ca s) cr = Some c ->
  (cl_lits c = x :: neg p :: r \/ cl_lits c = neg p :: x :: r) ->
  LI p (set_ca s (ca_put (ca s) cr (set_cl_lits c (x :: neg p :: r)))) kept ws.
Proof.
  intros [Hwf Hpd Hi Hp Hf] Ec Hl.
  set (s1 := set_ca s (ca_put (ca s) cr (set_cl_lits c (x :: neg p :: r)))).
  assert (Pm : Permutation (cl_lits c) (x :: neg p :: r)).
  { destruct Hl as [->| ->]; [reflexivity|apply perm_swap]. }
  assert (WO : forall T Tq, watch_ok T Tq (cl_lits c) -> watch_ok T Tq (x :: neg p :: r)).
  { intros T Tq H. destruct Hl as [E|E]; rewrite E in H; auto. apply watch_ok_perm01; auto. }
  assert (E1 : ca_mem (ca s1) cr = Some (set_cl_lits c (x :: neg p :: r))).
  { simpl. rewrite Z.eqb_refl. reflexivity. }
  assert (O1 : forall cr', cr' <> cr -> ca_mem (ca s1) cr' = ca_mem (ca s) cr').
  { intros cr' N. simpl. destruct (Z.eqb_spec cr' cr); congruence. }
  constructor; auto.
  - destruct Hwf as [Ha Ht Hm Hw Hq]. constructor.
    + apply (WFa_cong (s := virt p s (kept ++ ws))); auto.
    + apply (WFt_cong (s := virt p s (kept ++ ws))); auto.
    + apply (WFm_put (virt p s (kept ++ ws)) _ cr c (set_cl_lits c (x :: neg p :: r))); auto.
    + apply (WFw_step (virt p s (kept ++ ws)) _ cr c (x :: neg p :: r)); auto.
      * intros i ws' w' Hn Hin. left. eauto.
      * intros i ws0 w0 Hn Hin _. eauto.
      * intros Hc. destruct (wf_clauses Hw cr Hc)
          as (c2 & c0 & c1 & rest & E2 & Mk & Ls & ND & Val & W0 & W1).
        simpl in E2. rewrite Ec in E2. inversion E2; subst c2.
        exists x, (neg p), r. split; auto.
        destruct Hl as [E|E]; rewrite E in Ls; inversion Ls; subst; auto.
    + intros b cr' ls Hb Hc Ll. simpl in *.
      apply lits_at_put in Ll. destruct Ll as [[-> ->]|[N Ll]].
      * apply WO. apply (Hq b cr (cl_lits c)); auto. exists c. auto.
      * apply (Hq b cr' ls); auto.
  - intros cr' ls w Hc Ll Hw Hn. simpl in *.
    apply lits_at_put in Ll. destruct Ll as [[-> ->]|[N Ll]].
    + assert (Hw' : nth_error (cl_lits c) 0 = Some w \/ nth_error (cl_lits c) 1 = Some w).
      { destruct Hl as [E|E]; rewrite E; simpl in *; tauto. }
      destruct (Hpd cr (cl_lits c) w Hc (ex_intro _ c (conj Ec eq_refl)) Hw' Hn)
        as [(l & I1 & I2)|?]; auto.
      left. exists l. split; auto. apply (Permutation_in _ Pm). auto.
    + apply (Hpd cr' ls w); auto.
Qed.

Lemma In_middle {A} (l1 l2 : list A) (a x : A) :
  In x (l1 ++ a :: l2) <-> x = a \/ In x (l1 ++ l2).
Proof. rewrite !in_app_iff. simpl. intuition. Qed.

(** The watcher [(cr, first)] replaces the watcher inspected. *)
Lemma WF_replace (s : Solver D) kept w rest c first r :
  WF (virt p s (kept ++ w :: rest)) ->
  (Z.to_nat p < length (watches s))%nat ->
  ca_mem (ca s) (cref w) = Some c ->
  cl_lits c = first :: neg p :: r ->
  WF (virt p s ((kept ++ [mkWatcher (cref w) first]) ++ rest)).
Proof.
  intros [Ha Ht Hm Hw Hq] Hi Ec Hl. rewrite <- app_assoc. simpl app.
  set (w' := mkWatcher (cref w) first).
  constructor.
  - apply (WFa_cong (s := virt p s (kept ++ w :: rest))); auto.
  - apply (WFt_cong (s := virt p s (kept ++ w :: rest))); auto.
  - apply (WFm_cong (s := virt p s (kept ++ w :: rest))); auto. apply core_eq_refl. reflexivity.
  - apply (WFw_step (virt p s (kept ++ w :: rest)) _ (cref w) c (cl_lits c)); auto.
    + simpl. rewrite !length_upd. reflexivity.
    + simpl. rewrite set_cl_lits_same. exact Ec.
    + intros i ws' x Hn Hin. rewrite virt_nth in * by auto.
      destruct (i =? Z.to_nat p)%nat.
      * inversion Hn; subst ws'. apply In_middle in Hin. destruct Hin as [->|Hin].
        -- right. simpl. rewrite Hl. simpl. auto.
        -- left. eexists. split; [reflexivity|]. apply In_middle. auto.
      * left. eauto.
    + intros i ws0 x Hn Hin Hc. rewrite virt_nth in * by auto.
      destruct (i =? Z.to_nat p)%nat.
      * inversion Hn; subst ws0. eexists. split; [reflexivity|].
        apply In_middle in Hin. apply In_middle. destruct Hin as [->|Hin]; [congruence|auto].
      * eauto.
    + intros Hc. destruct (wf_clauses Hw (cref w) Hc)
        as (c2 & c0 & c1 & rest0 & E2 & Mk & Ls & ND & Val & W0 & W1).
      simpl in E2. rewrite Ec in E2. inversion E2; subst c2.
      rewrite Hl in Ls. inversion Ls; subst c0 c1 rest0.
      exists first, (neg p), r. split; auto. split.
      * destruct W0 as (ws0 & x & Hn & Hin & Hx). rewrite virt_nth in Hn by auto.
        destruct (Nat.eqb_spec (Z.to_nat (neg first)) (Z.to_nat p)) as [E|N].
        -- exfalso. apply to_nat_eq_p in E.
           2:{ apply neg_nonneg. apply Val. rewrite Hl. left. auto. }
           rewrite Hl in ND. inversion ND as [|? ? N1 _]. apply N1. left.
           rewrite <- E. apply neg_neg.
        -- exists ws0, x. rewrite virt_nth by auto.
           destruct (Nat.eqb_spec (Z.to_nat (neg first)) (Z.to_nat p)); [congruence|auto].
      * exists (kept ++ w' :: rest), w'. rewrite virt_nth by auto. rewrite neg_neg.
        rewrite Nat.eqb_refl. split; auto. split; auto. apply In_middle. auto.
  - apply (PF_cong (s := virt p s (kept ++ w :: rest))); auto. apply core_eq_refl. reflexivity.
Qed.

(** The clause inspected has a true literal. *)
Lemma pend_ok_true (s : Solver D) w rest l :
  pend_ok p s (w :: rest) ->
  (forall ls, lits_at s (cref w) ls -> In l ls) -> In l (trail s) ->
  pend_ok p s rest.
Proof.
  intros Hpd Hl Ht cr ls w0 Hc Ll Hw0 Hn.
  destruct (Hpd cr ls w0 Hc Ll Hw0 Hn) as [?|(E & x & [<-|Ix] & Ex)]; auto.
  - left. exists l. split; auto. apply Hl. rewrite Ex. exact Ll.
  - right. eauto.
Qed.

(** The first literal is true: the watcher is kept with it as blocker. *)
Lemma LI_first_true (s : Solver D) kept w rest c first r :
  LI p s kept (w :: rest) ->
  ca_mem (ca s) (cref w) = Some c ->
  cl_lits c = first :: neg p :: r ->
  value s first = Ok l_True ->
  LI p s (kept ++ [mkWatcher (cref w) first]) rest.
Proof.
  intros [Hwf Hpd Hi Hp Hf] Ec Hl Hv. constructor; auto.
  - apply (WF_replace s kept w rest c first r); auto.
  - apply (pend_ok_true s w rest first); auto.
    + intros ls (c' & E' & <-). rewrite Ec in E'. inversion E'; subst. rewrite Hl. left. auto.
    + apply (wf_true_trail (wf_a Hwf)). exact Hv.
Qed.

Lemma In_firstn {A} (l : list A) n x : In x (firstn n l) -> In x l.
Proof. intros H. rewrite <- (firstn_skipn n l). apply in_app_iff. auto. Qed.

Lemma firstn_app_le {A} (l1 l2 : list A) n :
  (n <= length l1)%nat -> firstn n (l1 ++ l2) = firstn n l1.
Proof.
  intros H. rewrite firstn_app. replace (n - length l1)%nat with O by lia.
  simpl. apply app_nil_r.
Qed.

Lemma WF_enqueued (s : Solver D) q from :
  WF s -> value s q = Ok l_Undef -> WF (enqueued s q from).
Proof.
  intros [Ha Ht Hm Hw Hq] Hv. constructor.
  - apply WFa_enqueued; auto.
  - destruct Ht as [T1 T2 T3]. constructor; simpl; auto.
    rewrite length_app. simpl. lia.
  - apply (WFm_cong (s := s)); auto. apply core_eq_refl. reflexivity.
  - apply (WFw_cong (s := s)); auto.
    + apply core_eq_refl. reflexivity.
    + simpl. apply length_upd.
  - intros b cr ls Hb Hc Hl. simpl in *.
    rewrite firstn_app_le.
    + apply (Hq b cr ls); auto.
    + pose proof (wf_lim_qhead Ht b Hb). pose proof (wf_qhead Ht). lia.
Qed.

Lemma WF_set_qhead (s : Solver D) n :
  WF s -> (qhead s <= n <= length (trail s))%nat -> WF (set_qhead s n).
Proof.
  intros [Ha Ht Hm Hw Hq] Hn. constructor.
  - apply (WFa_cong (s := s)); auto.
  - destruct Ht as [T1 T2 T3]. constructor; simpl; auto; try lia.
    intros b Hb. specialize (T2 b Hb). lia.
  - apply (WFm_cong (s := s)); auto. apply core_eq_refl. reflexivity.
  - apply (WFw_cong (s := s)); auto. apply core_eq_refl. reflexivity.
  - apply (PF_cong (s := s)); auto. apply core_eq_refl. reflexivity.
Qed.

(** The clause is unit: its first literal is assigned. *)
Lemma LI_unit (s : Solver D) kept w rest c first r :
  LI p s kept (w :: rest) ->
  ca_mem (ca s) (cref w) = Some c ->
  cl_lits c = first :: neg p :: r ->
  value s first = Ok l_Undef ->
  LI p (enqueued s first (cref w)) (kept ++ [mkWatcher (cref w) first]) rest.
Proof.
  intros [Hwf Hpd Hi Hp Hf] Ec Hl Hv.
  pose proof (WF_replace s kept w rest c first r Hwf Hi Ec Hl) as Hwf1.
  set (l' := (kept ++ [mkWatcher (cref w) first]) ++ rest) in *.
  assert (Hwf2 : WF (virt p (enqueued s first (cref w)) l')).
  { apply (veq_WF (s := enqueued (virt p s l') first (cref w))).
    - constructor; intros; reflexivity.
    - apply WF_enqueued; auto. }
  pose proof (wf_qhead (wf_t Hwf)) as Hq. simpl in Hq.
  constructor; auto.
  - intros cr ls w0 Hc Ll Hw0 Hn. simpl in *. rewrite firstn_app_le in Hn by auto.
    destruct (Hpd cr ls w0 Hc Ll Hw0 Hn) as [(l & I1 & I2)|(E & x & [<-|Ix] & Ex)].
    + left. exists l. split; auto. apply in_app_iff. auto.
    + left. exists first. split; [|apply in_app_iff; right; left; auto].
      destruct Ll as (c' & E' & <-). simpl in E'. rewrite Ex in Ec. rewrite Ec in E'.
      inversion E'; subst. rewrite Hl. left. auto.
    + right. eauto.
  - apply (wf_trail_true (wf_a Hwf2)). simpl. apply in_app_iff. left.
    apply (wf_true_trail (wf_a Hwf)). exact Hp.
  - intros b Hb. simpl in *. rewrite firstn_app_le; auto.
    pose proof (wf_lim_qhead (wf_t Hwf) b Hb) as X. simpl in X. lia.
Qed.

Lemma occ_push_Ok (ws : OccLists) q w wt :
  occ_push ws q w = Ok wt ->
  0 <= q /\ exists l, nth_error ws (Z.to_nat q) = Some l
                      /\ wt = Vec.upd ws (Z.to_nat q) (l ++ [w]).
Proof.
  unfold occ_push, occ_get, occ_set. intros H.
  apply bind_Ok in H. destruct H as (l & E & H).
  apply bind_Ok in E. destruct E as (i & Ei & E). apply toInt_Ok in Ei. destruct Ei as [H0 ->].
  apply get_Ok in E.
  apply bind_Ok in H. destruct H as (i & Ei & H). apply toInt_Ok in Ei. destruct Ei as [_ ->].
  apply set_Ok in H. destruct H as [_ ->]. split; auto. exists l. auto.
Qed.

Lemma perm_swap_nth (fl ck : Lit) : forall r j,
  nth_error r j = Some ck -> Permutation (fl :: r) (ck :: Vec.upd r j fl).
Proof.
  induction r as [|a r IH]; intros [|j] H; simpl in *; try discriminate.
  - inversion H; subst. apply perm_swap.
  - rewrite perm_swap. rewrite (IH j H). rewrite (perm_swap a ck). reflexivity.
Qed.

(** A new watch is found: the clause leaves the list of [p]. *)
Lemma LI_new_watch (s : Solver D) kept w rest c first r j ck v wt :
  LI p s kept (w :: rest) ->
  ca_mem (ca s) (cref w) = Some c ->
  cl_lits c = first :: neg p :: r ->
  nth_error r j = Some ck ->
  value s ck = Ok v -> v <> l_False ->
  neg ck <> p ->
  occ_push (watches s) (neg ck) (mkWatcher (cref w) first) = Ok wt ->
  LI p (set_watches
        (set_ca s (ca_put (ca s) (cref w)
                     (set_cl_lits c (first :: ck :: Vec.upd r j (neg p))))) wt)
     kept rest.
Proof.
  intros [Hwf Hpd Hi Hp Hf] Ec Hl Hj Hv Hnf Hnp Hpush.
  set (cr := cref w) in *. set (w' := mkWatcher cr first) in *.
  set (ls2 := first :: ck :: Vec.upd r j (neg p)).
  set (s3 := set_watches (set_ca s (ca_put (ca s) cr (set_cl_lits c ls2))) wt).
  apply occ_push_Ok in Hpush. destruct Hpush as (Hn0 & wsN & HN & Hwt).
  assert (NP : Z.to_nat (neg ck) <> Z.to_nat p).
  { intros E. apply Hnp. apply to_nat_eq_p; auto. }
  assert (Pm : Permutation (cl_lits c) ls2).
  { rewrite Hl. unfold ls2. constructor. apply perm_swap_nth. exact Hj. }
  assert (Hck : ~ In (neg ck) (trail s)).
  { intros I. apply (wf_trail_true (wf_a Hwf)) in I. simpl in I.
    apply value_neg in I. rewrite neg_neg in I.
    assert (value s ck = Ok l_False) by exact I. congruence. }
  assert (E3 : ca_mem (ca s3) cr = Some (set_cl_lits c ls2)).
  { simpl. rewrite Z.eqb_refl. reflexivity. }
  assert (O3 : forall cr', cr' <> cr -> ca_mem (ca s3) cr' = ca_mem (ca s) cr').
  { intros cr' N. simpl. destruct (Z.eqb_spec cr' cr); congruence. }
  assert (W3 : forall l i, nth_error (watches (virt p s3 l)) i =
                 if (i =? Z.to_nat p)%nat then Some l
                 else if (i =? Z.to_nat (neg ck))%nat then Some (wsN ++ [w'])
                 else nth_error (watches s) i).
  { intros l i. rewrite virt_nth.
    - destruct (i =? Z.to_nat p)%nat; auto. simpl. rewrite Hwt, nth_error_upd.
      destruct (Nat.eqb_spec (Z.to_nat (neg ck)) i) as [<-|N].
      + rewrite Nat.eqb_refl.
        destruct (Nat.ltb_spec (Z.to_nat (neg ck)) (length (watches s))); auto.
        apply nth_error_None in H. congruence.
      + destruct (Nat.eqb_spec i (Z.to_nat (neg ck))); [congruence|]. reflexivity.
    - simpl. rewrite Hwt, length_upd. exact Hi. }
  assert (Lits3 : forall cr' ls, lits_at s3 cr' ls ->
                    (cr' = cr /\ ls = ls2) \/ (cr' <> cr /\ lits_at s cr' ls)).
  { intros cr' ls Ll. apply (lits_at_put s cr c ls2 cr' ls). exact Ll. }
  constructor.
  - destruct Hwf as [Ha Ht Hm Hw Hq]. constructor.
    + apply (WFa_cong (s := virt p s (kept ++ w :: rest))); auto.
    + apply (WFt_cong (s := virt p s (kept ++ w :: rest))); auto.
    + apply (WFm_put (virt p s (kept ++ w :: rest)) _ cr c (set_cl_lits c ls2)); auto.
    + apply (WFw_step (virt p s (kept ++ w :: rest)) _ cr c ls2); auto.
      * simpl. rewrite Hwt, !length_upd. reflexivity.
      * intros i ws' x Hn Hin. rewrite W3 in Hn. rewrite virt_nth by auto.
        destruct (i =? Z.to_nat p)%nat.
        -- inversion Hn; subst ws'. left. eexists. split; [reflexivity|].
           apply In_middle. auto.
        -- destruct (Nat.eqb_spec i (Z.to_nat (neg ck))) as [->|N].
           ++ inversion Hn; subst ws'. apply in_app_iff in Hin. destruct Hin as [Hin|[<-|[]]].
              ** left. eauto.
              ** right. split; auto. simpl. auto.
           ++ left. eauto.
      * intros i ws0 x Hn Hin Hc. rewrite virt_nth in Hn by auto. rewrite W3.
        destruct (i =? Z.to_nat p)%nat.
        -- inversion Hn; subst ws0. eexists. split; [reflexivity|].
           apply In_middle in Hin. destruct Hin as [->|Hin]; [exfalso; apply Hc; reflexivity|auto].
        -- destruct (Nat.eqb_spec i (Z.to_nat (neg ck))) as [->|N].
           ++ rewrite HN in Hn. inversion Hn; subst ws0. eexists. split; [reflexivity|].
              apply in_app_iff. auto.
           ++ eauto.
      * intros Hc. destruct (wf_clauses Hw cr Hc)
          as (c2 & c0 & c1 & rest0 & E2 & Mk & Ls & ND & Val & W0 & W1).
        simpl in E2. rewrite Ec in E2. inversion E2; subst c2.
        rewrite Hl in Ls. inversion Ls; subst c0 c1 rest0.
        exists first, ck, (Vec.upd r j (neg p)). split; auto. split.
        -- destruct W0 as (ws0 & x & Hn & Hin & Hx). rewrite virt_nth in Hn by auto.
           destruct (Nat.eqb_spec (Z.to_nat (neg first)) (Z.to_nat p)) as [E|N].
           ++ exfalso. apply to_nat_eq_p in E.
              2:{ apply neg_nonneg. apply Val. rewrite Hl. left. auto. }
              rewrite Hl in ND. inversion ND as [|? ? N1 _]. apply N1. left.
              rewrite <- E. apply neg_neg.
           ++ unfold has_watcher. rewrite (W3 (kept ++ rest)).
              destruct (Nat.eqb_spec (Z.to_nat (neg first)) (Z.to_nat p)); [congruence|].
              destruct (Nat.eqb_spec (Z.to_nat (neg first)) (Z.to_nat (neg ck))) as [E|N'].
              ** rewrite E, HN in Hn. inversion Hn; subst ws0.
                 exists (wsN ++ [w']), x. split; auto. split; auto. apply in_app_iff. auto.
              ** exists ws0, x. auto.
        -- unfold has_watcher. rewrite (W3 (kept ++ rest)).
           destruct (Nat.eqb_spec (Z.to_nat (neg ck)) (Z.to_nat p)); [congruence|].
           rewrite Nat.eqb_refl. exists (wsN ++ [w']), w'. split; auto. split; auto.
           apply in_app_iff. right. left. auto.
    + intros b cr' ls Hb Hc Ll. simpl in Hb, Hc.
      change (trail (virt p s3 (kept ++ rest))) with (trail s).
      destruct (Lits3 cr' ls Ll) as [[-> ->]|[N Ll']].
      * intros w0 Hw0 Hn.
        assert (Old : watch_ok (firstn b (trail s)) (firstn b (trail s)) (cl_lits c)).
        { apply (Hq b cr (cl_lits c)); auto. exists c. auto. }
        destruct Hw0 as [Hw0|Hw0]; simpl in Hw0; inversion Hw0; subst w0.
        -- destruct (Old first) as (l & I1 & I2); auto.
           { left. rewrite Hl. reflexivity. }
           exists l. split; auto. apply (Permutation_in _ Pm). auto.
        -- exfalso. apply Hck. eapply In_firstn; eauto.
      * apply (Hq b cr' ls); auto.
  - intros cr' ls w0 Hc Ll Hw0 Hn. simpl in Hc.
    change (trail s3) with (trail s) in *. change (qhead s3) with (qhead s) in *.
    destruct (Lits3 cr' ls Ll) as [[-> ->]|[N Ll']].
    + left.
      destruct (wf_clauses (wf_w Hwf) cr Hc)
        as (c2 & c0 & c1 & rest0 & E2 & Mk & Ls & ND & Val & W0 & W1).
      simpl in E2. rewrite Ec in E2. inversion E2; subst c2.
      destruct Hw0 as [Hw0|Hw0]; simpl in Hw0; inversion Hw0; subst w0.
      * destruct (Hpd cr (cl_lits c) first Hc (ex_intro _ c (conj Ec eq_refl)))
          as [(l & I1 & I2)|(E & _)]; auto.
        -- left. rewrite Hl. reflexivity.
        -- exists l. split; auto. apply (Permutation_in _ Pm). auto.
        -- exfalso. rewrite Hl in ND. inversion ND as [|? ? N1 _]. apply N1. left.
           rewrite <- E. apply neg_neg.
      * exfalso. apply Hck. eapply In_firstn; eauto.
    + destruct (Hpd cr' ls w0 Hc Ll' Hw0 Hn) as [?|(E & x & [<-|Ix] & Ex)]; auto.
      * exfalso. apply N. symmetry. exact Ex.
      * right. eauto.
  - simpl. rewrite Hwt, length_upd. exact Hi.
  - exact Hp.
  - exact Hf.
Qed.

Lemma pframe_refl (s : Solver D) : pframe s s.
Proof.
  constructor; auto.
  - exists []. symmetry. apply app_nil_r.
  - intros cr ls H. exists ls. split; auto.
Qed.

Lemma pframe_trans (s1 s2 s3 : Solver D) : pframe s1 s2 -> pframe s2 s3 -> pframe s1 s3.
Proof.
  intros [A1 A2 A3 A4 (e1 & A5) A6 A7] [B1 B2 B3 B4 (e2 & B5) B6 B7].
  constructor; try congruence.
  - exists (e1 ++ e2). rewrite B5, A5. symmetry. apply app_assoc.
  - intros cr ls H. destruct (A7 cr ls H) as (ls' & H' & P1).
    destruct (B7 cr ls' H') as (ls'' & H'' & P2). exists ls''. split; auto.
    eapply Permutation_trans; eauto.
Qed.

Lemma pframe_same (s s' : Solver D) :
  ok s' = ok s -> clauses s' = clauses s -> learnts s' = learnts s ->
  trail_lim s' = trail_lim s -> trail s' = trail s ->
  length (vardata s') = length (vardata s) -> ca s' = ca s -> pframe s s'.
Proof.
  intros. constructor; auto.
  - exists []. rewrite app_nil_r. auto.
  - intros cr ls (c & E & L). exists ls. split; auto. exists c. split; auto. congruence.
Qed.

Lemma pframe_put (s : Solver D) cr c ls' :
  ca_mem (ca s) cr = Some c -> Permutation (cl_lits c) ls' ->
  pframe s (set_ca s (ca_put (ca s) cr (set_cl_lits c ls'))).
Proof.
  intros E Pm. constructor; auto.
  - exists []. symmetry. apply app_nil_r.
  - intros cr' ls (c' & E' & L). destruct (Z.eq_dec cr' cr) as [->|N].
    + exists ls'. split.
      * apply lits_at_put. left. auto.
      * rewrite E in E'. inversion E'; subst. auto.
    + exists ls. split; auto. apply lits_at_put. right. split; auto. exists c'. auto.
Qed.

Lemma pframe_enqueued (s : Solver D) q from : pframe s (enqueued s q from).
Proof.
  constructor; auto.
  - exists [q]. reflexivity.
  - simpl. apply length_upd.
  - intros cr ls H. exists ls. split; auto.
Qed.

End Watchers.

(** * Propagation keeps the invariants *)

Ltac splits := match goal with |- _ /\ _ => split; [|splits] | _ => idtac end.

Section PropagateWs.
Context {D : Type} {FO : FloatOps D}.
Variable p : Lit.
Hypothesis p_nonneg : 0 <= p.

Lemma ca_get_Ok (a : ClauseAllocator D) cr c : ca_get a cr = Ok c -> ca_mem a cr = Some c.
Proof. unfold ca_get. destruct (ca_mem a cr); intros H; inversion H; auto. Qed.

Lemma propagate_ws_inv : forall ws (s : Solver D) kept confl out s',
  LI p s kept ws ->
  propagate_ws s p CRef_Undef ws kept = Ok (confl, out, s') ->
  WF (virt p s' out)
  /\ (Z.to_nat p < length (watches s'))%nat
  /\ (confl = CRef_Undef -> pend_ok p s' [] /\ qhead s' = qhead s)
  /\ (confl <> CRef_Undef -> qhead s' = length (trail s'))
  /\ (qhead s <= qhead s')%nat
  /\ value s' p = Ok l_True
  /\ pframe s s'
  /\ (confl <> CRef_Undef -> falsified s' confl).
Proof.
  induction ws as [|w rest IH]; intros s kept confl out s' HLI H.
  - simpl in H. inversion H; subst. destruct HLI as [Hwf Hpd Hi Hp Hf].
    rewrite app_nil_r in Hwf. splits; auto; try congruence. apply pframe_refl.
  - cbn [propagate_ws] in H.
    apply bind_Ok in H. destruct H as (vb & Evb & H).
    destruct (lbool_eqb vb l_True) eqn:Eb.
    { apply lbool_eqb_eq in Eb. subst vb.
      apply (IH s (kept ++ [w])); auto. apply LI_blocker; auto. }
    apply bind_Ok in H. destruct H as (c & Ec & H). apply ca_get_Ok in Ec.
    apply bind_Ok in H. destruct H as (c0 & E0 & H).
    apply bind_Ok in H. destruct H as (lits1 & E1 & H).
    apply bind_Ok in H. destruct H as (c1 & Ec1 & H).
    apply bind_Ok in H. destruct H as (u & Ea & H). apply assert_Ok in Ea.
    apply bind_Ok in H. destruct H as (first & Ef & H).
    apply bind_Ok in H. destruct H as (vf & Evf & H).
    destruct (swap_false_lit (cl_lits c) (neg p) lits1 c1) as (x & r & -> & Hl); auto.
    { rewrite E0. exact E1. }
    simpl in Ef. inversion Ef; subst x. clear Ef E0 E1 Ec1 Ea.
    pose proof (LI_swap p s kept (w :: rest) (cref w) c first r HLI Ec Hl) as HLI1.
    set (c' := set_cl_lits c (first :: neg p :: r)) in *.
    set (s1 := set_ca s (ca_put (ca s) (cref w) c')) in *.
    assert (Ec' : ca_mem (ca s1) (cref w) = Some c').
    { simpl. rewrite Z.eqb_refl. reflexivity. }
    assert (Hl' : cl_lits c' = first :: neg p :: r) by reflexivity.
    assert (F1 : pframe s s1).
    { apply pframe_put; auto. destruct Hl as [->| ->]; [reflexivity|apply perm_swap]. }
    destruct (negb (first =? blocker w) && lbool_eqb vf l_True) eqn:Et.
    { apply andb_true_iff in Et. destruct Et as [_ Et]. apply lbool_eqb_eq in Et. subst vf.
      destruct (IH s1 (kept ++ [mkWatcher (cref w) first]) confl out s') as (A1 & A2 & A3 & A4 & A5 & A6 & A7 & A8); auto.
      - apply (LI_first_true p p_nonneg s1 kept w rest c' first r); auto.
      - splits; auto. eapply pframe_trans; eauto. }
    apply bind_Ok in H. destruct H as (found & Efw & H). simpl skipn in Efw.
    destruct found as [k|].
    + apply bind_Ok in H. destruct H as (ck & Eck & H).
      apply bind_Ok in H. destruct H as (l1 & El1 & H).
      apply bind_Ok in H. destruct H as (lits2 & El2 & H).
      apply bind_Ok in H. destruct H as (u2 & Enp & H).
      apply bind_Ok in H. destruct H as (wt & Ewt & H).
      apply find_watch_Some in Efw. destruct Efw as (Hk & q & v & Hq & Hv & Hnf).
      destruct k as [|[|j]]; try lia.
      apply get_Ok in Eck. simpl in Eck. simpl in Hq. rewrite Nat.sub_0_r in Hq.
      rewrite Eck in Hq. inversion Hq; subst q. clear Hq.
      apply set_Ok in El1. destruct El1 as [_ ->].
      apply set_Ok in El2. destruct El2 as [_ ->]. simpl in H, Ewt.
      destruct (Z.eqb_spec (neg ck) p) as [|Hnp]; [discriminate|]. clear Enp.
      pose proof (LI_new_watch p p_nonneg s1 kept w rest c' first r j ck v wt
                    HLI1 Ec' Hl' Eck Hv Hnf Hnp Ewt) as HLI3.
      destruct (IH _ kept confl out s' HLI3 H) as (A1 & A2 & A3 & A4 & A5 & A6 & A7 & A8).
      splits; auto.
      eapply pframe_trans; [exact F1|]. eapply pframe_trans; [|exact A7].
      eapply pframe_trans.
      * apply (pframe_put s1 (cref w) c' (first :: ck :: Vec.upd r j (neg p))); auto.
        simpl. constructor. apply perm_swap_nth. exact Eck.
      * apply pframe_same; reflexivity.
    + destruct (lbool_eqb vf l_False) eqn:Ef.
      * inversion H; subst. clear H.
        destruct HLI1 as [Hwf Hpd Hi Hp Hf].
        pose proof (WF_replace p p_nonneg s1 kept w rest c' first r Hwf Hi Ec' Hl') as Hwf1.
        assert (Hne : cref w <> CRef_Undef).
        { pose proof (wf_arena (wf_m Hwf) (cref w) c' Ec') as [X _].
          pose proof (wf_arena_size (wf_m Hwf)) as Y. simpl in X, Y. lia. }
        pose proof (wf_qhead (wf_t Hwf)) as Hq. simpl in Hq.
        splits; auto; try congruence.
        -- apply (veq_WF (s := set_qhead (virt p s1 ((kept ++ [mkWatcher (cref w) first]) ++ rest))
                                 (length (trail s1)))).
           ++ constructor; intros; reflexivity.
           ++ apply WF_set_qhead; auto.
        -- eapply pframe_trans; [exact F1|]. apply pframe_same; reflexivity.
        -- intros _. exists c'. split; [exact Ec'|]. intros l [<-|[<-|I]].
           ++ apply lbool_eqb_eq in Ef. subst vf. exact Evf.
           ++ apply value_neg in Hp. exact Hp.
           ++ apply (find_watch_None _ _ _ Efw). exact I.
      * apply bind_Ok in H. destruct H as (s2 & Eq & H).
        apply uncheckedEnqueue_Ok in Eq. destruct Eq as (Hu & _ & _ & ->).
        destruct (IH _ (kept ++ [mkWatcher (cref w) first]) confl out s'
                    (LI_unit p p_nonneg s1 kept w rest c' first r HLI1 Ec' Hl' Hu) H)
          as (A1 & A2 & A3 & A4 & A5 & A6 & A7 & A8).
        splits; auto.
        eapply pframe_trans; [exact F1|]. eapply pframe_trans; [|exact A7].
        apply pframe_enqueued.
Qed.

End PropagateWs.

Section Propagate.
Context {D : Type} {FO : FloatOps D}.

Lemma pend_ok_nil_CUR p (s : Solver D) l : pend_ok p s [] -> CUR (virt p s l).
Proof.
  intros H cr ls Hc Hl w Hw Hn. simpl in *.
  destruct (H cr ls w Hc Hl Hw Hn) as [?|(_ & x & [] & _)]; auto.
Qed.

Lemma firstn_S_nth {A} (l : list A) : forall n x,
  nth_error l n = Some x -> firstn (S n) l = firstn n l ++ [x].
Proof.
  induction l as [|a l IH]; intros [|n] x H; simpl in *; try discriminate.
  - inversion H; auto.
  - f_equal. apply IH. exact H.
Qed.

Lemma NoDup_map_nth_notin (T : list Lit) : forall n q,
  NoDup (map var T) -> nth_error T n = Some q -> ~ In q (firstn n T).
Proof.
  induction T as [|a t IH]; intros [|n] q ND H; simpl in *; try discriminate; auto.
  inversion ND as [|? ? N1 N2]; subst. intros [->|I].
  - apply N1. apply in_map. eapply nth_error_In; eauto.
  - eapply IH; eauto.
Qed.

Lemma firstn_le_In {A} (l : list A) n m x : (n <= m)%nat -> In x (firstn n l) -> In x (firstn m l).
Proof.
  intros L I. replace n with (Nat.min n m) in I by lia. rewrite <- firstn_firstn in I.
  eapply In_firstn; eauto.
Qed.

Lemma LI_start (s : Solver D) p ws :
  WF s -> CUR s ->
  nth_error (trail s) (qhead s) = Some p ->
  nth_error (watches s) (Z.to_nat p) = Some ws ->
  LI p (set_propagations (set_qhead s (S (qhead s)))
          (incr64 (propagations (set_qhead s (S (qhead s)))))) [] ws.
Proof.
  intros Hwf Hcur Ep Ews.
  set (s2 := set_propagations (set_qhead s (S (qhead s)))
               (incr64 (propagations (set_qhead s (S (qhead s)))))) in *.
  assert (Hq : (qhead s < length (trail s))%nat).
  { apply nth_error_Some. congruence. }
  assert (Hwf2 : WF s2).
  { apply (veq_WF (s := set_qhead s (S (qhead s)))).
    - constructor; intros; reflexivity.
    - apply WF_set_qhead; auto; lia. }
  assert (Hpt : In p (trail s)) by (eapply nth_error_In; eauto).
  constructor.
  - simpl app. unfold virt. rewrite upd_same by exact Ews.
    apply (veq_WF (s := s2)); auto. constructor; intros; reflexivity.
  - intros cr ls w Hc Hl Hw Hn. simpl in Hc. change (trail s2) with (trail s) in *.
    change (qhead s2) with (S (qhead s)) in Hn.
    rewrite (firstn_S_nth _ _ _ Ep) in Hn. apply in_app_iff in Hn.
    destruct Hn as [Hn|[Hn|[]]].
    + left. apply (Hcur cr ls Hc Hl w Hw Hn).
    + right. split; [symmetry; exact Hn|].
      destruct (wf_clauses (wf_w Hwf) cr Hc)
        as (c2 & c0 & c1 & rest0 & E2 & Mk & Ls & ND & Val & W0 & W1).
      destruct Hl as (c' & Ec' & <-). simpl in Ec'. rewrite E2 in Ec'. inversion Ec'; subst c'.
      rewrite Ls in Hw. simpl in Hw.
      assert (HW : has_watcher s (neg w) cr).
      { destruct Hw as [Hw|Hw]; inversion Hw; subst w; auto. }
      rewrite <- Hn in HW.
      destruct HW as (ws' & x & Hn' & Hi' & Hx). rewrite Ews in Hn'. inversion Hn'; subst ws'.
      eauto.
  - exact (proj1 (nth_error_Some _ _) ltac:(rewrite Ews; discriminate)).
  - apply (wf_trail_true (wf_a Hwf)). exact Hpt.
  - intros b Hb I. simpl in Hb. change (trail s2) with (trail s) in I.
    apply (NoDup_map_nth_notin (trail s) (qhead s) p (wf_trail_nodup (wf_a Hwf)) Ep).
    apply (firstn_le_In _ b); auto. apply (wf_lim_qhead (wf_t Hwf)). exact Hb.
Qed.

Lemma propagate_round_inv (s : Solver D) confl s' :
  WF s -> CUR s ->
  propagate_round s CRef_Undef = Ok (confl, s') ->
  WF s'
  /\ (confl = CRef_Undef -> CUR s' /\ qhead s' = S (qhead s))
  /\ (confl <> CRef_Undef -> qhead s' = length (trail s'))
  /\ (qhead s < qhead s')%nat
  /\ pframe s s'
  /\ (confl <> CRef_Undef -> falsified s' confl).
Proof.
  intros Hwf Hcur H. unfold propagate_round in H.
  apply bind_Ok in H. destruct H as (p & Ep & H). apply get_Ok in Ep.
  apply bind_Ok in H. destruct H as (ws & Ews & H).
  apply bind_Ok in H. destruct H as ([[confl' kept] s3] & Eloop & H).
  apply bind_Ok in H. destruct H as (wt & Ewt & H). inversion H; subst confl' s'. clear H.
  unfold occ_get in Ews. apply bind_Ok in Ews. destruct Ews as (i & Ei & Ews).
  apply toInt_Ok in Ei. destruct Ei as [Hp0 ->]. apply get_Ok in Ews. simpl in Ews.
  unfold occ_set in Ewt. apply bind_Ok in Ewt. destruct Ewt as (i & Ei & Ewt).
  apply toInt_Ok in Ei. destruct Ei as [_ ->]. apply set_Ok in Ewt. destruct Ewt as [Hlen ->].
  set (s2 := set_propagations (set_qhead s (S (qhead s)))
               (incr64 (propagations (set_qhead s (S (qhead s)))))) in *.
  pose proof (LI_start s p ws Hwf Hcur Ep Ews) as HLI. fold s2 in HLI.
  destruct (propagate_ws_inv p Hp0 ws s2 [] confl kept s3 HLI Eloop)
    as (A1 & A2 & A3 & A4 & A5 & A6 & A7 & A8).
  splits.
  - exact A1.
  - intros E. destruct (A3 E) as [B1 B2]. split.
    + apply pend_ok_nil_CUR. exact B1.
    + exact B2.
  - exact A4.
  - change (qhead s2) with (S (qhead s)) in A5. simpl. lia.
  - eapply pframe_trans; [|eapply pframe_trans; [exact A7|]]; apply pframe_same; reflexivity.
  - exact A8.
Qed.

Lemma propagate_loop_inv : forall fuel (s : Solver D) confl confl' s',
  WF s -> (confl = CRef_Undef -> CUR s) ->
  (confl <> CRef_Undef -> qhead s = length (trail s) /\ falsified s confl) ->
  propagate_loop fuel s confl = Ok (confl', s') ->
  WF s'
  /\ (confl' = CRef_Undef -> CUR s')
  /\ qhead s' = length (trail s')
  /\ pframe s s'
  /\ (confl' <> CRef_Undef -> falsified s' confl').
Proof.
  induction fuel as [|f IH]; intros s confl confl' s' Hwf Hc Hq H; simpl in H.
  - destruct (Nat.ltb_spec (qhead s) (length (trail s))); [discriminate|].
    inversion H; subst. pose proof (wf_qhead (wf_t Hwf)).
    splits; auto; [lia|apply pframe_refl|]. intros N. apply Hq. exact N.
  - destruct (Nat.ltb_spec (qhead s) (length (trail s))) as [L|L].
    + destruct (Z.eq_dec confl CRef_Undef) as [->|N]; [|apply Hq in N; lia].
      apply bind_Ok in H. destruct H as ([c1 s1] & E1 & H).
      destruct (propagate_round_inv s c1 s1 Hwf (Hc eq_refl) E1)
        as (A1 & A2 & A3 & A4 & A5 & A6).
      destruct (IH s1 c1 confl' s' A1) as (B1 & B2 & B3 & B4 & B5); auto.
      * intros E. apply A2. exact E.
      * splits; auto. eapply pframe_trans; eauto.
    + inversion H; subst. pose proof (wf_qhead (wf_t Hwf)).
      splits; auto; [lia|apply pframe_refl|]. intros N. apply Hq. exact N.
Qed.

Lemma In_cleanAll (a : ClauseAllocator D) (ws : OccLists) i l :
  nth_error (occ_cleanAll a ws) i = Some l ->
  exists l0, nth_error ws i = Some l0
             /\ l = filter (fun w => negb (WatcherDeleted a w)) l0.
Proof.
  unfold occ_cleanAll. rewrite nth_error_map. destruct (nth_error ws i); simpl; intros H.
  - inversion H. eauto.
  - discriminate.
Qed.

Lemma WF_cleanAll (s : Solver D) :
  WF s -> WF (set_watches s (occ_cleanAll (ca s) (watches s))).
Proof.
  intros [Ha Ht Hm Hw Hq]. constructor.
  - apply (WFa_cong (s := s)); auto.
  - apply (WFt_cong (s := s)); auto.
  - apply (WFm_cong (s := s)); auto. apply core_eq_refl. reflexivity.
  - destruct Hw as [H1 H2 H3 H4]. constructor.
    + unfold nVars in *. simpl. unfold occ_cleanAll. rewrite length_map. exact H1.
    + intros i l w Hn Hi. simpl in *. apply In_cleanAll in Hn. destruct Hn as (l0 & Hn & ->).
      apply filter_In in Hi. apply (H2 i l0 w Hn). tauto.
    + intros cr Hc. simpl in Hc.
      destruct (H3 cr Hc) as (c2 & c0 & c1 & rest0 & E2 & Mk & Ls & ND & Val & W0 & W1).
      exists c2, c0, c1, rest0.
      assert (HW : forall q, has_watcher s q cr ->
                     has_watcher (set_watches s (occ_cleanAll (ca s) (watches s))) q cr).
      { intros q (l0 & w & Hn & Hi & Hx). exists (filter (fun w => negb (WatcherDeleted (ca s) w)) l0), w.
        simpl. unfold occ_cleanAll. rewrite nth_error_map, Hn. simpl. split; auto. split; auto.
        apply filter_In. split; auto. unfold WatcherDeleted. rewrite Hx, E2.
        destruct (Z.eqb_spec (cl_mark c2) 1); [congruence|reflexivity]. }
      splits; auto.
    + intros i l w Hn Hi Hc. simpl in *. apply In_cleanAll in Hn. destruct Hn as (l0 & Hn & ->).
      apply filter_In in Hi. apply (H4 i l0 w Hn); tauto.
  - apply (PF_cong (s := s)); auto. apply core_eq_refl. reflexivity.
Qed.

(** Propagation keeps a well-formed state well-formed; without a conflict
    every original clause has its watches in order at the end. *)
Lemma propagate_inv (s : Solver D) confl s' :
  WF s -> CUR s -> propagate s = Ok (confl, s') ->
  WF s'
  /\ (confl = CRef_Undef -> CUR s')
  /\ qhead s' = length (trail s')
  /\ pframe s s'
  /\ (confl <> CRef_Undef -> falsified s' confl).
Proof.
  intros Hwf Hcur H. unfold propagate in H.
  apply propagate_loop_inv in H.
  - destruct H as (A1 & A2 & A3 & A4 & A5). splits; auto.
    eapply pframe_trans; [|exact A4]. apply pframe_same; reflexivity.
  - apply WF_cleanAll. exact Hwf.
  - intros _. apply (CUR_cong (s := s)); auto. apply core_eq_refl. reflexivity.
  - congruence.
Qed.

End Propagate.

(** * Propagation runs to its end *)

Section Total.
Context {D : Type} {FO : FloatOps D}.

Lemma lit_index_bound (l : Lit) (n : nat) :
  0 <= l -> (var l < n)%nat -> (Z.to_nat l < 2 * n)%nat.
Proof.
  intros H0 Hv. rewrite var_div in Hv.
  assert (l / 2 < Z.of_nat n) by (apply Z2Nat.inj_lt; try lia; apply Z.div_pos; lia).
  assert (l < 2 * Z.of_nat n) by (Z.div_mod_to_equations; lia).
  lia.
Qed.

Lemma find_watch_total (s : Solver D) : forall tail k,
  (forall q, In q tail -> exists v, value s q = Ok v) ->
  exists r, find_watch s k tail = Ok r.
Proof.
  induction tail as [|q t IH]; intros k H; simpl.
  - eauto.
  - destruct (H q) as (v & ->); [left; auto|]. simpl.
    destruct (lbool_eqb v l_False); eauto. apply IH. intros; apply H; right; auto.
Qed.

Lemma var_in_range (s : Solver D) l v :
  WFa s -> value s l = Ok v -> 0 <= l /\ (var l < nVars s)%nat.
Proof.
  intros Ha H. apply value_Ok in H. destruct H as (H0 & a & E & _). split; auto.
  rewrite <- (wf_assigns_len Ha). apply nth_error_Some. congruence.
Qed.

(** An unassigned variable is not on the trail, whose variables are all
    different: the trail is shorter than the number of variables. *)
Lemma trail_room (s : Solver D) q :
  WFa s -> value s q = Ok l_Undef -> (length (trail s) < nVars s)%nat.
Proof.
  intros Ha Hq.
  assert (N : ~ In (var q) (map var (trail s))).
  { intros I. apply in_map_iff in I. destruct I as (l & E & I).
    apply (wf_trail_true Ha) in I. apply value_Ok in I. destruct I as (_ & a & Ea & Xa).
    apply value_Ok in Hq. destruct Hq as (_ & a' & Ea' & Xa'). rewrite E in Ea.
    rewrite Ea in Ea'. inversion Ea'; subst a'. destruct a, (sign l), (sign q); discriminate. }
  assert (ND : NoDup (var q :: map var (trail s))).
  { constructor; auto. apply (wf_trail_nodup Ha). }
  assert (I : incl (var q :: map var (trail s)) (seq 0 (nVars s))).
  { intros x [<-|Hx].
    - apply in_seq. destruct (var_in_range s q _ Ha Hq). lia.
    - apply in_map_iff in Hx. destruct Hx as (l & <- & Hl).
      apply (wf_trail_true Ha) in Hl. apply in_seq.
      destruct (var_in_range s l _ Ha Hl). lia. }
  pose proof (NoDup_incl_length ND I) as L. simpl in L. rewrite length_map, length_seq in L. lia.
Qed.

Lemma uncheckedEnqueue_total (s : Solver D) q from :
  WFa s -> (nVars s <= trail_cap s)%nat -> value s q = Ok l_Undef ->
  uncheckedEnqueue s q from = Ok (enqueued s q from).
Proof.
  intros Ha Hc Hq. unfold uncheckedEnqueue. rewrite Hq. simpl.
  destruct (var_in_range s q _ Ha Hq) as [H0 Hv].
  unfold Vec.set. rewrite (wf_assigns_len Ha).
  destruct (Nat.ltb_spec (var q) (nVars s)); [|lia]. simpl.
  unfold nVars in *. destruct (Nat.ltb_spec (var q) (length (vardata s))); [|lia]. simpl.
  pose proof (trail_room s q Ha Hq) as R. unfold nVars in R.
  destruct (Nat.ltb_spec (length (trail s)) (trail_cap s)); [|lia]. reflexivity.
Qed.

Lemma PWc_step (s0 s' : Solver D) cr c a b r :
  PWc s0 ->
  length (vardata s') = length (vardata s0) -> trail_cap s' = trail_cap s0 ->
  ca_mem (ca s0) cr = Some c ->
  ca_mem (ca s') cr = Some (set_cl_lits c (a :: b :: r)) ->
  (forall cr', cr' <> cr -> ca_mem (ca s') cr' = ca_mem (ca s0) cr') ->
  Permutation (cl_lits c) (a :: b :: r) ->
  NoDup (cl_lits c) ->
  (forall l, In l (cl_lits c) -> 0 <= l /\ (var l < nVars s0)%nat) ->
  (forall i ws' w', nth_error (watches s') i = Some ws' -> In w' ws' -> cref w' = cr ->
      (Z.to_nat (neg a) = i \/ Z.to_nat (neg b) = i)
      /\ 0 <= blocker w' /\ (var (blocker w') < nVars s0)%nat) ->
  (forall i ws' w', nth_error (watches s') i = Some ws' -> In w' ws' -> cref w' <> cr ->
      exists ws, nth_error (watches s0) i = Some ws /\ In w' ws) ->
  (forall i ws', nth_error (watches s') i = Some ws' -> NoDup (map cref ws')) ->
  PWc s'.
Proof.
  intros [P1 P2 P3] Lv Lc E E' O Pm ND Val Wc Wo Wn.
  assert (En : nVars s' = nVars s0) by (unfold nVars; exact Lv).
  constructor; auto.
  - rewrite En, Lc. exact P1.
  - intros i ws' w' Hn Hi. unfold watcher_ok in *. destruct (Z.eq_dec (cref w') cr) as [Q|N].
    + destruct (Wc i ws' w' Hn Hi Q) as (Hidx & Hb0 & Hbv). rewrite En.
      split; auto. split; auto. exists (set_cl_lits c (a :: b :: r)), a, b, r.
      rewrite Q. simpl. splits; auto.
      * apply (Permutation_NoDup Pm ND).
      * intros l I. apply Val. apply (Permutation_in _ (Permutation_sym Pm)). exact I.
    + destruct (Wo i ws' w' Hn Hi N) as (ws & Hn0 & Hi0).
      destruct (P2 i ws w' Hn0 Hi0) as (Hb0 & Hbv & c2 & a2 & b2 & r2 & X).
      rewrite En. split; auto. split; auto. exists c2, a2, b2, r2. rewrite O by auto. exact X.
Qed.

Lemma PWc_cong (s s' : Solver D) :
  ca s' = ca s -> watches s' = watches s ->
  length (vardata s') = length (vardata s) -> trail_cap s' = trail_cap s ->
  PWc s -> PWc s'.
Proof.
  intros Ea Ew Ev Ec [P1 P2 P3].
  assert (En : nVars s' = nVars s) by (unfold nVars; exact Ev).
  constructor.
  - rewrite En, Ec. exact P1.
  - intros i ws w. unfold watcher_ok. rewrite Ew, Ea, En. apply P2.
  - rewrite Ew. exact P3.
Qed.

End Total.

Section TotalWatchers.
Context {D : Type} {FO : FloatOps D}.
Variable p : Lit.
Hypothesis p_nonneg : 0 <= p.

Lemma PWc_swap (s : Solver D) l cr c x r :
  PWc (virt p s l) ->
  ca_mem (ca s) cr = Some c ->
  NoDup (cl_lits c) ->
  (forall q, In q (cl_lits c) -> 0 <= q /\ (var q < nVars s)%nat) ->
  (cl_lits c = x :: neg p :: r \/ cl_lits c = neg p :: x :: r) ->
  PWc (virt p (set_ca s (ca_put (ca s) cr (set_cl_lits c (x :: neg p :: r)))) l).
Proof.
  intros HP Ec ND Val Hl.
  apply (PWc_step (virt p s l) _ cr c x (neg p) r); auto.
  - simpl. rewrite Z.eqb_refl. reflexivity.
  - intros cr' N. simpl. destruct (Z.eqb_spec cr' cr); [congruence|reflexivity].
  - destruct Hl as [->| ->]; [reflexivity|apply perm_swap].
  - intros i ws' w' Hn Hi Q. destruct (pc_watcher HP i ws' w' Hn Hi)
      as (Hb0 & Hbv & c2 & a2 & b2 & r2 & E2 & L2 & Hidx & _).
    simpl in E2. rewrite Q, Ec in E2. inversion E2; subst c2. split; auto.
    destruct Hl as [Hl|Hl]; rewrite Hl in L2; inversion L2; subst; tauto.
  - intros i ws' w' Hn Hi _. eauto.
  - intros i ws' Hn. apply (pc_nodup HP i ws' Hn).
Qed.

Lemma map_cref_middle (l1 l2 : list Watcher) (w w' : Watcher) :
  cref w' = cref w -> map cref (l1 ++ w' :: l2) = map cref (l1 ++ w :: l2).
Proof. intros E. rewrite !map_app. simpl. rewrite E. reflexivity. Qed.

Lemma PWc_replace (s : Solver D) kept w rest c first r :
  PWc (virt p s (kept ++ w :: rest)) ->
  (Z.to_nat p < length (watches s))%nat ->
  ca_mem (ca s) (cref w) = Some c ->
  cl_lits c = first :: neg p :: r ->
  NoDup (cl_lits c) ->
  (forall q, In q (cl_lits c) -> 0 <= q /\ (var q < nVars s)%nat) ->
  PWc (virt p s ((kept ++ [mkWatcher (cref w) first]) ++ rest)).
Proof.
  intros HP Hi Ec Hl ND Val. rewrite <- app_assoc. simpl app.
  apply (PWc_step (virt p s (kept ++ w :: rest)) _ (cref w) c first (neg p) r); auto.
  - simpl. rewrite <- Hl, set_cl_lits_same. exact Ec.
  - rewrite Hl. reflexivity.
  - intros i ws' w' Hn Hin Q. rewrite virt_nth in Hn by auto.
    destruct (Nat.eqb_spec i (Z.to_nat p)) as [->|N].
    + split; [right; rewrite neg_neg; reflexivity|].
      inversion Hn; subst ws'. apply In_middle in Hin. destruct Hin as [->|Hin].
      * simpl. apply Val. rewrite Hl. left. reflexivity.
      * destruct (pc_watcher HP (Z.to_nat p) (kept ++ w :: rest) w') as (Hb0 & Hbv & _).
        -- rewrite virt_nth by auto. rewrite Nat.eqb_refl. reflexivity.
        -- apply In_middle. auto.
        -- auto.
    + destruct (pc_watcher HP i ws' w') as (Hb0 & Hbv & c2 & a2 & b2 & r2 & E2 & L2 & Hidx & _); auto.
      { rewrite virt_nth by auto. destruct (Nat.eqb_spec i (Z.to_nat p)); [congruence|auto]. }
      simpl in E2. rewrite Q, Ec in E2. inversion E2; subst c2.
      rewrite Hl in L2. inversion L2; subst. auto.
  - intros i ws' w' Hn Hin N. rewrite virt_nth in * by auto.
    destruct (i =? Z.to_nat p)%nat.
    + inversion Hn; subst ws'. eexists. split; [reflexivity|].
      apply In_middle in Hin. apply In_middle. destruct Hin as [->|Hin]; [|auto].
      exfalso. apply N. reflexivity.
    + eauto.
  - intros i ws' Hn. rewrite virt_nth in Hn by auto.
    destruct (Nat.eqb_spec i (Z.to_nat p)) as [->|N].
    + inversion Hn; subst ws'.
      rewrite (map_cref_middle kept rest w (mkWatcher (cref w) first)) by reflexivity.
      apply (pc_nodup HP (Z.to_nat p)). rewrite virt_nth by auto. rewrite Nat.eqb_refl. reflexivity.
    + apply (pc_nodup HP i). rewrite virt_nth by auto.
      destruct (Nat.eqb_spec i (Z.to_nat p)); [congruence|auto].
Qed.

Lemma In_upd_In {A} (r : list A) : forall j a x, In x (Vec.upd r j a) -> x = a \/ In x r.
Proof.
  induction r as [|h r IH]; intros [|j] a x H; simpl in *; try tauto.
  - destruct H; auto.
  - destruct H as [H|H]; auto. apply IH in H. tauto.
Qed.

Lemma PWc_new_watch (s : Solver D) kept w rest c first r j ck wt :
  PWc (virt p s (kept ++ w :: rest)) ->
  (Z.to_nat p < length (watches s))%nat ->
  ca_mem (ca s) (cref w) = Some c ->
  cl_lits c = first :: neg p :: r ->
  NoDup (cl_lits c) ->
  (forall q, In q (cl_lits c) -> 0 <= q /\ (var q < nVars s)%nat) ->
  nth_error r j = Some ck ->
  neg ck <> p ->
  occ_push (watches s) (neg ck) (mkWatcher (cref w) first) = Ok wt ->
  PWc (virt p (set_watches
                 (set_ca s (ca_put (ca s) (cref w)
                              (set_cl_lits c (first :: ck :: Vec.upd r j (neg p))))) wt)
            (kept ++ rest)).
Proof.
  intros HP Hi Ec Hl ND Val Hj Hnp Hpush.
  set (cr := cref w) in *. set (w' := mkWatcher cr first) in *.
  set (ls2 := first :: ck :: Vec.upd r j (neg p)).
  set (s3 := set_watches (set_ca s (ca_put (ca s) cr (set_cl_lits c ls2))) wt).
  apply occ_push_Ok in Hpush. destruct Hpush as (Hn0 & wsN & HN & Hwt).
  assert (NP : Z.to_nat (neg ck) <> Z.to_nat p).
  { intros E. apply Hnp. apply to_nat_eq_p; auto. }
  assert (Ick : In ck r) by (eapply nth_error_In; eauto).
  assert (Hfc : first <> ck).
  { rewrite Hl in ND. inversion ND as [|? ? N1 _]. intros E. apply N1. right. rewrite E. exact Ick. }
  assert (Hf0 : 0 <= first) by (apply Val; rewrite Hl; left; reflexivity).
  assert (Hc0 : 0 <= ck) by (apply Val; rewrite Hl; right; right; exact Ick).
  assert (W3 : forall l i, nth_error (watches (virt p s3 l)) i =
                 if (i =? Z.to_nat p)%nat then Some l
                 else if (i =? Z.to_nat (neg ck))%nat then Some (wsN ++ [w'])
                 else nth_error (watches s) i).
  { intros l i. rewrite virt_nth.
    - destruct (i =? Z.to_nat p)%nat; auto. simpl. rewrite Hwt, nth_error_upd.
      destruct (Nat.eqb_spec (Z.to_nat (neg ck)) i) as [<-|N].
      + rewrite Nat.eqb_refl.
        destruct (Nat.ltb_spec (Z.to_nat (neg ck)) (length (watches s))); auto.
        apply nth_error_None in H. congruence.
      + destruct (Nat.eqb_spec i (Z.to_nat (neg ck))); [congruence|]. reflexivity.
    - simpl. rewrite Hwt, length_upd. exact Hi. }
  assert (Old : forall i ws0 x, nth_error (watches s) i = Some ws0 -> i <> Z.to_nat p ->
                  In x ws0 -> cref x = cr ->
                  Z.to_nat (neg first) = i /\ 0 <= blocker x /\ (var (blocker x) < nVars s)%nat).
  { intros i ws0 x Hn Ni Hin Q.
    destruct (pc_watcher HP i ws0 x) as (Hb0 & Hbv & c2 & a2 & b2 & r2 & E2 & L2 & Hidx & _); auto.
    { rewrite virt_nth by auto. destruct (Nat.eqb_spec i (Z.to_nat p)); [congruence|auto]. }
    simpl in E2. rewrite Q in E2. fold cr in Ec. rewrite Ec in E2. inversion E2; subst c2.
    rewrite Hl in L2. inversion L2; subst a2 b2 r2. split; auto.
    destruct Hidx as [X|X]; auto. rewrite neg_neg in X. congruence. }
  assert (NDp : NoDup (map cref (kept ++ w :: rest))).
  { apply (pc_nodup HP (Z.to_nat p)). rewrite virt_nth by auto. rewrite Nat.eqb_refl. reflexivity. }
  assert (NoN : forall x, In x wsN -> cref x <> cr).
  { intros x Hin Q. destruct (Old _ wsN x HN NP Hin Q) as (X & _).
    apply Hfc. rewrite <- (neg_neg first), <- (neg_neg ck). f_equal.
    apply Z2Nat.inj; auto; apply neg_nonneg; auto. }
  apply (PWc_step (virt p s (kept ++ w :: rest)) _ cr c first ck (Vec.upd r j (neg p))); auto.
  - simpl. rewrite Z.eqb_refl. reflexivity.
  - intros cr' N. simpl. destruct (Z.eqb_spec cr' cr); [congruence|reflexivity].
  - rewrite Hl. constructor. apply perm_swap_nth. exact Hj.
  - intros i ws' x Hn Hin Q. rewrite W3 in Hn.
    change (nVars (virt p s (kept ++ w :: rest))) with (nVars s).
    destruct (Nat.eqb_spec i (Z.to_nat p)) as [->|Ni].
    + exfalso. inversion Hn; subst ws'. rewrite map_app in NDp. simpl in NDp.
      apply NoDup_remove_2 in NDp. apply NDp.
      assert (X : In (cref x) (map cref (kept ++ rest))) by (apply in_map; exact Hin).
      rewrite Q, map_app in X. exact X.
    + destruct (Nat.eqb_spec i (Z.to_nat (neg ck))) as [->|Nk].
      * inversion Hn; subst ws'. apply in_app_iff in Hin. destruct Hin as [Hin|[<-|[]]].
        -- exfalso. apply (NoN x Hin Q).
        -- split; auto. simpl. apply Val. rewrite Hl. left. reflexivity.
      * destruct (Old i ws' x Hn Ni Hin Q) as (X & Y). auto.
  - intros i ws' x Hn Hin N. rewrite W3 in Hn. rewrite virt_nth by auto.
    destruct (i =? Z.to_nat p)%nat.
    + inversion Hn; subst ws'. eexists. split; [reflexivity|]. apply In_middle. auto.
    + destruct (Nat.eqb_spec i (Z.to_nat (neg ck))) as [->|Nk].
      * inversion Hn; subst ws'. apply in_app_iff in Hin. destruct Hin as [Hin|[<-|[]]].
        -- eauto.
        -- exfalso. apply N. reflexivity.
      * eauto.
  - intros i ws' Hn. rewrite W3 in Hn.
    destruct (Nat.eqb_spec i (Z.to_nat p)) as [->|Ni].
    + inversion Hn; subst ws'. rewrite map_app in *. simpl in NDp.
      apply NoDup_remove_1 in NDp. exact NDp.
    + destruct (Nat.eqb_spec i (Z.to_nat (neg ck))) as [->|Nk].
      * inversion Hn; subst ws'. rewrite map_app. simpl.
        apply NoDup_app.
        -- apply (pc_nodup HP (Z.to_nat (neg ck))). rewrite virt_nth by auto.
           destruct (Nat.eqb_spec (Z.to_nat (neg ck)) (Z.to_nat p)); [congruence|auto].
        -- repeat constructor. intros [].
        -- intros y I1 [<-|[]]. apply in_map_iff in I1. destruct I1 as (x & Q & Hin).
           apply (NoN x Hin Q).
      * apply (pc_nodup HP i). rewrite virt_nth by auto.
        destruct (Nat.eqb_spec i (Z.to_nat p)); [congruence|auto].
Qed.

(** The loop over a watch list runs to its end. *)
Lemma propagate_ws_total : forall ws (s : Solver D) kept,
  LI p s kept ws -> PWc (virt p s (kept ++ ws)) ->
  exists confl out s',
    propagate_ws s p CRef_Undef ws kept = Ok (confl, out, s') /\ PWc (virt p s' out).
Proof.
  induction ws as [|w rest IH]; intros s kept HLI HP.
  - simpl. rewrite app_nil_r in HP. eauto.
  - pose proof HLI as [Hwf Hpd Hi Hp Hf].
    assert (Ha : WFa s).
    { apply (WFa_cong (s := virt p s (kept ++ w :: rest))); auto. apply (wf_a Hwf). }
    destruct (pc_watcher HP (Z.to_nat p) (kept ++ w :: rest) w)
      as (Hb0 & Hbv & c & a & b & r & Ec & Hl & Hidx & ND & Val).
    { rewrite virt_nth by auto. rewrite Nat.eqb_refl. reflexivity. }
    { apply in_app_iff. right. left. reflexivity. }
    simpl in Ec. change (nVars (virt p s (kept ++ w :: rest))) with (nVars s) in *.
    assert (Hdef : forall q, In q (cl_lits c) -> exists v, value s q = Ok v).
    { intros q I. destruct (Val q I). apply value_defined; auto.
      rewrite (wf_assigns_len Ha). auto. }
    destruct (@value_defined _ s (blocker w)) as (vb & Evb); auto.
    { rewrite (wf_assigns_len Ha). exact Hbv. }
    cbn [propagate_ws]. rewrite Evb. cbn [bind].
    destruct (lbool_eqb vb l_True) eqn:Eb.
    { apply lbool_eqb_eq in Eb. subst vb. apply IH.
      - apply LI_blocker; auto.
      - rewrite <- app_assoc. exact HP. }
    unfold ca_get. rewrite Ec. cbn [bind]. rewrite Hl.
    cbn [Vec.get nth_error bind].
    assert (Ex : exists x,
              (if a =? neg p
               then l <- Vec.set (a :: b :: r) 0 b;; Vec.set l 1 (neg p)
               else Ok (a :: b :: r)) = Ok (x :: neg p :: r)
              /\ (cl_lits c = x :: neg p :: r \/ cl_lits c = neg p :: x :: r)).
    { destruct (Z.eqb_spec a (neg p)) as [->|Na].
      - exists b. split; [reflexivity|]. right. exact Hl.
      - exists a. assert (b = neg p).
        { destruct Hidx as [Q|Q]; apply to_nat_eq_p in Q; auto.
          - exfalso. apply Na. rewrite <- Q. symmetry. apply neg_neg.
          - apply neg_nonneg. apply Val. rewrite Hl. left. reflexivity.
          - rewrite <- Q. symmetry. apply neg_neg.
          - apply neg_nonneg. apply Val. rewrite Hl. right. left. reflexivity. }
        subst b. split; [reflexivity|]. left. exact Hl. }
    destruct Ex as (x & -> & Hl'). cbn [bind Vec.get nth_error]. rewrite Z.eqb_refl.
    cbn [assert bind].
    pose proof (LI_swap p s kept (w :: rest) (cref w) c x r HLI Ec Hl') as HLI1.
    pose proof (PWc_swap s (kept ++ w :: rest) (cref w) c x r HP Ec ND Val Hl') as HP1.
    set (c' := set_cl_lits c (x :: neg p :: r)) in *.
    set (s1 := set_ca s (ca_put (ca s) (cref w) c')) in *.
    assert (Ec' : ca_mem (ca s1) (cref w) = Some c').
    { simpl. rewrite Z.eqb_refl. reflexivity. }
    assert (Hl1 : cl_lits c' = x :: neg p :: r) by reflexivity.
    assert (Pm : Permutation (cl_lits c) (cl_lits c')).
    { rewrite Hl1. destruct Hl' as [->| ->]; [reflexivity|apply perm_swap]. }
    assert (ND1 : NoDup (cl_lits c')) by (apply (Permutation_NoDup Pm ND)).
    assert (Val1 : forall q, In q (cl_lits c') -> 0 <= q /\ (var q < nVars s1)%nat).
    { intros q I. apply Val. apply (Permutation_in _ (Permutation_sym Pm)). exact I. }
    assert (Hdef1 : forall q, In q (cl_lits c') -> exists v, value s1 q = Ok v).
    { intros q I. apply Hdef. apply (Permutation_in _ (Permutation_sym Pm)). exact I. }
    assert (Ha1 : WFa s1) by (apply (WFa_cong (s := s)); auto).
    destruct (Hdef1 x) as (vf & Evf); [left; reflexivity|]. rewrite Evf. cbn [bind].
    destruct (negb (x =? blocker w) && lbool_eqb vf l_True) eqn:Et.
    { apply andb_true_iff in Et. destruct Et as [_ Et]. apply lbool_eqb_eq in Et. subst vf.
      apply IH.
      - apply (LI_first_true p p_nonneg s1 kept w rest c' x r); auto.
      - apply (PWc_replace s1 kept w rest c' x r); auto. }
    cbn [skipn].
    destruct (find_watch_total s1 r 2) as (found & Efw).
    { intros q I. apply Hdef1. right. right. exact I. }
    rewrite Efw. cbn [bind]. destruct found as [k|].
    + apply find_watch_Some in Efw. destruct Efw as (Hk & q & v & Hq & Hv & Hnf).
      destruct k as [|[|j]]; try lia. simpl in Hq. rewrite Nat.sub_0_r in Hq.
      assert (Hck : neg q <> p).
      { intros E. apply Hnf. apply value_neg in Hv. rewrite E in Hv.
        assert (X : value s1 p = Ok l_True) by exact Hp. rewrite X in Hv.
        destruct v; simpl in Hv; congruence. }
      assert (Iq : In q r) by (eapply nth_error_In; eauto).
      destruct (Val1 q) as [Hq0 Hqv]; [right; right; exact Iq|].
      assert (Hjl : (j < length r)%nat) by (apply nth_error_Some; congruence).
      assert (G1 : Vec.get (x :: neg p :: r) (S (S j)) = Ok q).
      { apply get_Ok. exact Hq. }
      assert (G2 : Vec.set (x :: neg p :: r) 1 q = Ok (x :: q :: r)) by reflexivity.
      assert (G3 : Vec.set (x :: q :: r) (S (S j)) (neg p)
                   = Ok (x :: q :: Vec.upd r j (neg p))).
      { apply set_Ok. split; [simpl; lia|reflexivity]. }
      rewrite G1. cbn [bind]. rewrite G2. cbn [bind]. rewrite G3. cbn [bind].
      destruct (Z.eqb_spec (neg q) p) as [|_]; [contradiction|]. cbn [bind].
      destruct (nth_error (watches s1) (Z.to_nat (neg q))) as [wsN|] eqn:HN.
      2:{ exfalso. apply nth_error_None in HN.
          pose proof (wf_watches_len (wf_w (li_wf HLI1))) as X. simpl in X.
          rewrite length_upd in X. change (watches s1) with (watches s) in HN.
          change (nVars (virt p s1 (kept ++ w :: rest))) with (nVars s1) in X.
          pose proof (lit_index_bound (neg q) (nVars s1)) as Y. rewrite var_neg in Y.
          specialize (Y (neg_nonneg Hq0) Hqv). lia. }
      assert (Epush : occ_push (watches s1) (neg q) (mkWatcher (cref w) x)
                      = Ok (Vec.upd (watches s1) (Z.to_nat (neg q))
                              (wsN ++ [mkWatcher (cref w) x]))).
      { unfold occ_push, occ_get, occ_set, toInt.
        destruct (Z.ltb_spec (neg q) 0); [pose proof (neg_nonneg Hq0); lia|]. cbn [bind].
        unfold Vec.get. rewrite HN. cbn [bind]. unfold Vec.set.
        assert (Z.to_nat (neg q) < length (watches s1))%nat by (apply nth_error_Some; congruence).
        destruct (Nat.ltb_spec (Z.to_nat (neg q)) (length (watches s1))); [|lia]. reflexivity. }
      match goal with |- context [occ_push ?W _ _] => change W with (watches s1) end.
      rewrite Epush. cbn [bind].
      apply IH.
      * apply (LI_new_watch p p_nonneg s1 kept w rest c' x r j q v); auto.
      * apply (PWc_new_watch s1 kept w rest c' x r j q); auto.
    + pose proof (find_watch_None _ _ _ Efw) as Hall.
      destruct (lbool_eqb vf l_False) eqn:Ef.
      * do 3 eexists. split; [reflexivity|].
        apply (PWc_cong (virt p s1 ((kept ++ [mkWatcher (cref w) x]) ++ rest))); auto.
        apply (PWc_replace s1 kept w rest c' x r); auto.
      * assert (Eu : vf = l_Undef).
        { destruct vf; auto; [|discriminate]. exfalso.
          rewrite andb_true_r in Et. apply negb_false_iff in Et. apply Z.eqb_eq in Et.
          rewrite <- Et in Evb. assert (X : value s x = Ok l_True) by exact Evf.
          rewrite X in Evb. inversion Evb; subst vb. discriminate. }
        subst vf.
        rewrite (uncheckedEnqueue_total s1 x (cref w) Ha1); auto.
        2:{ apply (pc_cap HP1). }
        cbn [bind]. apply IH.
        -- apply (LI_unit p p_nonneg s1 kept w rest c' x r); auto.
        -- apply (PWc_cong (virt p s1 ((kept ++ [mkWatcher (cref w) x]) ++ rest))); auto.
           ++ simpl. apply length_upd.
           ++ apply (PWc_replace s1 kept w rest c' x r); auto.
Qed.

End TotalWatchers.

Section TotalPropagate.
Context {D : Type} {FO : FloatOps D}.

(** On a conflict the watchers after the conflicting one are copied as they
    are. *)
Lemma propagate_ws_rest (p : Lit) : forall ws (s : Solver D) kept confl out s',
  propagate_ws s p CRef_Undef ws kept = Ok (confl, out, s') ->
  confl <> CRef_Undef ->
  exists done w rest kept',
    ws = done ++ w :: rest /\ cref w = confl /\ out = kept' ++ rest.
Proof.
  induction ws as [|w rest IH]; intros s kept confl out s' H N.
  - simpl in H. inversion H; subst. congruence.
  - assert (G : forall s1 k1, propagate_ws s1 p CRef_Undef rest k1 = Ok (confl, out, s') ->
              exists done w0 rest0 kept',
                w :: rest = done ++ w0 :: rest0 /\ cref w0 = confl /\ out = kept' ++ rest0).
    { intros s1 k1 H1. destruct (IH s1 k1 confl out s' H1 N) as (d & w0 & r0 & k' & -> & E & ->).
      exists (w :: d), w0, r0, k'. auto. }
    cbn [propagate_ws] in H.
    apply bind_Ok in H. destruct H as (vb & Evb & H).
    destruct (lbool_eqb vb l_True); [eapply G; eauto|].
    apply bind_Ok in H. destruct H as (c & Ec & H).
    apply bind_Ok in H. destruct H as (c0 & E0 & H).
    apply bind_Ok in H. destruct H as (lits1 & E1 & H).
    apply bind_Ok in H. destruct H as (c1 & Ec1 & H).
    apply bind_Ok in H. destruct H as (u & Ea & H).
    apply bind_Ok in H. destruct H as (first & Ef & H).
    apply bind_Ok in H. destruct H as (vf & Evf & H).
    destruct (negb (first =? blocker w) && lbool_eqb vf l_True); [eapply G; eauto|].
    apply bind_Ok in H. destruct H as (found & Efw & H).
    destruct found as [k|].
    + apply bind_Ok in H. destruct H as (ck & Eck & H).
      apply bind_Ok in H. destruct H as (l1 & El1 & H).
      apply bind_Ok in H. destruct H as (lits2 & El2 & H).
      apply bind_Ok in H. destruct H as (u2 & Enp & H).
      apply bind_Ok in H. destruct H as (wt & Ewt & H).
      eapply G; eauto.
    + destruct (lbool_eqb vf l_False).
      * inversion H; subst. exists [], w, rest, (kept ++ [mkWatcher (cref w) first]). auto.
      * apply bind_Ok in H. destruct H as (s2 & Eq & H). eapply G; eauto.
Qed.

(** A round of the outer loop that meets a conflict leaves [qhead] at the end
    of the trail, and in the list of the literal propagated the watchers that
    follow the conflicting one. *)
Lemma propagate_round_rest (s : Solver D) confl s' :
  WF s -> CUR s ->
  propagate_round s CRef_Undef = Ok (confl, s') -> confl <> CRef_Undef ->
  qhead s' = length (trail s')
  /\ exists p done w rest kept',
       nth_error (trail s) (qhead s) = Some p
       /\ nth_error (watches s) (Z.to_nat p) = Some (done ++ w :: rest)
       /\ cref w = confl
       /\ nth_error (watches s') (Z.to_nat p) = Some (kept' ++ rest).
Proof.
  intros Hwf Hcur H N.
  destruct (propagate_round_inv s confl s' Hwf Hcur H) as (_ & _ & A3 & _).
  split; [exact (A3 N)|].
  unfold propagate_round in H.
  apply bind_Ok in H. destruct H as (p & Ep & H). apply get_Ok in Ep.
  apply bind_Ok in H. destruct H as (ws & Ews & H).
  apply bind_Ok in H. destruct H as ([[confl' kept] s3] & Eloop & H).
  apply bind_Ok in H. destruct H as (wt & Ewt & H). inversion H; subst confl' s'. clear H.
  unfold occ_get in Ews. apply bind_Ok in Ews. destruct Ews as (i & Ei & Ews).
  apply toInt_Ok in Ei. destruct Ei as [Hp0 ->]. apply get_Ok in Ews. simpl in Ews.
  unfold occ_set in Ewt. apply bind_Ok in Ewt. destruct Ewt as (i & Ei & Ewt).
  apply toInt_Ok in Ei. destruct Ei as [_ ->]. apply set_Ok in Ewt. destruct Ewt as [Hlen ->].
  destruct (propagate_ws_rest p ws _ [] confl kept s3 Eloop N) as (d & w & r & k' & -> & E & ->).
  exists p, d, w, r, k'. splits; auto. simpl. apply nth_error_upd_eq. exact Hlen.
Qed.

Lemma trail_le_nVars (s : Solver D) : WFa s -> (length (trail s) <= nVars s)%nat.
Proof.
  intros Ha.
  assert (I : incl (map var (trail s)) (seq 0 (nVars s))).
  { intros x Hx. apply in_map_iff in Hx. destruct Hx as (l & <- & Hl).
    apply (wf_trail_true Ha) in Hl. apply in_seq.
    destruct (var_in_range s l _ Ha Hl). lia. }
  pose proof (NoDup_incl_length (wf_trail_nodup Ha) I) as L.
  rewrite length_map, length_seq in L. exact L.
Qed.

Lemma propagate_round_total (s : Solver D) :
  WF s -> CUR s -> PWc s -> (qhead s < length (trail s))%nat ->
  exists confl s', propagate_round s CRef_Undef = Ok (confl, s') /\ PWc s'.
Proof.
  intros Hwf Hcur HP Hq. unfold propagate_round.
  destruct (nth_error (trail s) (qhead s)) as [p|] eqn:Ep.
  2:{ apply nth_error_None in Ep. lia. }
  unfold Vec.get at 1. rewrite Ep. cbn [bind].
  assert (Hpv : value s p = Ok l_True).
  { apply (wf_trail_true (wf_a Hwf)). eapply nth_error_In; eauto. }
  destruct (var_in_range s p _ (wf_a Hwf) Hpv) as [Hp0 Hpn].
  pose proof (lit_index_bound p (nVars s) Hp0 Hpn) as Hidx.
  rewrite <- (wf_watches_len (wf_w Hwf)) in Hidx.
  destruct (nth_error (watches s) (Z.to_nat p)) as [ws|] eqn:Ews.
  2:{ apply nth_error_None in Ews. lia. }
  assert (Eg : occ_get (watches (set_qhead s (S (qhead s)))) p = Ok ws).
  { unfold occ_get, toInt. destruct (Z.ltb_spec p 0); [lia|]. cbn [bind].
    unfold Vec.get. simpl. rewrite Ews. reflexivity. }
  rewrite Eg. cbn [bind].
  pose proof (LI_start s p ws Hwf Hcur Ep Ews) as HLI.
  set (s2 := set_propagations (set_qhead s (S (qhead s)))
               (incr64 (propagations (set_qhead s (S (qhead s)))))) in *.
  assert (HP2 : PWc (virt p s2 ([] ++ ws))).
  { simpl app. unfold virt. rewrite upd_same by exact Ews.
    apply (PWc_cong s); auto. }
  destruct (propagate_ws_total p Hp0 ws s2 [] HLI HP2) as (confl & out & s3 & E & HP3).
  rewrite E. cbn [bind].
  destruct (propagate_ws_inv p Hp0 ws s2 [] confl out s3 HLI E) as (_ & A2 & _).
  assert (Es : occ_set (watches s3) p out = Ok (Vec.upd (watches s3) (Z.to_nat p) out)).
  { unfold occ_set, toInt. destruct (Z.ltb_spec p 0); [lia|]. cbn [bind].
    apply set_Ok. auto. }
  rewrite Es. cbn [bind]. exists confl. eexists. split; [reflexivity|]. exact HP3.
Qed.

Lemma propagate_loop_total : forall fuel (s : Solver D) confl,
  WF s -> (confl = CRef_Undef -> CUR s) ->
  (confl <> CRef_Undef -> qhead s = length (trail s)) ->
  PWc s -> (nVars s - qhead s <= fuel)%nat ->
  exists r, propagate_loop fuel s confl = Ok r.
Proof.
  induction fuel as [|f IH]; intros s confl Hwf Hc Hq HP Hm; simpl;
    pose proof (trail_le_nVars s (wf_a Hwf)) as Ht;
    destruct (Nat.ltb_spec (qhead s) (length (trail s))) as [L|L]; eauto; [lia|].
  destruct (Z.eq_dec confl CRef_Undef) as [->|N]; [|apply Hq in N; lia].
  destruct (propagate_round_total s Hwf (Hc eq_refl) HP L) as (c1 & s1 & E & HP1).
  rewrite E. cbn [bind].
  destruct (propagate_round_inv s c1 s1 Hwf (Hc eq_refl) E) as (A1 & A2 & A3 & A4 & A5 & _).
  apply IH; auto.
  - intros X. apply A2. exact X.
  - unfold nVars in *. rewrite (pf_nvars A5). lia.
Qed.

Lemma PW_cleanAll (s : Solver D) :
  PW s -> PWc (set_watches s (occ_cleanAll (ca s) (watches s))).
Proof.
  intros [P1 P2 P3]. constructor.
  - exact P1.
  - intros i ws w Hn Hi. simpl in Hn. apply In_cleanAll in Hn. destruct Hn as (l0 & Hn & ->).
    apply filter_In in Hi. destruct Hi as [Hi Hd].
    destruct (P2 i l0 w Hn Hi) as (c & Ec & X).
    unfold WatcherDeleted in Hd. rewrite Ec in Hd.
    destruct (Z.eqb_spec (cl_mark c) 1) as [|Nm]; [discriminate|]. exact (X Nm).
  - intros i ws Hn. simpl in Hn. apply In_cleanAll in Hn. destruct Hn as (l0 & Hn & ->).
    apply (P3 i l0 Hn).
Qed.

(** [propagate] returns. *)
Lemma propagate_total (s : Solver D) :
  WF s -> CUR s -> PW s -> exists confl s', propagate s = Ok (confl, s').
Proof.
  intros Hwf Hcur HP. unfold propagate.
  destruct (propagate_loop_total (S (length (trail s) + length (assigns s)))
              (set_watches s (occ_cleanAll (ca s) (watches s))) CRef_Undef) as ([c1 s1] & E).
  - apply WF_cleanAll. exact Hwf.
  - intros _. apply (CUR_cong (s := s)); auto. apply core_eq_refl. reflexivity.
  - congruence.
  - apply PW_cleanAll. exact HP.
  - change (nVars (set_watches s (occ_cleanAll (ca s) (watches s)))) with (nVars s).
    rewrite (wf_assigns_len (wf_a Hwf)). lia.
  - eauto.
Qed.

(** Without a conflict no clause of the data base is left false or unit. *)
Lemma CUR_unit_closed (s : Solver D) :
  WF s -> CUR s -> qhead s = length (trail s) -> unit_closed s.
Proof.
  intros Hwf Hcur Hq cr ls Hc Hl.
  destruct (wf_clauses (wf_w Hwf) cr Hc)
    as (c & c0 & c1 & rest & E & Mk & Ls & ND & Val & W0 & W1).
  pose proof Hl as (c' & E' & L'). rewrite E in E'. inversion E'; subst c'. clear E'.
  rewrite Ls in L'. subst ls.
  pose proof (Hcur cr _ Hc Hl) as HW. rewrite Hq, firstn_all in HW.
  assert (Hv : forall q, In q (c0 :: c1 :: rest) -> exists v, value s q = Ok v).
  { intros q I. rewrite <- Ls in I. destruct (Val q I). apply value_defined; auto.
    rewrite (wf_assigns_len (wf_a Hwf)). auto. }
  assert (T : forall w, (nth_error (c0 :: c1 :: rest) 0 = Some w
                         \/ nth_error (c0 :: c1 :: rest) 1 = Some w) ->
              value s w = Ok l_False ->
              exists l, In l (c0 :: c1 :: rest) /\ value s l = Ok l_True).
  { intros w Hw Hf. destruct (HW w Hw) as (l & I1 & I2).
    - apply (wf_true_trail (wf_a Hwf)). apply value_neg in Hf. exact Hf.
    - exists l. split; auto. apply (wf_trail_true (wf_a Hwf)). exact I2. }
  destruct (Hv c0) as (v0 & E0); [left; reflexivity|].
  destruct (Hv c1) as (v1 & E1); [right; left; reflexivity|].
  destruct v0.
  - left. exists c0. split; [left; reflexivity|exact E0].
  - left. apply (T c0); auto.
  - destruct v1.
    + left. exists c1. split; [right; left; reflexivity|exact E1].
    + left. apply (T c1); auto.
    + right. exists c0, c1. splits; auto.
      * rewrite Ls in ND. inversion ND as [|? ? N1 _]. intros X. apply N1. left. auto.
      * left. reflexivity.
      * right. left. reflexivity.
Qed.

End TotalPropagate.

(** [propagate] does not read the list of original clauses. *)
Section ClausesFrame.
Context {D : Type} {FO : FloatOps D}.
Variable cs : list CRef.

Lemma propagate_ws_clauses (p : Lit) : forall ws (s : Solver D) confl kept,
  propagate_ws (set_clauses s cs) p confl ws kept =
  match propagate_ws s p confl ws kept with
  | Ok (c, k, s') => Ok (c, k, set_clauses s' cs)
  | Err e => Err e
  end.
Proof.
  induction ws as [|w rest IH]; intros s confl kept; [reflexivity|].
  cbn [propagate_ws].
  change (value (set_clauses s cs) (blocker w)) with (value s (blocker w)).
  destruct (value s (blocker w)) as [vb|]; [|reflexivity]. cbn [bind].
  destruct (lbool_eqb vb l_True); [apply IH|].
  change (ca (set_clauses s cs)) with (ca s).
  destruct (ca_get (ca s) (cref w)) as [c|]; [|reflexivity]. cbn [bind].
  destruct (Vec.get (cl_lits c) 0) as [c0|]; [|reflexivity]. cbn [bind].
  match goal with |- bind ?m _ = _ => destruct m as [lits1|]; [|reflexivity] end. cbn [bind].
  destruct (Vec.get lits1 1) as [c1|]; [|reflexivity]. cbn [bind].
  destruct (assert (c1 =? neg p)) as [u|]; [|reflexivity]. cbn [bind].
  destruct (Vec.get lits1 0) as [first|]; [|reflexivity]. cbn [bind].
  set (s1 := set_ca s (ca_put (ca s) (cref w) (set_cl_lits c lits1))).
  change (set_ca (set_clauses s cs) (ca_put (ca s) (cref w) (set_cl_lits c lits1)))
    with (set_clauses s1 cs).
  change (value (set_clauses s1 cs) first) with (value s1 first).
  destruct (value s1 first) as [vf|]; [|reflexivity]. cbn [bind].
  destruct (negb (first =? blocker w) && lbool_eqb vf l_True); [apply IH|].
  assert (Ef : forall k t, find_watch (set_clauses s1 cs) k t = find_watch s1 k t).
  { intros k t. revert k. induction t as [|q t IHt]; intros k; [reflexivity|].
    simpl. change (value (set_clauses s1 cs) q) with (value s1 q).
    destruct (value s1 q) as [v|]; [|reflexivity]. simpl. rewrite IHt. reflexivity. }
  rewrite Ef. destruct (find_watch s1 2 (skipn 2 lits1)) as [[k|]|]; [| |reflexivity]; cbn [bind].
  - destruct (Vec.get lits1 k) as [ck|]; [|reflexivity]. cbn [bind].
    destruct (Vec.set lits1 1 ck) as [l1|]; [|reflexivity]. cbn [bind].
    destruct (Vec.set l1 k (neg p)) as [lits2|]; [|reflexivity]. cbn [bind].
    destruct (neg ck =? p); [reflexivity|]. cbn [bind].
    change (ca (set_clauses s1 cs)) with (ca s1).
    match goal with |- bind (occ_push ?W _ _) _ = _ =>
      change W with (watches s1) end.
    match goal with |- _ = match bind (occ_push ?W _ _) _ with _ => _ end =>
      change W with (watches s1) end.
    destruct (occ_push (watches s1) (neg ck) (mkWatcher (cref w) first)) as [wt|];
      [|reflexivity].
    cbn [bind]. apply (IH (set_watches (set_ca s1 (ca_put (ca s1) (cref w)
                                                  (set_cl_lits c lits2))) wt)).
  - destruct (lbool_eqb vf l_False); [reflexivity|].
    assert (Eu : uncheckedEnqueue (set_clauses s1 cs) first (cref w) =
                 match uncheckedEnqueue s1 first (cref w) with
                 | Ok s2 => Ok (set_clauses s2 cs)
                 | Err e => Err e
                 end).
    { unfold uncheckedEnqueue. change (value (set_clauses s1 cs) first) with (value s1 first).
      destruct (value s1 first) as [v|]; [|reflexivity]. cbn [bind].
      destruct (assert (lbool_eqb v l_Undef)); [|reflexivity]. cbn [bind].
      change (assigns (set_clauses s1 cs)) with (assigns s1).
      destruct (Vec.set (assigns s1) (var first) (lbool_of_bool (negb (sign first))));
        [|reflexivity]. cbn [bind].
      change (vardata (set_clauses s1 cs)) with (vardata s1).
      change (decisionLevel (set_clauses s1 cs)) with (decisionLevel s1).
      destruct (Vec.set (vardata s1) (var first) (mkVarData (cref w) (decisionLevel s1)));
        [|reflexivity]. cbn [bind].
      change (trail (set_clauses s1 cs)) with (trail s1).
      change (trail_cap (set_clauses s1 cs)) with (trail_cap s1).
      destruct (assert (length (trail s1) <? trail_cap s1)%nat); reflexivity. }
    rewrite Eu. destruct (uncheckedEnqueue s1 first (cref w)) as [s2|]; [|reflexivity].
    cbn [bind]. apply IH.
Qed.

Lemma propagate_round_clauses (s : Solver D) confl :
  propagate_round (set_clauses s cs) confl =
  match propagate_round s confl with
  | Ok (c, s') => Ok (c, set_clauses s' cs)
  | Err e => Err e
  end.
Proof.
  unfold propagate_round.
  change (trail (set_clauses s cs)) with (trail s).
  change (qhead (set_clauses s cs)) with (qhead s).
  destruct (Vec.get (trail s) (qhead s)) as [p|]; [|reflexivity]. cbn [bind].
  change (watches (set_qhead (set_clauses s cs) (S (qhead s))))
    with (watches (set_qhead s (S (qhead s)))).
  destruct (occ_get (watches (set_qhead s (S (qhead s)))) p) as [ws|]; [|reflexivity].
  cbn [bind].
  set (s2 := set_propagations (set_qhead s (S (qhead s)))
               (incr64 (propagations (set_qhead s (S (qhead s)))))).
  change (set_propagations (set_qhead (set_clauses s cs) (S (qhead s)))
            (incr64 (propagations (set_qhead (set_clauses s cs) (S (qhead s))))))
    with (set_clauses s2 cs).
  rewrite propagate_ws_clauses.
  destruct (propagate_ws s2 p confl ws []) as [[[c k] s3]|]; [|reflexivity]. cbn [bind].
  change (watches (set_clauses s3 cs)) with (watches s3).
  destruct (occ_set (watches s3) p k) as [wt|]; reflexivity.
Qed.

Lemma propagate_loop_clauses : forall fuel (s : Solver D) confl,
  propagate_loop fuel (set_clauses s cs) confl =
  match propagate_loop fuel s confl with
  | Ok (c, s') => Ok (c, set_clauses s' cs)
  | Err e => Err e
  end.
Proof.
  induction fuel as [|f IH]; intros s confl; simpl;
    destruct (qhead s <? length (trail s))%nat; try reflexivity.
  rewrite propagate_round_clauses.
  destruct (propagate_round s confl) as [[c s1]|]; [|reflexivity]. cbn [bind]. apply IH.
Qed.

Lemma propagate_clauses (s : Solver D) :
  propagate (set_clauses s cs) =
  match propagate s with
  | Ok (c, s') => Ok (c, set_clauses s' cs)
  | Err e => Err e
  end.
Proof. unfold propagate. apply (propagate_loop_clauses _ (set_watches s _)). Qed.

End ClausesFrame.

(** * The containers of mtl *)

Lemma wrap32_id z : - 2 ^ 31 <= z < 2 ^ 31 -> wrap32 z = z.
Proof. intros H. unfold wrap32. rewrite Z.mod_small; lia. Qed.

Lemma land_clear_bit0 z : Z.land z (Z.lnot 1) = 2 * (z / 2).
Proof.
  change (Z.land z (Z.lnot 1)) with (Z.ldiff z (Z.ones 1)).
  rewrite Z.ldiff_ones_r by lia. rewrite Z.shiftl_mul_pow2, Z.shiftr_div_pow2 by lia.
  change (2 ^ 1) with 2. lia.
Qed.

Lemma imax_max x y :
  - 2 ^ 31 <= x < 2 ^ 31 -> - 2 ^ 31 <= y < 2 ^ 31 -> - 2 ^ 31 <= y - x < 2 ^ 31 ->
  IntVec.imax x y = Z.max x y.
Proof.
  intros Hx Hy Hd. unfold IntVec.imax. rewrite (wrap32_id (y - x)) by exact Hd.
  rewrite Z.shiftr_div_pow2 by lia.
  destruct (Z.lt_ge_cases y x) as [L|G].
  - replace ((y - x) / 2 ^ 31) with (-1).
    + rewrite Z.land_m1_r. change (Z.lnot (-1)) with 0. rewrite Z.land_0_r, Z.add_0_r.
      rewrite wrap32_id by exact Hx. lia.
    + apply Z.div_unique with (r := y - x + 2 ^ 31); lia.
  - rewrite Z.div_small by lia. rewrite Z.land_0_r. change (Z.lnot 0) with (-1).
    rewrite Z.land_m1_r. simpl. rewrite wrap32_id by exact Hy. lia.
Qed.

(** The increment of [capacity]: the larger of the missing capacity, made
    even upwards, and of half the capacity plus two, made even downwards. *)
Lemma capacity_add (cap min_cap : Z) :
  0 <= cap <= INT_MAX -> cap < min_cap -> min_cap - cap < INT_MAX ->
  IntVec.capacity cap min_cap =
  let add := Z.max (2 * ((min_cap - cap + 1) / 2)) (2 * ((cap / 2 + 2) / 2)) in
  if INT_MAX - cap <? add then Err OutOfMemory else Ok (cap + add).
Proof.
  unfold INT_MAX. intros Hc Hm Hd. unfold IntVec.capacity, INT_MAX.
  destruct (Z.leb_spec min_cap cap) as [X|_]; [lia|].
  rewrite (wrap32_id (min_cap - cap)) by lia.
  rewrite (wrap32_id (min_cap - cap + 1)) by lia.
  rewrite Z.shiftr_div_pow2 by lia. change (2 ^ 1) with 2.
  assert (H2 : 0 <= cap / 2 <= 2 ^ 30).
  { split; [apply Z.div_pos; lia|]. apply Z.div_le_upper_bound; [lia|].
    change (2 * 2 ^ 30) with (2 ^ 31). lia. }
  assert (P30 : 2 ^ 31 = 2 * 2 ^ 30) by reflexivity.
  rewrite (wrap32_id (cap / 2 + 2)) by lia.
  rewrite !land_clear_bit0.
  assert (A1 : 0 <= 2 * ((min_cap - cap + 1) / 2) <= min_cap - cap + 1).
  { pose proof (Z.mul_div_le (min_cap - cap + 1) 2). pose proof (Z.div_pos (min_cap - cap + 1) 2). lia. }
  assert (A2 : 0 <= 2 * ((cap / 2 + 2) / 2) <= cap / 2 + 2).
  { pose proof (Z.mul_div_le (cap / 2 + 2) 2). pose proof (Z.div_pos (cap / 2 + 2) 2). lia. }
  rewrite imax_max by lia.
  rewrite (wrap32_id (2 ^ 31 - 1 - cap)) by lia. cbv zeta.
  destruct (Z.ltb_spec (2 ^ 31 - 1 - cap)
              (Z.max (2 * ((min_cap - cap + 1) / 2)) (2 * ((cap / 2 + 2) / 2)))); [reflexivity|].
  rewrite wrap32_id by lia. reflexivity.
Qed.

Lemma even_2x a : Z.even (2 * a) = true.
Proof. rewrite Z.even_mul. reflexivity. Qed.

Lemma capacity_Ok (cap min_cap cap' : Z) :
  0 <= cap <= INT_MAX -> Z.even cap = true -> cap < min_cap -> min_cap - cap < INT_MAX ->
  IntVec.capacity cap min_cap = Ok cap' ->
  min_cap <= cap' <= INT_MAX /\ Z.even cap' = true /\ cap + cap / 2 < cap'.
Proof.
  intros Hc He Hm Hd H. rewrite capacity_add in H by assumption. cbv zeta in H.
  destruct (Z.ltb_spec (INT_MAX - cap)
              (Z.max (2 * ((min_cap - cap + 1) / 2)) (2 * ((cap / 2 + 2) / 2)))) as [|L];
    [discriminate|].
  apply (f_equal (fun r => match r with Ok v => v | Err _ => 0 end)) in H.
  cbv beta iota in H. subst cap'.
  assert (B1 : min_cap - cap <= 2 * ((min_cap - cap + 1) / 2)).
  { pose proof (Z.mod_pos_bound (min_cap - cap + 1) 2).
    pose proof (Z.div_mod (min_cap - cap + 1) 2). lia. }
  assert (B2 : cap / 2 + 1 <= 2 * ((cap / 2 + 2) / 2)).
  { pose proof (Z.mod_pos_bound (cap / 2 + 2) 2).
    pose proof (Z.div_mod (cap / 2 + 2) 2). lia. }
  splits.
  - lia.
  - rewrite Z.even_add, He.
    destruct (Z.max_spec (2 * ((min_cap - cap + 1) / 2)) (2 * ((cap / 2 + 2) / 2)))
      as [[_ ->]|[_ ->]]; rewrite even_2x; reflexivity.
  - pose proof (Z.le_max_r (2 * ((min_cap - cap + 1) / 2)) (2 * ((cap / 2 + 2) / 2))). lia.
Qed.

(** [push] on a vector whose capacity is even: the expression [sz+1] does
    not wrap. *)
Lemma push_cases {T} (v : IntVec.vec T) (x : T) :
  IntVec.inv v ->
  IntVec.push v x = Err OutOfMemory
  \/ exists v', IntVec.push v x = Ok v' /\ IntVec.inv v'
                /\ IntVec.data v' = IntVec.data v ++ [x]
                /\ IntVec.size v' = IntVec.size v + 1
                /\ IntVec.cap v <= IntVec.cap v'.
Proof.
  intros (Hc & He & Hs). unfold IntVec.push.
  assert (IM : INT_MAX = 2147483647) by reflexivity.
  assert (Hodd : IntVec.cap v < INT_MAX).
  { destruct (Z.eq_dec (IntVec.cap v) INT_MAX) as [E|N]; [|lia].
    rewrite E in He. discriminate. }
  assert (Sz : IntVec.size (IntVec.mkVec (IntVec.data v ++ [x]) (IntVec.cap v))
               = IntVec.size v + 1).
  { unfold IntVec.size. simpl. rewrite length_app. simpl. lia. }
  destruct (Z.eqb_spec (IntVec.size v) (IntVec.cap v)) as [E|N].
  - rewrite wrap32_id by (unfold INT_MAX in *; lia).
    destruct (IntVec.capacity (IntVec.cap v) (IntVec.size v + 1)) as [c|e] eqn:Ec.
    + right. simpl. eexists. split; [reflexivity|].
      apply capacity_Ok in Ec; auto; try lia. destruct Ec as (C1 & C2 & C3).
      unfold IntVec.inv, IntVec.size in *. simpl. rewrite length_app. simpl.
      assert (0 <= IntVec.cap v / 2) by (apply Z.div_pos; lia).
      repeat split; auto; lia.
    + left. simpl. rewrite capacity_add in Ec by lia. cbv zeta in Ec.
      destruct (INT_MAX - IntVec.cap v <? _); [congruence|discriminate].
  - right. simpl. eexists. split; [reflexivity|].
    unfold IntVec.inv, IntVec.size in *. simpl. rewrite length_app. simpl.
    repeat split; auto; lia.
Qed.

(** ** The circular buffer *)

Section QueueFacts.
Context {T : Type}.
Variable dflt : T.

Lemma upd_split (v : list T) : forall i a,
  (i < length v)%nat -> Vec.upd v i a = firstn i v ++ a :: skipn (S i) v.
Proof.
  induction v as [|h t IH]; intros [|i] a L; simpl in *; try lia; auto.
  f_equal. apply IH. lia.
Qed.

Lemma put_Ok (v : list T) i a :
  0 <= i < Queue.len v -> Queue.put v i a = Ok (Vec.upd v (Z.to_nat i) a).
Proof.
  intros H. unfold Queue.put, Queue.len in *.
  destruct (Z.ltb_spec i 0); [lia|]. unfold Vec.set.
  destruct (Nat.ltb_spec (Z.to_nat i) (length v)); [reflexivity|lia].
Qed.

Lemma at_Ok (v : list T) i x :
  0 <= i -> nth_error v (Z.to_nat i) = Some x -> Queue.at_ v i = Ok x.
Proof.
  intros H E. unfold Queue.at_. destruct (Z.ltb_spec i 0); [lia|].
  apply get_Ok. exact E.
Qed.

Lemma len_upd (v : list T) i a : Queue.len (Vec.upd v i a) = Queue.len v.
Proof. unfold Queue.len. rewrite length_upd. reflexivity. Qed.

Lemma copy_Ok : forall (src tmp : list T) i,
  0 <= i -> i + Queue.len src <= Queue.len tmp -> Queue.len tmp <= INT_MAX ->
  Queue.copy tmp i src
  = Ok (firstn (Z.to_nat i) tmp ++ src ++ skipn (Z.to_nat i + length src) tmp,
        i + Queue.len src).
Proof.
  assert (IM : INT_MAX = 2147483647) by reflexivity.
  induction src as [|x r IH]; intros tmp i H0 H1 H2; simpl.
  - rewrite Nat.add_0_r, firstn_skipn, Z.add_0_r. reflexivity.
  - unfold Queue.len in *. simpl length in H1.
    rewrite put_Ok by (unfold Queue.len; lia). simpl.
    rewrite wrap32_id by lia.
    rewrite IH by (rewrite ?len_upd; unfold Queue.len; rewrite ?length_upd; lia).
    f_equal. f_equal.
    + replace (Z.to_nat (i + 1)) with (S (Z.to_nat i)) by lia.
      rewrite firstn_upd_snoc by lia.
      rewrite skipn_upd_lt by lia. rewrite <- app_assoc.
      replace (S (Z.to_nat i) + length r)%nat with (Z.to_nat i + length (x :: r))%nat
        by (simpl length; lia).
      reflexivity.
    + simpl length. lia.
Qed.

Lemma new_empty : Queue.inv (Queue.new dflt) /\ Queue.contents (Queue.new dflt) = [].
Proof. unfold Queue.inv, INT_MAX, Queue.new, Queue.contents, Queue.len. simpl. repeat split; lia. Qed.

Lemma size_contents (q : @Queue.t T) :
  Queue.inv q -> Queue.size q = Z.of_nat (length (Queue.contents q)).
Proof.
  assert (IM : INT_MAX = 2147483647) by reflexivity.
  intros (Hf & He & Hn). unfold Queue.size, Queue.contents, Queue.len in *.
  destruct (Z.leb_spec (Queue.first q) (Queue.end_ q)).
  - rewrite wrap32_id by lia. rewrite length_firstn, length_skipn. lia.
  - rewrite (wrap32_id (Queue.end_ q - Queue.first q)) by lia.
    rewrite wrap32_id by lia. rewrite length_app, length_firstn, length_skipn. lia.
Qed.

Lemma nth_error_firstn_lt (l : list T) : forall n i,
  (i < n)%nat -> nth_error (firstn n l) i = nth_error l i.
Proof.
  induction l as [|h t IH]; intros [|n] [|i] H; simpl; try lia; auto.
  apply IH. lia.
Qed.

Lemma nth_error_skipn_add (l : list T) : forall n i,
  nth_error (skipn n l) i = nth_error l (n + i).
Proof.
  induction l as [|h t IH]; intros [|n] i; simpl; auto.
  destruct i; reflexivity.
Qed.

Lemma get_contents (q : @Queue.t T) (i : Z) :
  Queue.inv q -> 0 <= i < Queue.size q -> Queue.first q + i <= INT_MAX ->
  exists x, nth_error (Queue.contents q) (Z.to_nat i) = Some x /\ Queue.get q i = Ok x.
Proof.
  assert (IM : INT_MAX = 2147483647) by reflexivity.
  intros Hinv Hi Hov. pose proof (size_contents q Hinv) as Sz.
  destruct (nth_error (Queue.contents q) (Z.to_nat i)) as [x|] eqn:E.
  2:{ apply nth_error_None in E. lia. }
  exists x. split; [reflexivity|].
  destruct Hinv as (Hf & He & Hn). unfold Queue.get.
  destruct (Z.leb_spec 0 i); [|lia]. destruct (Z.ltb_spec i (Queue.size q)); [|lia]. simpl.
  destruct (Z.eqb_spec (Queue.len (Queue.buf q)) 0); [lia|].
  rewrite wrap32_id by lia. rewrite Z.rem_mod_nonneg by lia.
  unfold Queue.size, Queue.contents, Queue.len in *.
  destruct (Z.leb_spec (Queue.first q) (Queue.end_ q)).
  - rewrite wrap32_id in Hi by lia.
    rewrite Z.mod_small by lia. apply at_Ok; [lia|].
    rewrite nth_error_firstn_lt in E by lia. rewrite nth_error_skipn_add in E.
    rewrite <- E. f_equal. lia.
  - rewrite (wrap32_id (Queue.end_ q - Queue.first q)) in Hi by lia.
    rewrite wrap32_id in Hi by lia.
    destruct (Z.lt_ge_cases (Queue.first q + i) (Z.of_nat (length (Queue.buf q)))) as [L|G].
    + rewrite Z.mod_small by lia. apply at_Ok; [lia|].
      rewrite nth_error_app1 in E by (rewrite length_skipn; lia).
      rewrite nth_error_skipn_add in E. rewrite <- E. f_equal. lia.
    + replace ((Queue.first q + i) mod Z.of_nat (length (Queue.buf q)))
        with (Queue.first q + i - Z.of_nat (length (Queue.buf q))).
      * apply at_Ok; [lia|].
        rewrite nth_error_app2 in E by (rewrite length_skipn; lia).
        rewrite length_skipn in E. rewrite nth_error_firstn_lt in E by lia.
        rewrite <- E. f_equal. lia.
      * apply Z.mod_unique with (q := 1); lia.
Qed.

Lemma contents_nil (q : @Queue.t T) :
  Queue.inv q -> (Queue.contents q = [] <-> Queue.first q = Queue.end_ q).
Proof.
  intros Hinv. pose proof (size_contents q Hinv) as Sz.
  assert (IM : INT_MAX = 2147483647) by reflexivity.
  destruct Hinv as (Hf & He & Hn). unfold Queue.size, Queue.len in *.
  destruct (Z.leb_spec (Queue.first q) (Queue.end_ q)).
  - rewrite wrap32_id in Sz by lia. split; intros H'.
    + rewrite H' in Sz. simpl in Sz. lia.
    + apply length_zero_iff_nil. lia.
  - rewrite (wrap32_id (Queue.end_ q - Queue.first q)) in Sz by lia.
    rewrite wrap32_id in Sz by lia. split; intros H'.
    + rewrite H' in Sz. simpl in Sz. lia.
    + lia.
Qed.

Lemma peek_pop (q : @Queue.t T) :
  Queue.inv q ->
  match Queue.contents q with
  | [] => Queue.peek q = Err AssertionFailed /\ Queue.pop q = Err AssertionFailed
  | x :: rest =>
      Queue.peek q = Ok x
      /\ exists q', Queue.pop q = Ok q' /\ Queue.inv q' /\ Queue.contents q' = rest
                    /\ Queue.buf q' = Queue.buf q /\ Queue.end_ q' = Queue.end_ q
  end.
Proof.
  assert (IM : INT_MAX = 2147483647) by reflexivity.
  intros Hinv. pose proof (contents_nil q Hinv) as Hnil.
  destruct (Queue.contents q) as [|x rest] eqn:Ec.
  - assert (E : Queue.first q = Queue.end_ q) by (apply Hnil; reflexivity).
    unfold Queue.peek, Queue.pop. rewrite E, Z.eqb_refl. simpl. auto.
  - assert (N : Queue.first q <> Queue.end_ q).
    { intros E. apply Hnil in E. discriminate. }
    clear Hnil. destruct Hinv as (Hf & He & Hn).
    unfold Queue.peek, Queue.pop. destruct (Z.eqb_spec (Queue.first q) (Queue.end_ q)); [lia|].
    simpl. unfold Queue.contents, Queue.len in *.
    assert (Hd : nth_error (Queue.buf q) (Z.to_nat (Queue.first q)) = Some x
                 /\ rest = if Queue.first q <=? Queue.end_ q
                           then firstn (Z.to_nat (Queue.end_ q - Queue.first q) - 1)
                                  (skipn (S (Z.to_nat (Queue.first q))) (Queue.buf q))
                           else skipn (S (Z.to_nat (Queue.first q))) (Queue.buf q)
                                ++ firstn (Z.to_nat (Queue.end_ q)) (Queue.buf q)).
    { destruct (nth_error (Queue.buf q) (Z.to_nat (Queue.first q))) as [y|] eqn:Ey.
      2:{ apply nth_error_None in Ey. lia. }
      rewrite (skipn_nth_cons _ _ Ey) in Ec.
      destruct (Z.leb_spec (Queue.first q) (Queue.end_ q)).
      - replace (Z.to_nat (Queue.end_ q - Queue.first q))
          with (S (Z.to_nat (Queue.end_ q - Queue.first q) - 1)) in Ec by lia.
        simpl in Ec. inversion Ec. split; reflexivity.
      - simpl in Ec. inversion Ec. split; reflexivity. }
    destruct Hd as (Hx & Hr). split; [apply at_Ok; [lia|exact Hx]|].
    rewrite wrap32_id by lia. eexists. split; [reflexivity|].
    unfold Queue.inv, Queue.len. simpl.
    destruct (Z.eqb_spec (Queue.first q + 1) (Z.of_nat (length (Queue.buf q)))) as [E|E].
    + splits; auto; try lia. rewrite Hr.
      destruct (Z.leb_spec (Queue.first q) (Queue.end_ q)); [lia|].
      destruct (Z.leb_spec 0 (Queue.end_ q)); [|lia].
      rewrite (skipn_all2 (n := S (Z.to_nat (Queue.first q)))) by lia.
      simpl. rewrite Z.sub_0_r. apply firstn_all2 || reflexivity.
    + splits; auto; try lia. rewrite Hr.
      destruct (Z.leb_spec (Queue.first q) (Queue.end_ q));
        destruct (Z.leb_spec (Queue.first q + 1) (Queue.end_ q)); try lia.
      * replace (Z.to_nat (Queue.first q + 1)) with (S (Z.to_nat (Queue.first q))) by lia.
        f_equal. lia.
      * replace (Z.to_nat (Queue.first q + 1)) with (S (Z.to_nat (Queue.first q))) by lia.
        reflexivity.
Qed.

Lemma skipn_upd_ge (v : list T) (x : T) : forall f e,
  (f <= e)%nat -> (e < length v)%nat ->
  skipn f (Vec.upd v e x) = firstn (e - f) (skipn f v) ++ x :: skipn (S e) v.
Proof.
  induction v as [|h t IH]; intros f e H1 H2; simpl in H2; [lia|].
  destruct f as [|f].
  - rewrite Nat.sub_0_r.
    change (Vec.upd (h :: t) e x = firstn e (h :: t) ++ x :: skipn (S e) (h :: t)).
    apply upd_split. simpl. lia.
  - destruct e as [|e]; [lia|]. simpl. apply IH; lia.
Qed.

Lemma firstn_app_exact (a b : list T) n : n = length a -> firstn n (a ++ b) = a.
Proof. intros ->. rewrite firstn_app, Nat.sub_diag, firstn_all. simpl. apply app_nil_r. Qed.

Lemma insert_contents (q : @Queue.t T) (x : T) :
  Queue.inv q -> 3 * Queue.len (Queue.buf q) + 1 <= INT_MAX ->
  exists q', Queue.insert dflt q x = Ok q' /\ Queue.inv q'
             /\ Queue.contents q' = Queue.contents q ++ [x].
Proof.
  assert (IM : INT_MAX = 2147483647) by reflexivity.
  destruct q as [v first end_]. unfold Queue.inv, Queue.insert, Queue.contents.
  cbn [Queue.buf Queue.first Queue.end_].
  intros (Hf & He & Hn) H3. unfold Queue.len in *.
  rewrite put_Ok by (unfold Queue.len; lia). cbn [bind].
  rewrite length_upd. rewrite (wrap32_id (end_ + 1)) by lia.
  set (n := length v) in *.
  set (f := Z.to_nat first). set (e := Z.to_nat end_).
  assert (Ff : first = Z.of_nat f) by lia. assert (Fe : end_ = Z.of_nat e) by lia.
  assert (Lf : (f < n)%nat) by lia. assert (Le : (e < n)%nat) by lia.
  clearbody f e. subst first end_.
  destruct (Z.eqb_spec (Z.of_nat e + 1) (Z.of_nat n)) as [E1|E1].
  - (* end wraps to 0 *)
    destruct (Z.eqb_spec (Z.of_nat f) 0) as [E2|E2].
    + (* resize, first = 0 *)
      assert (f = 0%nat) by lia. subst f. clear E2.
      rewrite (wrap32_id (Z.of_nat n * 3)) by lia.
      rewrite (wrap32_id (Z.of_nat n * 3 + 1)) by lia.
      rewrite Z.shiftr_div_pow2 by lia. change (2 ^ 1) with 2.
      set (n' := Z.to_nat ((Z.of_nat n * 3 + 1) / 2)).
      assert (Ln' : (n < n')%nat).
      { unfold n'. assert (Z.of_nat n + 1 <= (Z.of_nat n * 3 + 1) / 2); [|lia].
        apply Z.div_le_lower_bound; lia. }
      assert (Un' : Z.of_nat n' <= INT_MAX).
      { unfold n'. rewrite Z2Nat.id by (apply Z.div_pos; lia).
        apply Z.div_le_upper_bound; lia. }
      unfold Vec.growTo. simpl app. simpl length. rewrite Nat.sub_0_r.
      simpl skipn at 1. simpl firstn.
      rewrite copy_Ok;
        [|lia|unfold Queue.len; rewrite length_upd, repeat_length; fold n; lia
         |unfold Queue.len; rewrite repeat_length; lia].
      simpl. unfold Queue.len. rewrite length_upd. fold n.
      eexists. split; [reflexivity|]. simpl.
      rewrite !length_app, length_upd, length_skipn, repeat_length. fold n.
      splits; try lia.
      destruct (Z.leb_spec 0 (Z.of_nat n)); [|lia].
      rewrite Z.sub_0_r, Nat2Z.id. simpl skipn.
      rewrite !Z.sub_0_r. replace (Z.to_nat (Z.of_nat e)) with e by lia.
      rewrite firstn_app_exact by (rewrite length_upd; reflexivity).
      destruct (Z.leb_spec 0 (Z.of_nat e)); [|lia].
      rewrite upd_split by lia. replace (S e) with n by lia.
      unfold n. rewrite skipn_all. reflexivity.
    + (* no resize *)
      destruct (Z.eqb_spec (Z.of_nat f) 0) as [|_]; [lia|].
      eexists. split; [reflexivity|]. simpl. unfold Queue.len. rewrite length_upd. fold n.
      splits; try lia.
      destruct (Z.leb_spec (Z.of_nat f) 0); [lia|].
      destruct (Z.leb_spec (Z.of_nat f) (Z.of_nat e)); [|lia].
      simpl. rewrite app_nil_r, Nat2Z.id.
      rewrite skipn_upd_ge by lia.
      replace (Z.to_nat (Z.of_nat e - Z.of_nat f)) with (e - f)%nat by lia.
      replace (S e) with n by lia. unfold n. rewrite skipn_all.
      reflexivity.
  - destruct (Z.eqb_spec (Z.of_nat f) (Z.of_nat e + 1)) as [E2|E2].
    + (* resize, first = end + 1 *)
      assert (Ef : f = S e) by lia.
      rewrite (wrap32_id (Z.of_nat n * 3)) by lia.
      rewrite (wrap32_id (Z.of_nat n * 3 + 1)) by lia.
      rewrite Z.shiftr_div_pow2 by lia. change (2 ^ 1) with 2.
      set (n' := Z.to_nat ((Z.of_nat n * 3 + 1) / 2)).
      assert (Ln' : (n < n')%nat).
      { unfold n'. assert (Z.of_nat n + 1 <= (Z.of_nat n * 3 + 1) / 2); [|lia].
        apply Z.div_le_lower_bound; lia. }
      assert (Un' : Z.of_nat n' <= INT_MAX).
      { unfold n'. rewrite Z2Nat.id by (apply Z.div_pos; lia).
        apply Z.div_le_upper_bound; lia. }
      unfold Vec.growTo. cbn [app length]. rewrite Nat.sub_0_r.
      rewrite ?Nat2Z.id.
      replace (Z.to_nat (Z.of_nat e + 1)) with f by lia.
      rewrite skipn_upd_lt by lia.
      replace (firstn f (Vec.upd v e x)) with (firstn e v ++ [x])
        by (rewrite Ef; symmetry; apply firstn_upd_snoc; lia).
      rewrite copy_Ok;
        [|lia|unfold Queue.len; rewrite length_skipn, repeat_length; fold n; lia
         |unfold Queue.len; rewrite repeat_length; lia].
      change (Z.to_nat 0) with 0%nat. cbn [firstn app Nat.add bind].
      unfold Queue.len. rewrite length_skipn. fold n.
      rewrite copy_Ok;
        [|lia
         |unfold Queue.len;
          rewrite !length_app, length_firstn, length_skipn, length_skipn, repeat_length;
          cbn [length]; fold n; lia
         |unfold Queue.len; rewrite length_app, length_skipn, length_skipn, repeat_length;
          fold n; lia].
      cbn [bind].
      eexists. split; [reflexivity|]. cbn [Queue.buf Queue.first Queue.end_].
      replace (Z.to_nat (0 + Z.of_nat (n - f))) with (n - f)%nat by lia.
      rewrite (firstn_app_exact (skipn f v)) by (rewrite length_skipn; reflexivity).
      split.
      * repeat first [rewrite length_app | rewrite length_skipn | rewrite length_firstn
                      | rewrite repeat_length].
        cbn [length]. fold n. lia.
      * destruct (Z.leb_spec 0 (Z.of_nat n)); [|lia].
        destruct (Z.leb_spec (Z.of_nat f) (Z.of_nat e)); [lia|].
        rewrite Z.sub_0_r, Nat2Z.id. change (Z.to_nat 0) with 0%nat. cbn [skipn].
        rewrite (app_assoc (skipn f v)).
        rewrite firstn_app_exact;
          [rewrite app_assoc; reflexivity
          |repeat first [rewrite length_app | rewrite length_skipn | rewrite length_firstn];
           cbn [length]; fold n; lia].
    + (* no resize *)
      eexists. split; [reflexivity|]. simpl. unfold Queue.len. rewrite length_upd. fold n.
      splits; try lia.
      replace (Z.to_nat (Z.of_nat e + 1)) with (S e) by lia.
      rewrite !Nat2Z.id.
      destruct (Z.leb_spec (Z.of_nat f) (Z.of_nat e));
        destruct (Z.leb_spec (Z.of_nat f) (Z.of_nat e + 1)); try lia.
      * rewrite skipn_upd_ge by lia.
        replace (Z.to_nat (Z.of_nat e + 1 - Z.of_nat f)) with (S (e - f)) by lia.
        replace (Z.to_nat (Z.of_nat e - Z.of_nat f)) with (e - f)%nat by lia.
        rewrite firstn_app.
        rewrite length_firstn, length_skipn. fold n.
        replace (S (e - f) - Nat.min (e - f) (n - f))%nat with 1%nat by lia.
        simpl firstn at 2. f_equal.
        rewrite firstn_firstn. f_equal. lia.
      * rewrite skipn_upd_lt by lia. rewrite firstn_upd_snoc by lia.
        rewrite app_assoc. reflexivity.
Qed.

End QueueFacts.

(** ** The Luby sequence *)

Lemma sz_S k : luby_sz (S k) = 2 * luby_sz k + 1.
Proof.
  unfold luby_sz.
  replace (Z.of_nat (S k) + 1) with (Z.succ (Z.of_nat k + 1)) by lia.
  rewrite Z.pow_succ_r by lia. lia.
Qed.

Lemma sz_pos k : 1 <= luby_sz k.
Proof.
  unfold luby_sz.
  assert (2 ^ 1 <= 2 ^ (Z.of_nat k + 1)) by (apply Z.pow_le_mono_r; lia).
  change (2 ^ 1) with 2 in *. lia.
Qed.

Lemma sz_mono j k : (j <= k)%nat -> luby_sz j <= luby_sz k.
Proof.
  unfold luby_sz.
  intros H. assert (2 ^ (Z.of_nat j + 1) <= 2 ^ (Z.of_nat k + 1)) by (apply Z.pow_le_mono_r; lia).
  lia.
Qed.

Lemma sz_bound k : (k <= 30)%nat -> luby_sz k <= INT_MAX.
Proof. intros H. pose proof (sz_mono k 30 H) as X. change (luby_sz 30) with INT_MAX in X. exact X. Qed.

Lemma luby_size_stop fuel size seq x :
  wrap32 (x + 1) <= size -> luby_size fuel size seq x = Ok (size, seq).
Proof.
  intros H. destruct fuel; simpl; destruct (Z.ltb_spec size (wrap32 (x + 1))); try lia; reflexivity.
Qed.

Lemma luby_size_run (x : Z) : 0 <= x < INT_MAX ->
  forall n k fuel, (n + k = 30)%nat -> (n <= fuel)%nat ->
    (k = O \/ luby_sz (k - 1) < x + 1) ->
    exists j, (k <= j <= 30)%nat
              /\ luby_size fuel (luby_sz k) (Z.of_nat k) x = Ok (luby_sz j, Z.of_nat j)
              /\ x + 1 <= luby_sz j /\ (j = O \/ luby_sz (j - 1) < x + 1).
Proof.
  assert (IM : INT_MAX = 2147483647) by reflexivity.
  intros Hx. induction n as [|n IH]; intros k fuel Hk Hf Hlow.
  - exists k. assert (k = 30%nat) by lia. subst k.
    change (luby_sz 30) with INT_MAX. splits; auto; try lia.
    apply luby_size_stop. rewrite wrap32_id by lia. lia.
  - destruct (Z.lt_ge_cases (luby_sz k) (x + 1)) as [L|G].
    + destruct fuel as [|fuel]; [lia|]. cbn [luby_size].
      rewrite (wrap32_id (x + 1)) by lia.
      destruct (Z.ltb_spec (luby_sz k) (x + 1)); [|lia].
      pose proof (sz_bound (S k)) as B. rewrite sz_S in B.
      pose proof (sz_pos k) as P.
      rewrite (wrap32_id (2 * luby_sz k)) by lia.
      rewrite (wrap32_id (2 * luby_sz k + 1)) by lia.
      rewrite (wrap32_id (Z.of_nat k + 1)) by lia.
      rewrite <- sz_S. replace (Z.of_nat k + 1) with (Z.of_nat (S k)) by lia.
      destruct (IH (S k) fuel) as (j & Hj & E & U & Lw); try lia.
      { right. replace (S k - 1)%nat with k by lia. exact L. }
      exists j. splits; auto. lia.
    + exists k. splits; auto; try lia.
      apply luby_size_stop. rewrite wrap32_id by lia. lia.
Qed.

Lemma level_unique (x : Z) (j k : nat) :
  x + 1 <= luby_sz j -> (j = O \/ luby_sz (j - 1) < x + 1) ->
  x + 1 <= luby_sz k -> (k = O \/ luby_sz (k - 1) < x + 1) -> j = k.
Proof.
  intros A1 A2 B1 B2.
  destruct (Nat.lt_trichotomy j k) as [L|[E|L]]; auto; exfalso.
  - destruct B2 as [->|B2]; [lia|]. pose proof (sz_mono j (k - 1)). lia.
  - destruct A2 as [->|A2]; [lia|]. pose proof (sz_mono k (j - 1)). lia.
Qed.

Lemma sz_half k : Z.shiftr (luby_sz (S k) - 1) 1 = luby_sz k.
Proof.
  rewrite sz_S, Z.shiftr_div_pow2 by lia. change (2 ^ 1) with 2.
  replace (2 * luby_sz k + 1 - 1) with (luby_sz k * 2) by lia. apply Z.div_mul. lia.
Qed.

Lemma luby_seq_stop fuel size seq x :
  wrap32 (size - 1) = x -> luby_seq fuel size seq x = Ok seq.
Proof.
  intros H. destruct fuel; simpl; destruct (Z.eqb_spec (wrap32 (size - 1)) x);
    try contradiction; reflexivity.
Qed.

Lemma luby_seq_step fuel k x :
  (k <= 29)%nat -> 0 <= x -> x <> luby_sz (S k) - 1 ->
  luby_seq (S fuel) (luby_sz (S k)) (Z.of_nat (S k)) x
  = luby_seq fuel (luby_sz k) (Z.of_nat k) (Z.rem x (luby_sz k)).
Proof.
  assert (IM : INT_MAX = 2147483647) by reflexivity.
  intros Hk Hx N. cbn [luby_seq].
  pose proof (sz_bound (S k)) as B. pose proof (sz_pos (S k)) as P. pose proof (sz_pos k) as P'.
  rewrite (wrap32_id (luby_sz (S k) - 1)) by lia.
  destruct (Z.eqb_spec (luby_sz (S k) - 1) x); [congruence|]. cbn [negb].
  rewrite sz_half. destruct (Z.eqb_spec (luby_sz k) 0); [lia|].
  rewrite (wrap32_id (Z.of_nat (S k) - 1)) by lia.
  replace (Z.of_nat (S k) - 1) with (Z.of_nat k) by lia. reflexivity.
Qed.

Lemma luby_seq_total : forall k x fuel,
  (k <= 30)%nat -> (k <= fuel)%nat -> 0 <= x <= luby_sz k - 1 ->
  exists r, luby_seq fuel (luby_sz k) (Z.of_nat k) x = Ok r /\ 0 <= r <= Z.of_nat k.
Proof.
  assert (IM : INT_MAX = 2147483647) by reflexivity.
  induction k as [|k IH]; intros x fuel Hk Hf Hx.
  - exists 0. change (luby_sz 0) with 1 in *. split; [|lia].
    apply luby_seq_stop. rewrite wrap32_id; lia.
  - destruct (Z.eq_dec x (luby_sz (S k) - 1)) as [E|N].
    + exists (Z.of_nat (S k)). split; [|lia]. apply luby_seq_stop.
      pose proof (sz_bound (S k)). pose proof (sz_pos (S k)). rewrite wrap32_id; lia.
    + destruct fuel as [|fuel]; [lia|]. rewrite luby_seq_step by lia.
      pose proof (sz_pos k) as P.
      destruct (IH (Z.rem x (luby_sz k)) fuel) as (r & E & Hr); try lia.
      { rewrite Z.rem_mod_nonneg by lia. pose proof (Z.mod_pos_bound x (luby_sz k)). lia. }
      exists r. split; [exact E|lia].
Qed.

Lemma luby_seq_more : forall fuel fuel' size seq x r,
  luby_seq fuel size seq x = Ok r -> (fuel <= fuel')%nat -> luby_seq fuel' size seq x = Ok r.
Proof.
  induction fuel as [|fuel IH]; intros fuel' size seq x r H L.
  - simpl in H. destruct (Z.eqb_spec (wrap32 (size - 1)) x); [|discriminate].
    simpl in H. inversion H; subst. apply luby_seq_stop. reflexivity.
  - destruct fuel' as [|fuel']; [lia|]. simpl in *.
    destruct (negb (wrap32 (size - 1) =? x)); [|exact H].
    destruct (Z.shiftr (wrap32 (size - 1)) 1 =? 0); [discriminate|].
    apply (IH fuel'); [exact H|lia].
Qed.

Lemma luby_seq_descend (x : Z) (j : nat) (r : Z) : 0 <= x -> x + 1 <= luby_sz j ->
  forall d fuel, (j + d <= 30)%nat ->
    luby_seq fuel (luby_sz j) (Z.of_nat j) x = Ok r ->
    luby_seq (d + fuel) (luby_sz (j + d)) (Z.of_nat (j + d)) x = Ok r.
Proof.
  intros Hx Hj. induction d as [|d IH]; intros fuel Hd H.
  - rewrite Nat.add_0_r. exact H.
  - replace (j + S d)%nat with (S (j + d)) by lia. simpl Nat.add.
    pose proof (sz_mono j (j + d)) as M. pose proof (sz_S (j + d)) as S1.
    rewrite luby_seq_step by lia.
    rewrite Z.rem_small by lia. apply IH; [lia|exact H].
Qed.

(** The two cases of the recurrence, by the number [k] of the finite
    subsequence. *)
Lemma luby_levels {D : Type} (pow : D -> Z -> D) (y : D) (fuel k : nat) :
  (31 <= fuel)%nat -> (1 <= k <= 30)%nat ->
  luby pow fuel y (2 ^ Z.of_nat k - 2) = Ok (pow y (Z.of_nat k - 1))
  /\ forall x, 2 ^ Z.of_nat k - 1 <= x < 2 ^ (Z.of_nat k + 1) - 2 ->
       luby pow fuel y x = luby pow fuel y (x - (2 ^ Z.of_nat k - 1))
       /\ exists e, 0 <= e < Z.of_nat k /\ luby pow fuel y x = Ok (pow y e).
Proof.
  assert (IM : INT_MAX = 2147483647) by reflexivity.
  intros Hf Hk.
  assert (Sk : luby_sz k = 2 ^ (Z.of_nat k + 1) - 1) by reflexivity.
  assert (Sk1 : luby_sz (k - 1) = 2 ^ Z.of_nat k - 1).
  { unfold luby_sz. replace (Z.of_nat (k - 1) + 1) with (Z.of_nat k) by lia. reflexivity. }
  pose proof (sz_bound k) as Bk. pose proof (sz_pos (k - 1)) as Pk.
  pose proof (sz_S (k - 1)) as SS. replace (S (k - 1)) with k in SS by lia.
  split.
  - destruct (luby_size_run (2 ^ Z.of_nat k - 2)) with (n := 30%nat) (k := O) (fuel := fuel)
      as (j & Hj & E & U & Lw); try lia; auto.
    assert (j = (k - 1)%nat).
    { apply (level_unique (2 ^ Z.of_nat k - 2)); auto; try lia.
      destruct (Nat.eq_dec (k - 1) 0) as [Z0|NZ]; [left; exact Z0|right].
      pose proof (sz_S (k - 1 - 1)) as S2. replace (S (k - 1 - 1)) with (k - 1)%nat in S2 by lia.
      lia. }
    subst j. unfold luby. change (luby_sz 0) with 1 in E. change (Z.of_nat 0) with 0 in E.
    rewrite E. cbn [bind].
    rewrite luby_seq_stop; [cbn [bind]; f_equal; f_equal; lia|].
    rewrite wrap32_id; lia.
  - intros x Hx.
    destruct (luby_size_run x) with (n := 30%nat) (k := O) (fuel := fuel)
      as (j & Hj & E & U & Lw); try lia; auto.
    assert (j = k).
    { apply (level_unique x); auto; try lia. }
    subst j. clear U Lw.
    set (x' := x - (2 ^ Z.of_nat k - 1)).
    assert (Hx' : 0 <= x' < luby_sz (k - 1)) by (unfold x'; lia).
    destruct (luby_size_run x') with (n := 30%nat) (k := O) (fuel := fuel)
      as (j & Hj' & E' & U' & Lw'); try lia; auto.
    assert (Jk : (j <= k - 1)%nat).
    { destruct Lw' as [->|Lw']; [lia|].
      destruct (Nat.le_gt_cases j (k - 1)) as [|G]; [assumption|exfalso].
      pose proof (sz_mono (k - 1) (j - 1)). lia. }
    destruct (luby_seq_total j x' j) as (r & Er & Hr); try lia.
    assert (R1 : luby_seq fuel (luby_sz j) (Z.of_nat j) x' = Ok r).
    { apply (luby_seq_more j); [exact Er|lia]. }
    assert (R2 : luby_seq fuel (luby_sz k) (Z.of_nat k) x = Ok r).
    { destruct fuel as [|f]; [lia|].
      replace k with (S (k - 1)) at 1 2 by lia.
      rewrite luby_seq_step by (replace (S (k - 1)) with k by lia; lia).
      replace (Z.rem x (luby_sz (k - 1))) with x'.
      - apply (luby_seq_more ((k - 1 - j) + j)); [|lia].
        assert (Hd : luby_seq ((k - 1 - j) + j) (luby_sz (j + (k - 1 - j)))
                       (Z.of_nat (j + (k - 1 - j))) x' = Ok r).
        { apply luby_seq_descend; try lia. exact Er. }
        replace (j + (k - 1 - j))%nat with (k - 1)%nat in Hd by lia. exact Hd.
      - rewrite Z.rem_mod_nonneg by lia. unfold x'.
        apply Z.mod_unique with (q := 1); lia. }
    unfold luby. change (luby_sz 0) with 1 in E, E'. change (Z.of_nat 0) with 0 in E, E'.
    fold x'. rewrite E, E'. cbn [bind]. rewrite R1, R2. cbn [bind].
    split; [reflexivity|]. exists r. split; [lia|reflexivity].
Qed.

Lemma heap_inHeap_In h x : heap_inHeap h x = true <-> In x h.
Proof.
  unfold heap_inHeap. rewrite existsb_exists. split.
  - intros (y & Hy & E). apply Nat.eqb_eq in E. subst; auto.
  - intros H. exists x. split; auto. apply Nat.eqb_refl.
Qed.

Section Backtrack.

Context {D : Type} {FO : FloatOps D}.

Lemma insertVarOrder_In (s : Solver D) x y :
  In y (order_heap (insertVarOrder s x)) <-> In y (order_heap s) \/ y = x.
Proof.
  unfold insertVarOrder. destruct (heap_inHeap (order_heap s) x) eqn:E.
  - apply heap_inHeap_In in E. split; [auto|]. intros [?| ->]; auto.
  - simpl. unfold heap_insert. rewrite in_app_iff. simpl. intuition.
Qed.

Lemma insertVarOrder_NoDup (s : Solver D) x :
  NoDup (order_heap s) -> NoDup (order_heap (insertVarOrder s x)).
Proof.
  unfold insertVarOrder. destruct (heap_inHeap (order_heap s) x) eqn:E; auto.
  simpl. intros H. unfold heap_insert.
  assert (N : ~ In x (order_heap s)).
  { intros I. apply heap_inHeap_In in I. congruence. }
  clear E. induction (order_heap s); simpl.
  - constructor; auto.
  - inversion H; subst. constructor.
    + rewrite in_app_iff. simpl. intros [?|[?|[]]]; auto. subst. apply N. left; auto.
    + apply IHh; auto. intros ?. apply N. right; auto.
Qed.

(** What the loop of [cancelUntil] does to a list of trail entries. *)
Lemma cancel_loop_spec (lits : list Lit) : forall (s : Solver D),
  (forall l, In l lits ->
     0 <= l /\ (var l < length (assigns s))%nat /\ (var l < length (polarity s))%nat) ->
  exists s',
    cancel_loop s lits = Ok s'
    /\ trail s' = trail s /\ trail_lim s' = trail_lim s /\ qhead s' = qhead s
    /\ length (assigns s') = length (assigns s)
    /\ length (polarity s') = length (polarity s)
    /\ (forall x, nth_error (assigns s') x =
                  if existsb (fun l => Nat.eqb (var l) x) lits
                  then (if (x <? length (assigns s))%nat then Some l_Undef else None)
                  else nth_error (assigns s) x)
    /\ (forall x, ~ In x (map var lits) -> nth_error (polarity s') x = nth_error (polarity s) x)
    /\ (NoDup (map var lits) ->
        forall l, In l lits -> nth_error (polarity s') (var l) = Some (sign l))
    /\ (forall x, In x (order_heap s') <-> In x (order_heap s) \/ In x (map var lits))
    /\ (NoDup (order_heap s) -> NoDup (order_heap s')).
Proof.
  induction lits as [|l rest IH]; intros s Hr.
  - exists s. simpl. repeat split; auto; tauto.
  - destruct (Hr l (or_introl eq_refl)) as (Hl & Ha & Hp).
    simpl cancel_loop. unfold varI. destruct (Z.ltb_spec l 0); [lia|]. simpl bind at 1.
    unfold Vec.set.
    destruct (Nat.ltb_spec (var l) (length (assigns s))); [|lia].
    destruct (Nat.ltb_spec (var l) (length (polarity s))); [|lia]. simpl bind.
    set (s1 := insertVarOrder _ _).
    assert (A1 : assigns s1 = Vec.upd (assigns s) (var l) l_Undef).
    { unfold s1, insertVarOrder. destruct (heap_inHeap _ _); reflexivity. }
    assert (P1 : polarity s1 = Vec.upd (polarity s) (var l) (sign l)).
    { unfold s1, insertVarOrder. destruct (heap_inHeap _ _); reflexivity. }
    assert (T1 : trail s1 = trail s /\ trail_lim s1 = trail_lim s /\ qhead s1 = qhead s).
    { unfold s1, insertVarOrder. destruct (heap_inHeap _ _); auto. }
    destruct (IH s1) as (s' & E & Ht & Htl & Hq & Hla & Hlp & Has & Hpo & Hpo' & Hh & Hnd).
    { intros l' I. destruct (Hr l' (or_intror I)) as (? & ? & ?).
      rewrite A1, P1, !length_upd. auto. }
    exists s'. rewrite A1, P1 in *. rewrite !length_upd in *.
    destruct T1 as (T1 & T2 & T3).
    split; [exact E|]. split; [congruence|]. split; [congruence|]. split; [congruence|].
    split; [auto|]. split; [auto|]. split; [|split; [|split; [|split]]].
    + intros x. rewrite Has. simpl existsb.
      destruct (existsb _ rest) eqn:Ex.
      * rewrite orb_true_r. reflexivity.
      * rewrite orb_false_r. rewrite nth_error_upd.
        destruct (Nat.eqb_spec (var l) x) as [->|]; simpl; auto.
        destruct (Nat.ltb_spec x (length (assigns s))); auto.
        first [apply nth_error_None | symmetry; apply nth_error_None]; lia.
    + intros x N. simpl in N. rewrite Hpo by tauto.
      apply nth_error_upd_ne. tauto.
    + intros ND l' [->|I]; simpl in ND; inversion ND; subst.
      * rewrite Hpo by auto. apply nth_error_upd_eq; auto.
      * apply Hpo'; auto.
    + intros x. rewrite Hh. unfold s1. rewrite insertVarOrder_In. simpl. intuition.
    + intros ND. apply Hnd. apply insertVarOrder_NoDup. exact ND.
Qed.

(** ** cancelUntil *)

Lemma cancelUntil_noop (s : Solver D) (L : nat) :
  (decisionLevel s <= L)%nat -> cancelUntil s L = Ok s.
Proof.
  intros H. unfold cancelUntil. destruct (Nat.ltb_spec L (decisionLevel s)); [lia|reflexivity].
Qed.

Lemma cancelUntil_spec (s : Solver D) (L lim : nat) :
  (L < decisionLevel s)%nat ->
  nth_error (trail_lim s) L = Some lim ->
  (lim <= length (trail s))%nat ->
  (forall l, In l (skipn lim (trail s)) ->
     0 <= l /\ (var l < length (assigns s))%nat /\ (var l < length (polarity s))%nat) ->
  NoDup (map var (skipn lim (trail s))) ->
  exists s',
    cancelUntil s L = Ok s'
    /\ decisionLevel s' = L
    /\ qhead s' = lim
    /\ trail s' = firstn lim (trail s)
    /\ trail_lim s' = firstn L (trail_lim s)
    /\ (forall i l, (lim <= i)%nat -> nth_error (trail s) i = Some l ->
          nth_error (assigns s') (var l) = Some l_Undef
          /\ nth_error (polarity s') (var l) = Some (sign l)
          /\ heap_inHeap (order_heap s') (var l) = true)
    /\ (forall x, ~ In x (map var (skipn lim (trail s))) ->
          nth_error (assigns s') x = nth_error (assigns s) x
          /\ nth_error (polarity s') x = nth_error (polarity s) x)
    /\ (forall x, In x (order_heap s') <->
                  In x (order_heap s) \/ In x (map var (skipn lim (trail s))))
    /\ (NoDup (order_heap s) -> NoDup (order_heap s')).
Proof.
  intros HL Hlim Hle Hr ND.
  destruct (@cancel_loop_spec (rev (skipn lim (trail s))) s)
    as (s1 & E & Ht & Htl & Hq & Hla & Hlp & Has & Hpo & Hpo' & Hh & Hnd).
  { intros l I. apply in_rev in I. auto. }
  assert (ND' : NoDup (map var (rev (skipn lim (trail s))))).
  { rewrite map_rev. apply NoDup_rev. exact ND. }
  assert (InS : forall i l, (lim <= i)%nat -> nth_error (trail s) i = Some l ->
                            In l (skipn lim (trail s))).
  { intros i l Hi Hn. apply nth_error_In with (n := (i - lim)%nat).
    rewrite nth_error_skipn. replace (lim + (i - lim))%nat with i by lia. exact Hn. }
  unfold cancelUntil. destruct (Nat.ltb_spec L (decisionLevel s)); [|lia].
  unfold Vec.get at 1. rewrite Hlim. simpl bind at 1. rewrite E. simpl bind at 1.
  unfold Vec.shrink, assert. simpl trail. simpl trail_lim. rewrite Ht, Htl.
  destruct (Z.leb_spec (Z.of_nat (length (trail s)) - Z.of_nat lim)
                       (Z.of_nat (length (trail s)))); [|lia].
  simpl bind at 1.
  unfold decisionLevel in *.
  destruct (Z.leb_spec (Z.of_nat (length (trail_lim s)) - Z.of_nat L)
                       (Z.of_nat (length (trail_lim s)))); [|lia].
  simpl bind at 1.
  replace (length (trail s) - Z.to_nat (Z.of_nat (length (trail s)) - Z.of_nat lim))%nat
    with lim by lia.
  replace (length (trail_lim s) - Z.to_nat (Z.of_nat (length (trail_lim s)) - Z.of_nat L))%nat
    with L by lia.
  assert (EL : length (firstn L (trail_lim s)) = L) by (rewrite length_firstn; lia).
  rewrite EL, Nat.eqb_refl. simpl bind.
  eexists. split; [reflexivity|]. simpl.
  split; [exact EL|]. split; [reflexivity|]. split; [reflexivity|]. split; [reflexivity|].
  split; [|split; [|split]].
  - intros i l Hi Hn. pose proof (InS i l Hi Hn) as I.
    assert (I' : In l (rev (skipn lim (trail s)))) by (apply in_rev; rewrite rev_involutive; auto).
    destruct (Hr l I) as (? & Hva & ?).
    split; [|split].
    + rewrite Has.
      assert (X : existsb (fun l0 => Nat.eqb (var l0) (var l)) (rev (skipn lim (trail s))) = true).
      { apply existsb_exists. exists l. split; auto. apply Nat.eqb_refl. }
      rewrite X. destruct (Nat.ltb_spec (var l) (length (assigns s))); [reflexivity|lia].
    + apply Hpo'; auto.
    + apply heap_inHeap_In. apply Hh. right. apply in_map. exact I'.
  - intros x N. split.
    + rewrite Has.
      destruct (existsb _ (rev (skipn lim (trail s)))) eqn:X; auto.
      apply existsb_exists in X. destruct X as (l & I & X). apply Nat.eqb_eq in X.
      exfalso. apply N. subst x. apply in_map. apply in_rev. exact I.
    + apply Hpo. rewrite map_rev. intros I. apply N. apply in_rev. exact I.
  - intros x. rewrite Hh. rewrite map_rev. rewrite <- in_rev. reflexivity.
  - exact Hnd.
Qed.

End Backtrack.

(** Evaluate a closed term and keep the equation. *)
Ltac eval_as t H :=
  let r := eval vm_compute in t in
  assert (H : t = r) by (vm_compute; reflexivity).

Section Fuel.
Context {D : Type} {FO : FloatOps D}.

Lemma search_loop_more_fuel (f k : nat) : forall (s : Solver D) r,
  search_loop f s = Ok r -> search_loop (f + k) s = Ok r.
Proof.
  induction f as [|f IH]; intros s r H; [discriminate|].
  simpl in *. destruct (search_round s) as [[out|s1]|e]; simpl in *; auto; discriminate.
Qed.

Lemma solve_loop_more_fuel (f k : nat) : forall (s : Solver D) r,
  solve_loop f s = Ok r -> solve_loop (f + k) s = Ok r.
Proof.
  induction f as [|f IH]; intros s r H; [discriminate|].
  simpl in *. unfold search in *.
  destruct (assert (ok _)) as [u|e]; simpl in *; [|discriminate].
  destruct (search_loop f _) as [[st s2]|e] eqn:E; simpl in *; [|discriminate].
  rewrite (@search_loop_more_fuel f k _ _ E). simpl.
  destruct (negb (withinBudget s2)); auto.
  destruct (lbool_eqb st l_Undef); auto.
Qed.

Lemma solve_more_fuel (f k : nat) (s : Solver D) r :
  solve f s = Ok r -> solve (f + k) s = Ok r.
Proof.
  unfold solve, solve_. destruct (negb (ok _)); auto.
  destruct (solve_loop f _) as [[st s1]|e] eqn:E; simpl; [|discriminate].
  rewrite (@solve_loop_more_fuel f k _ _ E). simpl. auto.
Qed.

(** A round of [search] that decides. *)
Lemma search_round_decide (s s1 s3 s4 : Solver D) (l : Lit) :
  propagate s = Ok (CRef_Undef, s1) ->
  bq_isvalid (lbdQueue s1) = false ->
  (nextReduceDB s1 <=? conflicts s1) = false ->
  pickBranchLit s1 = Ok (l, s3) ->
  (l =? lit_Undef) = false ->
  uncheckedEnqueue (newDecisionLevel s3) l CRef_Undef = Ok s4 ->
  search_round s = Ok (inr s4).
Proof.
  intros Hp Hv Hr Hpick Hl He. unfold search_round. rewrite Hp. simpl.
  rewrite Hv. simpl. rewrite Hr. simpl. rewrite Hpick. simpl. rewrite Hl, He. reflexivity.
Qed.

Lemma search_loop_next (f : nat) (s s1 : Solver D) r :
  search_round s = Ok (inr s1) -> search_loop f s1 = Ok r -> search_loop (S f) s = Ok r.
Proof. intros H1 H2. simpl. rewrite H1. simpl. exact H2. Qed.

(** [solve_] when the first call of [search] answers [l_True]. *)
Lemma solve_first_search_true (f : nat) (s s1 s3 : Solver D) (m : list lbool) :
  ok s = true ->
  search_loop f (set_starts (set_model s []) (incr64 (starts s))) = Ok (l_True, s1) ->
  copy_model s1 (nVars s1) 0 (Vec.growTo (model s1) (nVars s1) l_Undef) = Ok m ->
  cancelUntil (set_model s1 m) 0 = Ok s3 ->
  solve_ (S f) s = Ok (l_True, s3).
Proof.
  intros Hok Hs Hm Hc. unfold solve_. simpl. rewrite Hok. simpl. unfold search. simpl.
  rewrite Hok. simpl. rewrite Hs. simpl.
  destruct (negb (withinBudget s1)); simpl; rewrite Hm; simpl; rewrite Hc; reflexivity.
Qed.

Lemma pick_two (s : Solver D) :
  order_heap s = [0; 1]%nat -> assigns s = [l_Undef; l_Undef] -> polarity s = [true; true] ->
  pickBranchLit s
    = Ok (mkLit 0%nat true, set_decisions (set_order_heap s [1%nat]) (incr64 (decisions s)))
  \/ pickBranchLit s
    = Ok (mkLit 1%nat true, set_decisions (set_order_heap s [0%nat]) (incr64 (decisions s))).
Proof.
  intros Hh Ha Hp. unfold pickBranchLit. rewrite Hh.
  cbn [length pickBranch_loop bind]. rewrite Hh.
  cbn [heap_empty heap_removeMin heap_top heap_remove bind Nat.eqb].
  unfold valueVar. cbn [assigns polarity set_order_heap set_decisions Vec.get].
  rewrite Ha.
  destruct (VarOrderLt (activity s) 1%nat 0%nat);
    cbn [nth_error bind lbool_eqb negb Nat.eqb heap_remove polarity set_order_heap
         set_decisions Vec.get];
    rewrite Hp; [right|left]; reflexivity.
Qed.

Lemma cnf_2_0_model_4 :
  exists s' : Solver D, solve 4 cnf_2_0 = Ok (l_True, s') /\ model s' = [l_False; l_False].
Proof.
  unfold solve.
  eval_as (propagate (set_starts (set_model (budgetOff (@cnf_2_0 D FO)) [])
                                 (incr64 (starts (budgetOff (@cnf_2_0 D FO)))))) Hp.
  match type of Hp with _ = Ok (_, ?s1) =>
    destruct (@pick_two s1 eq_refl eq_refl eq_refl) as [Hk|Hk];
    match type of Hk with _ = Ok (?l, ?s3) =>
      eval_as (uncheckedEnqueue (newDecisionLevel s3) l CRef_Undef) He;
      match type of He with _ = Ok ?s4 =>
        eval_as (search_loop 2 s4) Hs;
        match type of Hs with _ = Ok (_, ?s5) =>
          eval_as (copy_model s5 (nVars s5) 0 (Vec.growTo (model s5) (nVars s5) l_Undef)) Hm;
          match type of Hm with _ = Ok ?m =>
            eval_as (cancelUntil (set_model s5 m) 0) Hc
          end
        end
      end
    end
  end.
  all: eexists; split;
    [ eapply solve_first_search_true;
      [ reflexivity
      | eapply search_loop_next;
        [ eapply search_round_decide;
          [ exact Hp | reflexivity | reflexivity | exact Hk | reflexivity | exact He ]
        | exact Hs ]
      | exact Hm | exact Hc ]
    | reflexivity ].
Qed.

(** The same run makes two decisions and meets no conflict. *)
Lemma cnf_2_0_decisions_4 :
  exists s' : Solver D,
    solve 4 cnf_2_0 = Ok (l_True, s') /\ decisions s' = 2 /\ conflicts s' = 0.
Proof.
  unfold solve.
  eval_as (propagate (set_starts (set_model (budgetOff (@cnf_2_0 D FO)) [])
                                 (incr64 (starts (budgetOff (@cnf_2_0 D FO)))))) Hp.
  match type of Hp with _ = Ok (_, ?s1) =>
    destruct (@pick_two s1 eq_refl eq_refl eq_refl) as [Hk|Hk];
    match type of Hk with _ = Ok (?l, ?s3) =>
      eval_as (uncheckedEnqueue (newDecisionLevel s3) l CRef_Undef) He;
      match type of He with _ = Ok ?s4 =>
        eval_as (search_loop 2 s4) Hs;
        match type of Hs with _ = Ok (_, ?s5) =>
          eval_as (copy_model s5 (nVars s5) 0 (Vec.growTo (model s5) (nVars s5) l_Undef)) Hm;
          match type of Hm with _ = Ok ?m =>
            eval_as (cancelUntil (set_model s5 m) 0) Hc
          end
        end
      end
    end
  end.
  all: eexists; split;
    [ eapply solve_first_search_true;
      [ reflexivity
      | eapply search_loop_next;
        [ eapply search_round_decide;
          [ exact Hp | reflexivity | reflexivity | exact Hk | reflexivity | exact He ]
        | exact Hs ]
      | exact Hm | exact Hc ]
    | split; reflexivity ].
Qed.

Lemma cnf_2_0_model (n : nat) :
  exists s' : Solver D, solve (4 + n) cnf_2_0 = Ok (l_True, s') /\ model s' = [l_False; l_False].
Proof.
  destruct cnf_2_0_model_4 as (s' & E & Hm). exists s'. split; auto.
  apply solve_more_fuel. exact E.
Qed.

End Fuel.

Lemma cnf_2_0_not_true :
  ~ exists s' : Solver Q, solve 4 cnf_2_0 = Ok (l_True, s') /\ model s' = [l_True; l_True].
Proof.
  intros (s' & E & Hm).
  destruct (@cnf_2_0_model_4 Q _) as (s2 & E2 & Hm2).
  rewrite E in E2. inversion E2; subst. rewrite Hm in Hm2. discriminate.
Qed.

(** * Conflict analysis leaves the clauses and the assignment as they are *)

Section Analyze.
Context {D : Type} {FO : FloatOps D}.

Ltac veq_same := constructor; intros; reflexivity.

Lemma varBumpActivity_veq (s : Solver D) x s' : varBumpActivity s x = Ok s' -> veq s s'.
Proof.
  unfold varBumpActivity. intros H.
  apply bind_Ok in H. destruct H as (a & _ & H).
  apply bind_Ok in H. destruct H as (act & _ & H).
  apply bind_Ok in H. destruct H as (s2 & E2 & H).
  assert (V2 : veq s s2).
  { destruct (d_ltb _ _).
    - apply bind_Ok in E2. destruct E2 as (act' & _ & E2). inversion E2. veq_same.
    - inversion E2. veq_same. }
  inversion H. eapply veq_trans; [exact V2|].
  destruct (heap_inHeap (order_heap s2) x); [|apply veq_refl].
  constructor; intros; reflexivity.
Qed.

Lemma core_put_activity (a : ClauseAllocator D) cr c x cr' :
  ca_mem a cr = Some c ->
  option_map cl_core (ca_mem (ca_put a cr (set_cl_activity c x)) cr')
  = option_map cl_core (ca_mem a cr').
Proof.
  intros E. simpl. destruct (Z.eqb_spec cr' cr) as [->|N]; [|reflexivity].
  rewrite E. reflexivity.
Qed.

Lemma rescale_learnts_core : forall ls (a a' : ClauseAllocator D),
  rescale_learnts a ls = Ok a' ->
  ca_size a' = ca_size a
  /\ forall cr, option_map cl_core (ca_mem a' cr) = option_map cl_core (ca_mem a cr).
Proof.
  induction ls as [|cr t IH]; intros a a' H; simpl in H.
  - inversion H. auto.
  - apply bind_Ok in H. destruct H as (c & Ec & H). apply ca_get_Ok in Ec.
    apply IH in H. destruct H as [H1 H2]. split; [exact H1|].
    intros x. rewrite H2. apply core_put_activity. exact Ec.
Qed.

Lemma claBumpActivity_veq (s : Solver D) cr s' : claBumpActivity s cr = Ok s' -> veq s s'.
Proof.
  unfold claBumpActivity. intros H.
  apply bind_Ok in H. destruct H as (c & Ec & H). apply ca_get_Ok in Ec.
  destruct (d_ltb _ _).
  - apply bind_Ok in H. destruct H as (a2 & E2 & H). inversion H.
    apply rescale_learnts_core in E2. destruct E2 as [Z1 Z2].
    constructor; try reflexivity.
    + intros x. unfold core. simpl ca. rewrite Z2. apply core_put_activity. exact Ec.
    + simpl. rewrite Z1. reflexivity.
  - inversion H. constructor; try reflexivity.
    intros x. unfold core. simpl ca. apply core_put_activity. exact Ec.
Qed.

Lemma analyze_lits_veq : forall qs (s : Solver D) out nb s' out' nb',
  analyze_lits s qs out nb = Ok (s', out', nb') ->
  veq s s' /\ (length out <= length out')%nat
  /\ (forall n, (n < length out)%nat -> nth_error out' n = nth_error out n).
Proof.
  induction qs as [|q t IH]; intros s out nb s' out' nb' H; simpl in H.
  - inversion H. split; [apply veq_refl|auto].
  - apply bind_Ok in H. destruct H as (x & _ & H).
    apply bind_Ok in H. destruct H as (sn & _ & H).
    apply bind_Ok in H. destruct H as (lv & _ & H).
    destruct (negb sn && (0 <? lv)%nat).
    + apply bind_Ok in H. destruct H as (s1 & E1 & H). apply varBumpActivity_veq in E1.
      apply bind_Ok in H. destruct H as (sn' & _ & H).
      assert (V : veq s (set_seen s1 sn')).
      { eapply veq_trans; [exact E1|]. constructor; intros; reflexivity. }
      destruct (decisionLevel (set_seen s1 sn') <=? lv)%nat.
      * apply IH in H. destruct H as (H1 & H0 & H2). split; [eapply veq_trans; eauto|auto].
      * apply IH in H. destruct H as (H1 & H0 & H2). rewrite length_app in H0. simpl in H0.
        split; [eapply veq_trans; eauto|]. split; [lia|].
        intros n Hn. rewrite H2 by (rewrite length_app; simpl; lia).
        apply nth_error_app1. exact Hn.
    + apply IH in H. exact H.
Qed.

Lemma scan_seen_lt (s : Solver D) : forall n i, scan_seen s n = Ok i -> (i < n)%nat.
Proof.
  induction n as [|n IH]; intros i H; simpl in H; [discriminate|].
  apply bind_Ok in H. destruct H as (l & _ & H).
  apply bind_Ok in H. destruct H as (x & _ & H).
  apply bind_Ok in H. destruct H as (sn & _ & H).
  destruct sn; [inversion H; lia|]. apply IH in H. lia.
Qed.

Lemma analyze_loop_veq : forall fuel (s : Solver D) confl p out n nb s' p' out',
  analyze_loop fuel s confl p out n nb = Ok (s', p', out') ->
  veq s s' /\ In p' (trail s)
  /\ (forall k, (k < length out)%nat -> nth_error out' k = nth_error out k).
Proof.
  induction fuel as [|f IH]; intros s confl p out n nb s' p' out' H; simpl in H;
    [discriminate|].
  apply bind_Ok in H. destruct H as (u & _ & H).
  apply bind_Ok in H. destruct H as (c & _ & H).
  apply bind_Ok in H. destruct H as (s2 & E2 & H).
  assert (V2 : veq s s2).
  { destruct (cl_learnt c).
    - apply claBumpActivity_veq in E2. eapply veq_trans; [|exact E2].
      constructor; intros; reflexivity.
    - inversion E2. constructor; intros; reflexivity. }
  apply bind_Ok in H. destruct H as ([[s3 out1] nb1] & E3 & H).
  apply analyze_lits_veq in E3. destruct E3 as (V3 & L3 & O3).
  apply bind_Ok in H. destruct H as (i & _ & H).
  apply bind_Ok in H. destruct H as (q & Eq & H). apply get_Ok in Eq.
  apply bind_Ok in H. destruct H as (x & _ & H).
  apply bind_Ok in H. destruct H as (confl' & _ & H).
  apply bind_Ok in H. destruct H as (sn & _ & H).
  assert (V4 : veq s (set_seen s3 sn)).
  { eapply veq_trans; [exact V2|]. eapply veq_trans; [exact V3|].
    constructor; intros; reflexivity. }
  assert (Iq : In q (trail s)).
  { rewrite <- (veq_trail (veq_trans V2 V3)). eapply nth_error_In; eauto. }
  destruct (0 <? nb1 - 1).
  - apply IH in H. destruct H as (H1 & H2 & H3). split; [eapply veq_trans; eauto|]. split.
    + rewrite <- (veq_trail V4). exact H2.
    + intros k Hk. rewrite H3 by lia. apply O3. exact Hk.
  - inversion H; subst. auto.
Qed.

Lemma max_level_index_ge (s : Solver D) out : forall t i m r,
  (1 <= m)%nat -> (1 <= i)%nat -> max_level_index s out i t m = Ok r -> (1 <= r)%nat.
Proof.
  induction t as [|q t IH]; intros i m r Hm Hi H; simpl in H.
  - inversion H; subst; auto.
  - apply bind_Ok in H. destruct H as (x & _ & H).
    apply bind_Ok in H. destruct H as (li & _ & H).
    apply bind_Ok in H. destruct H as (qm & _ & H).
    apply bind_Ok in H. destruct H as (xm & _ & H).
    apply bind_Ok in H. destruct H as (lm & _ & H).
    apply IH in H; auto. destruct (lm <? li)%nat; auto.
Qed.

Lemma analyze_finish_head (s : Solver D) p out out' lv :
  analyze_finish s p out = Ok (out', lv) -> nth_error out' 0 = Some (neg p).
Proof.
  unfold analyze_finish. intros H.
  apply bind_Ok in H. destruct H as (out1 & E1 & H). apply set_Ok in E1. destruct E1 as [L1 ->].
  destruct (length (Vec.upd out 0 (neg p)) =? 1)%nat.
  - inversion H; subst. apply nth_error_upd_eq. exact L1.
  - apply bind_Ok in H. destruct H as (max_i & Em & H).
    apply bind_Ok in H. destruct H as (q & Eq & H).
    apply bind_Ok in H. destruct H as (o1 & Eo & H).
    apply bind_Ok in H. destruct H as (out2 & E2 & H). apply set_Ok in E2. destruct E2 as [L2 ->].
    apply bind_Ok in H. destruct H as (out3 & E3 & H). apply set_Ok in E3. destruct E3 as [L3 ->].
    apply bind_Ok in H. destruct H as (x & _ & H).
    apply bind_Ok in H. destruct H as (l & _ & H). inversion H; subst.
    rewrite nth_error_upd_ne by lia.
    assert (M : (1 <= max_i)%nat).
    { eapply (max_level_index_ge s); [| |exact Em]; lia. }
    rewrite nth_error_upd_ne by lia. apply nth_error_upd_eq. exact L1.
Qed.

Lemma computeLBD_loop_veq : forall lits (s : Solver D) nb r s',
  computeLBD_loop s lits nb = Ok (r, s') -> veq s s'.
Proof.
  induction lits as [|q t IH]; intros s nb r s' H; simpl in H.
  - inversion H. apply veq_refl.
  - apply bind_Ok in H. destruct H as (x & _ & H).
    apply bind_Ok in H. destruct H as (l & _ & H).
    apply bind_Ok in H. destruct H as (tag & _ & H).
    destruct (tag =? FLAG s); [eapply IH; eauto|].
    apply bind_Ok in H. destruct H as (lt & _ & H). apply IH in H.
    eapply veq_trans; [|exact H]. constructor; intros; reflexivity.
Qed.

Lemma clear_seen_veq : forall lits (s s' : Solver D), clear_seen s lits = Ok s' -> veq s s'.
Proof.
  induction lits as [|q t IH]; intros s s' H; simpl in H.
  - inversion H. apply veq_refl.
  - apply bind_Ok in H. destruct H as (x & _ & H).
    apply bind_Ok in H. destruct H as (sn & _ & H). apply IH in H.
    eapply veq_trans; [|exact H]. constructor; intros; reflexivity.
Qed.

(** [analyze] changes neither clause nor assignment, and the learnt clause
    starts with the negation of a literal of the trail. *)
Lemma analyze_veq (s : Solver D) confl s' learnt bt lbd :
  analyze s confl = Ok (s', learnt, bt, lbd) ->
  veq s s' /\ exists p, In p (trail s) /\ nth_error learnt 0 = Some (neg p).
Proof.
  unfold analyze. intros H.
  apply bind_Ok in H. destruct H as ([[s1 p] out0] & E1 & H).
  apply analyze_loop_veq in E1. destruct E1 as (V1 & Ip & _).
  apply bind_Ok in H. destruct H as ([out bt'] & E2 & H). apply analyze_finish_head in E2.
  apply bind_Ok in H. destruct H as ([lbd' s2] & E3 & H). unfold computeLBD in E3.
  apply computeLBD_loop_veq in E3.
  apply bind_Ok in H. destruct H as (s3 & E4 & H). apply clear_seen_veq in E4.
  inversion H; subst. split; [|eauto].
  eapply veq_trans; [exact V1|]. eapply veq_trans; [|exact E4].
  eapply veq_trans; [|exact E3]. constructor; intros; reflexivity.
Qed.

End Analyze.

(** * Backtracking keeps the invariants *)

Section BacktrackInv.
Context {D : Type} {FO : FloatOps D}.

Lemma same_db_refl (s : Solver D) : same_db s s.
Proof. constructor; reflexivity. Qed.

Lemma same_db_trans (s1 s2 s3 : Solver D) : same_db s1 s2 -> same_db s2 s3 -> same_db s1 s3.
Proof. intros [] []. constructor; congruence. Qed.

Lemma ext_refl (s : Solver D) : ext s s.
Proof.
  constructor; auto. intros cr ls Hc Hl. exists cr, ls. auto.
Qed.

Lemma ext_trans (s1 s2 s3 : Solver D) : ext s1 s2 -> ext s2 s3 -> ext s1 s3.
Proof.
  intros [A1 A2 A3] [B1 B2 B3]. constructor; auto; [|lia].
  intros cr ls Hc Hl. destruct (A2 cr ls Hc Hl) as (cr2 & ls2 & Hc2 & Hl2 & P2).
  destruct (B2 cr2 ls2 Hc2 Hl2) as (cr3 & ls3 & Hc3 & Hl3 & P3).
  exists cr3, ls3. splits; auto. eapply Permutation_trans; eauto.
Qed.

(** A clause that is accounted for stays so. *)
Lemma ext_accounted (s s' : Solver D) ps : ext s s' -> accounted s ps -> accounted s' ps.
Proof.
  intros [A1 A2 A3] [(l & I1 & I2)|[(cr & ls & Hc & Hl & Hi)|(l & I1 & I2 & H0 & Hv)]].
  - left. exists l. auto.
  - right. left. destruct (A2 cr ls Hc Hl) as (cr' & ls' & Hc' & Hl' & Pm).
    exists cr', ls'. splits; auto. intros x Hx. apply Hi.
    apply (Permutation_in _ (Permutation_sym Pm)). exact Hx.
  - right. right. exists l. splits; auto. lia.
Qed.

Lemma cancel_loop_Ok : forall lits (s s' : Solver D),
  cancel_loop s lits = Ok s' ->
  same_db s s' /\ trail s' = trail s /\ trail_lim s' = trail_lim s /\ qhead s' = qhead s
  /\ length (assigns s') = length (assigns s)
  /\ (forall x, nth_error (assigns s') x =
                if existsb (fun l => Nat.eqb (var l) x) lits then Some l_Undef
                else nth_error (assigns s) x)
  /\ (forall x, In x (order_heap s') <-> In x (order_heap s) \/ In x (map var lits)).
Proof.
  induction lits as [|l rest IH]; intros s s' H; simpl in H.
  - inversion H. splits; auto; [apply same_db_refl|]. intros x. simpl. tauto.
  - apply bind_Ok in H. destruct H as (x & Ex & H). apply varI_Ok in Ex. destruct Ex as [H0 ->].
    apply bind_Ok in H. destruct H as (a & Ea & H). apply set_Ok in Ea. destruct Ea as [La ->].
    apply bind_Ok in H. destruct H as (po & Ep & H). apply set_Ok in Ep. destruct Ep as [Lp ->].
    apply IH in H. destruct H as (A1 & A2 & A3 & A4 & A5 & A6 & A7).
    assert (Q : forall (t : Solver D) y, same_db t (insertVarOrder t y)
                /\ trail (insertVarOrder t y) = trail t
                /\ trail_lim (insertVarOrder t y) = trail_lim t
                /\ qhead (insertVarOrder t y) = qhead t
                /\ assigns (insertVarOrder t y) = assigns t).
    { intros t y. unfold insertVarOrder. destruct (heap_inHeap (order_heap t) y).
      - splits; auto. apply same_db_refl.
      - splits; auto. constructor; reflexivity. }
    match type of A1 with same_db ?t _ =>
      match t with insertVarOrder ?t0 ?y => destruct (Q t0 y) as (Q1 & Q2 & Q3 & Q4 & Q5) end
    end.
    splits.
    + eapply same_db_trans; [|exact A1]. eapply same_db_trans; [|exact Q1].
      constructor; reflexivity.
    + rewrite A2, Q2. reflexivity.
    + rewrite A3, Q3. reflexivity.
    + rewrite A4, Q4. reflexivity.
    + rewrite A5, Q5. simpl. apply length_upd.
    + intros y. rewrite A6, Q5. simpl.
      destruct (existsb (fun l0 => (var l0 =? y)%nat) rest) eqn:Ee.
      * rewrite orb_true_r. reflexivity.
      * rewrite orb_false_r. rewrite nth_error_upd.
        rewrite (proj2 (Nat.ltb_lt _ _) La).
        destruct (Nat.eqb_spec (var l) y); reflexivity.
    + intros y. rewrite A7, insertVarOrder_In. simpl. intuition.
Qed.

Lemma NoDup_app_disjoint {A} (l1 l2 : list A) a :
  NoDup (l1 ++ l2) -> In a l1 -> In a l2 -> False.
Proof.
  induction l1 as [|x l1 IH]; simpl; intros H I1 I2; [tauto|].
  inversion H as [|? ? N H']; subst. destruct I1 as [->|I1].
  - apply N. apply in_app_iff. auto.
  - apply IH; auto.
Qed.

Lemma sorted_firstn (l : list nat) : forall n,
  StronglySorted le l -> StronglySorted le (firstn n l).
Proof.
  induction l as [|a l IH]; intros [|n] H; simpl; try constructor.
  - inversion H; subst. apply IH. auto.
  - inversion H; subst. rewrite Forall_forall in *. intros x I. apply In_firstn in I. auto.
Qed.

Lemma sorted_firstn_le (l : list nat) : forall n lim b,
  StronglySorted le l -> nth_error l n = Some lim -> In b (firstn n l) -> (b <= lim)%nat.
Proof.
  induction l as [|a l IH]; intros [|n] lim b H Hn Hb; simpl in *; try tauto; try discriminate.
  inversion H as [|? ? Hs Hf]; subst. destruct Hb as [<-|Hb].
  - rewrite Forall_forall in Hf. apply Hf. eapply nth_error_In; eauto.
  - eapply IH; eauto.
Qed.

Lemma firstn_firstn_le {A} (l : list A) n m : (n <= m)%nat -> firstn n (firstn m l) = firstn n l.
Proof. intros H. rewrite firstn_firstn. f_equal. lia. Qed.

Lemma existsb_var_In (lits : list Lit) x :
  existsb (fun l => Nat.eqb (var l) x) lits = true <-> In x (map var lits).
Proof.
  rewrite existsb_exists, in_map_iff. split.
  - intros (l & I & E). apply Nat.eqb_eq in E. eauto.
  - intros (l & E & I). exists l. split; auto. apply Nat.eqb_eq. auto.
Qed.

(** [cancelUntil] below the decision level: the invariants hold again, with
    every clause watched in order. *)
Lemma cancelUntil_inv (s : Solver D) (L : nat) s' :
  WF s -> cancelUntil s L = Ok s' ->
  ((decisionLevel s <= L)%nat -> s' = s)
  /\ ((L < decisionLevel s)%nat ->
      WF s' /\ CUR s' /\ root s' = root s /\ same_db s s' /\ decisionLevel s' = L
      /\ qhead s' = length (trail s')).
Proof.
  intros Hwf H. unfold cancelUntil in H.
  destruct (Nat.ltb_spec L (decisionLevel s)) as [HL|HL].
  2:{ inversion H; subst. split; [reflexivity|intros X; exfalso; lia]. }
  split; [lia|]. intros _.
  apply bind_Ok in H. destruct H as (lim & Elim & H). apply get_Ok in Elim.
  apply bind_Ok in H. destruct H as (s1 & E1 & H).
  apply cancel_loop_Ok in E1. destruct E1 as (B1 & B2 & B3 & B4 & B5 & B6 & B7).
  apply bind_Ok in H. destruct H as (t & Et & H). apply shrink_Ok in Et. destruct Et as [_ Et].
  apply bind_Ok in H. destruct H as (tl & Etl & H). apply shrink_Ok in Etl.
  destruct Etl as [_ Etl].
  apply bind_Ok in H. destruct H as (u & Ea & H). apply assert_Ok in Ea. apply Nat.eqb_eq in Ea.
  inversion H; subst s'. clear H. simpl in Et, Etl.
  destruct Hwf as [Ha Ht Hm Hw Hq].
  pose proof (wf_lim_qhead Ht lim (nth_error_In _ _ Elim)) as Hl1.
  pose proof (wf_qhead Ht) as Hl2.
  assert (Et' : t = firstn lim (trail s)).
  { rewrite Et, B2. f_equal. lia. }
  assert (Etl' : tl = firstn L (trail_lim s)).
  { rewrite Etl, B3. f_equal. unfold decisionLevel in HL. lia. }
  clear Et Etl. subst t tl.
  set (keep := firstn lim (trail s)). set (rem := skipn lim (trail s)).
  assert (ET : trail s = keep ++ rem) by (symmetry; apply firstn_skipn).
  assert (ND : NoDup (map var keep ++ map var rem)).
  { rewrite <- map_app, <- ET. apply (wf_trail_nodup Ha). }
  assert (As : forall x, nth_error (assigns s1) x =
                 if existsb (fun l => Nat.eqb (var l) x) rem then Some l_Undef
                 else nth_error (assigns s) x).
  { intros x. rewrite B6. 
    assert (X : existsb (fun l => Nat.eqb (var l) x) (rev rem)
                = existsb (fun l => Nat.eqb (var l) x) rem).
    { apply eq_true_iff_eq. rewrite !existsb_var_In, map_rev, <- in_rev. reflexivity. }
    fold rem. rewrite X. reflexivity. }
  assert (Keep : forall l, In l keep -> nth_error (assigns s1) (var l) = nth_error (assigns s) (var l)).
  { intros l I. rewrite As. destruct (existsb _ rem) eqn:E; auto.
    apply existsb_var_In in E. exfalso.
    apply (NoDup_app_disjoint _ _ _ ND (in_map var _ _ I) E). }
  set (s' := set_trail_lim (set_trail (set_qhead s1 lim) keep) (firstn L (trail_lim s))).
  assert (Lk : length keep = lim) by (unfold keep; rewrite length_firstn; lia).
  assert (Fk : firstn lim keep = keep).
  { unfold keep. rewrite firstn_firstn. f_equal. lia. }
  assert (Ha' : WFa s').
  { constructor.
    - unfold nVars. simpl. rewrite B5, (sd_vardata B1). apply (wf_assigns_len Ha).
    - intros l I. simpl in I. apply value_True_iff. simpl. rewrite (Keep l I).
      apply value_True_iff. apply (wf_trail_true Ha). rewrite ET. apply in_app_iff. auto.
    - intros l Hv. simpl. apply value_True_iff in Hv. simpl in Hv. destruct Hv as [H0 Hv].
      rewrite As in Hv. destruct (existsb _ rem) eqn:E.
      + inversion Hv. destruct (sign l); discriminate.
      + assert (I : In l (trail s)).
        { apply (wf_true_trail Ha). apply value_True_iff. auto. }
        rewrite ET in I. apply in_app_iff in I. destruct I as [I|I]; auto.
        exfalso. assert (X : existsb (fun l0 => Nat.eqb (var l0) (var l)) rem = true).
        { apply existsb_var_In. apply in_map. exact I. }
        congruence.
    - simpl. apply NoDup_app_remove_r in ND. exact ND.
    - intros x Hx. simpl in *. apply B7. rewrite As in Hx.
      destruct (existsb _ rem) eqn:E.
      + right. apply existsb_var_In in E. rewrite map_rev, <- in_rev. exact E.
      + left. apply (wf_heap Ha). exact Hx. }
  assert (Hb : forall b, In b (firstn L (trail_lim s)) -> (b <= lim)%nat).
  { intros b Hb. eapply sorted_firstn_le; eauto. apply (wf_lim_sorted Ht). }
  assert (Hq' : PF s').
  { intros b cr ls Hb' Hc Hl. simpl in *. unfold keep.
    rewrite firstn_firstn_le by (apply Hb; exact Hb').
    apply (Hq b cr ls); auto.
    - eapply In_firstn; eauto.
    - rewrite <- (sd_clauses B1). exact Hc.
    - unfold lits_at in *. rewrite <- (sd_ca B1). exact Hl. }
  splits.
  - constructor; auto.
    + constructor; simpl.
      * apply sorted_firstn. apply (wf_lim_sorted Ht).
      * exact Hb.
      * lia.
    + apply (WFm_cong (s := s)); auto.
      * apply core_eq_refl. simpl. apply (sd_ca B1).
      * simpl. rewrite (sd_ca B1). reflexivity.
      * simpl. apply (sd_learnts B1).
      * simpl. apply (sd_clauses B1).
    + apply (WFw_cong (s := s)); auto.
      * apply core_eq_refl. simpl. apply (sd_ca B1).
      * simpl. apply (sd_watches B1).
      * simpl. apply (sd_clauses B1).
      * simpl. rewrite (sd_vardata B1). reflexivity.
  - intros cr ls Hc Hl. simpl in *. rewrite Fk.
    apply (Hq lim cr ls); auto.
    + eapply nth_error_In; eauto.
    + rewrite <- (sd_clauses B1). exact Hc.
    + unfold lits_at in *. rewrite <- (sd_ca B1). exact Hl.
  - unfold root. simpl. rewrite Lk.
    destruct (trail_lim s) as [|b0 tl0] eqn:Etl; [destruct L; discriminate|].
    destruct L as [|L]; simpl in *.
    + inversion Elim; subst b0. exact Fk.
    + unfold keep. apply firstn_firstn_le. apply Hb. left. reflexivity.
  - destruct B1. constructor; simpl; auto.
  - unfold decisionLevel. simpl. exact Ea.
  - simpl. auto.
Qed.

End BacktrackInv.

(** * A conflict: the learnt clause, the backjump and the asserted literal *)

Section Conflict.
Context {D : Type} {FO : FloatOps D}.

(** What [attachClause] does. *)
Lemma attachClause_Ok (s : Solver D) cr s' :
  attachClause s cr = Ok s' ->
  exists c c0 c1 r,
    ca_mem (ca s) cr = Some c /\ cl_lits c = c0 :: c1 :: r
    /\ 0 <= neg c0 /\ 0 <= neg c1
    /\ (Z.to_nat (neg c0) < length (watches s))%nat
    /\ (Z.to_nat (neg c1) < length (watches s))%nat
    /\ (forall i, nth_error (watches s') i =
          match nth_error (watches s) i with
          | None => None
          | Some l => Some (l ++ (if (i =? Z.to_nat (neg c0))%nat
                                  then [mkWatcher cr c1] else [])
                              ++ (if (i =? Z.to_nat (neg c1))%nat
                                  then [mkWatcher cr c0] else []))
          end)
    /\ ok s' = ok s /\ clauses s' = clauses s /\ learnts s' = learnts s /\ ca s' = ca s
    /\ assigns s' = assigns s /\ trail s' = trail s /\ trail_lim s' = trail_lim s
    /\ qhead s' = qhead s /\ order_heap s' = order_heap s /\ vardata s' = vardata s.
Proof.
  unfold attachClause. intros H.
  apply bind_Ok in H. destruct H as (c & Ec & H). apply ca_get_Ok in Ec.
  apply bind_Ok in H. destruct H as (u & Ea & H).
  apply bind_Ok in H. destruct H as (c0 & E0 & H). apply get_Ok in E0.
  apply bind_Ok in H. destruct H as (c1 & E1 & H). apply get_Ok in E1.
  apply bind_Ok in H. destruct H as (w1 & Ew1 & H). apply occ_push_Ok in Ew1.
  destruct Ew1 as (N0 & l0 & Hl0 & ->).
  apply bind_Ok in H. destruct H as (w2 & Ew2 & H). apply occ_push_Ok in Ew2.
  destruct Ew2 as (N1 & l1 & Hl1 & ->).
  destruct (cl_lits c) as [|a [|b r]] eqn:El; try discriminate.
  simpl in E0, E1. inversion E0; subst a. inversion E1; subst b.
  assert (L0 : (Z.to_nat (neg c0) < length (watches s))%nat).
  { apply nth_error_Some. congruence. }
  assert (L1 : (Z.to_nat (neg c1) < length (watches s))%nat).
  { rewrite <- (length_upd (watches s) (Z.to_nat (neg c0)) (l0 ++ [mkWatcher cr c1])).
    apply nth_error_Some. congruence. }
  exists c, c0, c1, r. splits; auto.
  - intros i.
    assert (W : watches s' = Vec.upd (Vec.upd (watches s) (Z.to_nat (neg c0))
                                        (l0 ++ [mkWatcher cr c1]))
                               (Z.to_nat (neg c1)) (l1 ++ [mkWatcher cr c0])).
    { inversion H. destruct (cl_learnt c); reflexivity. }
    rewrite W. rewrite nth_error_upd in Hl1. rewrite !nth_error_upd, !length_upd.
    rewrite (proj2 (Nat.ltb_lt _ _) L0) in *. rewrite (proj2 (Nat.ltb_lt _ _) L1).
    rewrite !andb_true_r in *.
    destruct (Nat.eqb_spec (Z.to_nat (neg c1)) i) as [<-|Ni1].
    + rewrite Nat.eqb_refl. rewrite (Nat.eqb_sym (Z.to_nat (neg c1))).
      destruct (Nat.eqb_spec (Z.to_nat (neg c0)) (Z.to_nat (neg c1))) as [Q|Nq].
      * inversion Hl1; subst l1. rewrite <- Q, Hl0. rewrite <- app_assoc. reflexivity.
      * rewrite Hl1. rewrite app_nil_l. reflexivity.
    + destruct (Nat.eqb_spec i (Z.to_nat (neg c1))); [congruence|].
      rewrite (Nat.eqb_sym i). destruct (Nat.eqb_spec (Z.to_nat (neg c0)) i) as [<-|Ni0].
      * rewrite Hl0, app_nil_r. reflexivity.
      * destruct (nth_error (watches s) i); [rewrite !app_nil_r|]; reflexivity.
  - inversion H. destruct (cl_learnt c); reflexivity.
  - inversion H. destruct (cl_learnt c); reflexivity.
  - inversion H. destruct (cl_learnt c); reflexivity.
  - inversion H. destruct (cl_learnt c); reflexivity.
  - inversion H. destruct (cl_learnt c); reflexivity.
  - inversion H. destruct (cl_learnt c); reflexivity.
  - inversion H. destruct (cl_learnt c); reflexivity.
  - inversion H. destruct (cl_learnt c); reflexivity.
  - inversion H. destruct (cl_learnt c); reflexivity.
  - inversion H. destruct (cl_learnt c); reflexivity.
Qed.

Lemma ca_alloc_Ok (a : ClauseAllocator D) ps learnt cr a' :
  ca_alloc a ps learnt = Ok (cr, a') ->
  cr = ca_size a
  /\ ca_size a' = cr + clauseWord32Size (length ps) learnt
  /\ ca_size a' < CRef_Undef
  /\ ca_mem a' cr = Some (mkClause ps learnt 0 false (d_of_Z 0) 0)
  /\ (forall x, x <> cr -> ca_mem a' x = ca_mem a x).
Proof.
  unfold ca_alloc. intros H.
  destruct (Z.ltb_spec (ca_size a + clauseWord32Size (length ps) learnt) CRef_Undef);
    [|discriminate].
  inversion H; subst. simpl. rewrite Z.eqb_refl. splits; auto.
  intros x N. destruct (Z.eqb_spec x (ca_size a)); [congruence|reflexivity].
Qed.

Lemma same_shape_length {A B} (l : list A) (l' : list B) :
  (forall i, nth_error l' i = None <-> nth_error l i = None) -> length l' = length l.
Proof.
  intros H. pose proof (H (length l)) as H1. pose proof (H (length l')) as H2.
  rewrite !nth_error_None in H1, H2. lia.
Qed.

(** A new clause, learnt or original, is allocated, listed and attached.  An
    original clause has different literals, all literals of the solver, none
    of them false. *)
Lemma WF_add_clause (s : Solver D) ps (learnt : bool) cr a s' :
  WF s ->
  ca_alloc (ca s) ps learnt = Ok (cr, a) ->
  attachClause (if learnt then set_learnts (set_ca s a) (Vec.push (learnts s) cr)
                else set_clauses (set_ca s a) (Vec.push (clauses s) cr)) cr = Ok s' ->
  (learnt = false ->
   NoDup ps /\ (forall l, In l ps -> 0 <= l /\ (var l < nVars s)%nat)
   /\ (forall l, In l ps -> ~ In (neg l) (trail s))) ->
  WF s'
  /\ (CUR s -> CUR s')
  /\ ext s s'
  /\ ok s' = ok s /\ assigns s' = assigns s /\ trail s' = trail s
  /\ trail_lim s' = trail_lim s /\ qhead s' = qhead s /\ vardata s' = vardata s
  /\ learnts s' = (if learnt then learnts s ++ [cr] else learnts s)
  /\ clauses s' = (if learnt then clauses s else clauses s ++ [cr])
  /\ ca s' = a.
Proof.
  intros [Ha Ht Hm Hw Hq] Eal Eat Hor.
  apply ca_alloc_Ok in Eal. destruct Eal as (Ecr & Esz & Elt & Mcr & Moth).
  apply attachClause_Ok in Eat.
  destruct Eat as (c & c0 & c1 & r & Ec & El & N0 & N1 & L0 & L1 & W & F).
  destruct F as (Fok & Fcl & Fle & Fca & Fas & Ftr & Ftl & Fqh & Fhe & Fvd).
  set (s1 := if learnt then set_learnts (set_ca s a) (Vec.push (learnts s) cr)
             else set_clauses (set_ca s a) (Vec.push (clauses s) cr)) in *.
  assert (S1 : ca s1 = a /\ watches s1 = watches s /\ assigns s1 = assigns s
               /\ trail s1 = trail s /\ trail_lim s1 = trail_lim s /\ qhead s1 = qhead s
               /\ order_heap s1 = order_heap s /\ vardata s1 = vardata s /\ ok s1 = ok s
               /\ learnts s1 = (if learnt then learnts s ++ [cr] else learnts s)
               /\ clauses s1 = (if learnt then clauses s else clauses s ++ [cr])).
  { unfold s1. destruct learnt; splits; reflexivity. }
  destruct S1 as (Sca & Swa & Sas & Str & Stl & Sqh & She & Svd & Sok & Sle & Scl).
  rewrite Sca in *. rewrite Swa in *. rewrite Mcr in Ec. inversion Ec; subst c. simpl in El.
  clear Ec.
  assert (Old : forall x cx, ca_mem (ca s) x = Some cx -> x <> cr).
  { intros x cx Ex. destruct (wf_arena Hm x cx Ex). lia. }
  assert (M1 : forall x cx, ca_mem (ca s) x = Some cx -> ca_mem (ca s') x = Some cx).
  { intros x cx Ex. rewrite Fca, Moth; eauto. }
  assert (M2 : ca_mem (ca s') cr = Some (mkClause ps learnt 0 false (d_of_Z 0) 0)).
  { rewrite Fca. exact Mcr. }
  assert (M3 : forall x cx, ca_mem (ca s') x = Some cx -> x <> cr -> ca_mem (ca s) x = Some cx).
  { intros x cx Ex N. rewrite Fca, Moth in Ex; auto. }
  assert (Wmono : forall i l w, nth_error (watches s) i = Some l -> In w l ->
                    exists l', nth_error (watches s') i = Some l' /\ In w l').
  { intros i l w Hn Hi. rewrite W, Hn. eexists. split; [reflexivity|].
    apply in_app_iff. auto. }
  assert (Wnew : forall i l' w, nth_error (watches s') i = Some l' -> In w l' ->
                   (exists l, nth_error (watches s) i = Some l /\ In w l)
                   \/ (cref w = cr /\ In (blocker w) ps)).
  { intros i l' w Hn Hi. rewrite W in Hn. destruct (nth_error (watches s) i) as [l|]; [|discriminate].
    inversion Hn; subst l'. apply in_app_iff in Hi. destruct Hi as [Hi|Hi]; [left; eauto|].
    right. apply in_app_iff in Hi.
    destruct Hi as [Hi|Hi];
      [destruct (i =? Z.to_nat (neg c0))%nat|destruct (i =? Z.to_nat (neg c1))%nat];
      try destruct Hi as [<-|[]]; try destruct Hi; simpl; rewrite El; simpl; auto. }
  assert (Ev : nVars s' = nVars s) by (unfold nVars; rewrite Fvd, Svd; reflexivity).
  assert (HWs : forall q x, has_watcher s q x -> has_watcher s' q x).
  { intros q x (l & w & Hn & Hi & Hx). destruct (Wmono _ l w Hn Hi) as (l' & Hn' & Hi').
    exists l', w. auto. }
  assert (Lits : forall x ls, x <> cr -> lits_at s' x ls -> lits_at s x ls).
  { intros x ls N (cx & Ex & Lx). exists cx. split; auto. }
  assert (Cl : forall x, In x (clauses s') -> In x (clauses s) \/ (learnt = false /\ x = cr)).
  { intros x. rewrite Fcl, Scl. destruct learnt; auto. intros I. apply in_app_iff in I.
    destruct I as [I|[<-|[]]]; auto. }
  assert (Hc0 : has_watcher s' (neg c0) cr).
  { destruct (nth_error (watches s) (Z.to_nat (neg c0))) as [l|] eqn:E.
    2:{ apply nth_error_None in E. lia. }
    eexists _, (mkWatcher cr c1). rewrite W, E. split; [reflexivity|]. split; [|reflexivity].
    rewrite Nat.eqb_refl. apply in_app_iff. right. apply in_app_iff. left. left. reflexivity. }
  assert (Hc1 : has_watcher s' (neg c1) cr).
  { destruct (nth_error (watches s) (Z.to_nat (neg c1))) as [l|] eqn:E.
    2:{ apply nth_error_None in E. lia. }
    eexists _, (mkWatcher cr c0). rewrite W, E. split; [reflexivity|]. split; [|reflexivity].
    rewrite Nat.eqb_refl. apply in_app_iff. right. apply in_app_iff. right. left. reflexivity. }
  assert (New : learnt = false ->
                forall T Tq, (forall l, In l Tq -> In l (trail s)) -> watch_ok T Tq ps).
  { intros Hf T Tq Sub w Hww Hn. destruct (Hor Hf) as (_ & _ & Nf). exfalso.
    apply (Nf w).
    - destruct Hww as [Hww|Hww]; eapply nth_error_In; eauto.
    - apply Sub. exact Hn. }
  assert (HWF : WF s').
  { constructor.
    - apply (WFa_cong (s := s)); auto; congruence.
    - apply (WFt_cong (s := s)); auto; congruence.
    - constructor.
      + intros x cx Ex. rewrite Fca, Esz. destruct (Z.eq_dec x cr) as [->|N].
        * rewrite M2 in Ex. inversion Ex; subst cx. simpl.
          pose proof (wf_arena_size Hm). unfold clauseWord32Size. destruct learnt; split; auto; lia.
        * destruct (wf_arena Hm x cx (M3 x cx Ex N)). unfold clauseWord32Size.
          destruct learnt; split; auto; lia.
      + rewrite Fca. pose proof (wf_arena_size Hm). unfold clauseWord32Size in *.
        destruct learnt; lia.
      + intros x I. rewrite Fle, Sle in I. destruct learnt.
        * apply in_app_iff in I. destruct I as [I|[<-|[]]].
          -- destruct (wf_learnts Hm x I) as (cx & Ex & Lx). eauto.
          -- eexists. split; [exact M2|reflexivity].
        * destruct (wf_learnts Hm x I) as (cx & Ex & Lx). eauto.
      + intros x I. destruct (Cl x I) as [I'|[Hf ->]].
        * destruct (wf_orig Hm x I') as (cx & Ex & Lx). eauto.
        * eexists. split; [exact M2|]. simpl. exact Hf.
    - constructor.
      + rewrite Ev, <- (wf_watches_len Hw).
        apply same_shape_length. intros i. rewrite W.
        destruct (nth_error (watches s) i); split; intros; congruence.
      + intros i l' w Hn Hi. destruct (Wnew i l' w Hn Hi) as [(l & Hn0 & Hi0)|[Q _]].
        * pose proof (wf_watch_dom Hw i l w Hn0 Hi0) as X.
          destruct (ca_mem (ca s) (cref w)) as [cx|] eqn:Ex; [|congruence].
          rewrite (M1 _ _ Ex). discriminate.
        * rewrite Q, M2. discriminate.
      + intros x I. destruct (Cl x I) as [I'|[Hf ->]].
        * destruct (wf_clauses Hw x I') as (cx & a0 & a1 & rr & Ex & Mk & Lx & ND & Val & W0 & W1).
          exists cx, a0, a1, rr. rewrite Ev. splits; auto.
        * destruct (Hor Hf) as (ND & Val & _).
          eexists _, c0, c1, r. rewrite Ev. splits; [exact M2| | | | | |]; simpl; auto.
          discriminate.
      + intros i l' w Hn Hi Hc. destruct (Wnew i l' w Hn Hi) as [(l & Hn0 & Hi0)|[Q Hb]].
        * destruct (Cl _ Hc) as [I'|[Hf Q]].
          -- destruct (wf_blockers Hw i l w Hn0 Hi0 I') as (cx & Ex & Bx). eauto.
          -- exfalso. pose proof (wf_watch_dom Hw i l w Hn0 Hi0) as X.
             destruct (ca_mem (ca s) (cref w)) as [cx|] eqn:Ex; [|congruence].
             apply (Old _ _ Ex). exact Q.
        * rewrite Q. eexists. split; [exact M2|]. exact Hb.
    - intros b x ls Hb Hc Hl. rewrite Ftl, Stl in Hb. rewrite Ftr, Str.
      destruct (Cl x Hc) as [I'|[Hf ->]].
      + apply (Hq b x ls); auto. apply Lits; auto.
        destruct (wf_orig Hm x I') as (cx & Ex & _). eapply Old; eauto.
      + destruct Hl as (cx & Ex & <-). rewrite M2 in Ex. inversion Ex; subst cx. simpl.
        apply New; auto. intros l. apply In_firstn. }
  splits; auto; try congruence.
  - intros Hcur x ls Hc Hl. rewrite Ftr, Str, Fqh, Sqh.
    destruct (Cl x Hc) as [I'|[Hf ->]].
    + apply (Hcur x ls); auto. apply Lits; auto.
      destruct (wf_orig Hm x I') as (cx & Ex & _). eapply Old; eauto.
    + destruct Hl as (cx & Ex & <-). rewrite M2 in Ex. inversion Ex; subst cx. simpl.
      apply New; auto. intros l. apply In_firstn.
  - constructor.
    + intros l. unfold root. rewrite Ftr, Str, Ftl, Stl. auto.
    + intros x ls Hc Hl. exists x, ls. splits; auto.
      * rewrite Fcl, Scl. destruct learnt; auto. apply in_app_iff. auto.
      * destruct Hl as (cx & Ex & Lx). exists cx. split; auto.
    + rewrite Ev. lia.
Qed.

Lemma ext_cong (s s' : Solver D) :
  core_eq s s' -> clauses s' = clauses s -> trail s' = trail s ->
  trail_lim s' = trail_lim s -> length (vardata s') = length (vardata s) -> ext s s'.
Proof.
  intros V Ec Et El En. constructor.
  - intros l. rewrite (root_cong Et El). auto.
  - intros cr ls Hc Hl. exists cr, ls. rewrite Ec. splits; auto.
    apply (core_lits_at V). exact Hl.
  - unfold nVars. rewrite En. lia.
Qed.

Lemma ext_same_db (s s' : Solver D) : same_db s s' -> root s' = root s -> ext s s'.
Proof.
  intros B R. constructor.
  - intros l. rewrite R. auto.
  - intros cr ls Hc Hl. exists cr, ls. rewrite (sd_clauses B). splits; auto.
    unfold lits_at. rewrite (sd_ca B). exact Hl.
  - unfold nVars. rewrite (sd_vardata B). lia.
Qed.

Lemma veq_ext (s s' : Solver D) : veq s s' -> ext s s'.
Proof.
  intros V. apply (ext_cong s s' (veq_core V) (veq_clauses V) (veq_trail V)
                     (veq_trail_lim V) (veq_nvars V)).
Qed.

Lemma CUR_enqueued (s : Solver D) q from :
  (qhead s <= length (trail s))%nat -> CUR s -> CUR (enqueued s q from).
Proof.
  intros Hq Hcur cr ls Hc Hl w Hw Hn. simpl in *. rewrite firstn_app_le in Hn by exact Hq.
  destruct (Hcur cr ls Hc Hl w Hw Hn) as (l & I1 & I2). exists l. split; auto.
  apply in_app_iff. auto.
Qed.

Lemma ext_enqueued (s : Solver D) q from : WFt s -> ext s (enqueued s q from).
Proof.
  intros Ht. constructor.
  - intros l. unfold root. simpl. destruct (trail_lim s) as [|b tl] eqn:E; simpl.
    + rewrite !firstn_all. intros I. apply in_app_iff. auto.
    + rewrite firstn_app_le; auto.
      pose proof (wf_lim_qhead Ht b) as X. rewrite E in X. specialize (X (or_introl eq_refl)).
      pose proof (wf_qhead Ht). lia.
  - intros cr ls Hc Hl. exists cr, ls. auto.
  - unfold nVars. simpl. rewrite length_upd. lia.
Qed.

Lemma core_put_lbd (a : ClauseAllocator D) cr c x cr' :
  ca_mem a cr = Some c ->
  option_map cl_core (ca_mem (ca_put a cr (set_cl_lbd c x)) cr')
  = option_map cl_core (ca_mem a cr').
Proof.
  intros E. simpl. destruct (Z.eqb_spec cr' cr) as [->|N]; [|reflexivity].
  rewrite E. reflexivity.
Qed.

(** After a conflict above level 0 that [search] handles, the invariants
    hold and every original clause has its watches in order. *)
Lemma search_conflict_inv (s : Solver D) confl s' :
  WF s -> search_conflict s confl = Ok s' ->
  WF s' /\ CUR s' /\ ext s s' /\ ok s' = ok s.
Proof.
  intros Hwf H. unfold search_conflict in H.
  set (s1 := set_trailQueue s (bq_push (trailQueue s) (Z.of_nat (length (trail s))))) in *.
  match type of H with context [analyze ?X confl] => set (s2 := X) in * end.
  assert (V2 : veq s s2).
  { unfold s2. match goal with |- context [if ?b then _ else _] => destruct b end;
      constructor; intros; reflexivity. }
  apply bind_Ok in H. destruct H as ([[[s3 learnt] bt] lbd] & Ean & H).
  apply analyze_veq in Ean. destruct Ean as (V3 & p & Ip & Hp).
  set (s4 := set_sumLBD (set_lbdQueue s3 (bq_push (lbdQueue s3) lbd))
                        (d_add (sumLBD s3) (d_of_Z lbd))) in *.
  assert (V4 : veq s s4).
  { eapply veq_trans; [exact V2|]. eapply veq_trans; [exact V3|].
    constructor; intros; reflexivity. }
  pose proof (veq_WF V4 Hwf) as Hwf4.
  apply bind_Ok in H. destruct H as (s5 & Ecu & H).
  apply (cancelUntil_inv s4 bt s5 Hwf4) in Ecu. destruct Ecu as [Cno Cyes].
  apply bind_Ok in H. destruct H as (l0 & El0 & H). apply get_Ok in El0.
  rewrite Hp in El0. inversion El0; subst l0. clear El0.
  apply bind_Ok in H. destruct H as (s6 & E6 & H). inversion H; subst s'. clear H.
  assert (Vd : veq s6 (claDecayActivity (varDecayActivity s6))).
  { constructor; intros; reflexivity. }
  assert (Hfalse : value s4 (neg p) = Ok l_False).
  { assert (I4 : In p (trail s4)) by (rewrite (veq_trail V4), <- (veq_trail V2); exact Ip).
    apply (wf_trail_true (wf_a Hwf4)) in I4. apply value_neg in I4. exact I4. }
  assert (G : WF s5 /\ CUR s5 /\ ext s s5 /\ ok s5 = ok s ->
              WF s6 /\ CUR s6 /\ ext s s6 /\ ok s6 = ok s).
  { intros (W5 & C5 & X5 & O5).
    destruct (length learnt =? 1)%nat.
    - apply uncheckedEnqueue_Ok in E6. destruct E6 as (Hu & _ & _ & ->).
      fold (enqueued s5 (neg p) CRef_Undef). splits.
      + apply WF_enqueued; auto.
      + apply CUR_enqueued; auto. apply (wf_qhead (wf_t W5)).
      + eapply ext_trans; [exact X5|]. apply ext_enqueued. apply (wf_t W5).
      + exact O5.
    - apply bind_Ok in E6. destruct E6 as ([cr a] & Eal & E6).
      apply bind_Ok in E6. destruct E6 as (t2 & Eat & E6).
      apply bind_Ok in E6. destruct E6 as (t3 & Ebu & E6). apply claBumpActivity_veq in Ebu.
      apply bind_Ok in E6. destruct E6 as (t4 & Eun & E6).
      apply bind_Ok in E6. destruct E6 as (c & Ec & E6). apply ca_get_Ok in Ec.
      inversion E6; subst s6. clear E6.
      destruct (WF_add_clause s5 learnt true cr a t2 W5 Eal Eat) as (W2 & C2 & X2 & O2 & _).
      { discriminate. }
      pose proof (veq_WF Ebu W2) as W3.
      apply uncheckedEnqueue_Ok in Eun. destruct Eun as (Hu & _ & _ & ->).
      fold (enqueued t3 (neg p) cr) in *.
      assert (V6 : veq (enqueued t3 (neg p) cr)
                       (set_ca (enqueued t3 (neg p) cr)
                          (ca_put (ca (enqueued t3 (neg p) cr)) cr (set_cl_lbd c lbd)))).
      { constructor; try reflexivity. intros x. unfold core. simpl ca.
        apply core_put_lbd. exact Ec. }
      splits.
      + apply (veq_WF V6). apply WF_enqueued; auto.
      + apply (veq_CUR V6). apply CUR_enqueued; [apply (wf_qhead (wf_t W3))|].
        apply (veq_CUR Ebu). apply C2. exact C5.
      + eapply ext_trans; [exact X5|]. eapply ext_trans; [exact X2|].
        eapply ext_trans; [apply veq_ext; exact Ebu|].
        eapply ext_trans; [apply ext_enqueued; apply (wf_t W3)|]. apply veq_ext. exact V6.
      + simpl. rewrite (veq_ok Ebu), O2. exact O5. }
  assert (Hu : value s5 (neg p) = Ok l_Undef).
  { destruct (length learnt =? 1)%nat.
    - apply uncheckedEnqueue_Ok in E6. tauto.
    - apply bind_Ok in E6. destruct E6 as ([cr a] & Eal & E6).
      apply bind_Ok in E6. destruct E6 as (t2 & Eat & E6).
      apply bind_Ok in E6. destruct E6 as (t3 & Ebu & E6). apply claBumpActivity_veq in Ebu.
      apply bind_Ok in E6. destruct E6 as (t4 & Eun & E6).
      apply uncheckedEnqueue_Ok in Eun. destruct Eun as (Hu & _).
      apply attachClause_Ok in Eat.
      destruct Eat as (c & c0 & c1 & r & _ & _ & _ & _ & _ & _ & _ & F).
      destruct F as (_ & _ & _ & _ & Fas & _).
      rewrite <- Hu. apply value_assigns. rewrite (veq_assigns Ebu), Fas. reflexivity. }
  destruct (Nat.ltb_spec bt (decisionLevel s4)) as [L|L].
  - destruct (Cyes L) as (W5 & C5 & R5 & B5 & _).
    destruct G as (W6 & C6 & X6 & O6).
    + splits; auto.
      * eapply ext_trans; [apply veq_ext; exact V4|]. apply ext_same_db; auto.
      * rewrite (sd_ok B5). apply (veq_ok V4).
    + splits.
      * apply (veq_WF Vd W6).
      * apply (veq_CUR Vd C6).
      * eapply ext_trans; [exact X6|]. apply veq_ext. exact Vd.
      * exact O6.
  - exfalso. rewrite (Cno L) in Hu. congruence.
Qed.

End Conflict.

(** * Entering the formula: [newVar] and [addClause_] *)

Section Input.
Context {D : Type} {FO : FloatOps D}.

Lemma WF_new : WF (Solver_new (D := D)).
Proof.
  constructor.
  - constructor; simpl; auto.
    + intros l [].
    + intros l H. apply value_Ok in H. destruct H as (_ & a & E & _).
      destruct (var l); discriminate.
    + constructor.
    + intros x H. destruct x; discriminate.
  - constructor; simpl; auto. constructor. intros b [].
  - constructor; simpl.
    + intros cr c H. discriminate.
    + unfold CRef_Undef. lia.
    + intros cr [].
    + intros cr [].
  - constructor; simpl; auto.
    + intros i ws w H. destruct i; discriminate.
    + intros cr [].
    + intros i ws w H. destruct i; discriminate.
  - intros b cr ls [].
Qed.

Lemma CUR_new : CUR (Solver_new (D := D)).
Proof. intros cr ls []. Qed.

Lemma nth_error_push {A} (l : list A) x i :
  nth_error (Vec.push l x) i =
  if (i <? length l)%nat then nth_error l i
  else if (i =? length l)%nat then Some x else None.
Proof.
  unfold Vec.push. destruct (Nat.ltb_spec i (length l)).
  - apply nth_error_app1. auto.
  - rewrite nth_error_app2 by auto. destruct (Nat.eqb_spec i (length l)) as [->|N].
    + rewrite Nat.sub_diag. reflexivity.
    + destruct (i - length l)%nat eqn:E; [lia|]. simpl. destruct n; reflexivity.
Qed.

Lemma insertVarOrder_same {A} (f : Solver D -> A) (t : Solver D) v :
  (forall h, f (set_order_heap t h) = f t) -> f (insertVarOrder t v) = f t.
Proof. intros H. unfold insertVarOrder. destruct (heap_inHeap _ _); auto. Qed.

Lemma newVar_field0 {A} (f : Solver D -> A) (s : Solver D) sgn :
  (forall t x, f (set_levelTagged t x) = f t) ->
  (forall t x, f (set_trail_cap t x) = f t) ->
  f (snd (newVar s sgn)) = f (insertVarOrder (newVar_pre s sgn) (nVars s)).
Proof.
  intros H1 H2. unfold newVar, newVar_pre. cbv zeta. cbv beta iota delta [snd].
  rewrite H1, H2. reflexivity.
Qed.

Lemma newVar_field {A} (f : Solver D -> A) (s : Solver D) sgn :
  (forall t x, f (set_levelTagged t x) = f t) ->
  (forall t x, f (set_trail_cap t x) = f t) ->
  (forall t x, f (set_order_heap t x) = f t) ->
  f (snd (newVar s sgn)) = f (newVar_pre s sgn).
Proof.
  intros H1 H2 H3. rewrite newVar_field0 by assumption.
  apply insertVarOrder_same. exact (fun h => H3 _ h).
Qed.

Lemma newVar_heap (s : Solver D) sgn x :
  In x (order_heap (snd (newVar s sgn))) <-> In x (order_heap s) \/ x = nVars s.
Proof.
  rewrite (newVar_field0 order_heap) by reflexivity.
  rewrite insertVarOrder_In. reflexivity.
Qed.

(** The fields of the state after [newVar]. *)
Lemma newVar_fields (s : Solver D) sgn :
  fst (newVar s sgn) = nVars s
  /\ vardata (snd (newVar s sgn)) = Vec.push (vardata s) (mkVarData CRef_Undef 0)
  /\ assigns (snd (newVar s sgn)) = Vec.push (assigns s) l_Undef
  /\ polarity (snd (newVar s sgn)) = Vec.push (polarity s) sgn
  /\ watches (snd (newVar s sgn))
     = occ_init (occ_init (watches s) (mkLit (nVars s) false)) (mkLit (nVars s) true)
  /\ (forall x, In x (order_heap (snd (newVar s sgn))) <-> In x (order_heap s) \/ x = nVars s)
  /\ trail (snd (newVar s sgn)) = trail s
  /\ trail_lim (snd (newVar s sgn)) = trail_lim s
  /\ qhead (snd (newVar s sgn)) = qhead s
  /\ ca (snd (newVar s sgn)) = ca s
  /\ clauses (snd (newVar s sgn)) = clauses s
  /\ learnts (snd (newVar s sgn)) = learnts s
  /\ ok (snd (newVar s sgn)) = ok s.
Proof.
  splits; try reflexivity;
    try (rewrite newVar_field by (intros; reflexivity); reflexivity).
  apply newVar_heap.
Qed.

Lemma occ_init_newVar (ws : OccLists) (v : nat) :
  length ws = (2 * v)%nat ->
  occ_init (occ_init ws (mkLit v false)) (mkLit v true) = ws ++ [[]; []].
Proof.
  intros L. unfold occ_init, Vec.growTo, mkLit.
  replace (Z.to_nat (2 * Z.of_nat v + 0)) with (2 * v)%nat by lia.
  replace (Z.to_nat (2 * Z.of_nat v + 1)) with (2 * v + 1)%nat by lia.
  rewrite length_app, repeat_length.
  replace (S (2 * v) - length ws)%nat with 1%nat by lia.
  replace (S (2 * v + 1) - (length ws + 1))%nat with 1%nat by lia.
  simpl. rewrite <- app_assoc. reflexivity.
Qed.

Lemma nth_error_app_Some {A} (l l' : list A) i x :
  nth_error l i = Some x -> nth_error (l ++ l') i = Some x.
Proof.
  intros H. rewrite nth_error_app1; auto. apply nth_error_Some. congruence.
Qed.

(** [newVar] keeps the invariants. *)
Lemma WF_newVar (s : Solver D) sgn :
  WF s ->
  WF (snd (newVar s sgn))
  /\ (CUR s -> CUR (snd (newVar s sgn)))
  /\ ext s (snd (newVar s sgn))
  /\ nVars (snd (newVar s sgn)) = S (nVars s).
Proof.
  intros [Ha Ht Hm Hw Hq].
  destruct (newVar_fields s sgn)
    as (_ & Fvd & Fas & Fpo & Fwa & Fhe & Ftr & Ftl & Fqh & Fca & Fcl & Fle & Fok).
  set (s' := snd (newVar s sgn)) in *.
  rewrite (occ_init_newVar _ _ (wf_watches_len Hw)) in Fwa.
  assert (En : nVars s' = S (nVars s)).
  { unfold nVars. rewrite Fvd. unfold Vec.push. rewrite length_app. simpl. lia. }
  assert (Val : forall l, value s l = Ok l_True -> value s' l = Ok l_True).
  { intros l H. apply value_True_iff in H. destruct H as [H0 H]. apply value_True_iff.
    split; auto. rewrite Fas. apply nth_error_app_Some. exact H. }
  assert (HWs : forall q x, has_watcher s q x -> has_watcher s' q x).
  { intros q x (l & w & Hn & Hi & Hx). exists l, w. rewrite Fwa. splits; auto.
    apply nth_error_app_Some. exact Hn. }
  assert (Wold : forall i l w, nth_error (watches s') i = Some l -> In w l ->
                   nth_error (watches s) i = Some l).
  { intros i l w Hn Hi. rewrite Fwa in Hn. destruct (Nat.ltb_spec i (length (watches s))).
    - rewrite nth_error_app1 in Hn; auto.
    - rewrite nth_error_app2 in Hn by auto.
      destruct (i - length (watches s))%nat as [|[|k]]; simpl in Hn.
      + inversion Hn; subst. destruct Hi.
      + inversion Hn; subst. destruct Hi.
      + destruct k; discriminate. }
  splits; auto.
  - constructor.
    + constructor.
      * rewrite En, Fas. unfold Vec.push. rewrite length_app. simpl.
        rewrite (wf_assigns_len Ha). lia.
      * intros l I. rewrite Ftr in I. apply Val. apply (wf_trail_true Ha). exact I.
      * intros l H. rewrite Ftr. apply (wf_true_trail Ha).
        apply value_True_iff in H. destruct H as [H0 H]. apply value_True_iff. split; auto.
        rewrite Fas, nth_error_push in H.
        destruct (var l <? length (assigns s))%nat; auto.
        destruct (var l =? length (assigns s))%nat; [|discriminate].
        inversion H. destruct (sign l); discriminate.
      * rewrite Ftr. apply (wf_trail_nodup Ha).
      * intros x H. apply Fhe. rewrite Fas, nth_error_push in H.
        destruct (Nat.ltb_spec x (length (assigns s))).
        -- left. apply (wf_heap Ha). exact H.
        -- destruct (Nat.eqb_spec x (length (assigns s))); [|discriminate].
           right. rewrite <- (wf_assigns_len Ha). auto.
    + apply (WFt_cong (s := s)); auto. rewrite Ftr. reflexivity.
    + destruct Hm as [M1 M2 M3 M4]. constructor; rewrite ?Fca, ?Fle, ?Fcl; auto.
    + constructor.
      * rewrite En, Fwa, length_app, (wf_watches_len Hw). simpl. lia.
      * intros i l w Hn Hi. rewrite Fca. apply (wf_watch_dom Hw i l w); auto.
        eapply Wold; eauto.
      * intros x I. rewrite Fcl in I.
        destruct (wf_clauses Hw x I) as (cx & a0 & a1 & rr & Ex & Mk & Lx & ND & Vl & W0 & W1).
        exists cx, a0, a1, rr. rewrite Fca, En. splits; auto.
        intros l Il. destruct (Vl l Il). split; auto.
      * intros i l w Hn Hi Hc. rewrite Fca. rewrite Fcl in Hc.
        apply (wf_blockers Hw i l w); auto. eapply Wold; eauto.
    + intros b x ls Hb Hc Hl. rewrite Ftr. rewrite Ftl in Hb. rewrite Fcl in Hc.
      unfold lits_at in Hl. rewrite Fca in Hl. apply (Hq b x ls); auto.
  - intros Hcur x ls Hc Hl. rewrite Ftr, Fqh. rewrite Fcl in Hc.
    unfold lits_at in Hl. rewrite Fca in Hl. apply (Hcur x ls); auto.
  - constructor.
    + intros l. unfold root. rewrite Ftr, Ftl. auto.
    + intros x ls Hc Hl. exists x, ls. rewrite Fcl. splits; auto.
      unfold lits_at. rewrite Fca. exact Hl.
    + lia.
Qed.

Lemma WF_same (s s' : Solver D) :
  ca s' = ca s -> clauses s' = clauses s -> learnts s' = learnts s ->
  watches s' = watches s -> assigns s' = assigns s -> trail s' = trail s ->
  trail_lim s' = trail_lim s -> qhead s' = qhead s -> order_heap s' = order_heap s ->
  vardata s' = vardata s -> WF s -> WF s'.
Proof.
  intros E1 E2 E3 E4 E5 E6 E7 E8 E9 E10 [Ha Ht Hm Hw Hq].
  assert (V : core_eq s s') by (apply core_eq_refl; exact E1).
  assert (Ev : length (vardata s') = length (vardata s)) by (rewrite E10; reflexivity).
  constructor.
  - apply (WFa_cong (s := s)); auto.
  - apply (WFt_cong (s := s)); auto. rewrite E6. reflexivity.
  - apply (WFm_cong (s := s)); auto. rewrite E1. reflexivity.
  - apply (WFw_cong (s := s)); auto.
  - apply (PF_cong (s := s)); auto.
Qed.

Lemma CUR_same (s s' : Solver D) :
  ca s' = ca s -> clauses s' = clauses s -> trail s' = trail s -> qhead s' = qhead s ->
  CUR s -> CUR s'.
Proof.
  intros E1 E2 E3 E4. apply CUR_cong; auto. apply core_eq_refl. exact E1.
Qed.

Lemma pframe_ext (s s' : Solver D) : WFt s -> pframe s s' -> ext s s'.
Proof.
  intros Ht [A1 A2 A3 A4 (e & A5) A6 A7]. constructor.
  - intros l. unfold root. rewrite A4, A5. destruct (trail_lim s) as [|b tl] eqn:E; simpl.
    + rewrite !firstn_all. intros I. apply in_app_iff. auto.
    + rewrite firstn_app_le; auto.
      pose proof (wf_lim_qhead Ht b) as X. rewrite E in X. specialize (X (or_introl eq_refl)).
      pose proof (wf_qhead Ht). lia.
  - intros cr ls Hc Hl. destruct (A7 cr ls Hl) as (ls' & Hl' & Pm).
    exists cr, ls'. rewrite A2. auto.
  - unfold nVars. rewrite A6. lia.
Qed.

Lemma clean_true (s : Solver D) : forall qs p kept k',
  clean s p qs kept = Ok (true, k') ->
  (exists q, In q qs /\ value s q = Ok l_True)
  \/ (In (neg p) qs /\ 0 <= neg p)
  \/ (exists l v, In l qs /\ In (neg l) qs /\ value s l = Ok v).
Proof.
  induction qs as [|q t IH]; intros p kept k' H; cbn [clean] in H; [discriminate|].
  apply bind_Ok in H. destruct H as (v & Ev & H).
  destruct (lbool_eqb v l_True) eqn:Et.
  { apply lbool_eqb_eq in Et. subst v. left. exists q. split; [left; reflexivity|exact Ev]. }
  destruct (Z.eqb_spec q (neg p)) as [Q|N].
  { right. left. rewrite <- Q. split; [left; reflexivity|]. eapply value_nonneg; eauto. }
  cbn [orb] in H.
  destruct (negb (lbool_eqb v l_False) && negb (q =? p)).
  - apply IH in H. destruct H as [(x & I & V)|[(I & _)|(l & w & I1 & I2 & V)]].
    + left. exists x. split; [right; exact I|exact V].
    + right. right. exists q, v. splits; [left; reflexivity|right; exact I|exact Ev].
    + right. right. exists l, w. splits; [right; exact I1|right; exact I2|exact V].
  - apply IH in H. destruct H as [(x & I & V)|[(I & I0)|(l & w & I1 & I2 & V)]].
    + left. exists x. split; [right; exact I|exact V].
    + right. left. split; [right; exact I|exact I0].
    + right. right. exists l, w. splits; [right; exact I1|right; exact I2|exact V].
Qed.

Lemma root_level0 (s : Solver D) : trail_lim s = [] -> root s = trail s.
Proof. intros E. unfold root. rewrite E. simpl. apply firstn_all. Qed.

Lemma sorted_lt_NoDup (l : list Z) : StronglySorted Z.lt l -> NoDup l.
Proof.
  induction l as [|a l IH]; intros H; constructor; inversion H as [|? ? Hs Hf]; subst; auto.
  rewrite Forall_forall in Hf. intros I. apply Hf in I. lia.
Qed.

(** [addClause_] keeps the invariants as long as the solver is not in
    conflict, and the clause given is accounted for. *)
Lemma addClause_inv (s : Solver D) ps b ps' s' :
  WF s -> CUR s -> addClause_ s ps = Ok (b, ps', s') ->
  ext s s' /\ decisionLevel s' = O
  /\ (ok s = true -> ok s' = b)
  /\ (ok s = false -> ok s' = false)
  /\ (ok s' = true -> WF s' /\ CUR s' /\ accounted s' ps).
Proof.
  intros Hwf Hcur H. apply addClause_cases in H. destruct H as (Hlv & H).
  assert (Htl : trail_lim s = []).
  { unfold decisionLevel in Hlv. destruct (trail_lim s); [reflexivity|discriminate]. }
  destruct H as [(Hok & -> & -> & ->)|(Hok & b0 & kept & Ec & H)].
  { splits; auto; try congruence; try discriminate. apply ext_refl. }
  assert (Hrange : forall l v, value s l = Ok v -> 0 <= l /\ (var l < nVars s)%nat).
  { intros l v Hv. apply value_Ok in Hv. destruct Hv as (H0 & a & E & _). split; auto.
    rewrite <- (wf_assigns_len (wf_a Hwf)). apply nth_error_Some. congruence. }
  destruct H as [(-> & -> & -> & ->)|(-> & -> & H)].
  - splits; auto; try congruence; [apply ext_refl|]. intros _. splits; auto.
    apply clean_true in Ec.
    destruct Ec as [(q & I & V)|[(I & I0)|(l & v & I1 & I2 & V)]].
    + left. exists q. split; [apply sort_In; exact I|].
      rewrite (root_level0 s Htl). apply (wf_true_trail (wf_a Hwf)). exact V.
    + exfalso. vm_compute in I0. congruence.
    + right. right. exists l. destruct (Hrange l v V).
      splits; auto; apply sort_In; auto.
  - destruct (@clean_false _ s (sort ps) lit_Undef [] kept)
      as (new & En & Hs & Hlt & Hin & Hv & _); auto.
    { apply sort_sorted. }
    { intros q Hq. apply (clean_false_nonneg s _ _ _ _ Ec) in Hq. unfold lit_Undef. lia. }
    simpl in En. subst new.
    assert (Hk : forall l, In l kept -> In l ps /\ value s l = Ok l_Undef).
    { intros l I. apply Hin in I. destruct I as (I & V & _). split; auto. apply sort_In; auto. }
    destruct H as [(-> & -> & ->)|[(l & s1 & confl & s2 & -> & Eu & Ep & -> & ->)
                                   |(cr & a & Hlen & -> & Ea & Eat)]].
    + splits; simpl; auto; try discriminate.
      apply ext_cong; try reflexivity. apply core_eq_refl. reflexivity.
    + apply uncheckedEnqueue_Ok in Eu. destruct Eu as (Vl & _ & _ & Es1).
      change (s1 = enqueued s l CRef_Undef) in Es1. subst s1.
      assert (W1 : WF (enqueued s l CRef_Undef)) by (apply WF_enqueued; auto).
      assert (C1 : CUR (enqueued s l CRef_Undef)).
      { apply CUR_enqueued; auto. apply (wf_qhead (wf_t Hwf)). }
      destruct (propagate_inv _ _ _ W1 C1 Ep) as (W2 & C2 & Q2 & F2 & _).
      assert (X2 : ext s s2).
      { apply (ext_trans s (enqueued s l CRef_Undef) s2).
        - apply ext_enqueued. apply (wf_t Hwf).
        - apply pframe_ext; [apply (wf_t W1)|exact F2]. }
      splits.
      * apply (ext_trans s s2 _); [exact X2|]. apply ext_cong; try reflexivity. apply core_eq_refl. reflexivity.
      * unfold decisionLevel. simpl. rewrite (pf_trail_lim F2). simpl. rewrite Htl. reflexivity.
      * reflexivity.
      * congruence.
      * simpl. intros Eb. apply Z.eqb_eq in Eb. rewrite Eb. simpl.
        splits.
        -- eapply WF_same; [..|exact W2]; reflexivity.
        -- eapply CUR_same; [..|exact (C2 Eb)]; reflexivity.
        -- left. exists l. split; [apply Hk; left; reflexivity|].
           rewrite root_level0 by (simpl; rewrite (pf_trail_lim F2); simpl; exact Htl).
           simpl. destruct (pf_trail F2) as (e & ->). simpl.
           apply in_app_iff. left. apply in_app_iff. right. left. reflexivity.
    + destruct (WF_add_clause s kept false cr a s' Hwf Ea Eat)
        as (W & C & X & Eok & _ & _ & Etl & _ & _ & _ & Ecl & Eca).
      { intros _. splits.
        - apply sorted_lt_NoDup. exact Hs.
        - intros l I. destruct (Hk l I) as (_ & V). apply (Hrange l _ V).
        - intros l I J. destruct (Hk l I) as (_ & V).
          apply (wf_trail_true (wf_a Hwf)) in J. apply value_neg in J.
          rewrite neg_neg in J. rewrite V in J. discriminate. }
      splits; auto.
      * unfold decisionLevel. rewrite Etl, Htl. reflexivity.
      * congruence.
      * congruence.
      * intros _. splits; auto. right. left. exists cr, kept. splits.
        -- rewrite Ecl. apply in_app_iff. right. left. reflexivity.
        -- apply ca_alloc_Ok in Ea. destruct Ea as (_ & _ & _ & Em & _).
           unfold lits_at. rewrite Eca. eexists. split; [exact Em|reflexivity].
        -- intros l I. apply Hk. exact I.
Qed.

End Input.

(** * Decisions *)

Section Decide.
Context {D : Type} {FO : FloatOps D}.

Lemma sorted_le_snoc (l : list nat) (x : nat) :
  StronglySorted le l -> (forall b, In b l -> (b <= x)%nat) -> StronglySorted le (l ++ [x]).
Proof.
  induction l as [|a l IH]; intros Hs Hb; simpl.
  - constructor; constructor.
  - inversion Hs as [|? ? Hs' Hf]; subst. constructor.
    + apply IH; auto. intros b I. apply Hb. right. exact I.
    + apply Forall_app. split; auto. constructor; [|constructor]. apply Hb. left. reflexivity.
Qed.

(** A new decision level opens once propagation is complete. *)
Lemma WF_newDecisionLevel (s : Solver D) :
  WF s -> CUR s -> qhead s = length (trail s) ->
  WF (newDecisionLevel s) /\ CUR (newDecisionLevel s)
  /\ root (newDecisionLevel s) = root s /\ same_db s (newDecisionLevel s).
Proof.
  intros [Ha Ht Hm Hw Hp] Hc Hq.
  assert (V : core_eq s (newDecisionLevel s)) by (apply core_eq_refl; reflexivity).
  splits.
  - constructor.
    + apply (WFa_cong (s := s)); auto.
    + destruct Ht as [T1 T2 T3]. constructor; unfold newDecisionLevel, Vec.push; simpl.
      * apply sorted_le_snoc; auto. intros b I. rewrite <- Hq. apply T2. exact I.
      * intros b I. apply in_app_iff in I. destruct I as [I|[<-|[]]]; [apply T2; exact I|lia].
      * exact T3.
    + apply (WFm_cong (s := s)); auto.
    + apply (WFw_cong (s := s)); auto.
    + intros b cr ls Ib Ic Hl. unfold newDecisionLevel, Vec.push in Ib. simpl in Ib.
      apply in_app_iff in Ib. destruct Ib as [Ib|[<-|[]]].
      * apply (Hp b cr ls Ib Ic Hl).
      * simpl. rewrite firstn_all. specialize (Hc cr ls Ic Hl).
        rewrite Hq, firstn_all in Hc. exact Hc.
  - apply (CUR_cong (s := s)); auto.
  - unfold root, newDecisionLevel, Vec.push. simpl.
    destruct (trail_lim s); simpl; [rewrite firstn_all; reflexivity|reflexivity].
  - constructor; reflexivity.
Qed.

End Decide.

(** * Removing learnt clauses *)

Section Reduce.
Context {D : Type} {FO : FloatOps D}.

(** A change of the arena away from the original clauses. *)
Lemma WF_offclause (s s' : Solver D) :
  WF s ->
  (forall cr, In cr (clauses s) -> ca_mem (ca s') cr = ca_mem (ca s) cr) ->
  (forall cr c, ca_mem (ca s) cr = Some c ->
     exists c', ca_mem (ca s') cr = Some c'
                /\ cl_learnt c' = cl_learnt c /\ cl_reloced c' = cl_reloced c) ->
  (forall cr, ca_mem (ca s) cr = None -> ca_mem (ca s') cr = None) ->
  ca_size (ca s') = ca_size (ca s) ->
  watches s' = watches s -> clauses s' = clauses s ->
  (forall x, In x (learnts s') -> In x (learnts s)) ->
  assigns s' = assigns s -> trail s' = trail s -> trail_lim s' = trail_lim s ->
  qhead s' = qhead s -> order_heap s' = order_heap s ->
  length (vardata s') = length (vardata s) ->
  WF s' /\ (CUR s -> CUR s') /\ ext s s'.
Proof.
  intros [Ha Ht Hm Hw Hp] Hcl Hdom Hnone Hsz Ew Ec El Ea Etr Etl Eq Eh En.
  assert (Hl : forall cr ls, In cr (clauses s) -> (lits_at s' cr ls <-> lits_at s cr ls)).
  { intros cr ls I. unfold lits_at. rewrite (Hcl cr I). reflexivity. }
  splits.
  - constructor.
    + apply (WFa_cong (s := s)); auto.
    + apply (WFt_cong (s := s)); auto. rewrite Etr. reflexivity.
    + destruct Hm as [M1 M2 M3 M4]. constructor.
      * intros cr c' E'. rewrite Hsz.
        destruct (ca_mem (ca s) cr) as [c|] eqn:E.
        -- destruct (Hdom cr c E) as (c2 & E2 & _ & R). rewrite E2 in E'. inversion E'; subst c2.
           destruct (M1 cr c E). split; auto. congruence.
        -- rewrite (Hnone cr E) in E'. discriminate.
      * rewrite Hsz. exact M2.
      * intros cr I. destruct (M3 cr (El cr I)) as (c & E & L).
        destruct (Hdom cr c E) as (c' & E' & L' & _). exists c'. split; auto. congruence.
      * rewrite Ec. intros cr I. destruct (M4 cr I) as (c & E & L). exists c.
        rewrite (Hcl cr I). auto.
    + destruct Hw as [W1 W2 W3 W4]. constructor.
      * unfold nVars. rewrite Ew, En. exact W1.
      * rewrite Ew. intros i ws w Hn Hi. specialize (W2 i ws w Hn Hi).
        destruct (ca_mem (ca s) (cref w)) as [c|] eqn:E; [|congruence].
        destruct (Hdom _ c E) as (c' & E' & _). congruence.
      * rewrite Ec. intros cr I.
        destruct (W3 cr I) as (c & c0 & c1 & rest & E & Mk & Ls & ND & Val & W0 & W1').
        exists c, c0, c1, rest. rewrite (Hcl cr I). unfold nVars. rewrite En.
        repeat split; auto; try (apply Val; auto);
          eapply has_watcher_cong; eauto.
      * rewrite Ew, Ec. intros i ws w Hn Hi I. rewrite (Hcl _ I). apply (W4 i ws w); auto.
    + intros b cr ls Ib Ic Hls. rewrite Etl in Ib. rewrite Ec in Ic. rewrite Etr.
      apply (Hp b cr ls Ib Ic). apply Hl; auto.
  - intros Hc cr ls Ic Hls. rewrite Ec in Ic. rewrite Etr, Eq.
    apply (Hc cr ls Ic). apply Hl; auto.
  - constructor.
    + intros l. unfold root. rewrite Etr, Etl. auto.
    + intros cr ls Ic Hls. exists cr, ls. rewrite Ec. splits; auto. apply Hl; auto.
    + unfold nVars. rewrite En. lia.
Qed.

Lemma detachClause_Ok (s : Solver D) cr s' :
  detachClause s cr = Ok s' ->
  watches s' = watches s /\ ca s' = ca s /\ clauses s' = clauses s /\ learnts s' = learnts s
  /\ assigns s' = assigns s /\ trail s' = trail s /\ trail_lim s' = trail_lim s
  /\ qhead s' = qhead s /\ order_heap s' = order_heap s /\ vardata s' = vardata s
  /\ ok s' = ok s.
Proof.
  unfold detachClause. intros H.
  apply bind_Ok in H. destruct H as (c & _ & H).
  apply bind_Ok in H. destruct H as (_ & _ & H).
  apply bind_Ok in H. destruct H as (c0 & _ & H).
  apply bind_Ok in H. destruct H as (c1 & _ & H).
  apply bind_Ok in H. destruct H as (w1 & E1 & H).
  apply bind_Ok in H. destruct H as (w2 & E2 & H).
  unfold occ_smudge in E1, E2.
  apply bind_Ok in E1. destruct E1 as (_ & _ & E1). inversion E1; subst w1.
  apply bind_Ok in E2. destruct E2 as (_ & _ & E2). inversion E2; subst w2.
  inversion H. destruct (cl_learnt c); repeat split; reflexivity.
Qed.

Lemma removeClause_Ok (s : Solver D) cr s' :
  removeClause s cr = Ok s' ->
  exists c,
    ca_mem (ca s) cr = Some c
    /\ ca_mem (ca s') cr = Some (set_cl_mark c 1)
    /\ (forall x, x <> cr -> ca_mem (ca s') x = ca_mem (ca s) x)
    /\ ca_size (ca s') = ca_size (ca s)
    /\ watches s' = watches s /\ clauses s' = clauses s /\ learnts s' = learnts s
    /\ assigns s' = assigns s /\ trail s' = trail s /\ trail_lim s' = trail_lim s
    /\ qhead s' = qhead s /\ order_heap s' = order_heap s
    /\ length (vardata s') = length (vardata s) /\ ok s' = ok s
    /\ (locked s cr c = Ok false -> vardata s' = vardata s).
Proof.
  unfold removeClause. intros H.
  apply bind_Ok in H. destruct H as (c & Ec & H). apply ca_get_Ok in Ec.
  apply bind_Ok in H. destruct H as (s1 & E1 & H).
  apply detachClause_Ok in E1.
  destruct E1 as (F1 & F2 & F3 & F4 & F5 & F6 & F7 & F8 & F9 & F10 & F11).
  apply bind_Ok in H. destruct H as (lk & Elk & H).
  assert (Elk' : locked s cr c = Ok lk).
  { rewrite <- Elk. unfold locked, value, reason. rewrite F5, F10. reflexivity. }
  apply bind_Ok in H. destruct H as (s2 & E2 & H).
  assert (Gv : lk = false -> vardata s2 = vardata s1).
  { intros ->. inversion E2. reflexivity. }
  assert (G : watches s2 = watches s1 /\ ca s2 = ca s1 /\ clauses s2 = clauses s1
              /\ learnts s2 = learnts s1 /\ assigns s2 = assigns s1 /\ trail s2 = trail s1
              /\ trail_lim s2 = trail_lim s1 /\ qhead s2 = qhead s1
              /\ order_heap s2 = order_heap s1
              /\ length (vardata s2) = length (vardata s1) /\ ok s2 = ok s1).
  { destruct lk.
    - apply bind_Ok in E2. destruct E2 as (c0 & _ & E2).
      apply bind_Ok in E2. destruct E2 as (vd & _ & E2).
      apply bind_Ok in E2. destruct E2 as (vds & Es & E2).
      apply set_Ok in Es. destruct Es as (_ & ->). inversion E2. simpl.
      rewrite length_upd. repeat split; reflexivity.
    - inversion E2. repeat split; reflexivity. }
  destruct G as (G1 & G2 & G3 & G4 & G5 & G6 & G7 & G8 & G9 & G10 & G11).
  apply bind_Ok in H. destruct H as (a2 & Ef & H).
  unfold ca_free in Ef. apply bind_Ok in Ef. destruct Ef as (c' & _ & Ef).
  inversion Ef; subst a2. clear Ef. inversion H; subst s'. clear H. simpl.
  exists c. rewrite G2, F2. splits; try congruence.
  - destruct (Z.eqb_spec cr cr); [reflexivity|contradiction].
  - intros x N. destruct (Z.eqb_spec x cr); [contradiction|reflexivity].
  - intros L. rewrite Elk' in L. inversion L; subst lk. rewrite Gv by reflexivity. exact F10.
Qed.

Lemma removeClause_inv (s : Solver D) cr s' :
  WF s -> ~ In cr (clauses s) -> removeClause s cr = Ok s' ->
  WF s' /\ (CUR s -> CUR s') /\ ext s s'.
Proof.
  intros Hwf Hn H. apply removeClause_Ok in H.
  destruct H as (c & E & E' & O & Sz & F1 & F2 & F3 & F4 & F5 & F6 & F7 & F8 & F9 & F10 & _).
  apply WF_offclause; auto.
  - intros x I. apply O. intros ->. contradiction.
  - intros x cx Ex. destruct (Z.eq_dec x cr) as [->|N].
    + exists (set_cl_mark c 1). rewrite E in Ex. inversion Ex; subst cx. auto.
    + exists cx. rewrite O by exact N. auto.
  - intros x Ex. destruct (Z.eq_dec x cr) as [->|N]; [congruence|]. rewrite O by exact N. exact Ex.
  - rewrite F3. auto.
Qed.

Lemma locked_frame (s s' : Solver D) cr c :
  assigns s' = assigns s -> vardata s' = vardata s -> locked s' cr c = locked s cr c.
Proof. intros Ea Ev. unfold locked, value, reason. rewrite Ea, Ev. reflexivity. Qed.

Lemma reduce_keep_frame (s s' : Solver D) half : forall ls i,
  assigns s' = assigns s -> vardata s' = vardata s ->
  (forall cr, In cr ls ->
     match ca_mem (ca s) cr with
     | Some c => exists c', ca_mem (ca s') cr = Some c' /\ cl_lits c' = cl_lits c
     | None => ca_mem (ca s') cr = None
     end) ->
  reduce_keep s' half i ls = reduce_keep s half i ls.
Proof.
  induction ls as [|cr rest IH]; intros i Ea Ev Hm; [reflexivity|].
  cbn [reduce_keep]. rewrite IH by (auto; intros x I; apply Hm; right; exact I).
  f_equal. specialize (Hm cr (or_introl eq_refl)).
  destruct (ca_mem (ca s) cr) as [c|].
  - destruct Hm as (c' & -> & El). rewrite El.
    assert (L : locked s' cr c' = locked s cr c).
    { unfold locked, value, reason. rewrite Ea, Ev, El. reflexivity. }
    rewrite L. reflexivity.
  - rewrite Hm. reflexivity.
Qed.

(** The loop of [reduceDB] keeps, in their order, the clauses that
    [reduce_keep] lists, marks the other ones as deleted, and changes
    nothing else but the counters. *)
Lemma reduceDB_loop_spec : forall ls (s : Solver D) half i kept s' kept',
  reduceDB_loop s half i ls kept = Ok (s', kept') ->
  kept' = kept ++ reduce_keep s half i ls
  /\ assigns s' = assigns s /\ vardata s' = vardata s /\ trail s' = trail s
  /\ trail_lim s' = trail_lim s /\ qhead s' = qhead s /\ order_heap s' = order_heap s
  /\ watches s' = watches s /\ clauses s' = clauses s /\ learnts s' = learnts s
  /\ ok s' = ok s /\ ca_size (ca s') = ca_size (ca s)
  /\ (forall cr, match ca_mem (ca s) cr with
                 | Some c =>
                     ca_mem (ca s') cr = Some c
                     \/ (In cr ls /\ ca_mem (ca s') cr = Some (set_cl_mark c 1))
                 | None => ca_mem (ca s') cr = None
                 end).
Proof.
  induction ls as [|cr rest IH]; intros s half i kept s' kept' H.
  - inversion H; subst. rewrite app_nil_r. splits; auto.
    intros cr. destruct (ca_mem (ca s') cr); auto.
  - cbn [reduceDB_loop] in H.
    apply bind_Ok in H. destruct H as (c & Ec & H). apply ca_get_Ok in Ec.
    apply bind_Ok in H. destruct H as (del & Ed & H).
    cbn [reduce_keep]. rewrite Ec.
    destruct del.
    + (* removed *)
      destruct (Nat.ltb_spec 2 (length (cl_lits c))) as [L2|L2]; [|discriminate].
      apply bind_Ok in Ed. destruct Ed as (lk & Elk & Ed).
      inversion Ed as [Ed']. apply andb_prop in Ed'. destruct Ed' as (Nl & Lh).
      apply negb_true_iff in Nl. subst lk. rewrite Elk, Lh. cbn [negb andb app].
      apply bind_Ok in H. destruct H as (s1 & E1 & H).
      apply removeClause_Ok in E1.
      destruct E1 as (c' & E & E' & O & Sz & F1 & F2 & F3 & F4 & F5 & F6 & F7 & F8 & F9 & F10 & Fv).
      rewrite Ec in E. inversion E; subst c'. clear E. specialize (Fv Elk).
      apply IH in H.
      destruct H as (K & G1 & G2 & G3 & G4 & G5 & G6 & G7 & G8 & G9 & G10 & G11 & Gm).
      assert (RK : reduce_keep s1 half (S i) rest = reduce_keep s half (S i) rest).
      { apply reduce_keep_frame; auto. intros x _.
        destruct (Z.eq_dec x cr) as [->|N].
        - rewrite Ec. exists (set_cl_mark c 1). auto.
        - rewrite O by exact N. destruct (ca_mem (ca s) x) as [cx|]; eauto. }
      rewrite RK in *. splits; try congruence.
      intros x. destruct (Z.eq_dec x cr) as [->|N].
      * rewrite Ec. specialize (Gm cr). rewrite E' in Gm. right.
        split; [left; reflexivity|]. destruct Gm as [Gm|(_ & Gm)]; exact Gm.
      * specialize (Gm x). rewrite O in Gm by exact N.
        destruct (ca_mem (ca s) x) as [cx|]; auto.
        destruct Gm as [Gm|(I1 & Gm)]; [left; exact Gm|right].
        split; auto. right. exact I1.
    + (* kept *)
      assert (Ek : (2 <? length (cl_lits c))%nat
                   && match locked s cr c with Ok lk => negb lk | Err _ => false end
                   && (i <? half)%nat = false).
      { destruct (2 <? length (cl_lits c))%nat; [|reflexivity].
        apply bind_Ok in Ed. destruct Ed as (lk & Elk & Ed). rewrite Elk.
        inversion Ed as [Ed']. simpl. reflexivity. }
      rewrite Ek. apply IH in H.
      destruct H as (K & G1 & G2 & G3 & G4 & G5 & G6 & G7 & G8 & G9 & G10 & G11 & Gm).
      splits; auto.
      * rewrite K, <- app_assoc. reflexivity.
      * intros x. specialize (Gm x). destruct (ca_mem (ca s) x) as [cx|]; auto.
        destruct Gm as [Gm|(I1 & Gm)]; [left; exact Gm|right].
        split; auto. right. exact I1.
Qed.

(** [removeClause] of a clause that is the reason of its first literal
    resets this reason, and counts the clause as wasted space. *)
Lemma removeClause_reason (s : Solver D) cr s' c :
  removeClause s cr = Ok s' -> ca_mem (ca s) cr = Some c ->
  ca_wasted (ca s')
  = ca_wasted (ca s) + clauseWord32Size (length (cl_lits c)) (cl_learnt c)
  /\ (locked s cr c = Ok true ->
      exists c0 vd,
        nth_error (cl_lits c) 0 = Some c0
        /\ nth_error (vardata s) (var c0) = Some vd
        /\ vardata s' = Vec.upd (vardata s) (var c0) (mkVarData CRef_Undef (vd_level vd))).
Proof.
  unfold removeClause. intros H Hc.
  apply bind_Ok in H. destruct H as (c' & Ec & H). apply ca_get_Ok in Ec.
  rewrite Hc in Ec. inversion Ec; subst c'. clear Ec.
  apply bind_Ok in H. destruct H as (s1 & E1 & H).
  apply detachClause_Ok in E1.
  destruct E1 as (F1 & F2 & F3 & F4 & F5 & F6 & F7 & F8 & F9 & F10 & F11).
  apply bind_Ok in H. destruct H as (lk & Elk & H).
  assert (Elk' : locked s cr c = Ok lk).
  { rewrite <- Elk. unfold locked, value, reason. rewrite F5, F10. reflexivity. }
  apply bind_Ok in H. destruct H as (s2 & E2 & H).
  apply bind_Ok in H. destruct H as (a2 & Ef & H).
  unfold ca_free in Ef. apply bind_Ok in Ef. destruct Ef as (c' & Ec' & Ef).
  apply ca_get_Ok in Ec'. simpl in Ec'. rewrite Z.eqb_refl in Ec'. inversion Ec'; subst c'.
  inversion Ef; subst a2. clear Ef. inversion H; subst s'. clear H. simpl.
  assert (G : ca s2 = ca s1).
  { destruct lk.
    - apply bind_Ok in E2. destruct E2 as (c0 & _ & E2).
      apply bind_Ok in E2. destruct E2 as (vd & _ & E2).
      apply bind_Ok in E2. destruct E2 as (vds & Es & E2). inversion E2. reflexivity.
    - inversion E2. reflexivity. }
  split; [rewrite G, F2; reflexivity|].
  intros L. rewrite Elk' in L. inversion L; subst lk.
  apply bind_Ok in E2. destruct E2 as (c0 & E0 & E2). apply get_Ok in E0.
  apply bind_Ok in E2. destruct E2 as (vd & Ev & E2). apply get_Ok in Ev.
  apply bind_Ok in E2. destruct E2 as (vds & Es & E2).
  apply set_Ok in Es. destruct Es as (_ & ->). inversion E2. simpl.
  exists c0, vd. rewrite <- F10. auto.
Qed.

End Reduce.

(** * Garbage collection *)

Section Collect.
Context {D : Type} {FO : FloatOps D}.

Lemma set_cl_reloced_same (c : Clause D) : cl_reloced c = false -> set_cl_reloced c false = c.
Proof. destruct c. simpl. intros ->. reflexivity. Qed.

Lemma RI_start (a : ClauseAllocator D) :
  (forall cr c, ca_mem a cr = Some c -> cl_reloced c = false) -> RI a a ca_empty.
Proof.
  intros Hc.
  assert (F : forall cr, fwd a cr = None).
  { intros cr. unfold fwd. destruct (ca_mem a cr) as [c|] eqn:E; [|reflexivity].
    rewrite (Hc cr c E). reflexivity. }
  constructor; auto.
  - intros cr y H. rewrite F in H. discriminate.
  - intros y c H. discriminate.
  - intros cr1 cr2 y H. rewrite F in H. discriminate.
  - simpl. unfold CRef_Undef. lia.
Qed.

(** One clause is moved, or found moved. *)
Lemma ca_reloc_RI (from0 from to : ClauseAllocator D) cr cr' from' to' :
  RI from0 from to -> ca_reloc from cr to = Ok (cr', from', to') ->
  RI from0 from' to'
  /\ fwd from' cr = Some cr'
  /\ (forall x y, fwd from x = Some y -> fwd from' x = Some y)
  /\ (forall x, ca_mem from' x = None <-> ca_mem from x = None).
Proof.
  intros R H. unfold ca_reloc in H.
  apply bind_Ok in H. destruct H as (c & Ec & H). apply ca_get_Ok in Ec.
  destruct (cl_reloced c) eqn:Er.
  - apply bind_Ok in H. destruct H as (fw & Ef & H). apply get_Ok in Ef.
    inversion H; subst fw from' to'. splits; auto; [|tauto].
    unfold fwd. rewrite Ec, Er. exact Ef.
  - apply bind_Ok in H. destruct H as ([y to1] & Ea & H).
    apply bind_Ok in H. destruct H as (l & El & H).
    apply set_Ok in El. destruct El as (Ll & ->).
    inversion H; subst y from' to'. clear H.
    apply ca_alloc_Ok in Ea. destruct Ea as (Ey & Sz & Sz' & _ & Oa).
    assert (Wp : 0 < clauseWord32Size (length (cl_lits c)) (cl_learnt c)).
    { unfold clauseWord32Size. destruct (cl_learnt c); lia. }
    pose proof (ri_size R) as Rs.
    assert (F0 : fwd from cr = None) by (unfold fwd; rewrite Ec, Er; reflexivity).
    destruct (ca_mem from0 cr) as [c0|] eqn:E0.
    2:{ rewrite (ri_none R cr E0) in Ec. discriminate. }
    pose proof (ri_keep R cr c0 E0 F0) as K. rewrite Ec in K. inversion K; subst c0. clear K.
    assert (Fcr : fwd (ca_put from cr (set_cl_reloced (set_cl_lits c (Vec.upd (cl_lits c) 0 cr')) true)) cr
                  = Some cr').
    { unfold fwd, ca_put. simpl. rewrite Z.eqb_refl. simpl.
      destruct (cl_lits c); simpl in *; [lia|reflexivity]. }
    assert (Fne : forall x, x <> cr ->
                  fwd (ca_put from cr (set_cl_reloced (set_cl_lits c (Vec.upd (cl_lits c) 0 cr')) true)) x
                  = fwd from x).
    { intros x N. unfold fwd, ca_put. simpl.
      destruct (Z.eqb_spec x cr); [contradiction|reflexivity]. }
    assert (Tn : forall x, x <> cr' -> ca_mem (ca_put to1 cr' (set_cl_reloced c false)) x = ca_mem to x).
    { intros x N. unfold ca_put. simpl. destruct (Z.eqb_spec x cr'); [contradiction|].
      apply Oa. exact N. }
    assert (Tc : ca_mem (ca_put to1 cr' (set_cl_reloced c false)) cr' = Some c).
    { unfold ca_put. simpl. rewrite Z.eqb_refl. rewrite set_cl_reloced_same by exact Er.
      reflexivity. }
    assert (Old : forall x y, fwd from x = Some y -> x <> cr /\ y <> cr').
    { intros x y Hf. split.
      - intros ->. congruence.
      - destruct (ri_fwd R x y Hf) as (c0 & _ & Ht).
        destruct (ri_to R y c0 Ht) as (B & _). lia. }
    splits.
    + constructor.
      * intros x Ex. unfold ca_put. simpl. destruct (Z.eqb_spec x cr) as [->|N]; [congruence|].
        apply (ri_none R). exact Ex.
      * intros x c0 Ex Fx. destruct (Z.eq_dec x cr) as [->|N]; [congruence|].
        rewrite Fne in Fx by exact N. unfold ca_put. simpl.
        destruct (Z.eqb_spec x cr); [contradiction|]. apply (ri_keep R); auto.
      * intros x y Fx. destruct (Z.eq_dec x cr) as [->|N].
        -- rewrite Fcr in Fx. inversion Fx; subst y. exists c. auto.
        -- rewrite Fne in Fx by exact N. destruct (ri_fwd R x y Fx) as (c0 & A & B).
           exists c0. split; auto. rewrite Tn; auto. apply (Old x y Fx).
      * intros y cy Hy. destruct (Z.eq_dec y cr') as [->|N].
        -- split; [simpl; lia|].
           exists cr. exact Fcr.
        -- rewrite Tn in Hy by exact N. destruct (ri_to R y cy Hy) as (B & x & Fx).
           split; [simpl; lia|].
           exists x. rewrite Fne; auto. apply (Old x y Fx).
      * intros x1 x2 y F1 F2.
        destruct (Z.eq_dec x1 cr) as [->|N1]; destruct (Z.eq_dec x2 cr) as [->|N2]; auto.
        -- rewrite Fcr in F1. inversion F1; subst y. rewrite Fne in F2 by exact N2.
           destruct (Old x2 cr' F2). congruence.
        -- rewrite Fcr in F2. inversion F2; subst y. rewrite Fne in F1 by exact N1.
           destruct (Old x1 cr' F1). congruence.
        -- rewrite Fne in F1, F2 by assumption. apply (ri_inj R x1 x2 y); auto.
      * simpl. lia.
      * apply (ri_clean R).
    + exact Fcr.
    + intros x y Fx. rewrite Fne; auto. apply (Old x y Fx).
    + intros x. unfold ca_put. simpl. destruct (Z.eqb_spec x cr) as [->|N]; [|tauto].
      split; [discriminate|congruence].
Qed.

Lemma reloc_list_RI (from0 : ClauseAllocator D) : forall crs from to crs' from' to',
  RI from0 from to -> reloc_list from crs to = Ok (crs', from', to') ->
  RI from0 from' to'
  /\ Forall2 (fun cr cr' => fwd from' cr = Some cr') crs crs'
  /\ (forall x y, fwd from x = Some y -> fwd from' x = Some y).
Proof.
  induction crs as [|cr t IH]; intros from to crs' from' to' R H.
  - inversion H; subst. splits; auto.
  - cbn [reloc_list] in H.
    apply bind_Ok in H. destruct H as ([[cr' from1] to1] & E1 & H).
    apply bind_Ok in H. destruct H as ([[t' from2] to2] & E2 & H).
    inversion H; subst crs' from' to'. clear H.
    destruct (ca_reloc_RI _ _ _ _ _ _ _ R E1) as (R1 & F1 & M1 & _).
    destruct (IH _ _ _ _ _ R1 E2) as (R2 & F2 & M2).
    splits; auto.
Qed.

Lemma reloc_watchers_RI (from0 : ClauseAllocator D) : forall ws from to ws' from' to',
  RI from0 from to -> reloc_watchers from ws to = Ok (ws', from', to') ->
  RI from0 from' to'
  /\ Forall2 (moved_watcher from') ws ws'
  /\ (forall x y, fwd from x = Some y -> fwd from' x = Some y).
Proof.
  induction ws as [|w t IH]; intros from to ws' from' to' R H.
  - inversion H; subst. splits; auto.
  - cbn [reloc_watchers] in H.
    apply bind_Ok in H. destruct H as ([[cr' from1] to1] & E1 & H).
    apply bind_Ok in H. destruct H as ([[t' from2] to2] & E2 & H).
    inversion H; subst ws' from' to'. clear H.
    destruct (ca_reloc_RI _ _ _ _ _ _ _ R E1) as (R1 & F1 & M1 & _).
    destruct (IH _ _ _ _ _ R1 E2) as (R2 & F2 & M2).
    splits; auto. constructor; auto. split; [reflexivity|]. simpl. auto.
Qed.

Lemma Forall2_mono {A B} (P Q : A -> B -> Prop) l l' :
  (forall a b, P a b -> Q a b) -> Forall2 P l l' -> Forall2 Q l l'.
Proof. intros H F. induction F; constructor; auto. Qed.

Lemma moved_watcher_mono (from from' : ClauseAllocator D) w w' :
  (forall x y, fwd from x = Some y -> fwd from' x = Some y) ->
  moved_watcher from w w' -> moved_watcher from' w w'.
Proof. intros M [A B]. split; auto. Qed.

Lemma reloc_occs_RI (from0 : ClauseAllocator D) : forall n p from occs to occs' from' to',
  RI from0 from to -> reloc_occs n p from occs to = Ok (occs', from', to') ->
  RI from0 from' to'
  /\ length occs' = length occs
  /\ (forall i, (p <= i < p + n)%nat ->
        exists ws ws', nth_error occs i = Some ws /\ nth_error occs' i = Some ws'
                       /\ Forall2 (moved_watcher from') ws ws')
  /\ (forall i, (i < p \/ p + n <= i)%nat -> nth_error occs' i = nth_error occs i)
  /\ (forall x y, fwd from x = Some y -> fwd from' x = Some y).
Proof.
  induction n as [|n IH]; intros p from occs to occs' from' to' R H.
  - inversion H; subst. splits; auto. intros i Hi. lia.
  - cbn [reloc_occs] in H.
    apply bind_Ok in H. destruct H as (ws & Eg & H). apply get_Ok in Eg.
    apply bind_Ok in H. destruct H as ([[ws' from1] to1] & E1 & H).
    apply bind_Ok in H. destruct H as (occs1 & Es & H).
    apply set_Ok in Es. destruct Es as (Lp & ->).
    destruct (reloc_watchers_RI _ _ _ _ _ _ _ R E1) as (R1 & F1 & M1).
    destruct (IH _ _ _ _ _ _ _ R1 H) as (R2 & L2 & A2 & B2 & M2).
    rewrite length_upd in L2. splits; auto.
    + intros i Hi. destruct (Nat.eq_dec i p) as [->|N].
      * exists ws, ws'. splits; auto.
        -- rewrite B2 by lia. apply nth_error_upd_eq. exact Lp.
        -- eapply Forall2_mono; [|exact F1]. intros a b. apply moved_watcher_mono. exact M2.
      * destruct (A2 i) as (x & x' & E & E' & F); [lia|].
        rewrite nth_error_upd_ne in E by lia. exists x, x'. auto.
    + intros i Hi. rewrite B2 by lia. apply nth_error_upd_ne. lia.
Qed.

Lemma reloc_reasons_RI (from0 : ClauseAllocator D) : forall tr (s : Solver D) to s' to',
  RI from0 (ca s) to -> reloc_reasons s tr to = Ok (s', to') ->
  RI from0 (ca s') to'
  /\ (forall x y, fwd (ca s) x = Some y -> fwd (ca s') x = Some y)
  /\ watches s' = watches s /\ clauses s' = clauses s /\ learnts s' = learnts s
  /\ assigns s' = assigns s /\ trail s' = trail s /\ trail_lim s' = trail_lim s
  /\ qhead s' = qhead s /\ order_heap s' = order_heap s
  /\ length (vardata s') = length (vardata s) /\ ok s' = ok s.
Proof.
  induction tr as [|l t IH]; intros s to s' to' R H.
  - inversion H; subst. splits; auto.
  - cbn [reloc_reasons] in H.
    apply bind_Ok in H. destruct H as (v & _ & H).
    apply bind_Ok in H. destruct H as (r & _ & H).
    apply bind_Ok in H. destruct H as (go & _ & H).
    destruct go.
    + apply bind_Ok in H. destruct H as ([[r' from1] to1] & E1 & H).
      apply bind_Ok in H. destruct H as (vd & _ & H).
      apply bind_Ok in H. destruct H as (vds & Es & H).
      apply set_Ok in Es. destruct Es as (_ & ->).
      destruct (ca_reloc_RI _ _ _ _ _ _ _ R E1) as (R1 & _ & M1 & _).
      apply IH in H; [|exact R1].
      destruct H as (R2 & M2 & G1 & G2 & G3 & G4 & G5 & G6 & G7 & G8 & G9 & G10).
      simpl in *. rewrite length_upd in G9. splits; auto.
    + apply IH in H; auto.
Qed.

Lemma Forall2_In_l {A B} (P : A -> B -> Prop) l l' a :
  Forall2 P l l' -> In a l -> exists b, In b l' /\ P a b.
Proof.
  intros F. induction F as [|x y l l' H F IH]; intros I; [destruct I|].
  destruct I as [<-|I].
  - exists y. split; [left; reflexivity|exact H].
  - destruct (IH I) as (b & Ib & Pb). exists b. split; [right; exact Ib|exact Pb].
Qed.

Lemma Forall2_In_r {A B} (P : A -> B -> Prop) l l' b :
  Forall2 P l l' -> In b l' -> exists a, In a l /\ P a b.
Proof.
  intros F. induction F as [|x y l l' H F IH]; intros I; [destruct I|].
  destruct I as [<-|I].
  - exists x. split; [left; reflexivity|exact H].
  - destruct (IH I) as (a & Ia & Pa). exists a. split; [right; exact Ia|exact Pa].
Qed.

Lemma nth_error_cleanAll (a : ClauseAllocator D) (ws : OccLists) i :
  nth_error (occ_cleanAll a ws) i
  = option_map (filter (fun w => negb (WatcherDeleted a w))) (nth_error ws i).
Proof. unfold occ_cleanAll. apply nth_error_map. Qed.

(** The collection moves every clause in use to a new arena and keeps the
    invariants. *)
Lemma garbageCollect_inv (s s' : Solver D) :
  WF s -> garbageCollect s = Ok s' ->
  WF s' /\ (CUR s -> CUR s') /\ ext s s'
  /\ assigns s' = assigns s /\ trail s' = trail s /\ trail_lim s' = trail_lim s
  /\ qhead s' = qhead s /\ order_heap s' = order_heap s /\ ok s' = ok s
  /\ length (vardata s') = length (vardata s)
  /\ Forall2 (fun cr cr' => exists c, ca_mem (ca s) cr = Some c /\ ca_mem (ca s') cr' = Some c)
       (learnts s) (learnts s')
  /\ Forall2 (fun cr cr' => exists c, ca_mem (ca s) cr = Some c /\ ca_mem (ca s') cr' = Some c)
       (clauses s) (clauses s').
Proof.
  intros Hwf H. unfold garbageCollect, relocAll in H.
  apply bind_Ok in H. destruct H as ([s3 to4] & H & Hs').
  inversion Hs'; subst s'. clear Hs'.
  apply bind_Ok in H. destruct H as ([[occs from1] to1] & E1 & H).
  apply bind_Ok in H. destruct H as ([s2 to2] & E2 & H).
  apply bind_Ok in H. destruct H as ([[ls from3] to3] & E3 & H).
  apply bind_Ok in H. destruct H as ([[cs from4] to4'] & E4 & H).
  inversion H; subst s3 to4'. clear H.
  cbn [watches ca set_watches set_ca nVars vardata] in E1.
  pose proof Hwf as [Ha Ht Hm Hw Hp].
  assert (R0 : RI (ca s) (ca s) ca_empty).
  { apply RI_start. intros cr c E. apply (wf_arena Hm cr c E). }
  change (ca (set_watches s (occ_cleanAll (ca s) (watches s)))) with (ca s) in E1.
  change (watches (set_watches s (occ_cleanAll (ca s) (watches s))))
    with (occ_cleanAll (ca s) (watches s)) in E1.
  change (nVars (set_watches s (occ_cleanAll (ca s) (watches s)))) with (nVars s) in E1.
  destruct (reloc_occs_RI _ _ _ _ _ _ _ _ _ R0 E1) as (R1 & L1 & A1 & _ & M1).
  destruct (reloc_reasons_RI (ca s) _ _ _ _ _ (R1 : RI (ca s) (ca (set_watches
              (set_ca (set_watches s (occ_cleanAll (ca s) (watches s))) from1) occs)) to1) E2)
    as (R2 & M2 & G1 & G2 & G3 & G4 & G5 & G6 & G7 & G8 & G9 & G10).
  simpl in M2, G1, G2, G3, G4, G5, G6, G7, G8, G9, G10.
  destruct (reloc_list_RI _ _ _ _ _ _ _ R2 E3) as (R3 & F3 & M3).
  destruct (reloc_list_RI _ _ _ _ _ _ _ R3 E4) as (R4 & F4 & M4).
  rewrite G3 in F3. rewrite G2 in F4.
  assert (F3' : Forall2 (fun cr cr' => fwd from4 cr = Some cr') (learnts s) ls).
  { eapply Forall2_mono; [|exact F3]. intros a b. apply M4. }
  clear F3.
  assert (Lw : length occs = (2 * nVars s)%nat).
  { rewrite L1. unfold occ_cleanAll. rewrite length_map. apply (wf_watches_len Hw). }
  assert (A : forall i ws', nth_error occs i = Some ws' ->
              exists ws, nth_error (watches s) i = Some ws
                         /\ Forall2 (moved_watcher from4)
                              (filter (fun w => negb (WatcherDeleted (ca s) w)) ws) ws').
  { intros i ws' Hi.
    assert (Li : (i < length occs)%nat) by (apply nth_error_Some; congruence).
    destruct (A1 i) as (x & x' & Ex & Ex' & Fx); [lia|].
    rewrite nth_error_cleanAll in Ex.
    destruct (nth_error (watches s) i) as [ws|]; [|discriminate].
    simpl in Ex. inversion Ex; subst x. exists ws. split; auto.
    rewrite Hi in Ex'. inversion Ex'; subst x'.
    eapply Forall2_mono; [|exact Fx]. intros a b. apply moved_watcher_mono.
    intros u v Huv. apply M4, M3, M2. exact Huv. }
  assert (A' : forall i ws w, nth_error (watches s) i = Some ws -> In w ws ->
                 WatcherDeleted (ca s) w = false ->
                 exists ws' w', nth_error occs i = Some ws' /\ In w' ws'
                                /\ moved_watcher from4 w w').
  { intros i ws w Hi Iw Dw.
    assert (Li : (i < 2 * nVars s)%nat).
    { rewrite <- (wf_watches_len Hw). apply nth_error_Some. congruence. }
    destruct (nth_error occs i) as [ws'|] eqn:Ei.
    2:{ apply nth_error_None in Ei. lia. }
    destruct (A i ws' Ei) as (ws0 & E0 & F0). rewrite Hi in E0. inversion E0; subst ws0.
    destruct (Forall2_In_l _ _ _ w F0) as (w' & Iw' & Mw).
    { apply filter_In. split; auto. rewrite Dw. reflexivity. }
    exists ws', w'. auto. }
  clear A1 E1 E2 E3 E4.
  set (s' := set_ca (set_clauses (set_learnts (set_ca s2 from4) ls) cs) to4).
  assert (Eca : ca s' = to4) by reflexivity.
  assert (Ecl : clauses s' = cs) by reflexivity.
  assert (Ele : learnts s' = ls) by reflexivity.
  assert (Ewa : watches s' = occs) by (unfold s'; simpl; exact G1).
  assert (Eas : assigns s' = assigns s) by (unfold s'; simpl; exact G4).
  assert (Etr : trail s' = trail s) by (unfold s'; simpl; exact G5).
  assert (Etl : trail_lim s' = trail_lim s) by (unfold s'; simpl; exact G6).
  assert (Eqh : qhead s' = qhead s) by (unfold s'; simpl; exact G7).
  assert (Eoh : order_heap s' = order_heap s) by (unfold s'; simpl; exact G8).
  assert (Evd : length (vardata s') = length (vardata s)) by (unfold s'; simpl; exact G9).
  assert (Eok : ok s' = ok s) by (unfold s'; simpl; exact G10).
  clearbody s'. clear G1 G2 G3 G4 G5 G6 G7 G8 G9 G10.
  assert (K1 : forall cr y, fwd from4 cr = Some y ->
                 exists c0, ca_mem (ca s) cr = Some c0 /\ ca_mem to4 y = Some c0).
  { apply (ri_fwd R4). }
  assert (Kc : forall cr', In cr' cs -> exists cr, In cr (clauses s) /\ fwd from4 cr = Some cr').
  { intros cr' I. apply (Forall2_In_r _ _ _ cr' F4 I). }
  assert (Kl : forall cr' ls0, In cr' cs -> lits_at s' cr' ls0 ->
                 exists cr, In cr (clauses s) /\ lits_at s cr ls0).
  { intros cr' ls0 I (c & Ec & El). destruct (Kc cr' I) as (cr & Icr & Fcr).
    destruct (K1 cr cr' Fcr) as (c0 & E0 & E0'). rewrite Eca in Ec.
    rewrite E0' in Ec. inversion Ec; subst c0. exists cr. split; auto. exists c. auto. }
  splits; auto.
  - constructor.
    + apply (WFa_cong (s := s)); auto.
    + apply (WFt_cong (s := s)); auto. rewrite Etr. reflexivity.
    + constructor; rewrite Eca.
      * intros y c Ey. destruct (ri_to R4 y c Ey) as (B & cr & Fcr). split; auto.
        destruct (K1 cr y Fcr) as (c0 & E0 & E0'). rewrite Ey in E0'. inversion E0'; subst c0.
        apply (wf_arena Hm cr c E0).
      * apply (ri_size R4).
      * rewrite Ele. intros cr' I. destruct (Forall2_In_r _ _ _ cr' F3' I) as (cr & Icr & Fcr).
        destruct (K1 cr cr' Fcr) as (c0 & E0 & E0'). exists c0. split; auto.
        destruct (wf_learnts Hm cr Icr) as (c & E & L). congruence.
      * rewrite Ecl. intros cr' I. destruct (Kc cr' I) as (cr & Icr & Fcr).
        destruct (K1 cr cr' Fcr) as (c0 & E0 & E0'). exists c0. split; auto.
        destruct (wf_orig Hm cr Icr) as (c & E & L). congruence.
    + constructor.
      * rewrite Ewa. unfold nVars. rewrite Evd. exact Lw.
      * rewrite Ewa, Eca. intros i ws' w' Hi Iw'.
        destruct (A i ws' Hi) as (ws & Ei & F).
        destruct (Forall2_In_r _ _ _ w' F Iw') as (w & Iw & (_ & Mw)).
        destruct (K1 _ _ Mw) as (c0 & _ & E0). congruence.
      * rewrite Ecl. intros cr' I. destruct (Kc cr' I) as (cr & Icr & Fcr).
        destruct (wf_clauses Hw cr Icr)
          as (c & c0 & c1 & rest & E & Mk & Ls & ND & Val & W0 & W1).
        destruct (K1 cr cr' Fcr) as (cx & Ex & Ex'). rewrite E in Ex. inversion Ex; subst cx.
        exists c, c0, c1, rest. rewrite Eca. unfold nVars. rewrite Evd.
        assert (HW : forall p, has_watcher s p cr -> has_watcher s' p cr').
        { intros p (ws & w & Hn & Iw & Cw). subst cr.
          destruct (A' _ ws w Hn Iw) as (ws' & w' & Hn' & Iw' & (_ & Mw)).
          { unfold WatcherDeleted. rewrite E. apply Z.eqb_neq. exact Mk. }
          exists ws', w'. rewrite Ewa. splits; auto. congruence. }
        repeat split; auto; apply Val; auto.
      * rewrite Ewa, Ecl, Eca. intros i ws' w' Hi Iw' Ic.
        destruct (A i ws' Hi) as (ws & Ei & F).
        destruct (Forall2_In_r _ _ _ w' F Iw') as (w & Iw & (Bw & Mw)).
        apply filter_In in Iw. destruct Iw as (Iw & _).
        destruct (Kc _ Ic) as (cr & Icr & Fcr).
        assert (cref w = cr) by (apply (ri_inj R4 _ _ _ Mw Fcr)). subst cr.
        destruct (wf_blockers Hw i ws w Ei Iw Icr) as (c & E & Ib).
        destruct (K1 _ _ Mw) as (cx & Ex & Ex'). rewrite E in Ex. inversion Ex; subst cx.
        exists c. rewrite Bw. auto.
    + intros b cr' ls0 Ib Ic Hl. rewrite Etl in Ib. rewrite Ecl in Ic. rewrite Etr.
      destruct (Kl cr' ls0 Ic Hl) as (cr & Icr & Hl'). apply (Hp b cr ls0 Ib Icr Hl').
  - intros Hc cr' ls0 Ic Hl. rewrite Ecl in Ic. rewrite Etr, Eqh.
    destruct (Kl cr' ls0 Ic Hl) as (cr & Icr & Hl'). apply (Hc cr ls0 Icr Hl').
  - constructor.
    + intros l. unfold root. rewrite Etr, Etl. auto.
    + intros cr ls0 Ic (c & Ec & El).
      destruct (Forall2_In_l _ _ _ cr F4 Ic) as (cr' & Icr' & Fcr).
      destruct (K1 cr cr' Fcr) as (cx & Ex & Ex'). rewrite Ec in Ex. inversion Ex; subst cx.
      exists cr', ls0. rewrite Ecl. splits; auto. exists c. rewrite Eca. auto.
    + unfold nVars. rewrite Evd. lia.
  - rewrite Ele. eapply Forall2_mono; [|exact F3']. intros a b Fab. rewrite Eca.
    destruct (K1 a b Fab) as (c0 & X & Y). exists c0. auto.
  - rewrite Ecl. eapply Forall2_mono; [|exact F4]. intros a b Fab. rewrite Eca.
    destruct (K1 a b Fab) as (c0 & X & Y). exists c0. auto.
Qed.

(** ** [reduceDB] *)

Lemma load_clauses_fst (a : ClauseAllocator D) : forall crs l,
  load_clauses a crs = Ok l -> map fst l = crs.
Proof.
  induction crs as [|cr t IH]; intros l H; simpl in H.
  - inversion H. reflexivity.
  - apply bind_Ok in H. destruct H as (c & _ & H).
    apply bind_Ok in H. destruct H as (r & Er & H).
    inversion H; subst l. simpl. f_equal. apply IH. exact Er.
Qed.

Lemma sort_learnts_perm (a : ClauseAllocator D) ls sorted :
  sort_learnts a ls = Ok sorted -> Permutation sorted ls.
Proof.
  unfold sort_learnts. intros H. apply bind_Ok in H. destruct H as (l & El & H).
  inversion H; subst sorted. rewrite <- (load_clauses_fst _ _ _ El).
  apply Permutation_map. apply sort_by_perm.
Qed.

Lemma reduce_keep_incl (s : Solver D) half : forall ls i cr,
  In cr (reduce_keep s half i ls) -> In cr ls.
Proof.
  induction ls as [|x rest IH]; intros i cr I; [destruct I|].
  cbn [reduce_keep] in I. apply in_app_iff in I. destruct I as [I|I].
  - left. destruct (match ca_mem (ca s) x with Some _ => _ | None => _ end);
      [destruct I|destruct I as [<-|[]]; reflexivity].
  - right. apply (IH (S i)). exact I.
Qed.

Lemma reduce_keep_In (s : Solver D) half : forall ls i cr c,
  In cr ls -> ca_mem (ca s) cr = Some c ->
  (length (cl_lits c) <= 2)%nat \/ locked s cr c = Ok true ->
  In cr (reduce_keep s half i ls).
Proof.
  induction ls as [|x rest IH]; intros i cr c I E K; [destruct I|].
  cbn [reduce_keep]. apply in_app_iff. destruct I as [->|I].
  - left. rewrite E. destruct K as [K|K].
    + destruct (Nat.ltb_spec 2 (length (cl_lits c))); [lia|]. left. reflexivity.
    + rewrite K. simpl. rewrite andb_false_r. left. reflexivity.
  - right. apply (IH (S i) cr c); auto.
Qed.

Lemma checkGarbage_inv (s s' : Solver D) :
  WF s -> checkGarbage s = Ok s' ->
  WF s' /\ (CUR s -> CUR s') /\ ext s s'
  /\ assigns s' = assigns s /\ trail s' = trail s /\ trail_lim s' = trail_lim s
  /\ qhead s' = qhead s /\ order_heap s' = order_heap s /\ ok s' = ok s
  /\ length (vardata s') = length (vardata s)
  /\ Forall2 (fun cr cr' => exists c, ca_mem (ca s) cr = Some c /\ ca_mem (ca s') cr' = Some c)
       (learnts s) (learnts s').
Proof.
  intros Hwf H. unfold checkGarbage in H.
  destruct (d_ltb _ _).
  - destruct (garbageCollect_inv s s' Hwf H) as (A1 & A2 & A3 & A4 & A5 & A6 & A7 & A8 & A9 & A10 & A11 & _).
    splits; auto.
  - inversion H; subst s'. splits; auto; try apply ext_refl.
    pose proof (wf_learnts (wf_m Hwf)) as HL.
    induction (learnts s) as [|x l IH]; constructor.
    + destruct (HL x (or_introl eq_refl)) as (c & E & _). exists c. auto.
    + apply IH. intros y I. apply HL. right. exact I.
Qed.

(** [reduceDB] keeps the invariants, the assignment and the original
    clauses; the learnt clauses it leaves are those of [reduce_keep], taken
    from the sorted list, with their literals. *)
Lemma reduceDB_inv (s s' : Solver D) :
  WF s -> reduceDB s = Ok s' ->
  WF s' /\ (CUR s -> CUR s') /\ ext s s'
  /\ assigns s' = assigns s /\ trail s' = trail s /\ trail_lim s' = trail_lim s
  /\ qhead s' = qhead s /\ order_heap s' = order_heap s /\ ok s' = ok s
  /\ length (vardata s') = length (vardata s)
  /\ exists sorted,
       sort_learnts (ca s) (learnts s) = Ok sorted
       /\ Forall2 (fun cr cr' => exists c c', ca_mem (ca s) cr = Some c
                                  /\ ca_mem (ca s') cr' = Some c'
                                  /\ cl_lits c' = cl_lits c)
            (reduce_keep s (length sorted / 2) 0 sorted) (learnts s').
Proof.
  intros Hwf H. unfold reduceDB in H.
  apply bind_Ok in H. destruct H as (sorted & Es & H).
  apply bind_Ok in H. destruct H as ([s3 kept] & El & H).
  cbn [ca learnts set_nb_reducedb] in Es.
  pose proof (sort_learnts_perm _ _ _ Es) as Pm.
  set (s2 := set_learnts (set_nb_reducedb s (incr64 (nb_reducedb s))) sorted) in *.
  destruct (WF_offclause s s2 Hwf) as (W2 & C2 & X2); try reflexivity; auto.
  { intros cr c E. exists c. auto. }
  { intros x I. apply (Permutation_in _ Pm). exact I. }
  apply reduceDB_loop_spec in El.
  destruct El as (K & G1 & G2 & G3 & G4 & G5 & G6 & G7 & G8 & G9 & G10 & G11 & Gm).
  cbn [app] in K.
  change (assigns s2) with (assigns s) in G1. change (vardata s2) with (vardata s) in G2.
  change (trail s2) with (trail s) in G3. change (trail_lim s2) with (trail_lim s) in G4.
  change (qhead s2) with (qhead s) in G5. change (order_heap s2) with (order_heap s) in G6.
  change (watches s2) with (watches s) in G7. change (clauses s2) with (clauses s) in G8.
  change (ok s2) with (ok s) in G10. change (ca s2) with (ca s) in G11.
  assert (RK : reduce_keep s2 (length sorted / 2) 0 sorted
               = reduce_keep s (length sorted / 2) 0 sorted).
  { apply reduce_keep_frame; try reflexivity. intros cr _.
    change (ca s2) with (ca s). destruct (ca_mem (ca s) cr) as [c|]; eauto. }
  rewrite RK in K. clear RK.
  assert (Hls : forall cr, In cr sorted ->
                  exists c, ca_mem (ca s) cr = Some c /\ cl_learnt c = true).
  { intros cr I. apply (wf_learnts (wf_m Hwf)). apply (Permutation_in _ Pm). exact I. }
  assert (Hmem : forall cr c, ca_mem (ca s) cr = Some c ->
                   exists c', ca_mem (ca s3) cr = Some c' /\ cl_lits c' = cl_lits c
                              /\ cl_learnt c' = cl_learnt c /\ cl_reloced c' = cl_reloced c
                              /\ (~ In cr sorted -> c' = c)).
  { intros cr c E. specialize (Gm cr). change (ca s2) with (ca s) in Gm. rewrite E in Gm.
    destruct Gm as [Gm|(I & Gm)].
    - exists c. auto.
    - exists (set_cl_mark c 1). splits; auto. intros N. contradiction. }
  set (s4 := set_learnts s3 kept) in *.
  destruct (WF_offclause s s4 Hwf) as (W4 & C4 & X4); auto.
  - intros cr I. change (ca s4) with (ca s3).
    destruct (wf_orig (wf_m Hwf) cr I) as (c & E & L).
    destruct (Hmem cr c E) as (c' & E' & _ & _ & _ & Same). rewrite E', E. f_equal.
    apply Same. intros J. destruct (Hls cr J) as (cx & Ex & Lx). congruence.
  - intros cr c E. destruct (Hmem cr c E) as (c' & E' & _ & L & R & _). exists c'. auto.
  - intros cr E. specialize (Gm cr). change (ca s2) with (ca s) in Gm. rewrite E in Gm. exact Gm.
  - intros x I. change (learnts s4) with kept in I. rewrite K in I.
    apply reduce_keep_incl in I. apply (Permutation_in _ Pm). exact I.
  - change (vardata s4) with (vardata s3). rewrite G2. reflexivity.
  - destruct (checkGarbage_inv s4 s' W4 H)
      as (A1 & A2 & A3 & A4 & A5 & A6 & A7 & A8 & A9 & A10 & A11).
    change (assigns s4) with (assigns s3) in A4. change (trail s4) with (trail s3) in A5.
    change (trail_lim s4) with (trail_lim s3) in A6. change (qhead s4) with (qhead s3) in A7.
    change (order_heap s4) with (order_heap s3) in A8. change (ok s4) with (ok s3) in A9.
    change (vardata s4) with (vardata s3) in A10.
    splits; try congruence; auto.
    + eapply ext_trans; eauto.
    + exists sorted. split; auto.
      change (learnts s4) with kept in A11. rewrite K in A11.
      eapply Forall2_mono; [|exact A11]. intros a b (c4 & Ea & Eb).
      change (ca s4) with (ca s3) in Ea.
      specialize (Gm a). change (ca s2) with (ca s) in Gm.
      destruct (ca_mem (ca s) a) as [c|] eqn:E; [|congruence].
      exists c, c4. splits; auto.
      destruct Gm as [Gm|(_ & Gm)]; rewrite Gm in Ea; inversion Ea; reflexivity.
Qed.

End Collect.

(** * Search *)

Section Search.
Context {D : Type} {FO : FloatOps D}.

(** ** Branching *)

Lemma heap_top_In (lt : Var -> Var -> bool) : forall h best,
  In (heap_top lt best h) (best :: h).
Proof.
  induction h as [|x t IH]; intros best; simpl; [auto|].
  destruct (IH (if lt x best then x else best)) as [E|I]; [|auto].
  rewrite <- E. destruct (lt x best); auto.
Qed.

Lemma heap_remove_In (m : Var) : forall h y, In y (heap_remove m h) -> In y h.
Proof.
  induction h as [|x t IH]; intros y I; simpl in *; [auto|].
  destruct (Nat.eqb m x); [auto|]. destruct I as [I|I]; auto.
Qed.

Lemma heap_remove_other (m : Var) : forall h y, In y h -> y <> m -> In y (heap_remove m h).
Proof.
  induction h as [|x t IH]; intros y I N; simpl in *; [auto|].
  destruct (Nat.eqb_spec m x) as [E|E].
  - destruct I as [I|I]; [congruence|exact I].
  - destruct I as [I|I]; [left; exact I|right; apply IH; auto].
Qed.

Lemma heap_removeMin_Ok lt h m h' :
  heap_removeMin lt h = Ok (m, h') ->
  In m h /\ (forall y, In y h' -> In y h) /\ (forall y, In y h -> y <> m -> In y h').
Proof.
  unfold heap_removeMin. destruct h as [|x t]; [discriminate|]. intros H.
  assert (Em : m = heap_top lt x t) by (inversion H; reflexivity).
  assert (Eh : h' = heap_remove m (x :: t)) by (inversion H; reflexivity).
  subst h'. splits.
  - rewrite Em. apply heap_top_In.
  - apply heap_remove_In.
  - apply heap_remove_other.
Qed.

Lemma WF_set_heap (s : Solver D) (h : Heap) :
  WF s -> (forall x, nth_error (assigns s) x = Some l_Undef -> In x h) ->
  WF (set_order_heap s h).
Proof.
  intros [[A1 A2 A3 A4 A5] Ht Hm Hw Hp] Hh.
  assert (V : core_eq s (set_order_heap s h)) by (apply core_eq_refl; reflexivity).
  constructor.
  - constructor; auto.
  - apply (WFt_cong (s := s)); auto.
  - apply (WFm_cong (s := s)); auto.
  - apply (WFw_cong (s := s)); auto.
  - apply (PF_cong (s := s)); auto.
Qed.

Lemma pickBranch_loop_spec : forall fuel (s : Solver D) next r s',
  pickBranch_loop fuel s next = Ok (r, s') ->
  (forall x, nth_error (assigns s) x = Some l_Undef -> In x (order_heap s) \/ next = Some x) ->
  s' = set_order_heap s (order_heap s')
  /\ (forall x, nth_error (assigns s) x = Some l_Undef -> In x (order_heap s') \/ r = Some x)
  /\ match r with
     | Some x => nth_error (assigns s) x = Some l_Undef
     | None => forall x, nth_error (assigns s) x <> Some l_Undef
     end.
Proof.
  assert (Again : forall (s : Solver D) next,
            (match next with
             | None => Ok true
             | Some x => v <- valueVar s x ;; Ok (negb (lbool_eqb v l_Undef))
             end) = Ok false ->
            exists x, next = Some x /\ nth_error (assigns s) x = Some l_Undef).
  { intros s [x|] H; [|discriminate]. exists x. split; auto.
    apply bind_Ok in H. destruct H as (v & Ev & H). apply get_Ok in Ev.
    inversion H as [H']. apply negb_false_iff, lbool_eqb_eq in H'. subst v. exact Ev. }
  assert (Again' : forall (s : Solver D) next,
            (match next with
             | None => Ok true
             | Some x => v <- valueVar s x ;; Ok (negb (lbool_eqb v l_Undef))
             end) = Ok true ->
            forall x, next = Some x -> nth_error (assigns s) x <> Some l_Undef).
  { intros s [y|] H x E; [|discriminate]. inversion E; subst y.
    apply bind_Ok in H. destruct H as (v & Ev & H). apply get_Ok in Ev.
    inversion H as [H']. apply negb_true_iff in H'. rewrite Ev. intros X.
    inversion X; subst v. discriminate. }
  assert (Stop : forall (s : Solver D) next r s' again,
            (forall x, nth_error (assigns s) x = Some l_Undef ->
                       In x (order_heap s) \/ next = Some x) ->
            (match next with
             | None => Ok true
             | Some x => v <- valueVar s x ;; Ok (negb (lbool_eqb v l_Undef))
             end) = Ok again ->
            (if again : bool then
               if heap_empty (order_heap s) then Ok (None, s) else Err OutOfFuel
             else Ok (next, s)) = Ok (r, s') ->
            s' = set_order_heap s (order_heap s')
            /\ (forall x, nth_error (assigns s) x = Some l_Undef ->
                          In x (order_heap s') \/ r = Some x)
            /\ match r with
               | Some x => nth_error (assigns s) x = Some l_Undef
               | None => forall x, nth_error (assigns s) x <> Some l_Undef
               end).
  { intros s next r s' again Hh Ea H.
    destruct again.
    - destruct (order_heap s) as [|y t] eqn:Eh; [|discriminate]. simpl in H.
      inversion H; subst r s'. rewrite Eh. splits.
      + destruct s; simpl in *. subst. reflexivity.
      + intros x Hx. destruct (Hh x Hx) as [[]|E]. exfalso.
        apply (Again' s next Ea x E Hx).
      + intros x Hx. destruct (Hh x Hx) as [[]|E]. apply (Again' s next Ea x E Hx).
    - inversion H; subst r s'. destruct (Again s next Ea) as (x & -> & Hx). splits; auto.
      destruct s; reflexivity. }
  induction fuel as [|fuel IH]; intros s next r s' H Hh.
  - cbn [pickBranch_loop] in H. apply bind_Ok in H. destruct H as (again & Ea & H).
    apply (Stop s next r s' again Hh Ea). exact H.
  - cbn [pickBranch_loop] in H. apply bind_Ok in H. destruct H as (again & Ea & H).
    destruct again.
    + destruct (heap_empty (order_heap s)) eqn:Ee.
      * apply (Stop s next r s' true Hh Ea). rewrite Ee. exact H.
      * apply bind_Ok in H. destruct H as ([x h] & Er & H).
        apply heap_removeMin_Ok in Er. destruct Er as (Ix & Sub & Oth).
        apply IH in H.
        -- destruct H as (E & F & G). cbn [assigns set_order_heap] in F, G.
           splits; auto.
        -- cbn [assigns set_order_heap order_heap]. intros y Hy.
           destruct (Nat.eq_dec y x) as [->|N]; [right; reflexivity|left].
           apply Oth; auto. destruct (Hh y Hy) as [I|E]; auto.
           exfalso. apply (Again' s next Ea y E Hy).
    + apply (Stop s next r s' false Hh Ea). exact H.
Qed.

Lemma pickBranchLit_spec (s : Solver D) (l : Lit) s' :
  pickBranchLit s = Ok (l, s') ->
  (forall x, nth_error (assigns s) x = Some l_Undef -> In x (order_heap s)) ->
  exists h dcs,
    s' = set_decisions (set_order_heap s h) dcs
    /\ (l = lit_Undef -> forall x, nth_error (assigns s) x <> Some l_Undef)
    /\ (l <> lit_Undef ->
        value s l = Ok l_Undef
        /\ Vec.get (polarity s) (var l) = Ok (sign l)
        /\ forall x, nth_error (assigns s) x = Some l_Undef -> In x h \/ x = var l).
Proof.
  intros H Hh. unfold pickBranchLit in H.
  apply bind_Ok in H. destruct H as ([next s1] & Ep & H).
  apply pickBranch_loop_spec in Ep; [|intros x Hx; left; apply Hh; exact Hx].
  destruct Ep as (E1 & F & G).
  destruct next as [x|].
  - apply bind_Ok in H. destruct H as (po & Epo & H).
    inversion H; subst l s'. clear H.
    exists (order_heap s1), (incr64 (decisions s1)). splits.
    + rewrite E1 at 1. reflexivity.
    + intros X. pose proof (mkLit_nonneg x po). unfold lit_Undef in X. lia.
    + intros _. splits.
      * apply value_Undef_iff. split; [apply mkLit_nonneg|]. rewrite var_mkLit. exact G.
      * rewrite var_mkLit, sign_mkLit. rewrite E1 in Epo. exact Epo.
      * intros y Hy. rewrite var_mkLit. destruct (F y Hy) as [I|E]; [left; exact I|right].
        inversion E. reflexivity.
  - inversion H; subst l s'. clear H.
    exists (order_heap s1), (decisions s). splits.
    + rewrite E1 at 1. destruct s; reflexivity.
    + intros _. exact G.
    + intros X. contradiction.
Qed.

(** ** One round of [search] *)

Lemma WF_decide (s : Solver D) (h : Heap) dcs (l : Lit) s' :
  WF s -> CUR s -> qhead s = length (trail s) ->
  value s l = Ok l_Undef ->
  (forall x, nth_error (assigns s) x = Some l_Undef -> In x h \/ x = var l) ->
  uncheckedEnqueue (newDecisionLevel (set_decisions (set_order_heap s h) dcs)) l CRef_Undef
    = Ok s' ->
  WF s' /\ CUR s' /\ ext s s' /\ ok s' = ok s.
Proof.
  intros Hwf Hcur Hq Hv Hh H.
  apply uncheckedEnqueue_Ok in H. destruct H as (_ & La & _ & Es').
  set (sh := set_order_heap s (var l :: h)).
  assert (Wh : WF sh).
  { apply WF_set_heap; auto. intros x Hx. destruct (Hh x Hx) as [I| ->]; [right|left]; auto. }
  assert (Ch : CUR sh) by (apply (CUR_same s); auto).
  destruct (WF_newDecisionLevel sh Wh Ch Hq) as (W1 & C1 & R1 & D1).
  assert (Vh : value (newDecisionLevel sh) l = Ok l_Undef) by exact Hv.
  pose proof (WF_enqueued _ l CRef_Undef W1 Vh) as W2.
  pose proof (CUR_enqueued _ l CRef_Undef (wf_qhead (wf_t W1)) C1) as C2.
  pose proof (ext_enqueued _ l CRef_Undef (wf_t W1)) as X2.
  set (T := enqueued (newDecisionLevel sh) l CRef_Undef) in *.
  assert (W3 : WF (set_order_heap T h)).
  { apply WF_set_heap; auto. intros x Hx. unfold T in Hx. simpl in Hx.
    rewrite nth_error_upd in Hx.
    destruct (Nat.eqb_spec (var l) x) as [E|N].
    - exfalso. simpl in Hx. simpl in La.
      destruct (Nat.ltb_spec (var l) (length (assigns s))); [|lia].
      simpl in Hx. destruct (sign l); discriminate.
    - simpl in Hx. destruct (Hh x Hx) as [I|E]; [exact I|congruence]. }
  subst s'. splits.
  - apply (WF_same (set_order_heap T h)); auto.
  - apply (CUR_same T); auto.
  - apply (ext_trans s T).
    + apply (ext_trans s (newDecisionLevel sh)); [|exact X2].
      apply (ext_trans s sh).
      * apply ext_cong; try reflexivity. apply core_eq_refl. reflexivity.
      * apply ext_same_db; auto.
    + apply ext_cong; try reflexivity. apply core_eq_refl. reflexivity.
  - reflexivity.
Qed.

Lemma search_round_inv (s : Solver D) r :
  WF s -> CUR s -> search_round s = Ok r ->
  match r with
  | inr s' => WF s' /\ CUR s' /\ ext s s' /\ ok s' = ok s
  | inl (st, s') =>
      ext s s' /\ ok s' = ok s
      /\ (st = l_True -> WF s' /\ CUR s' /\ qhead s' = length (trail s') /\ all_assigned s')
      /\ (st = l_Undef -> WF s' /\ CUR s')
  end.
Proof.
  intros Hwf Hcur H. unfold search_round in H.
  apply bind_Ok in H. destruct H as ([confl s1] & Ep & H).
  destruct (propagate_inv _ _ _ Hwf Hcur Ep) as (W1 & C1 & Q1 & F1 & _).
  pose proof (pframe_ext s s1 (wf_t Hwf) F1) as X1.
  pose proof (pf_ok F1) as O1.
  destruct (Z.eqb_spec confl CRef_Undef) as [Ec|Nc]; cbn [negb] in H.
  - (* no conflict *)
    specialize (C1 Ec).
    apply bind_Ok in H. destruct H as (restart & _ & H).
    destruct restart.
    + apply bind_Ok in H. destruct H as (s2 & Ec2 & H). inversion H; subst r. clear H.
      set (t := set_lbdQueue s1 (bq_fastclear (lbdQueue s1))) in *.
      assert (Wt : WF t) by (apply (WF_same s1); auto).
      assert (Ct : CUR t) by (apply (CUR_same s1); auto).
      destruct (cancelUntil_inv t 0 s2 Wt Ec2) as (A & B).
      destruct (Nat.eq_dec (decisionLevel t) 0) as [E0|N0].
      * rewrite A by lia. splits; try discriminate; auto.
        eapply ext_trans; [exact X1|]. apply ext_cong; try reflexivity.
        apply core_eq_refl. reflexivity.
      * destruct B as (B1 & B2 & B3 & B4 & _); [lia|].
        splits; try discriminate; auto.
        -- eapply ext_trans; [exact X1|]. apply (ext_trans s1 t).
           ++ apply ext_cong; try reflexivity. apply core_eq_refl. reflexivity.
           ++ apply ext_same_db; auto.
        -- rewrite (sd_ok B4). exact O1.
    + apply bind_Ok in H. destruct H as (s2 & Er & H).
      assert (R2 : WF s2 /\ CUR s2 /\ ext s1 s2 /\ ok s2 = ok s1
                   /\ qhead s2 = length (trail s2)).
      { destruct (nextReduceDB s1 <=? conflicts s1).
        - apply bind_Ok in Er. destruct Er as (t & Et & Er). inversion Er; subst s2. clear Er.
          destruct (reduceDB_inv s1 t W1 Et)
            as (A1 & A2 & A3 & A4 & A5 & A6 & A7 & A8 & A9 & _).
          splits.
          + apply (WF_same t); auto.
          + apply (CUR_same t); auto.
          + eapply ext_trans; [exact A3|]. apply ext_cong; try reflexivity.
            apply core_eq_refl. reflexivity.
          + exact A9.
          + simpl. rewrite A7, A5. exact Q1.
        - inversion Er; subst s2. splits; auto. apply ext_refl. }
      destruct R2 as (W2 & C2 & X2 & O2 & Q2).
      apply bind_Ok in H. destruct H as ([next s3] & Epk & H).
      apply pickBranchLit_spec in Epk; [|apply (wf_heap (wf_a W2))].
      destruct Epk as (h & dcs & E3 & K1 & K2).
      destruct (Z.eqb_spec next lit_Undef) as [En|Nn].
      * inversion H; subst r. clear H. specialize (K1 En).
        assert (W3 : WF s3).
        { rewrite E3. apply (WF_same (set_order_heap s2 h)); auto.
          apply WF_set_heap; auto. intros x Hx. exfalso. apply (K1 x Hx). }
        assert (X3 : ext s s3).
        { eapply ext_trans; [exact X1|]. eapply ext_trans; [exact X2|].
          rewrite E3. apply ext_cong; try reflexivity. apply core_eq_refl. reflexivity. }
        splits; auto; try discriminate.
        -- rewrite E3. simpl. congruence.
        -- intros _. splits; auto.
           ++ rewrite E3. apply (CUR_same s2); auto.
           ++ rewrite E3. simpl. exact Q2.
           ++ rewrite E3. exact K1.
      * apply bind_Ok in H. destruct H as (s4 & Ed & H). inversion H; subst r. clear H.
        destruct (K2 Nn) as (Vn & _ & Hh). rewrite E3 in Ed.
        destruct (WF_decide s2 h dcs next s4 W2 C2 Q2 Vn Hh Ed) as (W4 & C4 & X4 & O4).
        splits; auto.
        -- eapply ext_trans; [exact X1|]. eapply ext_trans; [exact X2|exact X4].
        -- congruence.
  - (* conflict *)
    set (s2 := set_conflicts s1 (incr64 (conflicts s1))) in *.
    assert (W2 : WF s2) by (apply (WF_same s1); auto).
    assert (X2 : ext s s2).
    { eapply ext_trans; [exact X1|]. apply ext_cong; try reflexivity.
      apply core_eq_refl. reflexivity. }
    destruct (decisionLevel s2 =? 0)%nat.
    + inversion H; subst r. splits; auto; discriminate.
    + apply bind_Ok in H. destruct H as (s3 & Es & H). inversion H; subst r. clear H.
      destruct (search_conflict_inv s2 confl s3 W2 Es) as (A1 & A2 & A3 & A4).
      splits; auto.
      * eapply ext_trans; eauto.
      * rewrite A4. exact O1.
Qed.

Lemma search_loop_inv : forall fuel (s : Solver D) st s',
  WF s -> CUR s -> search_loop fuel s = Ok (st, s') ->
  ext s s' /\ ok s' = ok s
  /\ (st = l_True -> WF s' /\ CUR s' /\ qhead s' = length (trail s') /\ all_assigned s')
  /\ (st = l_Undef -> WF s' /\ CUR s').
Proof.
  induction fuel as [|fuel IH]; intros s st s' Hwf Hcur H; [discriminate|].
  cbn [search_loop] in H. apply bind_Ok in H. destruct H as (r & Er & H).
  pose proof (search_round_inv s r Hwf Hcur Er) as R.
  destruct r as [[st0 s0]|s1].
  - inversion H; subst st0 s0. exact R.
  - destruct R as (W1 & C1 & X1 & O1).
    destruct (IH s1 st s' W1 C1 H) as (X & O & T & U).
    splits; auto; [eapply ext_trans; eauto|congruence].
Qed.

Lemma solve_loop_inv : forall fuel (s : Solver D) st s',
  WF s -> CUR s -> solve_loop fuel s = Ok (st, s') ->
  ext s s' /\ ok s' = ok s
  /\ (st = l_True -> WF s' /\ CUR s' /\ qhead s' = length (trail s') /\ all_assigned s').
Proof.
  induction fuel as [|fuel IH]; intros s st s' Hwf Hcur H; [discriminate|].
  cbn [solve_loop] in H.
  set (s1 := set_starts s (incr64 (starts s))) in *.
  assert (W1 : WF s1) by (apply (WF_same s); auto).
  assert (C1 : CUR s1) by (apply (CUR_same s); auto).
  assert (X1 : ext s s1).
  { apply ext_cong; try reflexivity. apply core_eq_refl. reflexivity. }
  apply bind_Ok in H. destruct H as ([status s2] & Es & H).
  unfold search in Es. apply bind_Ok in Es. destruct Es as (_ & _ & Es).
  destruct (search_loop_inv fuel s1 status s2 W1 C1 Es) as (X2 & O2 & T2 & U2).
  change (ok s1) with (ok s) in O2.
  assert (X : ext s s2) by (eapply ext_trans; eauto).
  destruct (negb (withinBudget s2)).
  - inversion H; subst st s'. splits; auto.
  - destruct (lbool_eqb status l_Undef) eqn:Eu.
    + apply lbool_eqb_eq in Eu. destruct (U2 Eu) as (W2 & C2).
      destruct (IH s2 st s' W2 C2 H) as (X3 & O3 & T3).
      splits; auto; [eapply ext_trans; eauto|congruence].
    + inversion H; subst st s'. splits; auto.
Qed.

(** ** [solve_] *)

Lemma copy_model_spec (s : Solver D) : forall n i m m',
  copy_model s n i m = Ok m' ->
  length m' = length m
  /\ (forall j, (i <= j < i + n)%nat -> nth_error m' j = nth_error (assigns s) j)
  /\ (forall j, (j < i)%nat -> nth_error m' j = nth_error m j).
Proof.
  induction n as [|n IH]; intros i m m' H.
  - inversion H; subst. splits; auto. intros j Hj. lia.
  - cbn [copy_model] in H.
    apply bind_Ok in H. destruct H as (v & Ev & H). apply get_Ok in Ev.
    apply bind_Ok in H. destruct H as (m1 & Em & H).
    apply set_Ok in Em. destruct Em as (Li & ->).
    apply IH in H. destruct H as (L & A & B). rewrite length_upd in L. splits; auto.
    + intros j Hj. destruct (Nat.eq_dec j i) as [->|N].
      * rewrite B by lia. rewrite nth_error_upd_eq by exact Li. symmetry. exact Ev.
      * apply A. lia.
    + intros j Hj. rewrite B by lia. apply nth_error_upd_ne. lia.
Qed.

Lemma cancel_loop_model : forall lits (s s' : Solver D),
  cancel_loop s lits = Ok s' -> model s' = model s.
Proof.
  induction lits as [|l rest IH]; intros s s' H.
  - inversion H. reflexivity.
  - cbn [cancel_loop] in H.
    apply bind_Ok in H. destruct H as (x & _ & H).
    apply bind_Ok in H. destruct H as (a & _ & H).
    apply bind_Ok in H. destruct H as (po & _ & H).
    apply IH in H. rewrite H. unfold insertVarOrder.
    destruct (heap_inHeap _ _); reflexivity.
Qed.

Lemma cancelUntil_model (s s' : Solver D) (L : nat) :
  cancelUntil s L = Ok s' -> model s' = model s.
Proof.
  unfold cancelUntil. destruct (L <? decisionLevel s)%nat; [|intros H; inversion H; reflexivity].
  intros H.
  apply bind_Ok in H. destruct H as (lim & _ & H).
  apply bind_Ok in H. destruct H as (s1 & E1 & H).
  apply bind_Ok in H. destruct H as (t & _ & H).
  apply bind_Ok in H. destruct H as (tl & _ & H).
  apply bind_Ok in H. destruct H as (_ & _ & H).
  inversion H. simpl. apply (cancel_loop_model _ _ _ E1).
Qed.

(** With every variable assigned and propagation complete, every original
    clause has a true literal. *)
Lemma assigned_sat (s : Solver D) :
  WF s -> CUR s -> qhead s = length (trail s) -> all_assigned s ->
  forall cr ls, In cr (clauses s) -> lits_at s cr ls ->
    exists l, In l ls /\ value s l = Ok l_True.
Proof.
  intros Hwf Hcur Hq Hall cr ls Ic Hl.
  destruct (CUR_unit_closed s Hwf Hcur Hq cr ls Ic Hl) as [H|(a & b & _ & Ia & _ & Va & _)].
  - exact H.
  - exfalso. apply value_Undef_iff in Va. destruct Va as (_ & Va). apply (Hall _ Va).
Qed.

Lemma assigned_accounted (s : Solver D) (ps : list Lit) :
  WF s -> CUR s -> qhead s = length (trail s) -> all_assigned s ->
  accounted s ps -> exists l, In l ps /\ value s l = Ok l_True.
Proof.
  intros Hwf Hcur Hq Hall [(l & Il & Ir)|[(cr & ls & Ic & Hl & Inc)|(l & Il & In' & L0 & Lv)]].
  - exists l. split; auto. apply (wf_trail_true (wf_a Hwf)).
    unfold root in Ir. apply (In_firstn _ _ _ Ir).
  - destruct (assigned_sat s Hwf Hcur Hq Hall cr ls Ic Hl) as (l & Il & Vl).
    exists l. split; auto.
  - destruct (@value_defined _ s l L0) as (v & Ev).
    { rewrite (wf_assigns_len (wf_a Hwf)). exact Lv. }
    destruct v.
    + exists l. auto.
    + exists (neg l). split; auto. apply value_neg in Ev. exact Ev.
    + exfalso. apply value_Undef_iff in Ev. destruct Ev as (_ & Ev). apply (Hall _ Ev).
Qed.

(** When [solve] answers [l_True], the model gives a value to every variable
    and makes a literal true in every original clause and in every clause
    accounted for. *)
Lemma solve_model (s s' : Solver D) (fuel : nat) :
  WF s -> CUR s -> solve fuel s = Ok (l_True, s') ->
  (forall x, (x < nVars s)%nat ->
     exists v, nth_error (model s') x = Some v /\ v <> l_Undef)
  /\ (forall cr ls, In cr (clauses s) -> lits_at s cr ls ->
        exists l, In l ls /\ model_value (model s') l = Some l_True)
  /\ (forall ps, accounted s ps ->
        exists l, In l ps /\ model_value (model s') l = Some l_True).
Proof.
  intros Hwf Hcur H. unfold solve, solve_ in H.
  set (s0 := set_model (budgetOff s) []) in *.
  assert (W0 : WF s0) by (apply (WF_same s); auto).
  assert (C0 : CUR s0) by (apply (CUR_same s); auto).
  assert (X0 : ext s s0).
  { apply ext_cong; try reflexivity. apply core_eq_refl. reflexivity. }
  destruct (negb (ok s0)); [discriminate|].
  apply bind_Ok in H. destruct H as ([status s1] & El & H).
  apply bind_Ok in H. destruct H as (s2 & Em & H).
  apply bind_Ok in H. destruct H as (s3 & Ec & H).
  inversion H; subst status s3. clear H. cbn [lbool_eqb] in Em.
  apply bind_Ok in Em. destruct Em as (m & Em & E2). inversion E2; subst s2. clear E2.
  destruct (solve_loop_inv fuel s0 l_True s1 W0 C0 El) as (X1 & _ & T).
  destruct (T eq_refl) as (W1 & C1 & Q1 & A1). clear T.
  apply cancelUntil_model in Ec. cbn [model set_model] in Ec.
  apply copy_model_spec in Em. destruct Em as (_ & Hm & _).
  assert (X : ext s s1) by (eapply ext_trans; eauto).
  pose proof (wf_assigns_len (wf_a W1)) as La.
  assert (MV : forall l, value s1 l = Ok l_True -> model_value (model s') l = Some l_True).
  { intros l Vl. apply value_Ok in Vl. destruct Vl as (L0 & a & Ea & Ex).
    unfold model_value. rewrite Ec, Hm.
    - rewrite Ea. simpl. congruence.
    - assert (var l < length (assigns s1))%nat by (apply nth_error_Some; congruence). lia. }
  splits.
  - intros x Hx. rewrite Ec, Hm by (pose proof (ext_nvars X); lia).
    destruct (nth_error (assigns s1) x) as [v|] eqn:Ev.
    + exists v. split; auto. intros ->. apply (A1 x Ev).
    + apply nth_error_None in Ev. pose proof (ext_nvars X). lia.
  - intros cr ls Ic Hl. destruct (ext_clauses X cr ls Ic Hl) as (cr' & ls' & Ic' & Hl' & Pm).
    destruct (assigned_sat s1 W1 C1 Q1 A1 cr' ls' Ic' Hl') as (l & Il & Vl).
    exists l. split; [apply (Permutation_in _ (Permutation_sym Pm)); exact Il|auto].
  - intros ps Hps. pose proof (ext_accounted s s1 ps X Hps) as Hps1.
    destruct (assigned_accounted s1 ps W1 C1 Q1 A1 Hps1) as (l & Il & Vl).
    exists l. auto.
Qed.

(** ** The formula entered *)

Lemma enter_inv : forall ops (s s' : Solver D),
  enter s ops = Ok s' ->
  (ok s = true -> WF s /\ CUR s) ->
  (ok s' = true -> ok s = true)
  /\ (ok s' = true ->
      WF s' /\ CUR s' /\ ext s s'
      /\ forall ps, In (AddClause ps) ops -> accounted s' ps).
Proof.
  induction ops as [|op rest IH]; intros s s' H Hs.
  - inversion H; subst s'. split; auto. intros O. destruct (Hs O). splits; auto.
    + apply ext_refl.
    + intros ps [].
  - destruct op as [sgn|ps]; cbn [enter] in H.
    + destruct (newVar_fields s sgn) as (_ & _ & _ & _ & _ & _ & _ & _ & _ & _ & _ & _ & Ok1).
      apply IH in H.
      * destruct H as (O & K). split; [intros X; rewrite <- Ok1; auto|].
        intros X. destruct (K X) as (W & C & E & A).
        assert (Os : ok s = true) by (rewrite <- Ok1; auto).
        destruct (Hs Os) as (Ws & Cs).
        destruct (WF_newVar s sgn Ws) as (_ & _ & E1 & _).
        splits; auto.
        -- eapply ext_trans; eauto.
        -- intros ps [I|I]; [discriminate|auto].
      * intros X. rewrite Ok1 in X. destruct (Hs X) as (Ws & Cs).
        destruct (WF_newVar s sgn Ws) as (W1 & C1 & _). auto.
    + apply bind_Ok in H. destruct H as ([[b ps'] s1] & Ea & H).
      destruct (ok s) eqn:Os.
      * destruct (Hs eq_refl) as (Ws & Cs).
        destruct (addClause_inv s ps b ps' s1 Ws Cs Ea) as (E1 & _ & _ & _ & K1).
        apply IH in H; [|intros X; destruct (K1 X) as (? & ? & ?); auto].
        destruct H as (O & K). split; [auto|].
        intros X. destruct (K X) as (W & C & E & A).
        destruct (K1 (O X)) as (_ & _ & A1).
        splits; auto.
        -- eapply ext_trans; eauto.
        -- intros qs [I|I]; [|auto]. inversion I; subst qs.
           apply (ext_accounted s1 s'); auto.
      * apply addClause_cases in Ea. destruct Ea as (_ & [(_ & _ & _ & ->)|(Ot & _)]);
          [|congruence].
        apply IH in H; [|intros X; congruence].
        destruct H as (O & K).
        split; intros X; exfalso; rewrite (O X) in Os; discriminate.
Qed.

End Search.

(** * The learnt clause and the backjump *)

Section Learnt.
Context {D : Type} {FO : FloatOps D}.

Lemma cancelUntil_trail (s : Solver D) (L : nat) s' :
  WFt s -> (L < decisionLevel s)%nat -> cancelUntil s L = Ok s' ->
  exists lim, nth_error (trail_lim s) L = Some lim
    /\ trail s' = firstn lim (trail s) /\ trail_lim s' = firstn L (trail_lim s)
    /\ qhead s' = lim /\ (lim <= length (trail s))%nat.
Proof.
  intros Ht HL H. unfold cancelUntil in H.
  destruct (Nat.ltb_spec L (decisionLevel s)) as [_|X]; [|lia].
  apply bind_Ok in H. destruct H as (lim & Elim & H). apply get_Ok in Elim.
  apply bind_Ok in H. destruct H as (s1 & E1 & H).
  apply cancel_loop_Ok in E1. destruct E1 as (B1 & B2 & B3 & B4 & B5 & B6 & B7).
  apply bind_Ok in H. destruct H as (t & Et & H). apply shrink_Ok in Et. destruct Et as [_ Et].
  apply bind_Ok in H. destruct H as (tl & Etl & H). apply shrink_Ok in Etl.
  destruct Etl as [_ Etl].
  apply bind_Ok in H. destruct H as (u & Ea & H).
  inversion H; subst s'. clear H. simpl in Et, Etl.
  pose proof (wf_lim_qhead Ht lim (nth_error_In _ _ Elim)) as Hl1.
  pose proof (wf_qhead Ht) as Hl2.
  exists lim. splits; auto.
  - simpl. rewrite Et, B2. f_equal. lia.
  - simpl. rewrite Etl, B3. f_equal. unfold decisionLevel in HL. lia.
  - lia.
Qed.

Lemma skipn_cons_nth {A} : forall i (l : list A) a t,
  skipn i l = a :: t -> nth_error l i = Some a /\ skipn (S i) l = t.
Proof.
  induction i as [|i IH]; intros l a t H.
  - destruct l; simpl in H; inversion H; subst. auto.
  - destruct l as [|b l]; [discriminate|]. apply (IH l a t). exact H.
Qed.

Lemma skipn_nil_length {A} (i : nat) (l : list A) : skipn i l = [] -> (length l <= i)%nat.
Proof.
  intros H. apply (f_equal (@length A)) in H. rewrite length_skipn in H. simpl in H. lia.
Qed.

(** The loop that looks for the literal of the highest level: the index it
    returns is the start or one it has visited, and the level there is not
    below the level of the start and of any position visited. *)
Lemma max_level_index_spec (s : Solver D) out : forall t i m r,
  max_level_index s out i t m = Ok r ->
  skipn i out = t ->
  (r = m \/ ((i <= r)%nat /\ (r < length out)%nat))
  /\ forall qr lr, nth_error out r = Some qr -> 0 <= qr -> level s (var qr) = Ok lr ->
       forall k q, (k = m \/ (i <= k)%nat) -> nth_error out k = Some q ->
         0 <= q /\ exists lk, level s (var q) = Ok lk /\ (lk <= lr)%nat.
Proof.
  induction t as [|q0 t IH]; intros i m r H Hs.
  - simpl in H. inversion H; subst r. split; [left; reflexivity|].
    intros qr lr Hq N0 Hl k q [->|Hk] Hn.
    + rewrite Hq in Hn. inversion Hn; subst q. split; [exact N0|]. exists lr. auto.
    + apply skipn_nil_length in Hs.
      assert (X : nth_error out k = None) by (apply nth_error_None; lia). congruence.
  - simpl in H.
    apply bind_Ok in H. destruct H as (x & Ex & H). apply varI_Ok in Ex. destruct Ex as [Q0 ->].
    apply bind_Ok in H. destruct H as (li & Eli & H).
    apply bind_Ok in H. destruct H as (qm & Eqm & H). apply get_Ok in Eqm.
    apply bind_Ok in H. destruct H as (xm & Exm & H). apply varI_Ok in Exm.
    destruct Exm as [Qm ->].
    apply bind_Ok in H. destruct H as (lm & Elm & H).
    apply skipn_cons_nth in Hs. destruct Hs as [Hi Hs].
    assert (Li : (i < length out)%nat) by (apply nth_error_Some; congruence).
    apply IH in H; [|exact Hs]. destruct H as (R1 & R3).
    destruct (Nat.ltb_spec lm li) as [Lt|Ge].
    + split.
      * destruct R1 as [->|[R1 R2]]; right; lia.
      * intros qr lr Hq N0 Hl k q Hk Hn.
        destruct (R3 qr lr Hq N0 Hl i q0 (or_introl eq_refl) Hi) as (_ & li' & Eli' & Hle).
        assert (li' = li) by congruence. subst li'.
        destruct Hk as [->|Hk].
        -- rewrite Eqm in Hn. inversion Hn; subst q. split; [exact Qm|].
           exists lm. split; [exact Elm|lia].
        -- destruct (Nat.eq_dec k i) as [->|Nk].
           ++ rewrite Hi in Hn. inversion Hn; subst q. split; [exact Q0|]. exists li. auto.
           ++ apply (R3 qr lr Hq N0 Hl k q); [right; lia|exact Hn].
    + split.
      * destruct R1 as [->|[R1 R2]]; [left; reflexivity|right; lia].
      * intros qr lr Hq N0 Hl k q Hk Hn.
        destruct (R3 qr lr Hq N0 Hl m qm (or_introl eq_refl) Eqm) as (_ & lm' & Elm' & Hle).
        assert (lm' = lm) by congruence. subst lm'.
        destruct Hk as [->|Hk].
        -- apply (R3 qr lr Hq N0 Hl m q); [left; reflexivity|exact Hn].
        -- destruct (Nat.eq_dec k i) as [->|Nk].
           ++ rewrite Hi in Hn. inversion Hn; subst q. split; [exact Q0|].
              exists li. split; [exact Eli|lia].
           ++ apply (R3 qr lr Hq N0 Hl k q); [right; lia|exact Hn].
Qed.

(** The end of [analyze]: the asserting literal is at position 0; a clause
    of one literal gives level 0; otherwise one swap brings to position 1 a
    literal whose level is the level returned, and no literal from position
    1 on has a higher level. *)
Lemma analyze_finish_spec (s : Solver D) p out out' lv :
  analyze_finish s p out = Ok (out', lv) ->
  nth_error out' 0 = Some (neg p) /\ length out' = length out
  /\ ((length out = 1)%nat -> lv = O /\ out' = [neg p])
  /\ ((length out <> 1)%nat ->
      exists m o1 l1,
        (1 <= m < length out)%nat
        /\ nth_error out 1 = Some o1 /\ nth_error out m = Some l1
        /\ out' = Vec.upd (Vec.upd (Vec.upd out 0 (neg p)) m o1) 1 l1
        /\ nth_error out' 1 = Some l1
        /\ 0 <= l1 /\ level s (var l1) = Ok lv
        /\ forall k q, (1 <= k)%nat -> nth_error out' k = Some q ->
             0 <= q /\ exists lk, level s (var q) = Ok lk /\ (lk <= lv)%nat).
Proof.
  unfold analyze_finish. intros H.
  apply bind_Ok in H. destruct H as (out1 & E1 & H). apply set_Ok in E1. destruct E1 as [L1 ->].
  set (out1 := Vec.upd out 0 (neg p)) in *.
  assert (Len1 : length out1 = length out) by apply length_upd.
  destruct (Nat.eqb_spec (length out1) 1) as [E|N].
  - inversion H; subst out' lv. splits.
    + apply nth_error_upd_eq. exact L1.
    + exact Len1.
    + intros _. split; [reflexivity|]. unfold out1.
      destruct out as [|a [|b r]]; simpl in *; try lia; try reflexivity; discriminate.
    + intros X. lia.
  - apply bind_Ok in H. destruct H as (max_i & Em & H).
    apply bind_Ok in H. destruct H as (q & Eq & H). apply get_Ok in Eq.
    apply bind_Ok in H. destruct H as (o1 & Eo & H). apply get_Ok in Eo.
    apply bind_Ok in H. destruct H as (out2 & E2 & H). apply set_Ok in E2.
    destruct E2 as [L2 ->].
    apply bind_Ok in H. destruct H as (out3 & E3 & H). apply set_Ok in E3.
    destruct E3 as [L3 ->].
    apply bind_Ok in H. destruct H as (x & Ex & H). apply varI_Ok in Ex. destruct Ex as [Q0 ->].
    apply bind_Ok in H. destruct H as (l & El & H). inversion H; subst out' lv. clear H.
    rewrite length_upd in L3.
    apply max_level_index_spec in Em; [|reflexivity]. destruct Em as (R1 & R3).
    assert (M1 : (1 <= max_i)%nat) by (destruct R1 as [->|[R1 _]]; lia).
    splits.
    + rewrite nth_error_upd_ne by lia. rewrite nth_error_upd_ne by lia.
      apply nth_error_upd_eq. exact L1.
    + do 2 rewrite length_upd. exact Len1.
    + intros X. lia.
    + intros _. exists max_i, o1, q. splits.
      * lia.
      * unfold out1 in Eo. rewrite nth_error_upd_ne in Eo by lia. exact Eo.
      * unfold out1 in Eq. rewrite nth_error_upd_ne in Eq by lia. exact Eq.
      * reflexivity.
      * apply nth_error_upd_eq. rewrite length_upd. exact L3.
      * exact Q0.
      * exact El.
      * intros k q' Hk Hn. rewrite nth_error_upd in Hn. rewrite length_upd in Hn.
        destruct (Nat.eqb_spec 1 k) as [<-|N1]; simpl in Hn.
        -- destruct (Nat.ltb_spec 1 (length out1)); [|lia]. inversion Hn; subst q'.
           split; [exact Q0|]. exists l. auto.
        -- rewrite nth_error_upd in Hn.
           destruct (Nat.eqb_spec max_i k) as [<-|Nm]; simpl in Hn.
           ++ destruct (Nat.ltb_spec max_i (length out1)); [|lia]. inversion Hn; subst q'.
              apply (R3 q l Eq Q0 El 1%nat o1); [left; reflexivity|exact Eo].
           ++ apply (R3 q l Eq Q0 El k q'); [right; lia|exact Hn].
Qed.

Lemma max_level_index_cong (s s' : Solver D) out :
  vardata s' = vardata s ->
  forall t i m, max_level_index s' out i t m = max_level_index s out i t m.
Proof.
  intros E. induction t as [|q t IH]; intros i m; simpl; [reflexivity|].
  unfold level. rewrite E. destruct (varI q) as [x|]; simpl; [|reflexivity].
  destruct (Vec.get (vardata s) x) as [vd|]; simpl; [|reflexivity].
  destruct (Vec.get out m) as [qm|]; simpl; [|reflexivity].
  destruct (varI qm) as [xm|]; simpl; [|reflexivity].
  destruct (Vec.get (vardata s) xm) as [vm|]; simpl; [|reflexivity].
  apply IH.
Qed.

Lemma analyze_finish_cong (s s' : Solver D) p out :
  vardata s' = vardata s -> analyze_finish s' p out = analyze_finish s p out.
Proof.
  intros E. unfold analyze_finish.
  destruct (Vec.set out 0 (neg p)) as [out1|]; cbn [bind]; [|reflexivity].
  destruct (length out1 =? 1)%nat; [reflexivity|].
  rewrite (max_level_index_cong s s' out1 E).
  destruct (max_level_index s out1 2 (skipn 2 out1) 1) as [m|]; cbn [bind]; [|reflexivity].
  destruct (Vec.get out1 m) as [q|]; cbn [bind]; [|reflexivity].
  destruct (Vec.get out1 1) as [o1|]; cbn [bind]; [|reflexivity].
  destruct (Vec.set out1 m o1) as [out2|]; cbn [bind]; [|reflexivity].
  destruct (Vec.set out2 1 q) as [out3|]; cbn [bind]; [|reflexivity].
  destruct (varI q) as [x|]; cbn [bind]; [|reflexivity].
  unfold level. rewrite E. reflexivity.
Qed.

(** The literals that the resolution loop puts after position 0 have a
    level above 0 and below the decision level. *)
Lemma analyze_lits_levels (s0 : Solver D) : forall qs (s : Solver D) out nb s' out' nb',
  veq s0 s ->
  analyze_lits s qs out nb = Ok (s', out', nb') ->
  (1 <= length out)%nat ->
  (forall k q, (1 <= k)%nat -> nth_error out k = Some q -> low_level s0 q) ->
  forall k q, (1 <= k)%nat -> nth_error out' k = Some q -> low_level s0 q.
Proof.
  induction qs as [|q0 t IH]; intros s out nb s' out' nb' V H L1 P; simpl in H.
  - inversion H; subst. exact P.
  - apply bind_Ok in H. destruct H as (x & Ex & H). apply varI_Ok in Ex. destruct Ex as [Q0 ->].
    apply bind_Ok in H. destruct H as (sn & _ & H).
    apply bind_Ok in H. destruct H as (lv & Elv & H).
    destruct (negb sn && (0 <? lv)%nat) eqn:Eb.
    + apply andb_true_iff in Eb. destruct Eb as [Es Ep].
      destruct sn; [discriminate|]. apply Nat.ltb_lt in Ep.
      apply bind_Ok in H. destruct H as (s1 & E1 & H). apply varBumpActivity_veq in E1.
      apply bind_Ok in H. destruct H as (sn' & _ & H).
      assert (V' : veq s0 (set_seen s1 sn')).
      { eapply veq_trans; [exact V|]. eapply veq_trans; [exact E1|].
        constructor; intros; reflexivity. }
      destruct (Nat.leb_spec (decisionLevel (set_seen s1 sn')) lv) as [Ge|Lt].
      * apply (IH _ _ _ _ _ _ V' H L1 P).
      * apply (IH _ _ _ _ _ _ V' H).
        -- rewrite length_app. simpl. lia.
        -- intros k q Hk Hn. destruct (Nat.lt_ge_cases k (length out)) as [Lk|Gk].
           ++ rewrite nth_error_app1 in Hn by exact Lk. apply (P k q Hk Hn).
           ++ rewrite nth_error_app2 in Hn by exact Gk.
              destruct (k - length out)%nat as [|d]; simpl in Hn; [|destruct d; discriminate].
              inversion Hn; subst q. split; [exact Q0|]. exists lv. split.
              ** rewrite <- Elv. unfold level. rewrite (veq_vardata V). reflexivity.
              ** unfold decisionLevel in *. simpl in Lt.
                 rewrite (veq_trail_lim E1), (veq_trail_lim V) in Lt. lia.
    + apply (IH _ _ _ _ _ _ V H L1 P).
Qed.

Lemma analyze_loop_levels (s0 : Solver D) :
  forall fuel (s : Solver D) confl p out n nb s' p' out',
  veq s0 s ->
  analyze_loop fuel s confl p out n nb = Ok (s', p', out') ->
  (1 <= length out)%nat ->
  (forall k q, (1 <= k)%nat -> nth_error out k = Some q -> low_level s0 q) ->
  forall k q, (1 <= k)%nat -> nth_error out' k = Some q -> low_level s0 q.
Proof.
  induction fuel as [|f IH]; intros s confl p out n nb s' p' out' V H L1 P; simpl in H;
    [discriminate|].
  apply bind_Ok in H. destruct H as (u & _ & H).
  apply bind_Ok in H. destruct H as (c & _ & H).
  apply bind_Ok in H. destruct H as (s2 & E2 & H).
  assert (V2 : veq s0 s2).
  { eapply veq_trans; [exact V|]. destruct (cl_learnt c).
    - apply claBumpActivity_veq in E2. eapply veq_trans; [|exact E2].
      constructor; intros; reflexivity.
    - inversion E2. constructor; intros; reflexivity. }
  apply bind_Ok in H. destruct H as ([[s3 out1] nb1] & E3 & H).
  pose proof (analyze_lits_levels s0 _ _ _ _ _ _ _ V2 E3 L1 P) as P1.
  apply analyze_lits_veq in E3. destruct E3 as (V3 & L3 & _).
  apply bind_Ok in H. destruct H as (i & _ & H).
  apply bind_Ok in H. destruct H as (q & _ & H).
  apply bind_Ok in H. destruct H as (x & _ & H).
  apply bind_Ok in H. destruct H as (confl' & _ & H).
  apply bind_Ok in H. destruct H as (sn & _ & H).
  assert (V4 : veq s0 (set_seen s3 sn)).
  { eapply veq_trans; [exact V2|]. eapply veq_trans; [exact V3|].
    constructor; intros; reflexivity. }
  destruct (0 <? nb1 - 1).
  - apply (IH _ _ _ _ _ _ _ _ _ V4 H); [lia|exact P1].
  - inversion H; subst. exact P1.
Qed.

(** The literals of the learnt clause after position 0 are those that the
    resolution loop has put there. *)
Lemma analyze_finish_from (s : Solver D) p out out' lv :
  analyze_finish s p out = Ok (out', lv) ->
  forall k q, (1 <= k)%nat -> nth_error out' k = Some q ->
    exists k', (1 <= k')%nat /\ nth_error out k' = Some q.
Proof.
  intros H k q Hk Hn.
  destruct (analyze_finish_spec _ _ _ _ _ H) as (_ & Flen & F1 & F2).
  destruct (Nat.eq_dec (length out) 1) as [E1|N1].
  - destruct (F1 E1) as [_ ->]. destruct k; [lia|]. destruct k; discriminate.
  - destruct (F2 N1) as (m & o1 & l1 & Hm & Ho & Hl & -> & _).
    rewrite nth_error_upd in Hn. rewrite !length_upd in Hn.
    destruct (Nat.eqb_spec 1 k) as [<-|Nk]; simpl in Hn.
    + destruct (Nat.ltb_spec 1 (length out)); [|lia]. inversion Hn; subst q.
      exists m. split; [lia|exact Hl].
    + rewrite nth_error_upd in Hn. rewrite length_upd in Hn.
      destruct (Nat.eqb_spec m k) as [<-|Nm]; simpl in Hn.
      * destruct (Nat.ltb_spec m (length out)); [|lia]. inversion Hn; subst q.
        exists 1%nat. split; [lia|exact Ho].
      * rewrite nth_error_upd_ne in Hn by lia. exists k. split; [lia|exact Hn].
Qed.

(** [analyze], cut at the end of its resolution loop. *)
Lemma analyze_spec (s : Solver D) confl s' learnt bt lbd :
  analyze s confl = Ok (s', learnt, bt, lbd) ->
  veq s s'
  /\ exists s1 p out0,
       analyze_loop (S (length (trail s))) s confl lit_Undef [0] (length (trail s)) 0
       = Ok (s1, p, out0)
       /\ In p (trail s)
       /\ analyze_finish s p out0 = Ok (learnt, bt)
       /\ forall k q, (1 <= k)%nat -> nth_error learnt k = Some q -> low_level s q.
Proof.
  intros H. pose proof (analyze_veq _ _ _ _ _ _ H) as [V _]. split; [exact V|].
  unfold analyze in H.
  apply bind_Ok in H. destruct H as ([[s1 p] out0] & E1 & H).
  pose proof (analyze_loop_veq _ _ _ _ _ _ _ _ _ _ E1) as (V1 & Ip & _).
  apply bind_Ok in H. destruct H as ([out bt'] & E2 & H).
  apply bind_Ok in H. destruct H as ([lbd' s2] & E3 & H).
  apply bind_Ok in H. destruct H as (s3 & E4 & H). inversion H; subst.
  assert (Ef : analyze_finish s p out0 = Ok (learnt, bt)).
  { rewrite <- E2. symmetry. apply analyze_finish_cong. apply (veq_vardata V1). }
  exists s1, p, out0. splits; auto.
  intros k q Hk Hn. destruct (analyze_finish_from _ _ _ _ _ Ef k q Hk Hn) as (k' & Hk' & Hn').
  apply (analyze_loop_levels s _ _ _ _ _ _ _ _ _ _ (veq_refl s) E1) with (k := k'); auto.
  intros j x Hj Hx. destruct j; [lia|]. destruct j; discriminate.
Qed.

Lemma enqueued_level_eq (s : Solver D) p from :
  (var p < length (vardata s))%nat ->
  level (enqueued s p from) (var p) = Ok (decisionLevel s)
  /\ reason (enqueued s p from) (var p) = Ok from.
Proof.
  intros Lv.
  assert (G : Vec.get (Vec.upd (vardata s) (var p) (mkVarData from (decisionLevel s))) (var p)
              = Ok (mkVarData from (decisionLevel s))).
  { apply get_Ok. apply nth_error_upd_eq. exact Lv. }
  unfold level, reason, enqueued. simpl. rewrite G. split; reflexivity.
Qed.

Lemma enqueued_level_ne (s : Solver D) p from x :
  x <> var p -> level (enqueued s p from) x = level s x.
Proof.
  intros N. unfold level, enqueued, Vec.get. simpl.
  rewrite nth_error_upd_ne by congruence. reflexivity.
Qed.

(** What the treatment of a conflict does with the clause it learns. *)
Lemma search_conflict_learnt (s : Solver D) confl s' :
  WF s -> search_conflict s confl = Ok s' ->
  exists l0 rest bt lim,
    In (neg l0) (trail s)
    /\ (bt < decisionLevel s)%nat /\ decisionLevel s' = bt
    /\ nth_error (trail_lim s) bt = Some lim
    /\ trail s' = firstn lim (trail s) ++ [l0] /\ qhead s' = lim
    /\ trail_lim s' = firstn bt (trail_lim s)
    /\ value s' l0 = Ok l_True /\ level s' (var l0) = Ok bt
    /\ clauses s' = clauses s
    /\ match rest with
       | [] =>
           bt = O /\ reason s' (var l0) = Ok CRef_Undef
           /\ learnts s' = learnts s /\ watches s' = watches s
           /\ ca_size (ca s') = ca_size (ca s)
       | l1 :: r =>
           let cr := ca_size (ca s) in
           learnts s' = learnts s ++ [cr]
           /\ (exists c lbd, ca_mem (ca s') cr = Some c /\ cl_lits c = l0 :: l1 :: r
                             /\ cl_learnt c = true /\ cl_mark c = 0 /\ cl_lbd c = lbd)
           /\ reason s' (var l0) = Ok cr
           /\ level s' (var l1) = Ok bt
           /\ (forall q, In q (l1 :: r) ->
                 exists lk, level s (var q) = Ok lk /\ (lk <= bt)%nat)
           /\ (forall i ws, nth_error (watches s) i = Some ws ->
                 nth_error (watches s') i =
                 Some (ws ++ (if (i =? Z.to_nat (neg l0))%nat then [mkWatcher cr l1] else [])
                          ++ (if (i =? Z.to_nat (neg l1))%nat then [mkWatcher cr l0] else [])))
           /\ length (watches s') = length (watches s)
       end.
Proof.
  intros Hwf H. unfold search_conflict in H.
  set (s1 := set_trailQueue s (bq_push (trailQueue s) (Z.of_nat (length (trail s))))) in *.
  match type of H with context [analyze ?X confl] => set (s2 := X) in * end.
  assert (V2 : veq s s2).
  { unfold s2. match goal with |- context [if ?b then _ else _] => destruct b end;
      constructor; intros; reflexivity. }
  apply bind_Ok in H. destruct H as ([[[s3 learnt] bt] lbd] & Ean & H).
  apply analyze_spec in Ean. destruct Ean as (V3 & sa & p & out0 & _ & Ip & Efin & _).
  apply analyze_finish_spec in Efin. destruct Efin as (F0 & Flen & F1 & F2).
  set (s4 := set_sumLBD (set_lbdQueue s3 (bq_push (lbdQueue s3) lbd))
                        (d_add (sumLBD s3) (d_of_Z lbd))) in *.
  assert (V4 : veq s s4).
  { eapply veq_trans; [exact V2|]. eapply veq_trans; [exact V3|].
    constructor; intros; reflexivity. }
  pose proof (veq_WF V4 Hwf) as Hwf4.
  apply bind_Ok in H. destruct H as (s5 & Ecu & H).
  pose proof Ecu as Ecu'.
  apply (cancelUntil_inv s4 bt s5 Hwf4) in Ecu. destruct Ecu as [Cno Cyes].
  apply bind_Ok in H. destruct H as (l0 & El0 & H). apply get_Ok in El0.
  rewrite F0 in El0. inversion El0; subst l0. clear El0.
  apply bind_Ok in H. destruct H as (s6 & E6 & H). inversion H; subst s'. clear H.
  assert (Ip2 : In p (trail s)) by (rewrite <- (veq_trail V2); exact Ip).
  assert (Hfalse : value s4 (neg p) = Ok l_False).
  { assert (I4 : In p (trail s4)) by (rewrite (veq_trail V4); exact Ip2).
    apply (wf_trail_true (wf_a Hwf4)) in I4. apply value_neg in I4. exact I4. }
  assert (Hu : value s5 (neg p) = Ok l_Undef).
  { destruct (length learnt =? 1)%nat.
    - apply uncheckedEnqueue_Ok in E6. tauto.
    - apply bind_Ok in E6. destruct E6 as ([cr a] & Eal & E6).
      apply bind_Ok in E6. destruct E6 as (t2 & Eat & E6).
      apply bind_Ok in E6. destruct E6 as (t3 & Ebu & E6). apply claBumpActivity_veq in Ebu.
      apply bind_Ok in E6. destruct E6 as (t4 & Eun & E6).
      apply uncheckedEnqueue_Ok in Eun. destruct Eun as (Hu & _).
      apply attachClause_Ok in Eat.
      destruct Eat as (c & c0 & c1 & r & _ & _ & _ & _ & _ & _ & _ & F).
      destruct F as (_ & _ & _ & _ & Fas & _).
      rewrite <- Hu. apply value_assigns. rewrite (veq_assigns Ebu), Fas. reflexivity. }
  destruct (Nat.ltb_spec bt (decisionLevel s4)) as [L|L].
  2:{ exfalso. rewrite (Cno L) in Hu. congruence. }
  destruct (Cyes L) as (W5 & C5 & R5 & B5 & D5 & Q5).
  destruct (cancelUntil_trail s4 bt s5 (wf_t Hwf4) L Ecu') as (lim & Elim & T5 & TL5 & Q5' & Llim).
  rewrite (veq_trail_lim V4) in Elim, TL5. rewrite (veq_trail V4) in T5.
  assert (L' : (bt < decisionLevel s)%nat).
  { unfold decisionLevel in *. rewrite <- (veq_trail_lim V4). exact L. }
  assert (Lv4 : forall x, level s5 x = level s x).
  { intros x. unfold level. rewrite (sd_vardata B5), (veq_vardata V4). reflexivity. }
  assert (Lev : forall k q, (1 <= k)%nat -> nth_error learnt k = Some q ->
                  exists lk, level s (var q) = Ok lk /\ (lk <= bt)%nat).
  { intros k q Hk Hn. destruct (Nat.eq_dec (length out0) 1) as [E1|N1].
    - destruct (F1 E1) as [_ ->]. destruct k; [lia|]. destruct k; discriminate.
    - destruct (F2 N1) as (m & o1 & l1 & _ & _ & _ & _ & _ & _ & _ & A).
      destruct (A k q Hk Hn) as (_ & lk & E & Le).
      exists lk. split; [|exact Le]. rewrite <- E. unfold level.
      rewrite (veq_vardata V2). reflexivity. }
  exists (neg p), (skipn 1 learnt), bt, lim.
  rewrite neg_neg.
  destruct learnt as [|a [|b r]]; [discriminate| |]; inversion F0; subst a; cbn [skipn];
    cbn [length Nat.eqb] in E6.
  - apply uncheckedEnqueue_Ok in E6. destruct E6 as (_ & La & Lvd & ->).
    fold (enqueued s5 (neg p) CRef_Undef).
    destruct (enqueued_level_eq s5 (neg p) CRef_Undef Lvd) as [G1 G2].
    assert (B0 : bt = O).
    { destruct (Nat.eq_dec (length out0) 1) as [E1|N1]; [apply F1; exact E1|].
      simpl in Flen. congruence. }
    splits.
    + exact Ip2.
    + exact L'.
    + unfold decisionLevel. simpl. exact D5.
    + exact Elim.
    + simpl. rewrite T5. reflexivity.
    + simpl. exact Q5'.
    + simpl. exact TL5.
    + change (value (enqueued s5 (neg p) CRef_Undef) (neg p) = Ok l_True).
      rewrite enqueued_value by exact La. rewrite Nat.eqb_refl.
      pose proof (value_nonneg _ _ Hu) as P0.
      destruct (Z.ltb_spec (neg p) 0) as [X|_]; [lia|]. destruct (sign (neg p)); reflexivity.
    + change (level (enqueued s5 (neg p) CRef_Undef) (var (neg p)) = Ok bt).
      rewrite G1. f_equal. exact D5.
    + simpl. rewrite (sd_clauses B5). apply (veq_clauses V4).
    + exact B0.
    + change (reason (enqueued s5 (neg p) CRef_Undef) (var (neg p)) = Ok CRef_Undef). exact G2.
    + simpl. rewrite (sd_learnts B5). apply (veq_learnts V4).
    + simpl. rewrite (sd_watches B5). apply (veq_watches V4).
    + simpl. rewrite (sd_ca B5). apply (veq_casize V4).
  - apply bind_Ok in E6. destruct E6 as ([cr a] & Eal & E6).
    apply bind_Ok in E6. destruct E6 as (t2 & Eat & E6).
    apply bind_Ok in E6. destruct E6 as (t3 & Ebu & E6). apply claBumpActivity_veq in Ebu.
    apply bind_Ok in E6. destruct E6 as (t4 & Eun & E6).
    apply bind_Ok in E6. destruct E6 as (c & Ec & E6). apply ca_get_Ok in Ec.
    inversion E6; subst s6. clear E6.
    destruct (WF_add_clause s5 (neg p :: b :: r) true cr a t2 W5 Eal Eat)
      as (W2 & _ & _ & O2 & As2 & Tr2 & Tl2 & Qh2 & Vd2 & Le2 & Cl2 & Ca2).
    { discriminate. }
    pose proof Eal as Eal'. apply ca_alloc_Ok in Eal'.
    destruct Eal' as (Ecr & _ & _ & Mcr & _).
    assert (Ecr' : cr = ca_size (ca s)).
    { rewrite Ecr, (sd_ca B5). apply (veq_casize V4). }
    apply attachClause_Ok in Eat.
    destruct Eat as (c' & c0 & c1 & r' & Ec' & El' & _ & _ & I0 & I1 & Wt & _).
    simpl in Ec'. rewrite Mcr in Ec'. inversion Ec'; subst c'. simpl in El'.
    inversion El'; subst c0 c1 r'. clear El' Ec'.
    simpl in Wt, I0, I1.
    apply uncheckedEnqueue_Ok in Eun. destruct Eun as (_ & La & Lvd & ->).
    fold (enqueued t3 (neg p) cr) in *.
    destruct (enqueued_level_eq t3 (neg p) cr Lvd) as [G1 G2].
    assert (Dt3 : decisionLevel t3 = bt).
    { unfold decisionLevel. rewrite (veq_trail_lim Ebu), Tl2. exact D5. }
    assert (Lt3 : forall x, level t3 x = level s x).
    { intros x. rewrite <- Lv4. unfold level. rewrite (veq_vardata Ebu), Vd2. reflexivity. }
    assert (Hb : exists lk, level s (var b) = Ok lk /\ (lk <= bt)%nat).
    { apply (Lev 1%nat b); [lia|reflexivity]. }
    assert (Hb' : level s (var b) = Ok bt).
    { destruct (Nat.eq_dec (length out0) 1) as [E1|N1]; [simpl in Flen; lia|].
      destruct (F2 N1) as (m & o1 & l1 & _ & _ & _ & _ & A1 & _ & A2 & _).
      inversion A1; subst l1. rewrite <- A2. unfold level.
      rewrite (veq_vardata V2). reflexivity. }
    cbv zeta. rewrite <- Ecr'.
    splits.
    + exact Ip2.
    + exact L'.
    + unfold decisionLevel. simpl. rewrite (veq_trail_lim Ebu), Tl2. exact D5.
    + exact Elim.
    + simpl. rewrite (veq_trail Ebu), Tr2, T5. reflexivity.
    + simpl. rewrite (veq_qhead Ebu), Qh2. exact Q5'.
    + simpl. rewrite (veq_trail_lim Ebu), Tl2. exact TL5.
    + change (value (enqueued t3 (neg p) cr) (neg p) = Ok l_True).
      rewrite enqueued_value by exact La. rewrite Nat.eqb_refl.
      pose proof (value_nonneg _ _ Hu) as P0.
      destruct (Z.ltb_spec (neg p) 0) as [X|_]; [lia|]. destruct (sign (neg p)); reflexivity.
    + change (level (enqueued t3 (neg p) cr) (var (neg p)) = Ok bt).
      rewrite G1. f_equal. exact Dt3.
    + simpl. rewrite (veq_clauses Ebu), Cl2, (sd_clauses B5). apply (veq_clauses V4).
    + simpl. rewrite (veq_learnts Ebu), Le2, (sd_learnts B5), (veq_learnts V4). reflexivity.
    + exists (set_cl_lbd c lbd), lbd. simpl. rewrite Z.eqb_refl.
      simpl in Ec. pose proof (veq_core Ebu cr) as K. unfold core in K.
      rewrite Ec, Ca2, Mcr in K. simpl in K. inversion K as [[K1 K2 K3 K4]].
      splits; auto.
    + change (reason (enqueued t3 (neg p) cr) (var (neg p)) = Ok cr). exact G2.
    + change (level (enqueued t3 (neg p) cr) (var b) = Ok bt).
      destruct (Nat.eq_dec (var b) (var (neg p))) as [E|N].
      * rewrite E, G1. f_equal. exact Dt3.
      * rewrite enqueued_level_ne by exact N. rewrite Lt3. exact Hb'.
    + intros q [<-|Iq]; [exact Hb|].
      apply In_nth_error in Iq. destruct Iq as [k Hk].
      apply (Lev (S (S k)) q); [lia|exact Hk].
    + intros i ws Hi. simpl. rewrite (veq_watches Ebu), Wt. rewrite neg_neg.
      rewrite (sd_watches B5), (veq_watches V4), Hi. reflexivity.
    + simpl. rewrite (veq_watches Ebu).
      transitivity (length (watches s5)).
      * apply same_shape_length. intros i. rewrite Wt.
        destruct (nth_error (watches s5) i); split; congruence.
      * rewrite (sd_watches B5), (veq_watches V4). reflexivity.
Qed.

End Learnt.

(** * The run with a conflict, step by step *)

Lemma ex_s1_eq : addClause_ ex_s0 [0; 2] = Ok (true, [0; 2], ex_s1).
Proof. vm_compute. reflexivity. Qed.

Lemma ex_s2_eq : addClause_ ex_s1 [3; 0] = Ok (true, [0; 3], ex_s2).
Proof. vm_compute. reflexivity. Qed.

Lemma ex_s3_eq : uncheckedEnqueue (newDecisionLevel ex_s2) 1 CRef_Undef = Ok ex_s3.
Proof. vm_compute. reflexivity. Qed.

Lemma ex_s4_eq : propagate ex_s3 = Ok (3, snd ex_s4).
Proof. vm_compute. reflexivity. Qed.

Lemma ex_s5_eq : search_conflict (snd ex_s4) 3 = Ok ex_s5.
Proof. vm_compute. reflexivity. Qed.

Lemma ex_s3_fields :
  watches ex_s3 = [[]; [mkWatcher 0 2; mkWatcher 3 3]; [mkWatcher 3 0]; [mkWatcher 0 0]]
  /\ ca_mem (ca ex_s3) 0 = Some (mkClause [0; 2] false 0 false (d_of_Z 0) 0)
  /\ ca_mem (ca ex_s3) 3 = Some (mkClause [0; 3] false 0 false (d_of_Z 0) 0)
  /\ nVars ex_s3 = 2%nat /\ trail_cap ex_s3 = 2%nat
  /\ trail ex_s3 = [1] /\ qhead ex_s3 = 0%nat.
Proof. vm_compute. repeat split; reflexivity. Qed.

Lemma ex_s0_WF : WF ex_s0 /\ CUR ex_s0.
Proof.
  unfold ex_s0, cnf_2_0.
  destruct (WF_newVar (Solver_new (D := Q)) true WF_new) as (W1 & C1 & _).
  destruct (WF_newVar _ true W1) as (W2 & C2 & _).
  split; [exact W2|]. apply C2, C1, CUR_new.
Qed.

Lemma ex_s1_WF : WF ex_s1 /\ CUR ex_s1.
Proof.
  destruct ex_s0_WF as [W C].
  destruct (addClause_inv _ _ _ _ _ W C ex_s1_eq) as (_ & _ & _ & _ & H).
  destruct H as (W1 & C1 & _); [reflexivity|]. split; assumption.
Qed.

Lemma ex_s2_WF : WF ex_s2 /\ CUR ex_s2.
Proof.
  destruct ex_s1_WF as [W C].
  destruct (addClause_inv _ _ _ _ _ W C ex_s2_eq) as (_ & _ & _ & _ & H).
  destruct H as (W1 & C1 & _); [reflexivity|]. split; assumption.
Qed.

Lemma ex_decide_WF (s s' : Solver Q) (l : Lit) :
  WF s /\ CUR s -> qhead s = length (trail s) ->
  uncheckedEnqueue (newDecisionLevel s) l CRef_Undef = Ok s' ->
  WF s' /\ CUR s'.
Proof.
  intros [W C] Hq E.
  destruct (WF_newDecisionLevel s W C Hq) as (W1 & C1 & _).
  apply uncheckedEnqueue_Ok in E. destruct E as (V & _ & _ & E).
  change (s' = enqueued (newDecisionLevel s) l CRef_Undef) in E. rewrite E. split.
  - apply WF_enqueued; assumption.
  - apply CUR_enqueued; [apply (wf_qhead (wf_t W1))|assumption].
Qed.

Lemma ex_add_WF (s s' : Solver Q) (ps ps' : list Lit) :
  WF s /\ CUR s -> addClause_ s ps = Ok (true, ps', s') -> ok s = true -> WF s' /\ CUR s'.
Proof.
  intros [W C] E Hok.
  destruct (addClause_inv _ _ _ _ _ W C E) as (_ & _ & A & _ & H).
  destruct H as (W1 & C1 & _); [apply A; exact Hok|]. split; assumption.
Qed.

Lemma ex_s3_WF : WF ex_s3 /\ CUR ex_s3.
Proof.
  apply (ex_decide_WF ex_s2 ex_s3 1); [apply ex_s2_WF| |apply ex_s3_eq].
  vm_compute. reflexivity.
Qed.

Lemma ex_s3_watcher_ok (i : nat) (cr : CRef) (a b bl : Lit) :
  ca_mem (ca ex_s3) cr = Some (mkClause [a; b] false 0 false (d_of_Z 0) 0) ->
  (a = 0 /\ (b = 2 \/ b = 3)) -> (bl = 0 \/ bl = 2 \/ bl = 3) ->
  Z.to_nat (neg a) = i \/ Z.to_nat (neg b) = i ->
  watcher_ok ex_s3 i (mkWatcher cr bl).
Proof.
  intros E Hab Hbl Hi. destruct ex_s3_fields as (_ & _ & _ & En & _).
  unfold watcher_ok. rewrite En. cbn [cref blocker].
  assert (V : forall l, l = 0 \/ l = 2 \/ l = 3 -> 0 <= l /\ (var l < 2)%nat).
  { intros l [->|[->| ->]]; vm_compute; split; (lia || congruence). }
  split; [apply V; exact Hbl|]. split; [apply V; exact Hbl|].
  exists (mkClause [a; b] false 0 false (d_of_Z 0) 0), a, b, [].
  split; [exact E|]. split; [reflexivity|]. split; [exact Hi|].
  cbn [cl_lits]. split.
  - constructor; [|constructor; [|constructor]]; cbn [In]; intuition lia.
  - intros l [<-|[<-|[]]]; apply V; intuition lia.
Qed.

Lemma ex_s3_PW : PW ex_s3.
Proof.
  destruct ex_s3_fields as (Ew & E0 & E3 & En & Ec & _).
  constructor.
  - rewrite En, Ec. lia.
  - rewrite Ew. intros i ws w Hn Hi.
    destruct i as [|[|[|[|i]]]]; cbn [nth_error] in Hn; [| | | |destruct i; discriminate];
      inversion Hn; subst ws; cbn [In] in Hi.
    + destruct Hi.
    + destruct Hi as [<-|[<-|[]]]; cbn [cref]; eexists; (split; [eassumption|]); intros _;
        (eapply ex_s3_watcher_ok; [eassumption|lia|lia|vm_compute; auto]).
    + destruct Hi as [<-|[]]; cbn [cref]; eexists; (split; [eassumption|]); intros _;
        (eapply ex_s3_watcher_ok; [eassumption|lia|lia|vm_compute; auto]).
    + destruct Hi as [<-|[]]; cbn [cref]; eexists; (split; [eassumption|]); intros _;
        (eapply ex_s3_watcher_ok; [eassumption|lia|lia|vm_compute; auto]).
  - rewrite Ew. intros i ws Hn.
    destruct i as [|[|[|[|i]]]]; cbn [nth_error] in Hn; [| | | |destruct i; discriminate];
      inversion Hn; subst ws;
      unfold WatcherDeleted; cbn [filter cref]; rewrite ?E0, ?E3;
      cbn [cl_mark Z.eqb negb map cref];
      repeat constructor; cbn [In]; try tauto; try (intros [X|[]]; discriminate).
Qed.

Lemma ex_analyzed_eq : analyze (snd ex_s4) 3 = Ok (ex_analyzed, [0], 0%nat, 1).
Proof. vm_compute. reflexivity. Qed.

Lemma ex_back_eq : cancelUntil ex_s3 0 = Ok ex_back.
Proof. vm_compute. reflexivity. Qed.

Lemma ex_attached_eq : attachClause ex_alloc 6 = Ok ex_attached.
Proof. vm_compute. reflexivity. Qed.

Lemma ex_s4_WF : WF (snd ex_s4).
Proof.
  destruct ex_s3_WF as [W C]. apply (propagate_inv _ _ _ W C ex_s4_eq).
Qed.

Lemma ex_ops_eq : enter (Solver_new (D := Q)) ex_ops = Ok ex_s2.
Proof. vm_compute. reflexivity. Qed.

Lemma ex_solved_eq : solve 100 ex_s2 = Ok (l_True, ex_solved).
Proof. vm_compute. reflexivity. Qed.

Lemma ex_picked_eq : pickBranchLit ex_s2 = Ok ex_picked.
Proof. vm_compute. reflexivity. Qed.

(** ** The state with learnt clauses *)

Lemma ex_learn_WF (s : Solver Q) (ps : list Lit) :
  WF s /\ CUR s -> WF (ex_learn s ps) /\ CUR (ex_learn s ps).
Proof.
  intros [W C]. unfold ex_learn.
  destruct (ca_alloc (ca s) ps true) as [[cr a]|] eqn:Ea; [|auto].
  destruct (attachClause _ cr) as [s'|] eqn:Et; [|auto].
  destruct (WF_add_clause s ps true cr a s' W Ea Et) as (W' & C' & _).
  - discriminate.
  - auto.
Qed.

Lemma ex_l0_eq : addClause_ (snd (newVar ex_s0 true)) [0; 2; 4] = Ok (true, [0; 2; 4], ex_l0).
Proof. vm_compute. reflexivity. Qed.

Lemma ex_l0_WF : WF ex_l0 /\ CUR ex_l0.
Proof.
  destruct ex_s0_WF as [W C].
  destruct (WF_newVar ex_s0 true W) as (W1 & C1 & _).
  destruct (addClause_inv _ _ _ _ _ W1 (C1 C) ex_l0_eq) as (_ & _ & _ & _ & H).
  destruct H as (W2 & C2 & _); [reflexivity|]. split; assumption.
Qed.

(** ** The round of unit propagation without conflict *)

Lemma ex_u3_eq : uncheckedEnqueue (newDecisionLevel ex_s1) 1 CRef_Undef = Ok ex_u3.
Proof. vm_compute. reflexivity. Qed.

Lemma ex_u3_WF : WF ex_u3 /\ CUR ex_u3.
Proof.
  apply (ex_decide_WF ex_s1 ex_u3 1); [apply ex_s1_WF| |apply ex_u3_eq].
  vm_compute. reflexivity.
Qed.

Lemma ex_u4_eq : propagate ex_u3 = Ok (CRef_Undef, ex_u4).
Proof. vm_compute. reflexivity. Qed.

(** ** The run that learns a clause of two literals *)

Lemma ex_c1_eq : addClause_ ex_l0 [0; 3; 4] = Ok (true, [0; 3; 4], ex_c1).
Proof. vm_compute. reflexivity. Qed.

Lemma ex_c2_eq : addClause_ ex_c1 [0; 2; 5] = Ok (true, [0; 2; 5], ex_c2).
Proof. vm_compute. reflexivity. Qed.

Lemma ex_c1_WF : WF ex_c1 /\ CUR ex_c1.
Proof.
  apply (ex_add_WF ex_l0 ex_c1 [0; 3; 4] [0; 3; 4]); [apply ex_l0_WF|apply ex_c1_eq|].
  vm_compute. reflexivity.
Qed.

Lemma ex_c2_WF : WF ex_c2 /\ CUR ex_c2.
Proof.
  apply (ex_add_WF ex_c1 ex_c2 [0; 2; 5] [0; 2; 5]); [apply ex_c1_WF|apply ex_c2_eq|].
  vm_compute. reflexivity.
Qed.

Lemma ex_c3_eq : uncheckedEnqueue (newDecisionLevel ex_c2) 5 CRef_Undef = Ok ex_c3.
Proof. vm_compute. reflexivity. Qed.

Lemma ex_c3_WF : WF ex_c3 /\ CUR ex_c3.
Proof.
  apply (ex_decide_WF ex_c2 ex_c3 5); [apply ex_c2_WF| |apply ex_c3_eq].
  vm_compute. reflexivity.
Qed.

Lemma ex_c4_eq : propagate ex_c3 = Ok (CRef_Undef, ex_c4).
Proof. vm_compute. reflexivity. Qed.

Lemma ex_c4_WF : WF ex_c4 /\ CUR ex_c4.
Proof.
  destruct ex_c3_WF as [W C].
  destruct (propagate_inv _ _ _ W C ex_c4_eq) as (W' & C' & _).
  split; [exact W'|apply C'; reflexivity].
Qed.

Lemma ex_c5_eq : uncheckedEnqueue (newDecisionLevel ex_c4) 1 CRef_Undef = Ok ex_c5.
Proof. vm_compute. reflexivity. Qed.

Lemma ex_c5_WF : WF ex_c5 /\ CUR ex_c5.
Proof.
  apply (ex_decide_WF ex_c4 ex_c5 1); [apply ex_c4_WF| |apply ex_c5_eq].
  vm_compute. reflexivity.
Qed.

Lemma ex_cround_eq : propagate_round ex_c5 CRef_Undef = Ok (4, snd ex_cround).
Proof. vm_compute. reflexivity. Qed.

Lemma ex_c6_eq : propagate ex_c5 = Ok (4, snd ex_c6).
Proof. vm_compute. reflexivity. Qed.

Lemma ex_c6_WF : WF (snd ex_c6).
Proof.
  destruct ex_c5_WF as [W C]. apply (propagate_inv _ _ _ W C ex_c6_eq).
Qed.

Lemma ex_c7_eq : search_conflict (snd ex_c6) 4 = Ok ex_c7.
Proof. vm_compute. reflexivity. Qed.

Lemma ex_s2_polarity : length (polarity ex_s2) = nVars ex_s2.
Proof. vm_compute. reflexivity. Qed.

(** ** The reduction with a locked clause *)

Lemma ex_q0_WF : WF ex_q0 /\ CUR ex_q0.
Proof. unfold ex_q0. do 4 apply ex_learn_WF. apply ex_l0_WF. Qed.

Lemma ex_q1_eq : uncheckedEnqueue (newDecisionLevel ex_q0) 0 CRef_Undef = Ok ex_q1.
Proof. vm_compute. reflexivity. Qed.

Lemma ex_q1_WF : WF ex_q1 /\ CUR ex_q1.
Proof.
  apply (ex_decide_WF ex_q0 ex_q1 0); [apply ex_q0_WF| |apply ex_q1_eq].
  vm_compute. reflexivity.
Qed.

Lemma ex_q2_eq : propagate ex_q1 = Ok (CRef_Undef, ex_q2).
Proof. vm_compute. reflexivity. Qed.

Lemma ex_q2_WF : WF ex_q2 /\ CUR ex_q2.
Proof.
  destruct ex_q1_WF as [W C].
  destruct (propagate_inv _ _ _ W C ex_q2_eq) as (W' & C' & _).
  split; [exact W'|apply C'; reflexivity].
Qed.

Lemma ex_q3_eq : uncheckedEnqueue (newDecisionLevel ex_q2) 2 CRef_Undef = Ok ex_q3.
Proof. vm_compute. reflexivity. Qed.

Lemma ex_q3_WF : WF ex_q3 /\ CUR ex_q3.
Proof.
  apply (ex_decide_WF ex_q2 ex_q3 2); [apply ex_q2_WF| |apply ex_q3_eq].
  vm_compute. reflexivity.
Qed.

Lemma ex_q4_eq : propagate ex_q3 = Ok (CRef_Undef, ex_q4).
Proof. vm_compute. reflexivity. Qed.

Lemma ex_q4_WF : WF ex_q4 /\ CUR ex_q4.
Proof.
  destruct ex_q3_WF as [W C].
  destruct (propagate_inv _ _ _ W C ex_q4_eq) as (W' & C' & _).
  split; [exact W'|apply C'; reflexivity].
Qed.

Lemma ex_qred_eq : reduceDB ex_q4 = Ok ex_qred.
Proof. vm_compute. reflexivity. Qed.

Lemma ex_q4_clauses : clauses ex_q4 = [0].
Proof. vm_compute. reflexivity. Qed.

Lemma ex_qrem_eq : removeClause ex_q4 4 = Ok ex_qrem.
Proof. vm_compute. reflexivity. Qed.

Lemma ex_qgc_eq : garbageCollect ex_q4 = Ok ex_qgc.
Proof. vm_compute. reflexivity. Qed.

(** ** The conflict whose analysis swaps *)

Lemma ex_danalyzed_eq : analyze (snd ex_d5) 4 = Ok (ex_danalyzed, [0; 4; 6], 2%nat, 3).
Proof. vm_compute. reflexivity. Qed.

Lemma ex_picked_lit : pickBranchLit ex_s2 = Ok (1, snd ex_picked).
Proof. vm_compute. reflexivity. Qed.

(** * The claims of the specification *)

Section Claims.
Context {D : Type} {FO : FloatOps D}.

(** C3 (as amended): on [p cnf 2 0], two variables and no clause, [solve]
    answers True and the model is [False, False]: every variable is decided
    with its saved polarity as the sign of the literal, and the default
    polarity [true] is the sign of the negative literal. *)
Theorem solve_cnf_2_0 (n : nat) :
  exists s' : Solver D,
    solve (4 + n) cnf_2_0 = Ok (l_True, s') /\ model s' = [l_False; l_False].
Proof. apply cnf_2_0_model. Qed.

(** C7 (as amended): on a well-formed trail, [cancelUntil(L)] with [L] below
    the decision level leaves the decision level [L]; every trail entry at
    an index from [trail_lim[L]] on has its variable unassigned, its sign
    saved as polarity and its variable in the order heap; [qhead] is
    [trail_lim[L]]; trail and [trail_lim] are cut there.  With [L] at or
    above the decision level the state is unchanged. *)
Theorem cancelUntil_levels (s : Solver D) (L : nat) :
  (forall lim, In lim (trail_lim s) -> (lim <= length (trail s))%nat) ->
  (forall l, In l (trail s) ->
     0 <= l /\ (var l < length (assigns s))%nat /\ (var l < length (polarity s))%nat) ->
  NoDup (map var (trail s)) ->
  exists s',
    cancelUntil s L = Ok s'
    /\ ((decisionLevel s <= L)%nat -> s' = s)
    /\ ((L < decisionLevel s)%nat ->
        decisionLevel s' = L
        /\ exists lim,
             nth_error (trail_lim s) L = Some lim
             /\ qhead s' = lim
             /\ trail s' = firstn lim (trail s)
             /\ trail_lim s' = firstn L (trail_lim s)
             /\ forall i l, (lim <= i)%nat -> nth_error (trail s) i = Some l ->
                  nth_error (assigns s') (var l) = Some l_Undef
                  /\ nth_error (polarity s') (var l) = Some (sign l)
                  /\ heap_inHeap (order_heap s') (var l) = true).
Proof.
  intros Hlim Hr ND.
  destruct (Nat.ltb_spec L (decisionLevel s)) as [HL|HL].
  - destruct (nth_error (trail_lim s) L) as [lim|] eqn:E.
    2:{ apply nth_error_None in E. unfold decisionLevel in HL. lia. }
    assert (ND' : NoDup (map var (skipn lim (trail s)))).
    { rewrite <- (firstn_skipn lim (trail s)), map_app in ND.
      apply NoDup_app_remove_l in ND. exact ND. }
    assert (Hr' : forall l, In l (skipn lim (trail s)) ->
              0 <= l /\ (var l < length (assigns s))%nat /\ (var l < length (polarity s))%nat).
    { intros l I. apply Hr. rewrite <- (firstn_skipn lim (trail s)). apply in_app_iff. auto. }
    destruct (cancelUntil_spec s L lim HL E (Hlim lim (nth_error_In _ _ E)) Hr' ND')
      as (s' & Ec & A1 & A2 & A3 & A4 & A5 & _).
    exists s'. split; [exact Ec|]. split; [lia|]. intros _. split; [exact A1|].
    exists lim. auto.
  - exists s. split; [apply cancelUntil_noop; exact HL|]. split; [auto|lia].
Qed.

(** C8 (as amended): a clause that holds a literal and its negation, given
    at level 0 with the variables of the clause declared, leaves the solver
    as it is: no clause is allocated, listed or attached.  [addClause_]
    returns the flag [ok] of the solver: [true] when the solver is not in
    conflict, [false] when it is. *)
Theorem addClause_tautology (s : Solver D) (ps : list Lit) (l : Lit) :
  decisionLevel s = O ->
  (forall q, In q ps -> 0 <= q /\ (var q < length (assigns s))%nat) ->
  In l ps -> In (neg l) ps ->
  exists ps' s',
    addClause_ s ps = Ok (ok s, ps', s')
    /\ s' = s /\ clauses s' = clauses s /\ ca s' = ca s /\ watches s' = watches s.
Proof.
  intros Hlv Hr Hl Hn. destruct (ok s) eqn:Hok.
  - destruct (addClause_taut s ps l Hok Hlv Hr Hl Hn) as (ps' & E).
    exists ps', s. auto.
  - exists ps, s. unfold addClause_. rewrite Hlv, Hok. cbn [Nat.eqb assert bind negb]. auto.
Qed.

Lemma attachClause_frame (s : Solver D) cr s' :
  attachClause s cr = Ok s' -> ca s' = ca s /\ clauses s' = clauses s.
Proof.
  unfold attachClause. intros H.
  apply bind_Ok in H. destruct H as (c & _ & H).
  apply bind_Ok in H. destruct H as (u & _ & H).
  apply bind_Ok in H. destruct H as (c0 & _ & H).
  apply bind_Ok in H. destruct H as (c1 & _ & H).
  apply bind_Ok in H. destruct H as (w1 & _ & H).
  apply bind_Ok in H. destruct H as (w2 & _ & H).
  inversion H. destruct (cl_learnt c); auto.
Qed.

Lemma sorted_lt_unique : forall l1 l2 : list Z,
  StronglySorted Z.lt l1 -> StronglySorted Z.lt l2 ->
  (forall q, In q l1 <-> In q l2) -> l1 = l2.
Proof.
  induction l1 as [|a t1 IH]; intros l2 S1 S2 H.
  - destruct l2 as [|b t2]; [reflexivity|]. exfalso. apply (proj2 (H b)). left. reflexivity.
  - destruct l2 as [|b t2]; [exfalso; apply (proj1 (H a)); left; reflexivity|].
    apply StronglySorted_inv in S1. destruct S1 as [S1 F1].
    apply StronglySorted_inv in S2. destruct S2 as [S2 F2].
    rewrite Forall_forall in F1, F2.
    assert (E : a = b).
    { destruct (proj1 (H a) (or_introl eq_refl)) as [Eb|Ib]; [congruence|].
      destruct (proj2 (H b) (or_introl eq_refl)) as [Ea|Ia]; [congruence|].
      apply F2 in Ib. apply F1 in Ia. lia. }
    subst b. f_equal. apply IH; auto.
    intros q. split; intros I.
    + destruct (proj1 (H q) (or_intror I)) as [Eq|Iq]; [|exact Iq].
      apply F1 in I. lia.
    + destruct (proj2 (H q) (or_intror I)) as [Eq|Iq]; [|exact Iq].
      apply F2 in I. lia.
Qed.

(** C10 (as amended): [addClause_] of a solver in conflict returns at once
    and leaves its argument as it is.  Otherwise it sorts its argument
    before it reads it: when the clause is dropped as satisfied the vector
    holds the sorted literals with the literals kept so far written over
    its front; otherwise it holds, sorted and without repetition, the
    literals of the clause that are not false, and these are the literals
    of the clause that is stored; the vector is then the one given exactly
    when that one was sorted without repetition and had no false literal. *)
Theorem addClause_argument (s : Solver D) (ps : list Lit) b ps' s' :
  addClause_ s ps = Ok (b, ps', s') ->
  (ok s = false -> b = false /\ ps' = ps /\ s' = s)
  /\ (ok s = true ->
      exists b0 kept,
        clean s lit_Undef (sort ps) [] = Ok (b0, kept)
        /\ StronglySorted Z.le (sort ps) /\ Permutation ps (sort ps)
        /\ (b0 = true ->
            b = true /\ s' = s /\ ps' = kept ++ skipn (length kept) (sort ps))
        /\ (b0 = false ->
            ps' = kept
            /\ StronglySorted Z.lt ps'
            /\ (forall q, In q ps' <-> In q ps /\ value s q = Ok l_Undef)
            /\ (ps' = ps <->
                StronglySorted Z.lt ps /\ forall q, In q ps -> value s q = Ok l_Undef)
            /\ ((2 <= length ps')%nat ->
                exists cr, clauses s' = clauses s ++ [cr] /\ lits_at s' cr ps'))).
Proof.
  intros H. apply addClause_cases in H.
  destruct H as [_ [(Hf & -> & -> & ->)|(Hok & b0 & kept & Ec & H)]].
  { split; [auto|congruence]. }
  split; [congruence|]. intros _.
  exists b0, kept. split; [exact Ec|]. split; [apply sort_sorted|].
  split; [apply Permutation_sym, sort_perm|].
  destruct H as [(-> & -> & -> & ->)|(-> & -> & H)].
  - split; [auto|discriminate].
  - split; [discriminate|]. intros _. split; [reflexivity|].
    destruct (@clean_false _ s (sort ps) lit_Undef [] kept) as (new & En & Hs & Hlt & Hin & Hv & _);
      auto.
    { apply sort_sorted. }
    { intros q Hq. apply (clean_false_nonneg s _ _ _ _ Ec) in Hq. unfold lit_Undef. lia. }
    simpl in En. subst new.
    assert (Hiff : forall q, In q kept <-> In q ps /\ value s q = Ok l_Undef).
    { intros q. rewrite Hin, sort_In. split.
      - tauto.
      - intros [I V]. split; auto. split; auto. intros ->. discriminate. }
    split; [exact Hs|]. split; [exact Hiff|]. split.
    + split.
      * intros <-. split; [exact Hs|]. intros q I. apply Hiff. exact I.
      * intros [Sp Up]. apply sorted_lt_unique; auto.
        intros q. rewrite Hiff. split; [tauto|]. intros I. split; [exact I|apply Up; exact I].
    + intros L2. destruct H as [(-> & _)|[(l0 & s1 & confl & s2 & -> & _)|(cr & a & _ & -> & Ea & Eat)]].
      * simpl in L2. lia.
      * simpl in L2. lia.
      * exists cr. apply attachClause_frame in Eat. destruct Eat as [Eca Ecl].
        rewrite Ecl. split; [reflexivity|]. unfold lits_at. rewrite Eca. simpl.
        unfold ca_alloc in Ea.
        destruct (ca_size (ca s) + clauseWord32Size (length kept) false <? CRef_Undef);
          [|discriminate].
        inversion Ea; subst. simpl. rewrite Z.eqb_refl. eexists. split; reflexivity.
Qed.

(** C1: for a formula entered into a new solver by calls of [newVar] and
    [addClause_], in any order, when [solve] answers [l_True] the vector
    [model] has a value, true or false, for every variable, and every clause
    that was given to [addClause_] has a literal that is true in [model]. *)
Theorem solve_true_model (ops : list input_op) (s s' : Solver D) (fuel : nat) :
  enter Solver_new ops = Ok s -> solve fuel s = Ok (l_True, s') ->
  (forall x, (x < nVars s)%nat ->
     exists v, nth_error (model s') x = Some v /\ v <> l_Undef)
  /\ (forall ps, In (AddClause ps) ops ->
        exists l, In l ps /\ model_value (model s') l = Some l_True).
Proof.
  intros He Hs.
  assert (Hok : ok s = true).
  { unfold solve, solve_ in Hs.
    change (ok (set_model (budgetOff s) [])) with (ok s) in Hs.
    destruct (ok s); [reflexivity|discriminate]. }
  destruct (enter_inv ops Solver_new s He) as (_ & H).
  { intros _. split; [apply WF_new|apply CUR_new]. }
  destruct (H Hok) as (Wf & Cu & _ & Acc).
  destruct (solve_model s s' fuel Wf Cu Hs) as (M1 & _ & M3).
  split; [exact M1|]. intros ps I. apply M3. apply Acc. exact I.
Qed.

Lemma solve_budget_off (s : Solver D) (fuel : nat) (x : Z) :
  solve fuel (setConfBudget s x) = solve fuel s.
Proof. reflexivity. Qed.

(** C2 (as amended): [setConfBudget(0)] has no effect on [solve], which
    switches the budgets off before it searches: the answer and the state
    are those of [solve] without the budget.  On [p cnf 2 0], for one, the
    search makes its two decisions and answers [l_True]. *)
Theorem solve_conf_budget_0 (s : Solver D) (fuel n : nat) :
  solve fuel (setConfBudget s 0) = solve fuel s
  /\ exists s' : Solver D,
       solve (4 + n) (setConfBudget cnf_2_0 0) = Ok (l_True, s')
       /\ decisions s' = 2 /\ conflicts s' = 0.
Proof.
  split; [apply solve_budget_off|].
  destruct (@cnf_2_0_decisions_4 D FO) as (s' & E & Hd & Hc). exists s'. split; [|auto].
  rewrite solve_budget_off. apply solve_more_fuel. exact E.
Qed.


(** C6: [reduceDB] sorts the learnt clauses and leaves, in the order of the
    sorted list, those of [reduce_keep]: a clause goes iff it has more
    than two literals, is not locked and has its index in the first half
    of the sorted list.  The clauses left are the ones kept, literal by
    literal (the collection of the arena may have moved them); a clause
    of two literals and a locked clause are among them. *)
Theorem reduceDB_removes (s s' : Solver D) :
  WF s -> reduceDB s = Ok s' ->
  exists sorted,
    sort_learnts (ca s) (learnts s) = Ok sorted
    /\ Permutation (learnts s) sorted
    /\ Forall2 (fun cr cr' => exists c c', ca_mem (ca s) cr = Some c
                               /\ ca_mem (ca s') cr' = Some c'
                               /\ cl_lits c' = cl_lits c)
         (reduce_keep s (length sorted / 2) 0 sorted) (learnts s')
    /\ (forall cr c, In cr (learnts s) -> ca_mem (ca s) cr = Some c ->
          (length (cl_lits c) <= 2)%nat \/ locked s cr c = Ok true ->
          In cr (reduce_keep s (length sorted / 2) 0 sorted)).
Proof.
  intros Hwf H.
  destruct (reduceDB_inv s s' Hwf H) as (_ & _ & _ & _ & _ & _ & _ & _ & _ & _ & sorted & Es & F).
  exists sorted. pose proof (sort_learnts_perm _ _ _ Es) as Pm.
  split; [exact Es|]. split; [apply Permutation_sym; exact Pm|]. split; [exact F|].
  intros cr c I E K. apply (reduce_keep_In s _ sorted 0%nat cr c); auto.
  apply (Permutation_in _ (Permutation_sym Pm)). exact I.
Qed.

End Claims.

(** ** The claims on examples *)

(** C3 as stated fails: no run of [solve] on [p cnf 2 0] gives the model
    [True, True]. *)
Lemma solve_cnf_2_0_not_all_true :
  ~ exists (n : nat) (s' : Solver Q),
      solve n cnf_2_0 = Ok (l_True, s') /\ model s' = [l_True; l_True].
Proof.
  intros (n & s' & E & Hm).
  do 4 (destruct n as [|n]; [vm_compute in E; discriminate|]).
  destruct (@cnf_2_0_model Q _ n) as (s2 & E2 & Hm2).
  change (S (S (S (S n)))) with (4 + n)%nat in E.
  rewrite E in E2. inversion E2; subst. rewrite Hm in Hm2. discriminate.
Qed.

(** C7 as stated fails for a level above the decision level: at level 1,
    [cancelUntil(2)] returns at level 1. *)
Lemma cancelUntil_above_level :
  cancelUntil decided_2_0 2 = Ok decided_2_0 /\ decisionLevel decided_2_0 = 1%nat.
Proof. split; vm_compute; reflexivity. Qed.

Lemma decided_2_0_fields :
  trail_lim decided_2_0 = [0%nat] /\ trail decided_2_0 = [1]
  /\ length (assigns decided_2_0) = 2%nat /\ length (polarity decided_2_0) = 2%nat.
Proof. vm_compute. repeat split; reflexivity. Qed.

Lemma cancelUntil_levels_witness :
  exists s',
    cancelUntil decided_2_0 0 = Ok s'
    /\ ((decisionLevel decided_2_0 <= 0)%nat -> s' = decided_2_0)
    /\ ((0 < decisionLevel decided_2_0)%nat ->
        decisionLevel s' = 0%nat
        /\ exists lim,
             nth_error (trail_lim decided_2_0) 0 = Some lim
             /\ qhead s' = lim
             /\ trail s' = firstn lim (trail decided_2_0)
             /\ trail_lim s' = firstn 0 (trail_lim decided_2_0)
             /\ forall i l, (lim <= i)%nat -> nth_error (trail decided_2_0) i = Some l ->
                  nth_error (assigns s') (var l) = Some l_Undef
                  /\ nth_error (polarity s') (var l) = Some (sign l)
                  /\ heap_inHeap (order_heap s') (var l) = true).
Proof.
  apply (cancelUntil_levels decided_2_0 0).
  - destruct decided_2_0_fields as (-> & -> & _). intros lim [H|[]]. subst lim. simpl. lia.
  - destruct decided_2_0_fields as (_ & -> & -> & ->). intros l [H|[]]. subst l.
    change (var 1) with 0%nat. lia.
  - destruct decided_2_0_fields as (_ & -> & _). change (var 1) with 0%nat.
    repeat constructor. intros [].
Defined.

(** C8 as stated fails in a solver that is in conflict: after the clauses
    [x0] and [~x0], [addClause_] of the clause [x1 \/ ~x1] returns
    [false]. *)
Lemma addClause_tautology_in_conflict :
  addClause_ cnf_2_0 [0] = Ok (true, [0], unit_2_0)
  /\ addClause_ unit_2_0 [1] = Ok (false, [], conflict_2_0)
  /\ addClause_ conflict_2_0 [2; 3] = Ok (false, [2; 3], conflict_2_0).
Proof. split; [|split]; vm_compute; reflexivity. Qed.

Lemma addClause_tautology_witness :
  exists ps' s',
    addClause_ cnf_2_0 [0; 1] = Ok (ok (cnf_2_0 (D := Q)), ps', s')
    /\ s' = cnf_2_0 /\ clauses s' = clauses cnf_2_0 /\ ca s' = ca cnf_2_0
    /\ watches s' = watches cnf_2_0.
Proof.
  apply (addClause_tautology (cnf_2_0 (D := Q)) [0; 1] 0).
  - reflexivity.
  - intros q [<-|[<-|[]]]; vm_compute; split; try lia; discriminate.
  - left. reflexivity.
  - right. left. reflexivity.
Defined.

(** C10 as stated fails: a solver in conflict returns the vector as it
    was given, here unsorted; and a solver that is not in conflict returns
    a vector that was sorted, without repetition and without false literal,
    as it was given. *)
Lemma addClause_argument_preserved :
  addClause_ conflict_2_0 [2; 0] = Ok (false, [2; 0], conflict_2_0)
  /\ exists s' : Solver Q, addClause_ cnf_2_0 [0; 2] = Ok (true, [0; 2], s').
Proof.
  split; [vm_compute; reflexivity|].
  exists ex_s1. vm_compute. reflexivity.
Qed.

Lemma addClause_argument_witness :
  (ok (cnf_2_0 (D := Q)) = false ->
   true = false /\ [0; 2] = [2; 0] /\ snd added_2_0 = cnf_2_0)
  /\ (ok (cnf_2_0 (D := Q)) = true ->
      exists b0 kept,
        clean cnf_2_0 lit_Undef (sort [2; 0]) [] = Ok (b0, kept)
        /\ StronglySorted Z.le (sort [2; 0]) /\ Permutation [2; 0] (sort [2; 0])
        /\ (b0 = true ->
            true = true /\ snd added_2_0 = cnf_2_0
            /\ [0; 2] = kept ++ skipn (length kept) (sort [2; 0]))
        /\ (b0 = false ->
            [0; 2] = kept
            /\ StronglySorted Z.lt [0; 2]
            /\ (forall q, In q [0; 2] <->
                          In q [2; 0] /\ value (cnf_2_0 (D := Q)) q = Ok l_Undef)
            /\ ([0; 2] = [2; 0] <->
                StronglySorted Z.lt [2; 0]
                /\ forall q, In q [2; 0] -> value (cnf_2_0 (D := Q)) q = Ok l_Undef)
            /\ ((2 <= length [0; 2])%nat ->
                exists cr, clauses (snd added_2_0) = clauses cnf_2_0 ++ [cr]
                           /\ lits_at (snd added_2_0) cr [0; 2]))).
Proof.
  apply (addClause_argument (cnf_2_0 (D := Q)) [2; 0] true [0; 2] (snd added_2_0)).
  vm_compute. reflexivity.
Defined.

Lemma solve_true_model_witness :
  (forall x, (x < nVars ex_s2)%nat ->
     exists v, nth_error (model ex_solved) x = Some v /\ v <> l_Undef)
  /\ (forall ps, In (AddClause ps) ex_ops ->
        exists l, In l ps /\ model_value (model ex_solved) l = Some l_True).
Proof.
  apply (solve_true_model ex_ops ex_s2 ex_solved 100).
  - apply ex_ops_eq.
  - apply ex_solved_eq.
Defined.

(** C2 as stated fails: after [setConfBudget(0)], [solve] on the clauses
    [x0 \/ x1] and [x0 \/ ~x1] answers [l_True], not [l_Undef], after two
    decisions and one conflict. *)
Lemma conf_budget_0_searches :
  solve 100 (setConfBudget ex_s2 0) = Ok (l_True, snd ex_budget)
  /\ decisions (snd ex_budget) = 2 /\ conflicts (snd ex_budget) = 1.
Proof. split; [|split]; vm_compute; reflexivity. Qed.


Lemma reduceDB_removes_witness :
  exists sorted,
    sort_learnts (ca ex_q4) (learnts ex_q4) = Ok sorted
    /\ Permutation (learnts ex_q4) sorted
    /\ Forall2 (fun cr cr' => exists c c', ca_mem (ca ex_q4) cr = Some c
                               /\ ca_mem (ca ex_qred) cr' = Some c'
                               /\ cl_lits c' = cl_lits c)
         (reduce_keep ex_q4 (length sorted / 2) 0 sorted) (learnts ex_qred)
    /\ (forall cr c, In cr (learnts ex_q4) -> ca_mem (ca ex_q4) cr = Some c ->
          (length (cl_lits c) <= 2)%nat \/ locked ex_q4 cr c = Ok true ->
          In cr (reduce_keep ex_q4 (length sorted / 2) 0 sorted)).
Proof.
  apply (reduceDB_removes ex_q4 ex_qred).
  - apply ex_q4_WF.
  - apply ex_qred_eq.
Defined.

(** * Further properties of the solver *)

Section Properties.
Context {D : Type} {FO : FloatOps D}.

(** X1: on a well-formed state whose watch lists are in order ([WF], [CUR],
    [PW]), [propagate] returns (it neither fails an assertion nor reads out
    of bounds nor runs out of rounds), the state it returns is well formed,
    and in it the whole trail has been propagated: [qhead = |trail|]. *)
Theorem propagate_total_qhead (s : Solver D) :
  WF s -> CUR s -> PW s ->
  exists confl s',
    propagate s = Ok (confl, s') /\ WF s' /\ qhead s' = length (trail s').
Proof.
  intros Hwf Hcur HP. destruct (propagate_total s Hwf Hcur HP) as (confl & s' & E).
  exists confl, s'. destruct (propagate_inv _ _ _ Hwf Hcur E) as (A1 & _ & A3 & _).
  auto.
Qed.

(** X2: when [propagate] returns [CRef_Undef], propagation is at a fixpoint
    on the original clauses (those of the list [clauses]; nothing is said
    of the learnt ones): every original clause has a true literal or two
    distinct unassigned literals, so that none of them is unit or false,
    and the two watched literals of every original clause are in order for
    the trail. *)
Theorem propagate_no_conflict_fixpoint (s s' : Solver D) :
  WF s -> CUR s -> propagate s = Ok (CRef_Undef, s') ->
  unit_closed s' /\ CUR s'.
Proof.
  intros Hwf Hcur E. destruct (propagate_inv _ _ _ Hwf Hcur E) as (A1 & A2 & A3 & _).
  split; [apply CUR_unit_closed; auto|auto].
Qed.

(** X3: the clause that [propagate] returns as the conflict has all its
    literals false in the state returned. *)
Theorem propagate_conflict_falsified (s s' : Solver D) (confl : CRef) :
  WF s -> CUR s -> propagate s = Ok (confl, s') -> confl <> CRef_Undef ->
  exists c, ca_mem (ca s') confl = Some c
            /\ forall l, In l (cl_lits c) -> value s' l = Ok l_False.
Proof.
  intros Hwf Hcur E N. destruct (propagate_inv _ _ _ Hwf Hcur E) as (_ & _ & _ & _ & A).
  exact (A N).
Qed.

(** X4: [propagate] only adds to the trail, within the current decision
    level: the trail it returns extends the one it was given, the decision
    levels, the two clause lists, the number of variables and the flag [ok]
    are the same, and every clause keeps its literals up to their order. *)
Theorem propagate_extends_trail (s s' : Solver D) (confl : CRef) :
  WF s -> CUR s -> propagate s = Ok (confl, s') ->
  (exists added, trail s' = trail s ++ added)
  /\ trail_lim s' = trail_lim s /\ clauses s' = clauses s /\ learnts s' = learnts s
  /\ nVars s' = nVars s /\ ok s' = ok s
  /\ forall cr c, ca_mem (ca s) cr = Some c ->
       exists c', ca_mem (ca s') cr = Some c' /\ Permutation (cl_lits c) (cl_lits c').
Proof.
  intros Hwf Hcur E. destruct (propagate_inv _ _ _ Hwf Hcur E) as (_ & _ & _ & F & _).
  destruct F as [F1 F2 F3 F4 F5 F6 F7]. splits; auto.
  intros cr c Hc. destruct (F7 cr (cl_lits c)) as (ls' & (c' & Hc' & El) & Pm).
  - exists c. auto.
  - exists c'. rewrite El. auto.
Qed.

(** X5: a round of [propagate] that ends in a conflict leaves [qhead] at the
    end of the trail, and the watchers of the list of the propagated literal
    that come after the one of the conflict clause are still in this list, in
    their order, at its end. *)
Theorem propagate_conflict_keeps_watchers (s s' : Solver D) (confl : CRef) :
  WF s -> CUR s ->
  propagate_round s CRef_Undef = Ok (confl, s') -> confl <> CRef_Undef ->
  qhead s' = length (trail s')
  /\ exists p done w rest kept',
       nth_error (trail s) (qhead s) = Some p
       /\ nth_error (watches s) (Z.to_nat p) = Some (done ++ w :: rest)
       /\ cref w = confl
       /\ nth_error (watches s') (Z.to_nat p) = Some (kept' ++ rest).
Proof. apply propagate_round_rest. Qed.

(** X6: [uncheckedEnqueue(p, from)] returns only for an unassigned literal;
    it then makes [p] true and its negation false, records [from] and the
    current decision level for the variable of [p], puts [p] at the end of
    the trail, and leaves the value of every literal of another variable,
    the decision levels and [qhead] as they were. *)
Theorem uncheckedEnqueue_assigns (s s' : Solver D) (p : Lit) (from : CRef) :
  uncheckedEnqueue s p from = Ok s' ->
  value s p = Ok l_Undef
  /\ value s' p = Ok l_True /\ value s' (neg p) = Ok l_False
  /\ reason s' (var p) = Ok from /\ level s' (var p) = Ok (decisionLevel s)
  /\ trail s' = trail s ++ [p]
  /\ trail_lim s' = trail_lim s /\ qhead s' = qhead s
  /\ forall l, var l <> var p -> value s' l = value s l.
Proof.
  intros H. apply uncheckedEnqueue_Ok in H. destruct H as (V & La & Lv & E).
  change (s' = enqueued s p from) in E. subst s'.
  pose proof (value_nonneg _ _ V) as P0.
  assert (T : value (enqueued s p from) p = Ok l_True).
  { rewrite enqueued_value by exact La. rewrite Nat.eqb_refl.
    destruct (Z.ltb_spec p 0) as [X|_]; [lia|]. destruct (sign p); reflexivity. }
  splits; auto.
  - apply value_neg in T. exact T.
  - unfold reason, enqueued. simpl.
    assert (G : Vec.get (Vec.upd (vardata s) (var p) (mkVarData from (decisionLevel s))) (var p)
                = Ok (mkVarData from (decisionLevel s))).
    { apply get_Ok. apply nth_error_upd_eq. exact Lv. }
    rewrite G. reflexivity.
  - unfold level, enqueued. simpl.
    assert (G : Vec.get (Vec.upd (vardata s) (var p) (mkVarData from (decisionLevel s))) (var p)
                = Ok (mkVarData from (decisionLevel s))).
    { apply get_Ok. apply nth_error_upd_eq. exact Lv. }
    rewrite G. reflexivity.
  - intros l N. rewrite enqueued_value by exact La.
    destruct (Nat.eqb_spec (var l) (var p)); [contradiction|reflexivity].
Qed.

(** X7: [uncheckedEnqueue] called with a literal that has a value already
    fails its assertion [value(p) == l_Undef]. *)
Theorem uncheckedEnqueue_assigned (s : Solver D) (p : Lit) (from : CRef) (v : lbool) :
  value s p = Ok v -> v <> l_Undef -> uncheckedEnqueue s p from = Err AssertionFailed.
Proof.
  intros V N. unfold uncheckedEnqueue. rewrite V. simpl.
  destruct v; try reflexivity. contradiction.
Qed.

(** X8: on a well-formed state, [cancelUntil(L)] with [L] below the decision
    level returns a well-formed state at level [L] in which the watched
    literals are in order for the whole trail and [qhead = |trail|]; the
    part of the trail below the first decision, the clause lists, the arena
    and the watch lists are the ones before the call. *)
Theorem cancelUntil_restores (s s' : Solver D) (L : nat) :
  WF s -> (L < decisionLevel s)%nat -> cancelUntil s L = Ok s' ->
  WF s' /\ CUR s' /\ decisionLevel s' = L /\ qhead s' = length (trail s')
  /\ root s' = root s
  /\ clauses s' = clauses s /\ learnts s' = learnts s /\ ca s' = ca s
  /\ watches s' = watches s /\ ok s' = ok s.
Proof.
  intros Hwf HL E. destruct (cancelUntil_inv s L s' Hwf E) as (_ & H).
  destruct (H HL) as (A1 & A2 & A3 & [B1 B2 B3 B4 B5 B6] & A5 & A6). splits; auto.
Qed.

(** X9: [analyze] changes neither the assignment, the trail, the decision
    levels, the watch lists, the clause lists nor the literals of any
    clause (it bumps activities, and uses and clears its marks), and the
    first literal of the clause it learns is the negation of a literal of
    the trail. *)
Theorem analyze_learnt_head (s s' : Solver D) (confl : CRef) learnt bt lbd :
  analyze s confl = Ok (s', learnt, bt, lbd) ->
  (exists p, In p (trail s) /\ nth_error learnt 0 = Some (neg p))
  /\ assigns s' = assigns s /\ trail s' = trail s /\ trail_lim s' = trail_lim s
  /\ qhead s' = qhead s /\ watches s' = watches s
  /\ clauses s' = clauses s /\ learnts s' = learnts s /\ ok s' = ok s
  /\ forall cr, option_map (@cl_lits D) (ca_mem (ca s') cr)
                = option_map (@cl_lits D) (ca_mem (ca s) cr).
Proof.
  intros H. apply analyze_veq in H. destruct H as (V & P).
  destruct V as [V1 V2 V3 V4 V5 V6 V7 V8 V9 V10 V11 V12]. splits; auto.
  intros cr. specialize (V4 cr). unfold core in V4.
  destruct (ca_mem (ca s') cr) as [c'|], (ca_mem (ca s) cr) as [c|]; simpl in *;
    try discriminate; try reflexivity.
  inversion V4. unfold cl_core in *. congruence.
Qed.

(** X10: [attachClause(cr)] adds two watchers and nothing else to the watch
    lists: the watcher [(cr, c[1])] at the end of the list of [~c[0]] and the
    watcher [(cr, c[0])] at the end of the list of [~c[1]]; the clause lists,
    the arena, the assignment and the trail are unchanged. *)
Theorem attachClause_watchers (s s' : Solver D) (cr : CRef) :
  attachClause s cr = Ok s' ->
  exists c c0 c1 r,
    ca_mem (ca s) cr = Some c /\ cl_lits c = c0 :: c1 :: r
    /\ (forall i l, nth_error (watches s) i = Some l ->
          nth_error (watches s') i =
          Some (l ++ (if (i =? Z.to_nat (neg c0))%nat then [mkWatcher cr c1] else [])
                  ++ (if (i =? Z.to_nat (neg c1))%nat then [mkWatcher cr c0] else [])))
    /\ length (watches s') = length (watches s)
    /\ (Z.to_nat (neg c0) < length (watches s))%nat
    /\ (Z.to_nat (neg c1) < length (watches s))%nat
    /\ clauses s' = clauses s /\ learnts s' = learnts s /\ ca s' = ca s
    /\ assigns s' = assigns s /\ trail s' = trail s.
Proof.
  intros H. apply attachClause_Ok in H.
  destruct H as (c & c0 & c1 & r & E & L & _ & _ & I0 & I1 & W & H).
  exists c, c0, c1, r. splits; auto; try tauto.
  - intros i l Hi. rewrite W, Hi. reflexivity.
  - apply same_shape_length. intros i. rewrite W.
    destruct (nth_error (watches s) i); split; congruence.
Qed.

(** X11: [attachClause] called for a clause with fewer than two literals
    fails its assertion [c.size() > 1]. *)
Theorem attachClause_short (s : Solver D) (cr : CRef) (c : Clause D) :
  ca_mem (ca s) cr = Some c -> (length (cl_lits c) <= 1)%nat ->
  attachClause s cr = Err AssertionFailed.
Proof.
  intros E L. unfold attachClause, ca_get. rewrite E. simpl.
  destruct (Nat.ltb_spec 1 (length (cl_lits c))); [lia|reflexivity].
Qed.

(** X12: on a well-formed state that has one saved polarity for each
    variable, [newVar] returns the number of variables before the call as
    the new variable; the variable is unassigned and in the order heap, its
    saved polarity is the argument, its two watch lists are empty, the
    values and the saved polarities of the other variables, the trail and
    the clauses are unchanged, and the state is again well formed with one
    saved polarity for each variable. *)
Theorem newVar_fresh (s : Solver D) (sgn : bool) :
  WF s -> length (polarity s) = nVars s ->
  let v := fst (newVar s sgn) in
  let s' := snd (newVar s sgn) in
  v = nVars s /\ nVars s' = S (nVars s)
  /\ WF s' /\ (CUR s -> CUR s') /\ length (polarity s') = nVars s'
  /\ valueVar s' v = Ok l_Undef /\ In v (order_heap s')
  /\ Vec.get (polarity s') v = Ok sgn
  /\ occ_get (watches s') (mkLit v false) = Ok []
  /\ occ_get (watches s') (mkLit v true) = Ok []
  /\ (forall x, (x < nVars s)%nat ->
        valueVar s' x = valueVar s x /\ Vec.get (polarity s') x = Vec.get (polarity s) x)
  /\ trail s' = trail s /\ clauses s' = clauses s /\ ca s' = ca s.
Proof.
  intros Hwf Hpol v s'. subst v s'.
  destruct (WF_newVar s sgn Hwf) as (W & C & _ & N).
  destruct (newVar_fields s sgn) as (F0 & F1 & F2 & F3 & F4 & F5 & F6 & F7 & F8 & F9 & F10 & _).
  pose proof (wf_assigns_len (wf_a Hwf)) as La.
  pose proof (wf_watches_len (wf_w Hwf)) as Lw.
  splits; auto.
  - rewrite F3, N. unfold Vec.push. rewrite length_app, Hpol. simpl. lia.
  - unfold valueVar. rewrite F2, F0. apply get_Ok. unfold Vec.push.
    rewrite nth_error_app2 by lia. rewrite La, Nat.sub_diag. reflexivity.
  - apply F5. right. exact F0.
  - rewrite F3, F0. apply get_Ok. unfold Vec.push.
    rewrite nth_error_app2 by lia. rewrite Hpol, Nat.sub_diag. reflexivity.
  - rewrite F4, F0, (occ_init_newVar _ _ Lw). unfold occ_get, toInt.
    destruct (Z.ltb_spec (mkLit (nVars s) false) 0) as [X|_];
      [pose proof (mkLit_nonneg (nVars s) false); lia|].
    simpl. apply get_Ok. rewrite nth_error_app2 by (unfold mkLit; lia).
    unfold mkLit. replace (Z.to_nat (2 * Z.of_nat (nVars s) + 0) - length (watches s))%nat
      with 0%nat by lia. reflexivity.
  - rewrite F4, F0, (occ_init_newVar _ _ Lw). unfold occ_get, toInt.
    destruct (Z.ltb_spec (mkLit (nVars s) true) 0) as [X|_];
      [pose proof (mkLit_nonneg (nVars s) true); lia|].
    simpl. apply get_Ok. rewrite nth_error_app2 by (unfold mkLit; lia).
    unfold mkLit. replace (Z.to_nat (2 * Z.of_nat (nVars s) + 1) - length (watches s))%nat
      with 1%nat by lia. reflexivity.
  - intros x Hx. split.
    + unfold valueVar. rewrite F2. unfold Vec.get, Vec.push.
      rewrite nth_error_app1 by lia. reflexivity.
    + rewrite F3. unfold Vec.get, Vec.push.
      rewrite nth_error_app1 by lia. reflexivity.
Qed.

Lemma clean_all_false (s : Solver D) : forall qs kept,
  (forall q, In q qs -> value s q = Ok l_False) ->
  clean s lit_Undef qs kept = Ok (false, kept).
Proof.
  induction qs as [|q t IH]; intros kept H; simpl; [reflexivity|].
  rewrite (H q (or_introl eq_refl)). simpl.
  pose proof (value_nonneg _ _ (H q (or_introl eq_refl))) as Q0.
  destruct (Z.eqb_spec q (-1)) as [X|_]; [lia|].
  apply IH. intros x I. apply H. right. exact I.
Qed.

(** X13: [addClause_] on a consistent, well-formed solver returns the flag
    [ok] it leaves.  When this is true the state is well formed again, at
    level 0, and the clause given is accounted for: one of its literals is
    true at level 0, or a stored clause has only literals of it, or it holds
    a literal and its negation.  In every case the literals true at level 0
    stay so and every stored clause stays stored ([ext]). *)
Theorem addClause_accounted (s s' : Solver D) (ps ps' : list Lit) (b : bool) :
  WF s -> CUR s -> ok s = true -> addClause_ s ps = Ok (b, ps', s') ->
  ok s' = b /\ decisionLevel s' = O /\ ext s s'
  /\ (b = true -> WF s' /\ CUR s' /\ accounted s' ps).
Proof.
  intros Hwf Hcur Hok H.
  destruct (addClause_inv s ps b ps' s' Hwf Hcur H) as (A1 & A2 & A3 & _ & A5).
  pose proof (A3 Hok) as E. splits; auto. intros B. apply A5. congruence.
Qed.

(** X14: a clause whose literals are all false at level 0, the empty clause
    among them, makes the solver inconsistent: [addClause_] returns false,
    leaves the vector empty and clears [ok]; every later [solve] returns
    [l_False] at once, whatever the number of rounds allowed. *)
Theorem addClause_false_clause (s : Solver D) (ps : list Lit) :
  ok s = true -> decisionLevel s = O ->
  (forall l, In l ps -> value s l = Ok l_False) ->
  addClause_ s ps = Ok (false, [], set_ok s false)
  /\ forall fuel, exists s2, solve fuel (set_ok s false) = Ok (l_False, s2) /\ model s2 = [].
Proof.
  intros Hok Hlv Hf. split.
  - unfold addClause_. rewrite Hlv, Hok. simpl.
    rewrite addClause_loop_clean by (simpl; lia).
    simpl skipn. simpl firstn. rewrite clean_all_false.
    + simpl. unfold Vec.shrink.
      destruct (Z.leb_spec (Z.of_nat (length (sort ps)) - 0) (Z.of_nat (length (sort ps))));
        [|lia].
      simpl. rewrite Z.sub_0_r, Nat2Z.id, Nat.sub_diag. reflexivity.
    + intros q I. apply Hf. apply sort_In. exact I.
  - intros fuel. eexists. split; [reflexivity|reflexivity].
Qed.

(** X15: [solve] switches both budgets off before it searches, so that a
    budget set before the call has no effect on it. *)
Theorem solve_ignores_budgets (s : Solver D) (fuel : nat) (x y : Z) :
  solve fuel (setPropBudget (setConfBudget s x) y) = solve fuel s.
Proof. reflexivity. Qed.


(** X23: [removeClause(cr)] of a clause that is not an original clause marks
    it as deleted in the arena and counts its words as wasted; no other
    clause changes, the clause lists, the watch lists (the watchers of the
    clause are swept later), the assignment and the trail are the same,
    and the state stays well formed.  When the clause is locked, that is
    the reason of its first literal, this reason is reset to [CRef_Undef]
    and the level is kept; otherwise no reason changes. *)
Theorem removeClause_marks (s s' : Solver D) (cr : CRef) :
  WF s -> ~ In cr (clauses s) -> removeClause s cr = Ok s' ->
  WF s' /\ (CUR s -> CUR s') /\ ext s s'
  /\ exists c,
       ca_mem (ca s) cr = Some c
       /\ ca_mem (ca s') cr = Some (set_cl_mark c 1)
       /\ (forall x, x <> cr -> ca_mem (ca s') x = ca_mem (ca s) x)
       /\ ca_wasted (ca s')
          = ca_wasted (ca s) + clauseWord32Size (length (cl_lits c)) (cl_learnt c)
       /\ watches s' = watches s /\ clauses s' = clauses s /\ learnts s' = learnts s
       /\ assigns s' = assigns s /\ trail s' = trail s
       /\ (locked s cr c = Ok false -> vardata s' = vardata s)
       /\ (locked s cr c = Ok true ->
           exists c0 vd,
             nth_error (cl_lits c) 0 = Some c0
             /\ nth_error (vardata s) (var c0) = Some vd
             /\ vardata s'
                = Vec.upd (vardata s) (var c0) (mkVarData CRef_Undef (vd_level vd))).
Proof.
  intros Hwf Hn H.
  destruct (removeClause_inv s cr s' Hwf Hn H) as (A1 & A2 & A3).
  split; [exact A1|]. split; [exact A2|]. split; [exact A3|].
  pose proof H as H'. apply removeClause_Ok in H'.
  destruct H' as (c & E & E' & O & Sz & F1 & F2 & F3 & F4 & F5 & F6 & F7 & F8 & F9 & F10 & F11).
  destruct (removeClause_reason s cr s' c H E) as (Wa & Lk).
  exists c. splits; auto.
Qed.

(** X24: the garbage collection moves the clauses in use to a new arena and
    leaves a well-formed state: the assignment, the trail, the decision
    levels, [qhead], the order heap and [ok] are the same, and the lists
    [learnts] and [clauses] name, position by position, the same clauses
    as before at their new places. *)
Theorem garbageCollect_moves (s s' : Solver D) :
  WF s -> garbageCollect s = Ok s' ->
  WF s' /\ (CUR s -> CUR s') /\ ext s s'
  /\ assigns s' = assigns s /\ trail s' = trail s /\ trail_lim s' = trail_lim s
  /\ qhead s' = qhead s /\ order_heap s' = order_heap s /\ ok s' = ok s
  /\ nVars s' = nVars s
  /\ Forall2 (fun cr cr' => exists c, ca_mem (ca s) cr = Some c /\ ca_mem (ca s') cr' = Some c)
       (learnts s) (learnts s')
  /\ Forall2 (fun cr cr' => exists c, ca_mem (ca s) cr = Some c /\ ca_mem (ca s') cr' = Some c)
       (clauses s) (clauses s').
Proof. apply garbageCollect_inv. Qed.

(** X25: on a well-formed state [pickBranchLit] changes only the order heap
    and the counter of decisions.  When it returns [lit_Undef] every
    variable has a value; otherwise the literal it returns is unassigned,
    its sign is the saved polarity of its variable, and the heap it leaves
    still holds every other unassigned variable. *)
Theorem pickBranchLit_unassigned (s s' : Solver D) (l : Lit) :
  WF s -> pickBranchLit s = Ok (l, s') ->
  (exists h dcs, s' = set_decisions (set_order_heap s h) dcs)
  /\ (l = lit_Undef ->
      forall x, (x < nVars s)%nat -> exists v, valueVar s x = Ok v /\ v <> l_Undef)
  /\ (l <> lit_Undef ->
      value s l = Ok l_Undef
      /\ Vec.get (polarity s) (var l) = Ok (sign l)
      /\ forall x, valueVar s x = Ok l_Undef -> In x (order_heap s') \/ x = var l).
Proof.
  intros Hwf H.
  destruct (pickBranchLit_spec s l s' H (wf_heap (wf_a Hwf))) as (h & dcs & -> & A & B).
  split; [exists h, dcs; reflexivity|]. split.
  - intros E x Hx. specialize (A E x). unfold valueVar, Vec.get.
    destruct (nth_error (assigns s) x) as [v|] eqn:Ev.
    + exists v. split; [reflexivity|]. intros ->. apply A. reflexivity.
    + apply nth_error_None in Ev. rewrite (wf_assigns_len (wf_a Hwf)) in Ev. lia.
  - intros N. destruct (B N) as (B1 & B2 & B3). splits; auto.
    intros x Hx. apply B3. apply get_Ok. exact Hx.
Qed.

End Properties.

(** ** The properties on the run with a conflict *)

Lemma propagate_total_qhead_witness :
  exists confl s',
    propagate ex_s3 = Ok (confl, s') /\ WF s' /\ qhead s' = length (trail s').
Proof.
  apply (propagate_total_qhead ex_s3).
  - apply ex_s3_WF.
  - apply ex_s3_WF.
  - apply ex_s3_PW.
Defined.

Lemma propagate_no_conflict_fixpoint_witness : unit_closed ex_u4 /\ CUR ex_u4.
Proof.
  apply (propagate_no_conflict_fixpoint ex_u3 ex_u4).
  - apply ex_u3_WF.
  - apply ex_u3_WF.
  - apply ex_u4_eq.
Defined.

Lemma propagate_conflict_falsified_witness :
  exists c, ca_mem (ca (snd ex_s4)) 3 = Some c
            /\ forall l, In l (cl_lits c) -> value (snd ex_s4) l = Ok l_False.
Proof.
  apply (propagate_conflict_falsified ex_s3 (snd ex_s4) 3).
  - apply ex_s3_WF.
  - apply ex_s3_WF.
  - apply ex_s4_eq.
  - discriminate.
Defined.

Lemma propagate_extends_trail_witness :
  (exists added, trail (snd ex_s4) = trail ex_s3 ++ added)
  /\ trail_lim (snd ex_s4) = trail_lim ex_s3 /\ clauses (snd ex_s4) = clauses ex_s3
  /\ learnts (snd ex_s4) = learnts ex_s3
  /\ nVars (snd ex_s4) = nVars ex_s3 /\ ok (snd ex_s4) = ok ex_s3
  /\ forall cr c, ca_mem (ca ex_s3) cr = Some c ->
       exists c', ca_mem (ca (snd ex_s4)) cr = Some c'
                  /\ Permutation (cl_lits c) (cl_lits c').
Proof.
  apply (propagate_extends_trail ex_s3 (snd ex_s4) 3).
  - apply ex_s3_WF.
  - apply ex_s3_WF.
  - apply ex_s4_eq.
Defined.

Lemma propagate_conflict_keeps_watchers_witness :
  qhead (snd ex_cround) = length (trail (snd ex_cround))
  /\ exists p done w rest kept',
       nth_error (trail ex_c5) (qhead ex_c5) = Some p
       /\ nth_error (watches ex_c5) (Z.to_nat p) = Some (done ++ w :: rest)
       /\ cref w = 4
       /\ nth_error (watches (snd ex_cround)) (Z.to_nat p) = Some (kept' ++ rest).
Proof.
  apply (propagate_conflict_keeps_watchers ex_c5 (snd ex_cround) 4).
  - apply ex_c5_WF.
  - apply ex_c5_WF.
  - apply ex_cround_eq.
  - discriminate.
Defined.

Lemma uncheckedEnqueue_assigns_witness :
  value (newDecisionLevel ex_s2) 1 = Ok l_Undef
  /\ value ex_s3 1 = Ok l_True /\ value ex_s3 (neg 1) = Ok l_False
  /\ reason ex_s3 (var 1) = Ok CRef_Undef
  /\ level ex_s3 (var 1) = Ok (decisionLevel (newDecisionLevel ex_s2))
  /\ trail ex_s3 = trail (newDecisionLevel ex_s2) ++ [1]
  /\ trail_lim ex_s3 = trail_lim (newDecisionLevel ex_s2)
  /\ qhead ex_s3 = qhead (newDecisionLevel ex_s2)
  /\ forall l, var l <> var 1 -> value ex_s3 l = value (newDecisionLevel ex_s2) l.
Proof.
  apply (uncheckedEnqueue_assigns (newDecisionLevel ex_s2) ex_s3 1 CRef_Undef).
  apply ex_s3_eq.
Defined.

Lemma uncheckedEnqueue_assigned_witness :
  uncheckedEnqueue ex_s3 1 CRef_Undef = Err AssertionFailed.
Proof.
  apply (uncheckedEnqueue_assigned ex_s3 1 CRef_Undef l_True).
  - vm_compute. reflexivity.
  - discriminate.
Defined.

Lemma cancelUntil_restores_witness :
  WF ex_back /\ CUR ex_back /\ decisionLevel ex_back = 0%nat
  /\ qhead ex_back = length (trail ex_back)
  /\ root ex_back = root ex_s3
  /\ clauses ex_back = clauses ex_s3 /\ learnts ex_back = learnts ex_s3
  /\ ca ex_back = ca ex_s3 /\ watches ex_back = watches ex_s3 /\ ok ex_back = ok ex_s3.
Proof.
  apply (cancelUntil_restores ex_s3 ex_back 0).
  - apply ex_s3_WF.
  - vm_compute. lia.
  - apply ex_back_eq.
Defined.

Lemma analyze_learnt_head_witness :
  (exists p, In p (trail (snd ex_s4)) /\ nth_error [0] 0 = Some (neg p))
  /\ assigns ex_analyzed = assigns (snd ex_s4) /\ trail ex_analyzed = trail (snd ex_s4)
  /\ trail_lim ex_analyzed = trail_lim (snd ex_s4)
  /\ qhead ex_analyzed = qhead (snd ex_s4) /\ watches ex_analyzed = watches (snd ex_s4)
  /\ clauses ex_analyzed = clauses (snd ex_s4) /\ learnts ex_analyzed = learnts (snd ex_s4)
  /\ ok ex_analyzed = ok (snd ex_s4)
  /\ forall cr, option_map (@cl_lits Q) (ca_mem (ca ex_analyzed) cr)
                = option_map (@cl_lits Q) (ca_mem (ca (snd ex_s4)) cr).
Proof.
  apply (analyze_learnt_head (snd ex_s4) ex_analyzed 3 [0] 0%nat 1).
  apply ex_analyzed_eq.
Defined.

Lemma attachClause_watchers_witness :
  exists c c0 c1 r,
    ca_mem (ca ex_alloc) 6 = Some c /\ cl_lits c = c0 :: c1 :: r
    /\ (forall i l, nth_error (watches ex_alloc) i = Some l ->
          nth_error (watches ex_attached) i =
          Some (l ++ (if (i =? Z.to_nat (neg c0))%nat then [mkWatcher 6 c1] else [])
                  ++ (if (i =? Z.to_nat (neg c1))%nat then [mkWatcher 6 c0] else [])))
    /\ length (watches ex_attached) = length (watches ex_alloc)
    /\ (Z.to_nat (neg c0) < length (watches ex_alloc))%nat
    /\ (Z.to_nat (neg c1) < length (watches ex_alloc))%nat
    /\ clauses ex_attached = clauses ex_alloc /\ learnts ex_attached = learnts ex_alloc
    /\ ca ex_attached = ca ex_alloc
    /\ assigns ex_attached = assigns ex_alloc /\ trail ex_attached = trail ex_alloc.
Proof.
  apply (attachClause_watchers ex_alloc ex_attached 6).
  apply ex_attached_eq.
Defined.

Lemma attachClause_short_witness : attachClause ex_short 0 = Err AssertionFailed.
Proof.
  apply (attachClause_short ex_short 0 (mkClause [0] false 0 false (d_of_Z 0) 0)).
  - vm_compute. reflexivity.
  - simpl. lia.
Defined.

Lemma newVar_fresh_witness :
  let v := fst (newVar ex_s2 false) in
  let s' := snd (newVar ex_s2 false) in
  v = nVars ex_s2 /\ nVars s' = S (nVars ex_s2)
  /\ WF s' /\ (CUR ex_s2 -> CUR s') /\ length (polarity s') = nVars s'
  /\ valueVar s' v = Ok l_Undef /\ In v (order_heap s')
  /\ Vec.get (polarity s') v = Ok false
  /\ occ_get (watches s') (mkLit v false) = Ok []
  /\ occ_get (watches s') (mkLit v true) = Ok []
  /\ (forall x, (x < nVars ex_s2)%nat ->
        valueVar s' x = valueVar ex_s2 x
        /\ Vec.get (polarity s') x = Vec.get (polarity ex_s2) x)
  /\ trail s' = trail ex_s2 /\ clauses s' = clauses ex_s2 /\ ca s' = ca ex_s2.
Proof.
  apply (newVar_fresh ex_s2 false).
  - apply ex_s2_WF.
  - apply ex_s2_polarity.
Defined.

Lemma addClause_accounted_witness :
  ok ex_s1 = true /\ decisionLevel ex_s1 = O /\ ext ex_s0 ex_s1
  /\ (true = true -> WF ex_s1 /\ CUR ex_s1 /\ accounted ex_s1 [0; 2]).
Proof.
  apply (addClause_accounted ex_s0 ex_s1 [0; 2] [0; 2] true).
  - apply ex_s0_WF.
  - apply ex_s0_WF.
  - reflexivity.
  - apply ex_s1_eq.
Defined.

Lemma addClause_false_clause_witness :
  addClause_ ex_s5 [1] = Ok (false, [], set_ok ex_s5 false)
  /\ forall fuel, exists s2,
       solve fuel (set_ok ex_s5 false) = Ok (l_False, s2) /\ model s2 = [].
Proof.
  apply (addClause_false_clause ex_s5 [1]).
  - reflexivity.
  - reflexivity.
  - intros l [<-|[]]. vm_compute. reflexivity.
Defined.


Lemma removeClause_marks_witness :
  WF ex_qrem /\ (CUR ex_q4 -> CUR ex_qrem) /\ ext ex_q4 ex_qrem
  /\ exists c,
       ca_mem (ca ex_q4) 4 = Some c
       /\ ca_mem (ca ex_qrem) 4 = Some (set_cl_mark c 1)
       /\ (forall x, x <> 4 -> ca_mem (ca ex_qrem) x = ca_mem (ca ex_q4) x)
       /\ ca_wasted (ca ex_qrem)
          = ca_wasted (ca ex_q4) + clauseWord32Size (length (cl_lits c)) (cl_learnt c)
       /\ watches ex_qrem = watches ex_q4 /\ clauses ex_qrem = clauses ex_q4
       /\ learnts ex_qrem = learnts ex_q4
       /\ assigns ex_qrem = assigns ex_q4 /\ trail ex_qrem = trail ex_q4
       /\ (locked ex_q4 4 c = Ok false -> vardata ex_qrem = vardata ex_q4)
       /\ (locked ex_q4 4 c = Ok true ->
           exists c0 vd,
             nth_error (cl_lits c) 0 = Some c0
             /\ nth_error (vardata ex_q4) (var c0) = Some vd
             /\ vardata ex_qrem
                = Vec.upd (vardata ex_q4) (var c0) (mkVarData CRef_Undef (vd_level vd))).
Proof.
  apply (removeClause_marks ex_q4 ex_qrem 4).
  - apply ex_q4_WF.
  - rewrite ex_q4_clauses. intros [X|[]]. discriminate.
  - apply ex_qrem_eq.
Defined.

Lemma garbageCollect_moves_witness :
  WF ex_qgc /\ (CUR ex_q4 -> CUR ex_qgc) /\ ext ex_q4 ex_qgc
  /\ assigns ex_qgc = assigns ex_q4 /\ trail ex_qgc = trail ex_q4
  /\ trail_lim ex_qgc = trail_lim ex_q4
  /\ qhead ex_qgc = qhead ex_q4 /\ order_heap ex_qgc = order_heap ex_q4
  /\ ok ex_qgc = ok ex_q4
  /\ nVars ex_qgc = nVars ex_q4
  /\ Forall2 (fun cr cr' => exists c, ca_mem (ca ex_q4) cr = Some c
                                      /\ ca_mem (ca ex_qgc) cr' = Some c)
       (learnts ex_q4) (learnts ex_qgc)
  /\ Forall2 (fun cr cr' => exists c, ca_mem (ca ex_q4) cr = Some c
                                      /\ ca_mem (ca ex_qgc) cr' = Some c)
       (clauses ex_q4) (clauses ex_qgc).
Proof.
  apply (garbageCollect_moves ex_q4 ex_qgc).
  - apply ex_q4_WF.
  - apply ex_qgc_eq.
Defined.

Lemma pickBranchLit_unassigned_witness :
  (exists h dcs, snd ex_picked = set_decisions (set_order_heap ex_s2 h) dcs)
  /\ (1 = lit_Undef ->
      forall x, (x < nVars ex_s2)%nat -> exists v, valueVar ex_s2 x = Ok v /\ v <> l_Undef)
  /\ (1 <> lit_Undef ->
      value ex_s2 1 = Ok l_Undef
      /\ Vec.get (polarity ex_s2) (var 1) = Ok (sign 1)
      /\ forall x, valueVar ex_s2 x = Ok l_Undef ->
           In x (order_heap (snd ex_picked)) \/ x = var 1).
Proof.
  apply (pickBranchLit_unassigned ex_s2 (snd ex_picked) 1).
  - apply ex_s2_WF.
  - apply ex_picked_lit.
Defined.

(** * The containers of mtl and the Luby sequence *)

(** X17: [vec::capacity(min_cap)] above an even capacity [cap] adds the
    larger of [min_cap - cap], made even upwards, and of [cap/2 + 2], made
    even downwards, and throws when this leads beyond [INT_MAX]; a capacity
    it returns is even, at least [min_cap], and more than one and a half
    times the one before. *)
Theorem vec_capacity_grows (cap min_cap : Z) :
  0 <= cap <= INT_MAX -> Z.even cap = true -> cap < min_cap -> min_cap - cap < INT_MAX ->
  IntVec.capacity cap min_cap
  = (let add := Z.max (2 * ((min_cap - cap + 1) / 2)) (2 * ((cap / 2 + 2) / 2)) in
     if INT_MAX - cap <? add then Err OutOfMemory else Ok (cap + add))
  /\ forall cap', IntVec.capacity cap min_cap = Ok cap' ->
       min_cap <= cap' <= INT_MAX /\ Z.even cap' = true /\ cap + cap / 2 < cap'.
Proof.
  intros Hc He Hm Hd. split.
  - apply capacity_add; assumption.
  - intros cap' H. apply (capacity_Ok cap min_cap cap'); assumption.
Qed.

(** X18: on a vector whose size is within its capacity and whose capacity is
    an even [int], [push] either throws for lack of memory or appends the
    element; the size grows by one without wrapping (the expression [sz+1]
    does not overflow), the capacity does not shrink, and the vector is
    again within an even capacity. *)
Theorem vec_push_appends {T : Type} (v : IntVec.vec T) (x : T) :
  IntVec.inv v ->
  IntVec.push v x = Err OutOfMemory
  \/ exists v', IntVec.push v x = Ok v' /\ IntVec.inv v'
                /\ IntVec.data v' = IntVec.data v ++ [x]
                /\ IntVec.size v' = IntVec.size v + 1
                /\ IntVec.cap v <= IntVec.cap v'.
Proof. apply push_cases. Qed.

(** X19: the queue is first in, first out at [insert]: on a queue whose
    indices are in order and whose buffer can grow, [insert] returns, the
    elements of the queue are the former ones followed by the new one, also
    when the buffer is resized, and the indices are in order again. *)
Theorem queue_insert_appends {T : Type} (dflt : T) (q : @Queue.t T) (x : T) :
  Queue.inv q -> 3 * Queue.len (Queue.buf q) + 1 <= INT_MAX ->
  exists q', Queue.insert dflt q x = Ok q' /\ Queue.inv q'
             /\ Queue.contents q' = Queue.contents q ++ [x].
Proof. apply insert_contents. Qed.

(** X20: on an empty queue [peek] and [pop] fail their assertion; on another
    one [peek] returns the oldest element and [pop] removes it, leaving the
    other elements in their order. *)
Theorem queue_peek_pop_oldest {T : Type} (q : @Queue.t T) :
  Queue.inv q ->
  match Queue.contents q with
  | [] => Queue.peek q = Err AssertionFailed /\ Queue.pop q = Err AssertionFailed
  | x :: rest =>
      Queue.peek q = Ok x
      /\ exists q', Queue.pop q = Ok q' /\ Queue.inv q' /\ Queue.contents q' = rest
                    /\ Queue.buf q' = Queue.buf q /\ Queue.end_ q' = Queue.end_ q
  end.
Proof. apply peek_pop. Qed.

(** X21: [size()] is the number of elements of the queue, and [q[i]] is its
    element number [i], counted from the oldest, for every index below the
    size, as long as the sum [first + i] is an [int]. *)
Theorem queue_size_index {T : Type} (q : @Queue.t T) :
  Queue.inv q ->
  Queue.size q = Z.of_nat (length (Queue.contents q))
  /\ forall i, 0 <= i < Queue.size q -> Queue.first q + i <= INT_MAX ->
       exists x, nth_error (Queue.contents q) (Z.to_nat i) = Some x /\ Queue.get q i = Ok x.
Proof.
  intros H. split; [apply size_contents; exact H|]. intros i. apply get_contents. exact H.
Qed.

(** X22: for every index [0 <= x < INT_MAX], [luby(y, x)] returns, within
    31 rounds of each of its loops, the element of the Luby sequence: with
    [k <= 30] the number of the finite subsequence that ends at [x] or
    after it, [2^k - 1 <= x <= 2^(k+1) - 2], it returns [pow(y, k)] at the
    last index [2^(k+1) - 2] of this subsequence, and at an index before
    it what it returns at [x - (2^k - 1)], which is [pow(y, e)] for some
    [e < k]. *)
Theorem luby_recurrence {D : Type} (pow : D -> Z -> D) (y : D) (fuel : nat) (x : Z) :
  (31 <= fuel)%nat -> 0 <= x < INT_MAX ->
  exists k : nat,
    (k <= 30)%nat /\ 2 ^ Z.of_nat k - 1 <= x <= 2 ^ (Z.of_nat k + 1) - 2
    /\ (x = 2 ^ (Z.of_nat k + 1) - 2 -> luby pow fuel y x = Ok (pow y (Z.of_nat k)))
    /\ (x < 2 ^ (Z.of_nat k + 1) - 2 ->
        luby pow fuel y x = luby pow fuel y (x - (2 ^ Z.of_nat k - 1))
        /\ exists e, 0 <= e < Z.of_nat k /\ luby pow fuel y x = Ok (pow y e)).
Proof.
  assert (IM : INT_MAX = 2147483647) by reflexivity.
  intros Hf Hx.
  destruct (luby_size_run x Hx 30%nat O fuel) as (j & Hj & E & U & Lw); try lia; auto.
  change (luby_sz 0) with 1 in E. change (Z.of_nat 0) with 0 in E.
  assert (Sj : luby_sz j = 2 ^ (Z.of_nat j + 1) - 1) by reflexivity.
  assert (Lo : 2 ^ Z.of_nat j - 1 <= x).
  { destruct (Nat.eq_dec j 0) as [->|NZ]; [simpl; lia|].
    destruct Lw as [->|Lw]; [simpl; lia|].
    unfold luby_sz in Lw. replace (Z.of_nat (j - 1) + 1) with (Z.of_nat j) in Lw by lia. lia. }
  exists j. split; [lia|]. split; [lia|]. split.
  - intros Ex. unfold luby. rewrite E. cbn [bind].
    rewrite luby_seq_stop; [reflexivity|].
    pose proof (sz_bound j) as B. pose proof (sz_pos j) as P. rewrite wrap32_id; lia.
  - intros Lt.
    assert (J1 : (1 <= j)%nat).
    { destruct j; [simpl in *; lia|lia]. }
    apply (luby_levels pow y fuel j); [exact Hf|lia|lia].
Qed.

Lemma vec_capacity_grows_witness :
  IntVec.capacity 4 5
  = (let add := Z.max (2 * ((5 - 4 + 1) / 2)) (2 * ((4 / 2 + 2) / 2)) in
     if INT_MAX - 4 <? add then Err OutOfMemory else Ok (4 + add))
  /\ forall cap', IntVec.capacity 4 5 = Ok cap' ->
       5 <= cap' <= INT_MAX /\ Z.even cap' = true /\ 4 + 4 / 2 < cap'.
Proof.
  apply (vec_capacity_grows 4 5).
  - unfold INT_MAX. lia.
  - reflexivity.
  - lia.
  - unfold INT_MAX. lia.
Defined.

Lemma vec_push_appends_witness :
  IntVec.push (IntVec.mkVec [7; 8] 2) 9 = Err OutOfMemory
  \/ exists v', IntVec.push (IntVec.mkVec [7; 8] 2) 9 = Ok v' /\ IntVec.inv v'
                /\ IntVec.data v' = IntVec.data (IntVec.mkVec [7; 8] 2) ++ [9]
                /\ IntVec.size v' = IntVec.size (IntVec.mkVec [7; 8] 2) + 1
                /\ IntVec.cap (IntVec.mkVec [7; 8] 2) <= IntVec.cap v'.
Proof.
  apply (vec_push_appends (IntVec.mkVec [7; 8] 2) 9).
  unfold IntVec.inv, IntVec.size, INT_MAX. simpl. repeat split; lia.
Defined.

Lemma queue_insert_appends_witness :
  exists q', Queue.insert 0 (Queue.mk [5; 6; 0] 0 2) 7 = Ok q' /\ Queue.inv q'
             /\ Queue.contents q' = Queue.contents (Queue.mk [5; 6; 0] 0 2) ++ [7].
Proof.
  apply (queue_insert_appends 0 (Queue.mk [5; 6; 0] 0 2) 7).
  - unfold Queue.inv, Queue.len, INT_MAX. simpl. repeat split; lia.
  - unfold Queue.len, INT_MAX. simpl. lia.
Defined.

Lemma queue_peek_pop_oldest_witness :
  match Queue.contents (Queue.mk [5; 6; 0] 0 2) with
  | [] => Queue.peek (Queue.mk [5; 6; 0] 0 2) = Err AssertionFailed
          /\ Queue.pop (Queue.mk [5; 6; 0] 0 2) = Err AssertionFailed
  | x :: rest =>
      Queue.peek (Queue.mk [5; 6; 0] 0 2) = Ok x
      /\ exists q', Queue.pop (Queue.mk [5; 6; 0] 0 2) = Ok q' /\ Queue.inv q'
                    /\ Queue.contents q' = rest
                    /\ Queue.buf q' = Queue.buf (Queue.mk [5; 6; 0] 0 2)
                    /\ Queue.end_ q' = Queue.end_ (Queue.mk [5; 6; 0] 0 2)
  end.
Proof.
  apply (queue_peek_pop_oldest (Queue.mk [5; 6; 0] 0 2)).
  unfold Queue.inv, Queue.len, INT_MAX. simpl. repeat split; lia.
Defined.

Lemma queue_size_index_witness :
  Queue.size (Queue.mk [5; 6; 0] 0 2)
  = Z.of_nat (length (Queue.contents (Queue.mk [5; 6; 0] 0 2)))
  /\ forall i, 0 <= i < Queue.size (Queue.mk [5; 6; 0] 0 2) ->
       Queue.first (Queue.mk [5; 6; 0] 0 2) + i <= INT_MAX ->
       exists x, nth_error (Queue.contents (Queue.mk [5; 6; 0] 0 2)) (Z.to_nat i) = Some x
                 /\ Queue.get (Queue.mk [5; 6; 0] 0 2) i = Ok x.
Proof.
  apply (queue_size_index (Queue.mk [5; 6; 0] 0 2)).
  unfold Queue.inv, Queue.len, INT_MAX. simpl. repeat split; lia.
Defined.

Lemma luby_recurrence_witness :
  exists k : nat,
    (k <= 30)%nat /\ 2 ^ Z.of_nat k - 1 <= 4 <= 2 ^ (Z.of_nat k + 1) - 2
    /\ (4 = 2 ^ (Z.of_nat k + 1) - 2 -> luby Z.pow 31 2 4 = Ok (2 ^ Z.of_nat k))
    /\ (4 < 2 ^ (Z.of_nat k + 1) - 2 ->
        luby Z.pow 31 2 4 = luby Z.pow 31 2 (4 - (2 ^ Z.of_nat k - 1))
        /\ exists e, 0 <= e < Z.of_nat k /\ luby Z.pow 31 2 4 = Ok (2 ^ e)).
Proof.
  apply (luby_recurrence Z.pow 2 31 4).
  - lia.
  - unfold INT_MAX. lia.
Defined.
